(** * Priority-SRTF non-preemptive process scheduler

    A shallow embedding of [process_scheduler.c] and the properties of
    its scheduling engine.

    Representation.
    - C [int] values are integers of [Z]; the arithmetic below is the C
      arithmetic on the range where no signed overflow occurs (overflow
      of a signed [int] is undefined in C).  [/] and [%] are the
      truncating [Z.quot] and [Z.rem].
    - [all_processes] is the array of process control blocks; a
      [Process *] is the index of the block in that array, so that every
      alias of a block (array slot, queue cell, running slot) names one
      shared record.
    - A [Queue] is the sequence of the blocks linked through [next] from
      [head]; [size] is its length and [tail] its last cell.
    - [printf] output is the sequence of the lines written, one
      constructor per format string. *)

From Stdlib Require Import ZArith Lia List Ascii String.
From stdpp Require Import base tactics option list relations sorting.

Local Open Scope Z_scope.

(** ** Data structures *)

Inductive ProcessState : Set :=
| STATE_NEW
| STATE_READY
| STATE_RUNNING
| STATE_WAITING
| STATE_TERMINATED.

Global Instance ProcessState_eq_dec : EqDecision ProcessState.
Proof. solve_decision. Defined.

Record Process : Set := mkProcess {
  pid : Z;
  arrival_time : Z;
  cpu_execution_time : Z;
  remaining_time : Z;
  interval_time : Z;
  io_time : Z;
  priority : Z;
  original_priority : Z;
  state : ProcessState;
  time_in_ready_queue : Z;
  io_completion_time : Z;
  has_arrived : bool
}.

Global Instance Process_inhabited : Inhabited Process :=
  populate (mkProcess 0 0 0 0 0 0 0 0 STATE_NEW 0 0 false).

(** Field assignments [p->f = v]. *)
Definition set_remaining_time (v : Z) (p : Process) : Process :=
  mkProcess (pid p) (arrival_time p) (cpu_execution_time p) v
    (interval_time p) (io_time p) (priority p) (original_priority p)
    (state p) (time_in_ready_queue p) (io_completion_time p) (has_arrived p).

Definition set_priority (v : Z) (p : Process) : Process :=
  mkProcess (pid p) (arrival_time p) (cpu_execution_time p) (remaining_time p)
    (interval_time p) (io_time p) v (original_priority p)
    (state p) (time_in_ready_queue p) (io_completion_time p) (has_arrived p).

Definition set_state (v : ProcessState) (p : Process) : Process :=
  mkProcess (pid p) (arrival_time p) (cpu_execution_time p) (remaining_time p)
    (interval_time p) (io_time p) (priority p) (original_priority p)
    v (time_in_ready_queue p) (io_completion_time p) (has_arrived p).

Definition set_time_in_ready_queue (v : Z) (p : Process) : Process :=
  mkProcess (pid p) (arrival_time p) (cpu_execution_time p) (remaining_time p)
    (interval_time p) (io_time p) (priority p) (original_priority p)
    (state p) v (io_completion_time p) (has_arrived p).

Definition set_io_completion_time (v : Z) (p : Process) : Process :=
  mkProcess (pid p) (arrival_time p) (cpu_execution_time p) (remaining_time p)
    (interval_time p) (io_time p) (priority p) (original_priority p)
    (state p) (time_in_ready_queue p) v (has_arrived p).

Definition set_has_arrived (v : bool) (p : Process) : Process :=
  mkProcess (pid p) (arrival_time p) (cpu_execution_time p) (remaining_time p)
    (interval_time p) (io_time p) (priority p) (original_priority p)
    (state p) (time_in_ready_queue p) (io_completion_time p) v.

(** The process table and a queue of pointers into it. *)
Abbreviation Procs := (list Process).
Abbreviation Queue := (list nat).

(** Lines of the event log. *)
Inductive Event : Set :=
| EvArrived (clock pid : Z)
| EvMovedToReady (clock pid : Z)
| EvDispatched (clock pid pr rm burst : Z)
| EvBlockedForIO (clock pid io : Z)
| EvIOFinished (clock pid : Z)
| EvTerminated (clock pid : Z).

(** ** Queue operations *)

Definition init_queue : Queue := [].

Definition is_empty (q : Queue) : bool := (Z.of_nat (length q) =? 0).

Definition enqueue (q : Queue) (p : nat) : Queue := q ++ [p].

Definition dequeue (q : Queue) : option nat * Queue :=
  match q with
  | [] => (None, [])
  | p :: rest => (Some p, rest)
  end.

(** The comparison made in the loop of [insert_ready_queue]. *)
Definition should_insert (p current : Process) : bool :=
  if priority p <? priority current then true
  else if (priority p =? priority current)
          && (remaining_time p <? remaining_time current) then true
  else false.

(** The walk of [insert_ready_queue] from [current] to the cell before
    which [p] is linked. *)
Fixpoint insert_position (ps : Procs) (p : nat) (q : Queue) : Queue :=
  match q with
  | [] => [p]
  | current :: rest =>
      if should_insert (ps !!! p) (ps !!! current) then p :: current :: rest
      else current :: insert_position ps p rest
  end.

Definition insert_ready_queue (ps : Procs) (q : Queue) (p : nat)
  : Procs * Queue :=
  let ps := alter (set_time_in_ready_queue 0) p ps in
  match q with
  | [] => (ps, [p])
  | _ => (ps, insert_position ps p q)
  end.

(** The walk of [remove_from_queue] from [current]: the first cell that
    is [p] is unlinked. *)
Fixpoint remove_walk (p : nat) (q : Queue) : Queue :=
  match q with
  | [] => []
  | current :: rest =>
      if bool_decide (current = p) then rest
      else current :: remove_walk p rest
  end.

Definition remove_from_queue (q : Queue) (p : nat) : Queue :=
  if is_empty q then q else remove_walk p q.

(** ** Aging *)

(** The body of the loop of [update_aging] on one block. *)
Definition age (elapsed_ms : Z) (p : Process) : Process :=
  let p := set_time_in_ready_queue (time_in_ready_queue p + elapsed_ms) p in
  if 100 <=? time_in_ready_queue p then
    let aging_steps := Z.quot (time_in_ready_queue p) 100 in
    let p := set_time_in_ready_queue (Z.rem (time_in_ready_queue p) 100) p in
    if 0 <? priority p then
      let p := set_priority (priority p - aging_steps) p in
      if priority p <? 0 then set_priority 0 p else p
    else p
  else p.

Definition update_aging (elapsed_ms : Z) (ps : Procs) (ready : Queue) : Procs :=
  foldl (fun ps current => alter (age elapsed_ms) current ps) ps ready.

Definition resort_ready_queue (ps : Procs) (ready : Queue) : Procs * Queue :=
  if Z.of_nat (length ready) <=? 1 then (ps, ready)
  else
    let processes := ready in
    foldl (fun '(ps, q) p => insert_ready_queue ps q p) (ps, []) processes.

(** The first loop of [resort_ready_queue]: [processes] is the part
    [processes[0..count)] of the array; [fuel] bounds the iterations. *)
Fixpoint collect (fuel : nat) (q : Queue) (processes : list nat)
  : list nat * Queue :=
  match fuel with
  | O => (processes, q)
  | S fuel =>
      if negb (is_empty q) then
        match dequeue q with
        | (Some p, q) => collect fuel q (processes ++ [p])
        | (None, q) => (processes, q)
        end
      else (processes, q)
  end.

(** ** Shared state

    The globals of the program, the locals of [run_scheduler] that live
    across iterations of its loop ([running_process], [running_until],
    [last_aging_check]) and the lines printed so far. *)

Record State : Set := mkState {
  all_processes : Procs;
  current_clock : Z;
  all_terminated : bool;
  ready_queue : Queue;
  waiting_queue : Queue;
  running_process : option nat;
  running_until : Z;
  last_aging_check : Z;
  output : list Event
}.

(** ** I/O manager thread *)

(** The inner loop of [io_manager_thread] from the cell [current] on:
    returns the table, the ready queue, the cells left in the waiting
    queue and the output. *)
Fixpoint io_scan (clock : Z) (waiting : Queue)
    (ps : Procs) (ready : Queue) (out : list Event)
  : Procs * Queue * Queue * list Event :=
  match waiting with
  | [] => (ps, ready, [], out)
  | current :: rest =>
      if io_completion_time (ps !!! current) <=? clock then
        let completed := current in
        let ps := alter (set_state STATE_READY) completed ps in
        let out := out ++ [EvIOFinished clock (pid (ps !!! completed))] in
        let '(ps, ready) := insert_ready_queue ps ready completed in
        let out := out ++ [EvMovedToReady clock (pid (ps !!! completed))] in
        io_scan clock rest ps ready out
      else
        let '(ps, ready, kept, out) := io_scan clock rest ps ready out in
        (ps, ready, current :: kept, out)
  end.

(** One iteration of the outer loop of [io_manager_thread] whose read of
    [current_clock] returned [clock]; the scan runs under [queue_mutex]. *)
Definition io_manager_pass (clock : Z) (s : State) : State :=
  let '(ps, ready, waiting, out) :=
    io_scan clock (waiting_queue s) (all_processes s) (ready_queue s) (output s) in
  mkState ps (current_clock s) (all_terminated s) ready waiting
    (running_process s) (running_until s) (last_aging_check s) out.

(** ** Scheduler *)

(** Body of the arrival loop of [run_scheduler] at index [i]. *)
Definition arrival_step (clock : Z) (acc : Procs * Queue * list Event) (i : nat)
  : Procs * Queue * list Event :=
  let '(ps, ready, out) := acc in
  if negb (has_arrived (ps !!! i)) && (arrival_time (ps !!! i) <=? clock) then
    let ps := alter (set_has_arrived true) i ps in
    let out := out ++ [EvArrived clock (pid (ps !!! i))] in
    let ps := alter (set_state STATE_READY) i ps in
    let '(ps, ready) := insert_ready_queue ps ready i in
    let out := out ++ [EvMovedToReady clock (pid (ps !!! i))] in
    (ps, ready, out)
  else (ps, ready, out).

Definition check_arrivals (s : State) : State :=
  let clock := current_clock s in
  let total_processes := length (all_processes s) in
  let '(ps, ready, out) :=
    foldl (arrival_step clock) (all_processes s, ready_queue s, output s)
          (seq 0 total_processes) in
  mkState ps clock (all_terminated s) ready (waiting_queue s)
    (running_process s) (running_until s) (last_aging_check s) out.

Definition aging_check (s : State) : State :=
  let clock := current_clock s in
  if last_aging_check s <? clock then
    let elapsed := clock - last_aging_check s in
    let ps := update_aging elapsed (all_processes s) (ready_queue s) in
    let '(ps, ready) := resort_ready_queue ps (ready_queue s) in
    mkState ps clock (all_terminated s) ready (waiting_queue s)
      (running_process s) (running_until s) clock (output s)
  else s.

(** The burst length that burst resolution subtracts. *)
Definition resolved_burst_time (clock running_until : Z) (p : Process) : Z :=
  let burst_time := clock - (running_until - interval_time p) in
  if remaining_time p <? burst_time then remaining_time p else burst_time.

Definition burst_resolution (s : State) : State :=
  let clock := current_clock s in
  match running_process s with
  | Some r =>
      if running_until s <=? clock then
        let ps := all_processes s in
        let burst_time := resolved_burst_time clock (running_until s) (ps !!! r) in
        let ps :=
          alter (fun p => set_remaining_time (remaining_time p - burst_time) p) r ps in
        if remaining_time (ps !!! r) <=? 0 then
          let ps := alter (set_state STATE_TERMINATED) r ps in
          let out := output s ++ [EvTerminated clock (pid (ps !!! r))] in
          mkState ps clock (all_terminated s) (ready_queue s) (waiting_queue s)
            None (running_until s) (last_aging_check s) out
        else
          let ps := alter (set_state STATE_WAITING) r ps in
          let ps :=
            alter (fun p => set_io_completion_time (clock + io_time p) p) r ps in
          let out :=
            output s ++ [EvBlockedForIO clock (pid (ps !!! r)) (io_time (ps !!! r))] in
          mkState ps clock (all_terminated s) (ready_queue s)
            (enqueue (waiting_queue s) r)
            None (running_until s) (last_aging_check s) out
      else s
  | None => s
  end.

(** The burst length computed at dispatch. *)
Definition dispatch_burst_time (p : Process) : Z :=
  let burst_time := interval_time p in
  if remaining_time p <? burst_time then remaining_time p else burst_time.

Definition dispatch (s : State) : State :=
  let clock := current_clock s in
  match running_process s with
  | None =>
      if negb (is_empty (ready_queue s)) then
        match dequeue (ready_queue s) with
        | (Some r, ready) =>
            let ps := alter (set_state STATE_RUNNING) r (all_processes s) in
            let burst_time := dispatch_burst_time (ps !!! r) in
            let out :=
              output s ++ [EvDispatched clock (pid (ps !!! r)) (priority (ps !!! r))
                             (remaining_time (ps !!! r)) burst_time] in
            mkState ps clock (all_terminated s) ready (waiting_queue s)
              (Some r) (clock + burst_time) (last_aging_check s) out
        | (None, _) => s
        end
      else s
  | Some _ => s
  end.

Definition all_done (ps : Procs) : bool :=
  forallb (fun p => bool_decide (state p = STATE_TERMINATED)) ps.

Definition completion_check (s : State) : State :=
  if all_done (all_processes s) && bool_decide (running_process s = None) then
    mkState (all_processes s) (current_clock s) true (ready_queue s)
      (waiting_queue s) (running_process s) (running_until s)
      (last_aging_check s) (output s)
  else s.

Definition advance_clock (s : State) : State :=
  mkState (all_processes s) (current_clock s + 1) (all_terminated s)
    (ready_queue s) (waiting_queue s) (running_process s) (running_until s)
    (last_aging_check s) (output s).

(** One iteration of the loop of [run_scheduler].  The loop is left by
    [break] in the iteration that raises [all_terminated], so a state with
    the flag raised is a state in which the scheduler takes no further
    iteration. *)
Definition scheduler_tick (s : State) : State :=
  if all_terminated s then s
  else
    completion_check (dispatch (burst_resolution (aging_check
      (check_arrivals (advance_clock s))))).

(** The state in which [main] starts the two threads. *)
Definition initial_state (ps : Procs) : State :=
  mkState ps 0 false [] [] None 0 0 [].

(** The table that [parse_input_file] builds from the six fields of
    each input line. *)
Definition Fields : Set := Z * Z * Z * Z * Z * Z.

Definition init_process (f : Fields) : Process :=
  let '(pid, arrival, cpu_time, interval, io, priority) := f in
  mkProcess pid arrival cpu_time cpu_time interval io priority priority
    STATE_NEW 0 0 false.

Definition load (input : list Fields) : Procs := init_process <$> input.

(** ** Executions

    The two threads exclude each other on [queue_mutex]: an execution is
    an interleaving of whole iterations of [run_scheduler] and whole
    passes of [io_manager_thread].  The manager reads the clock before it
    takes the queue lock and the scheduler advances the clock before it
    takes the queue lock, so a pass may see any clock value up to one
    past the clock of the last completed scheduler iteration. *)

Inductive step : relation State :=
| step_scheduler (s : State) :
    step s (scheduler_tick s)
| step_io_manager (s : State) (clock : Z) :
    0 <= clock <= current_clock s + 1 -> step s (io_manager_pass clock s).

Definition reachable (input : list Fields) (s : State) : Prop :=
  rtc step (initial_state (load input)) s.

(** Executions as schedules: the order in which the threads take the
    queue lock, with the clock value each manager pass has read. *)
Inductive Action : Set :=
| Scheduler
| IoManager (clock : Z).

Definition perform (a : Action) (s : State) : State :=
  match a with
  | Scheduler => scheduler_tick s
  | IoManager clock => io_manager_pass clock s
  end.

Definition execute (schedule : list Action) (s : State) : State :=
  foldl (fun s a => perform a s) s schedule.

(** Milliseconds that record [i] spends in the running slot along a
    schedule: the scheduler iterations that end with [i] running. *)
Fixpoint running_time (i : nat) (schedule : list Action) (s : State) : Z :=
  match schedule with
  | [] => 0
  | a :: rest =>
      let s' := perform a s in
      (match a with
       | Scheduler =>
           if bool_decide (all_terminated s = false
                           /\ running_process s' = Some i) then 1 else 0
       | IoManager _ => 0
       end) + running_time i rest s'
  end.

(** The schedule in which each thread wakes once per millisecond, the
    manager after the scheduler. *)
Definition round (s : State) : State :=
  let s := scheduler_tick s in
  io_manager_pass (current_clock s) s.

Fixpoint run_lockstep (fuel : nat) (s : State) : option State :=
  match fuel with
  | O => None
  | S fuel =>
      let s := round s in
      if all_terminated s then Some s else run_lockstep fuel s
  end.

(** ** Input parsing *)

Inductive ExitStatus : Set := EXIT_SUCCESS | EXIT_FAILURE.

(** What a run of the program leaves behind: its exit status, the final
    value of [current_clock] and the lines on standard output;
    [OutOfFuel] when the simulation needs more rounds than given. *)
Inductive Outcome : Set :=
| Exit (status : ExitStatus) (clock : Z) (out : list Event)
| OutOfFuel.

Section Parsing.

(** [sscanf_6d line] is [Some] of the six values stored when
    [sscanf(line, "%d %d %d %d %d %d", ...)] returns 6, and [None] when
    it returns anything else. *)
Variable sscanf_6d : string -> option Fields.

Definition strlen (line : string) : Z := Z.of_nat (String.length line).

(** First pass: the number of lines longer than one character. *)
Fixpoint count_processes (lines : list string) : nat :=
  match lines with
  | [] => O
  | line :: rest =>
      if 1 <? strlen line then S (count_processes rest)
      else count_processes rest
  end.

(** Second pass: [filled] is the prefix [all_processes[0..idx)]. *)
Fixpoint read_processes (total_processes : nat) (lines : list string)
    (filled : Procs) : option Procs :=
  match lines with
  | [] => Some filled
  | line :: rest =>
      if bool_decide (length filled < total_processes)%nat then
        if strlen line <=? 1 then read_processes total_processes rest filled
        else
          match sscanf_6d line with
          | Some f =>
              read_processes total_processes rest (filled ++ [init_process f])
          | None => None
          end
      else Some filled
  end.

(** [file] is [None] when [fopen] fails and otherwise the buffers that
    the successive calls of [fgets] return; the result is [None] when
    the function returns -1 and the loaded table when it returns 0. *)
Definition parse_input_file (file : option (list string)) : option Procs :=
  match file with
  | None => None
  | Some lines =>
      let total_processes := count_processes lines in
      if bool_decide (total_processes = O) then None
      else read_processes total_processes lines []
  end.

(** [main], with the threads run in lockstep; [thread_created] tells
    whether [pthread_create] succeeds. *)
Definition main (argc : Z) (file : option (list string))
    (thread_created : bool) (fuel : nat) : Outcome :=
  if negb (argc =? 2) then Exit EXIT_FAILURE 0 []
  else
    match parse_input_file file with
    | None => Exit EXIT_FAILURE 0 []
    | Some ps =>
        if negb thread_created then Exit EXIT_FAILURE 0 []
        else
          match run_lockstep fuel (initial_state ps) with
          | Some s => Exit EXIT_SUCCESS (current_clock s) (output s)
          | None => OutOfFuel
          end
    end.

End Parsing.

(** *** The conversions of [sscanf]

    A model of the C library on the format ["%d %d %d %d %d %d"]: each
    [%d] skips white space, reads an optional sign and a non-empty run of
    decimal digits. *)

Definition isspace (c : ascii) : bool :=
  match nat_of_ascii c with
  | 32%nat | 9%nat | 10%nat | 11%nat | 12%nat | 13%nat => true
  | _ => false
  end.

Definition digit_of (c : ascii) : option Z :=
  let n := Z.of_nat (nat_of_ascii c) in
  if (48 <=? n) && (n <=? 57) then Some (n - 48) else None.

Fixpoint skip_spaces (s : string) : string :=
  match s with
  | String c rest => if isspace c then skip_spaces rest else s
  | EmptyString => s
  end.

Fixpoint scan_digits (s : string) (acc : option Z) : option Z * string :=
  match s with
  | String c rest =>
      match digit_of c with
      | Some d => scan_digits rest (Some (10 * default 0 acc + d))
      | None => (acc, s)
      end
  | EmptyString => (acc, s)
  end.

Definition scan_d (s : string) : option (Z * string) :=
  let s := skip_spaces s in
  let '(negative, s) :=
    match s with
    | String "-" rest => (true, rest)
    | String "+" rest => (false, rest)
    | _ => (false, s)
    end in
  match scan_digits s None with
  | (Some v, rest) => Some (if negative then - v else v, rest)
  | (None, _) => None
  end.

Definition sscanf_6d (line : string) : option Fields :=
  '(a, s) ← scan_d line;
  '(b, s) ← scan_d s;
  '(c, s) ← scan_d s;
  '(d, s) ← scan_d s;
  '(e, s) ← scan_d s;
  '(f, _) ← scan_d s;
  Some (a, b, c, d, e, f).

(** * Vocabulary of the properties

    The predicates, measures and example inputs that the statements
    below are written in. *)

(** [ps'] is [ps] with every block [i] replaced by [G i] of it. *)
Definition transforms (G : nat -> Process -> Process) (ps ps' : Procs) : Prop :=
  forall i : nat, ps' !! i = G i <$> ps !! i.

(** [a] may stand before [b]: [b] is not strictly ahead of [a]. *)
Definition not_after (ps : Procs) (a b : nat) : Prop :=
  should_insert (ps !!! b) (ps !!! a) = false.

(** The queue is in Priority-SRTF order: no cell is strictly ahead of a
    cell that stands before it. *)
Definition ordered (ps : Procs) (q : Queue) : Prop :=
  StronglySorted (not_after ps) q.

(** Two tables with the same sort keys. *)
Definition same_keys (ps ps' : Procs) : Prop :=
  forall i : nat, priority (ps' !!! i) = priority (ps !!! i) /\
                  remaining_time (ps' !!! i) = remaining_time (ps !!! i).

(** Re-insertion of a sequence of blocks, as in the second loop of
    [resort_ready_queue]. *)
Definition reinsert (acc : Procs * Queue) (l : Queue) : Procs * Queue :=
  foldl (fun '(ps, q) p => insert_ready_queue ps q p) acc l.

(** The test of the arrival loop, and the block it leaves behind. *)
Definition arrives (clock : Z) (p : Process) : bool :=
  negb (has_arrived p) && (arrival_time p <=? clock).

Definition arrived (p : Process) : Process :=
  set_time_in_ready_queue 0 (set_state STATE_READY (set_has_arrived true p)).

(** The test of the manager's scan, and the block it leaves behind. *)
Definition io_done (clock : Z) (p : Process) : bool :=
  io_completion_time p <=? clock.

Definition completed (p : Process) : Process :=
  set_time_in_ready_queue 0 (set_state STATE_READY p).

(** The aging pass followed by the reorder, on one resident block. *)
Definition aged (elapsed : Z) (resort : bool) (p : Process) : Process :=
  if resort then set_time_in_ready_queue 0 (age elapsed p) else age elapsed p.

(** Burst resolution on the running block. *)
Definition resolve (clock running_until : Z) (p : Process) : Process :=
  let burst_time := resolved_burst_time clock running_until p in
  let p := set_remaining_time (remaining_time p - burst_time) p in
  if remaining_time p <=? 0 then set_state STATE_TERMINATED p
  else set_io_completion_time (clock + io_time p) (set_state STATE_WAITING p).

(** Block [i] is where its state says: in the ready queue, in the
    waiting queue, in the running slot, or not yet admitted. *)
Definition placed (s : State) (i : nat) (p : Process) : Prop :=
  (state p = STATE_READY <-> i ∈ ready_queue s) /\
  (state p = STATE_WAITING <-> i ∈ waiting_queue s) /\
  (state p = STATE_RUNNING <-> running_process s = Some i) /\
  (state p = STATE_NEW <-> has_arrived p = false).

(** The placement invariant: every block is placed, the queues hold
    valid pointers without repetition, and the ready queue is ordered. *)
Record Inv (s : State) : Prop := mkInv {
  inv_placed : forall i p, all_processes s !! i = Some p -> placed s i p;
  inv_ready_range :
    forall i, i ∈ ready_queue s -> (i < length (all_processes s))%nat;
  inv_waiting_range :
    forall i, i ∈ waiting_queue s -> (i < length (all_processes s))%nat;
  inv_running_range :
    forall i, running_process s = Some i -> (i < length (all_processes s))%nat;
  inv_ready_nodup : NoDup (ready_queue s);
  inv_waiting_nodup : NoDup (waiting_queue s);
  inv_ordered : ordered (all_processes s) (ready_queue s)
}.

(** A relation is closed under each of the five transitions of a block. *)
Definition arrival_closed (R : Process -> Process -> Prop) : Prop :=
  forall c p, state p = STATE_NEW -> arrives c p = true -> R p (arrived p).

Definition aging_closed (R : Process -> Process -> Prop) : Prop :=
  forall e b p, state p = STATE_READY -> R p (aged e b p).

Definition resolve_closed (R : Process -> Process -> Prop) : Prop :=
  forall c ru p, state p = STATE_RUNNING -> ru <= c -> R p (resolve c ru p).

Definition dispatch_closed (R : Process -> Process -> Prop) : Prop :=
  forall p, state p = STATE_READY -> R p (set_state STATE_RUNNING p).

Definition complete_closed (R : Process -> Process -> Prop) : Prop :=
  forall c p, state p = STATE_WAITING -> io_done c p = true ->
              R p (completed p).

Definition lifecycle_closed (R : Process -> Process -> Prop) : Prop :=
  arrival_closed R /\ aging_closed R /\ resolve_closed R /\
  dispatch_closed R /\ complete_closed R.

(** The accounting of a block is sound: its burst interval is positive,
    its remaining time lies between 0 and its CPU demand, and it is
    terminated exactly when nothing remains. *)
Definition sound (p : Process) : Prop :=
  0 < interval_time p /\
  0 <= remaining_time p <= cpu_execution_time p /\
  (state p = STATE_TERMINATED <-> remaining_time p = 0).

(** [p'] is a later version of [p]: the loaded fields are the same, the
    priority has not risen nor crossed 0, and sound accounting stays
    sound with no more remaining time. *)
Record evolves (p p' : Process) : Prop := mkEvolves {
  ev_pid : pid p' = pid p;
  ev_arrival_time : arrival_time p' = arrival_time p;
  ev_cpu_execution_time : cpu_execution_time p' = cpu_execution_time p;
  ev_interval_time : interval_time p' = interval_time p;
  ev_io_time : io_time p' = io_time p;
  ev_original_priority : original_priority p' = original_priority p;
  ev_priority_le : priority p' <= priority p;
  ev_priority_floor : 0 <= priority p -> 0 <= priority p';
  ev_sound : sound p -> sound p' /\ remaining_time p' <= remaining_time p
}.

(** Input in the documented domain of the CPU demand and the burst
    interval. *)
Definition well_formed (f : Fields) : Prop :=
  let '(_, _, cpu_time, interval, _, _) := f in 0 < cpu_time /\ 0 < interval.

(** Dispatch lines of the output. *)
Definition is_dispatch (e : Event) : bool :=
  match e with EvDispatched _ _ _ _ _ => true | _ => false end.

Fixpoint last_dispatch_from (acc : option Event) (out : list Event)
  : option Event :=
  match out with
  | [] => acc
  | e :: rest => last_dispatch_from (if is_dispatch e then Some e else acc) rest
  end.

(** The most recent dispatch line of the output. *)
Definition last_dispatch (out : list Event) : option Event :=
  last_dispatch_from None out.

(** [out'] extends [out] by lines other than dispatch lines. *)
Definition quiet (out out' : list Event) : Prop :=
  exists evs, out' = out ++ evs /\ Forall (fun e => is_dispatch e = false) evs.

(** While a block runs, the clock has not reached the end of its burst,
    the burst ends one burst length after the tick of its dispatch line,
    and that line records the burst length computed from the block. *)
Definition on_schedule (s : State) : Prop :=
  forall r p,
    running_process s = Some r -> all_processes s !! r = Some p ->
    current_clock s < running_until s <=
      current_clock s + dispatch_burst_time p /\
    exists pr,
      last_dispatch (output s) =
        Some (EvDispatched (running_until s - dispatch_burst_time p) (pid p) pr
                (remaining_time p) (dispatch_burst_time p)).

(** The invariant of executions on well-formed input. *)
Record Good (s : State) : Prop := mkGood {
  good_inv : Inv s;
  good_sound : Forall sound (all_processes s);
  good_on_schedule : on_schedule s
}.

(** The fields that fix the burst. *)
Definition same_burst (p p' : Process) : Prop :=
  pid p' = pid p /\ remaining_time p' = remaining_time p /\
  interval_time p' = interval_time p.

(** The first three phases of an iteration: clock, arrivals, aging. *)
Definition front (s : State) : State :=
  aging_check (check_arrivals (advance_clock s)).

(** What the running slot holds after an iteration. *)
Inductive slot_outcome (s s' : State) : Prop :=
| slot_continues (r : nat) :
    running_process s = Some r ->
    current_clock s + 1 < running_until s ->
    running_process s' = Some r ->
    running_until s' = running_until s ->
    (forall i p p', all_processes s !! i = Some p ->
                    all_processes s' !! i = Some p' -> same_burst p p') ->
    slot_outcome s s'
| slot_turnover :
    (running_process s = None \/
     exists r p p', running_process s = Some r /\
       running_until s = current_clock s + 1 /\
       all_processes s !! r = Some p /\ all_processes s' !! r = Some p' /\
       pid p' = pid p /\ interval_time p' = interval_time p /\
       remaining_time p' = remaining_time p - dispatch_burst_time p /\
       (state p' = STATE_TERMINATED \/ state p' = STATE_WAITING)) ->
    (forall i p p', running_process s <> Some i ->
                    all_processes s !! i = Some p ->
                    all_processes s' !! i = Some p' -> same_burst p p') ->
    (running_process s' = None \/
     exists r' p', running_process s' = Some r' /\
       running_process s <> Some r' /\
       all_processes s' !! r' = Some p' /\
       running_until s' = current_clock s' + dispatch_burst_time p') ->
    slot_outcome s s'.

(** CPU time a block has been given so far: what it has consumed at
    resolved bursts and the elapsed part of the burst in progress. *)
Definition credit (s : State) (i : nat) (p : Process) : Z :=
  cpu_execution_time p - remaining_time p +
  (if bool_decide (running_process s = Some i)
   then dispatch_burst_time p - (running_until s - current_clock s) + 1
   else 0).

(** What one action adds to the running time of block [i]. *)
Definition contribution (a : Action) (s : State) (i : nat) : Z :=
  match a with
  | Scheduler =>
      if bool_decide (all_terminated s = false /\
                      running_process (perform a s) = Some i) then 1 else 0
  | IoManager _ => 0
  end.

(** Termination is absorbing. *)
Definition stays_terminated (p p' : Process) : Prop :=
  state p = STATE_TERMINATED -> state p' = STATE_TERMINATED.

(** The finished flag tells the truth. *)
Definition finished_ok (s : State) : Prop :=
  all_terminated s = true ->
  Forall (fun p => state p = STATE_TERMINATED) (all_processes s) /\
  running_process s = None.

(** The CPU demand of an input record. *)
Definition cpu_demand (f : Fields) : Z :=
  let '(_, _, cpu_time, _, _, _) := f in cpu_time.

(** Sum of a list of integers. *)
Definition Zsum (l : list Z) : Z := foldr Z.add 0 l.

(** Rounds charged per millisecond of remaining CPU time: a burst of
    one millisecond, its I/O wait and the hand-overs around them. *)
Definition io_cost (p : Process) : Z := Z.max 0 (io_time p) + 4.

(** Bound on the rounds that a block still needs; [c] is the clock and
    [ru] the tick at which the running burst ends. *)
Definition weight (c ru : Z) (p : Process) : Z :=
  match state p with
  | STATE_NEW =>
      Z.max 0 (arrival_time p - c) + 1 + remaining_time p * io_cost p
  | STATE_READY => remaining_time p * io_cost p
  | STATE_RUNNING =>
      (ru - c) + (remaining_time p - dispatch_burst_time p) * io_cost p
      + Z.max 0 (io_time p) + 2
  | STATE_WAITING =>
      Z.max 0 (io_completion_time p - c) + 1 + remaining_time p * io_cost p
  | STATE_TERMINATED => 0
  end.

(** The potential of a state: the weights of its blocks added up. *)
Definition potential (s : State) : Z :=
  Zsum (weight (current_clock s) (running_until s) <$> all_processes s).

(** Blocks that the advance of the clock brings closer to their next
    transition. *)
Definition ticking (c : Z) (p : Process) : Prop :=
  state p = STATE_RUNNING \/
  (state p = STATE_WAITING /\ c < io_completion_time p) \/
  (state p = STATE_NEW /\ c < arrival_time p).

(** After a manager pass at the current clock, every waiting block has
    its I/O deadline ahead. *)
Definition io_pending (s : State) : Prop :=
  forall i p, all_processes s !! i = Some p -> state p = STATE_WAITING ->
              current_clock s < io_completion_time p.

(** The clock never goes below its initial value. *)
Definition clock_nonneg (s : State) : Prop := 0 <= current_clock s.

(** Manager passes in a row, with the clock values they have read. *)
Definition manager_passes (clocks : list Z) (s : State) : State :=
  foldl (fun s clock => io_manager_pass clock s) s clocks.

(** A scheduler iteration and the manager passes before the next one. *)
Definition fair_round (clocks : list Z) (s : State) : State :=
  manager_passes clocks (scheduler_tick s).

(** [n] rounds from round [k] on, the passes of round [j] reading the
    clocks [schedule j]. *)
Fixpoint run_rounds (schedule : nat -> list Z) (k n : nat) (s : State)
  : State :=
  match n with
  | O => s
  | S n => run_rounds schedule (S k) n (fair_round (schedule k) s)
  end.

(** In every round some pass has read the clock of that round's
    iteration or a later one. *)
Definition fresh (schedule : nat -> list Z) : Prop :=
  forall k : nat, Exists (fun clock => Z.of_nat k + 1 <= clock) (schedule k).

(** A waiting block is left as it is. *)
Definition keeps_waiting (p q : Process) : Prop :=
  state p = STATE_WAITING -> q = p.

(** Every block found waiting during the run from [s], which starts at
    round [k], has its I/O deadline read by a pass of that round or of a
    later one. *)
Definition attended (schedule : nat -> list Z) (k : nat) (s : State) : Prop :=
  forall (j i : nat) (p : Process),
    all_processes (run_rounds schedule k j s) !! i = Some p ->
    state p = STATE_WAITING ->
    exists k' : nat, (k + j <= k')%nat /\
      Exists (fun clock => io_completion_time p <= clock) (schedule k').

(** What a run of rounds has reached: the end, or a lower potential. *)
Definition advanced (schedule : nat -> list Z) (k j : nat) (s : State) : Prop :=
  let s' := run_rounds schedule k j s in
  Good s' /\ finished_ok s' /\
  (all_terminated s' = true \/
   (all_terminated s' = false /\
    current_clock s' = Z.of_nat (k + j) /\ potential s' < potential s)).

(** The fields of the lines that the second pass converts. *)
Definition scanned (scan : string -> option Fields) (lines : list string)
  : list Fields :=
  omap (fun line => if 1 <? strlen line then scan line else None) lines.

(** A line that the second pass rejects. *)
Definition rejected (scan : string -> option Fields) (line : string) : Prop :=
  1 < strlen line /\ scan line = None.

(** The scenario of one record alone. *)
Definition scenario : list Fields := [(1, 0, 300, 100, 50, 2)].

(** [pa] sorts strictly before [pb]. *)
Definition precedes (pa pb : Process) : Prop :=
  priority pa < priority pb \/
  (priority pa = priority pb /\ remaining_time pa < remaining_time pb).

(** Of two residents, one that sorts strictly before the other stands
    before it in the queue. *)
Definition priority_srtf (ps : Procs) (q : Queue) : Prop :=
  forall (i j a b : nat) (pa pb : Process),
    q !! i = Some a -> q !! j = Some b ->
    ps !! a = Some pa -> ps !! b = Some pb ->
    precedes pa pb -> (i < j)%nat.

(** An input of three records that arrive together. *)
Definition three_records : list Fields :=
  [(1, 0, 500, 250, 10, 1); (2, 0, 100, 100, 10, 5); (3, 0, 100, 50, 10, 4)].

(** The priority of an input record. *)
Definition priority_of (f : Fields) : Z :=
  let '(_, _, _, _, _, priority) := f in priority.

(** The priority is unchanged. *)
Definition keeps_priority (p p' : Process) : Prop := priority p' = priority p.

(** Lines that report a move into the ready queue. *)
Definition is_transfer (e : Event) : bool :=
  match e with
  | EvArrived _ _ | EvMovedToReady _ _ | EvIOFinished _ _ => true
  | _ => false
  end.

(** Blocked-for-I/O lines of the output. *)
Definition is_blocked (e : Event) : bool :=
  match e with EvBlockedForIO _ _ _ => true | _ => false end.

(** [out'] extends [out] by transfer lines. *)
Definition transfers (out out' : list Event) : Prop :=
  exists evs, out' = out ++ evs /\ Forall (fun e => is_transfer e = true) evs.

(** Number of the lines of the output that satisfy [P]. *)
Definition count_events (P : Event -> bool) (out : list Event) : Z :=
  Z.of_nat (length (filter (fun e => P e = true) out)).

(** Bursts that a block still needs: its remaining time over its burst
    interval, rounded up. *)
Definition bursts_needed (p : Process) : Z :=
  (remaining_time p + interval_time p - 1) / interval_time p.

(** Bursts that a block needs in all. *)
Definition bursts_total (p : Process) : Z :=
  (cpu_execution_time p + interval_time p - 1) / interval_time p.

(** Dispatch lines printed for a block so far. *)
Definition dispatches_of (p : Process) : Z :=
  bursts_total p - bursts_needed p
  + (if bool_decide (state p = STATE_RUNNING) then 1 else 0).

(** Blocked-for-I/O lines printed for a block so far. *)
Definition blocks_of (p : Process) : Z :=
  bursts_total p - bursts_needed p
  - (if bool_decide (state p = STATE_TERMINATED) then 1 else 0).

(** The output has as many dispatch and blocked lines as the blocks
    account for. *)
Definition counted (s : State) : Prop :=
  count_events is_dispatch (output s) = Zsum (dispatches_of <$> all_processes s)
  /\ count_events is_blocked (output s) = Zsum (blocks_of <$> all_processes s).

(** The counts of a block change only with its state and its remaining
    time. *)
Definition same_counts (p p' : Process) : Prop :=
  dispatches_of p' = dispatches_of p /\ blocks_of p' = blocks_of p.

(** The greatest [int] (32 bits). *)
Definition INT_MAX : Z := 2147483647.

(** The least [int]. *)
Definition INT_MIN : Z := -2147483648.

(** [z] is the value of an [int]. *)
Definition in_int (z : Z) : Prop := INT_MIN <= z <= INT_MAX.

(** The six fields of an input record are [int]s. *)
Definition int_fields (f : Fields) : Prop :=
  let '(pid, arrival, cpu_time, interval, io, priority) := f in
  in_int pid /\ in_int arrival /\ in_int cpu_time /\ in_int interval /\
  in_int io /\ in_int priority.

(** The records can be counted in an [int], the clock can go one past
    [c], and a burst or an I/O wait that starts then ends within the
    range of [int]. *)
Definition fits_upto (input : list Fields) (c : Z) : Prop :=
  Forall int_fields input /\
  Z.of_nat (length input) <= INT_MAX /\
  0 <= c /\ c + 1 <= INT_MAX /\
  Forall (fun f => let '(_, _, _, interval, io, _) := f in
                   c + 1 + interval <= INT_MAX /\ c + 1 + io <= INT_MAX)
    input.

(** No iteration up to the next one from [s] leaves the range. *)
Definition fits (input : list Fields) (s : State) : Prop :=
  fits_upto input (current_clock s).

(** [in_int] as a test. *)
Definition int_ok (z : Z) : bool := (INT_MIN <=? z) && (z <=? INT_MAX).

(** The fields of a block are [int]s. *)
Definition process_in_int (p : Process) : bool :=
  int_ok (pid p) && int_ok (arrival_time p) &&
  int_ok (cpu_execution_time p) && int_ok (remaining_time p) &&
  int_ok (interval_time p) && int_ok (io_time p) &&
  int_ok (priority p) && int_ok (original_priority p) &&
  int_ok (time_in_ready_queue p) && int_ok (io_completion_time p).

(** The integers of a state are [int]s: the state is one that the
    program can be in. *)
Definition state_in_int (s : State) : bool :=
  forallb process_in_int (all_processes s) &&
  int_ok (current_clock s) && int_ok (running_until s) &&
  int_ok (last_aging_check s).

(** What [update_aging] computes on a block: the new timer, and the new
    priority when the threshold is reached and the priority positive. *)
Definition aging_in_int (elapsed_ms : Z) (p : Process) : bool :=
  int_ok (time_in_ready_queue p + elapsed_ms) &&
  (if 100 <=? time_in_ready_queue p + elapsed_ms then
     if 0 <? priority p then
       int_ok (priority p - Z.quot (time_in_ready_queue p + elapsed_ms) 100)
     else true
   else true).

(** What burst resolution computes on the running block: the start of
    the burst, its length, the remaining time and, when time remains,
    the I/O deadline. *)
Definition resolution_in_int (clock running_until : Z) (p : Process) : bool :=
  int_ok (running_until - interval_time p) &&
  int_ok (clock - (running_until - interval_time p)) &&
  int_ok (remaining_time p - resolved_burst_time clock running_until p) &&
  (if remaining_time p - resolved_burst_time clock running_until p <=? 0
   then true else int_ok (clock + io_time p)).

(** What dispatch computes: the end of the burst. *)
Definition dispatch_in_int (clock : Z) (p : Process) : bool :=
  int_ok (clock + dispatch_burst_time p).

(** Every [int] expression that the iteration from [s] evaluates has its
    value in the range of [int]: the clock, the loop bound, the aging
    of the blocks in the ready queue, the resolution of the running
    burst and the dispatch of the next one. *)
Definition iteration_in_int (s : State) : bool :=
  let s1 := advance_clock s in
  let s2 := check_arrivals s1 in
  let s3 := aging_check s2 in
  let s4 := burst_resolution s3 in
  int_ok (current_clock s1) &&
  int_ok (Z.of_nat (length (all_processes s))) &&
  (if last_aging_check s2 <? current_clock s2 then
     int_ok (current_clock s2 - last_aging_check s2) &&
     forallb (fun i => aging_in_int (current_clock s2 - last_aging_check s2)
                         (all_processes s2 !!! i))
       (ready_queue s2)
   else true) &&
  match running_process s3 with
  | Some r =>
      if running_until s3 <=? current_clock s3 then
        resolution_in_int (current_clock s3) (running_until s3)
          (all_processes s3 !!! r)
      else true
  | None => true
  end &&
  match running_process s4, ready_queue s4 with
  | None, r :: _ => dispatch_in_int (current_clock s4) (all_processes s4 !!! r)
  | _, _ => true
  end.

(** The lockstep schedule of [n] rounds. *)
Definition lockstep_schedule (n : nat) : list Action :=
  concat ((fun k => [Scheduler; IoManager (Z.of_nat k)]) <$> seq 1 n).

(** A bound on the rounds that a record of the input needs. *)
Definition time_bound (f : Fields) : Z :=
  let '(_, arrival, cpu_time, _, io, _) := f in
  Z.max 0 arrival + 1 + cpu_time * (Z.max 0 io + 4).

(** The manager misses every other round, and in the others it reads a
    clock that is one tick behind. *)
Definition stale_schedule (k : nat) : list Z :=
  if Nat.even k then [] else [Z.of_nat k].

(** A line whose fields lie outside the documented domains: negative
    arrival time, CPU demand 0, priority 42. *)
Definition out_of_range_line : string :=
  String.append "1 -5 0 100 50 42" (String "010" EmptyString).

(** The running slot as a list of cells. *)
Definition running_cells (s : State) : list nat :=
  match running_process s with Some r => [r] | None => [] end.

(** A record never goes back. *)
Definition one_way (p p' : Process) : Prop :=
  (state p = STATE_TERMINATED -> p' = p) /\
  (has_arrived p = true -> has_arrived p' = true) /\
  (state p <> STATE_NEW -> state p' <> STATE_NEW).

(** Two records: the first is finished by tick 4, the second is still
    waiting for its I/O at tick 9. *)
Definition two_records : list Fields := [(1, 0, 2, 2, 0, 0); (2, 1, 6, 3, 4, 1)].

(** The records have arrived that the clock [c] has reached. *)
Definition arrivals_exact (c : Z) (ps : Procs) : Prop :=
  forall (i : nat) (p : Process), ps !! i = Some p ->
    (has_arrived p = true -> arrival_time p <= c) /\
    (0 < c -> arrival_time p <= c -> has_arrived p = true).

(** The arrival flag and the arrival time are as they were. *)
Definition same_arrival (p p' : Process) : Prop :=
  has_arrived p' = has_arrived p /\ arrival_time p' = arrival_time p.

(** The lines that the two passes do not skip. *)
Definition descriptor_lines (lines : list string) : list string :=
  filter (fun line => 1 < strlen line) lines.

(** The characters of a line. *)
Fixpoint chars (s : string) : list ascii :=
  match s with
  | EmptyString => []
  | String c rest => c :: chars rest
  end.

(** The characters that [fgets] can store in a buffer that [strlen]
    measures in full: no NUL, and a newline only as the last one. *)
Fixpoint fgets_chars (line : string) : bool :=
  match line with
  | EmptyString => true
  | String c rest =>
      negb (Ascii.eqb c "000") &&
      (if Ascii.eqb c "010"
       then match rest with EmptyString => true | _ => false end
       else fgets_chars rest)
  end.

(** A buffer that [fgets(line, sizeof(line), file)] can return, [line]
    being an array of 256 characters. *)
Definition fgets_buffer (line : string) : bool :=
  (1 <=? strlen line) && (strlen line <=? 255) && fgets_chars line.

(** The last character of the buffer is a newline. *)
Fixpoint ends_in_newline (line : string) : bool :=
  match line with
  | EmptyString => false
  | String c EmptyString => Ascii.eqb c "010"
  | String _ rest => ends_in_newline rest
  end.

(** The buffers that the successive calls of [fgets] return on a file
    without NUL characters: every buffer but the last ends with a
    newline or fills the array. *)
Fixpoint fgets_lines (lines : list string) : bool :=
  match lines with
  | [] => true
  | line :: rest =>
      fgets_buffer line &&
      match rest with
      | [] => true
      | _ => ends_in_newline line || (strlen line =? 255)
      end &&
      fgets_lines rest
  end.

(** The two threads from round [k] on: scheduler iterations, each
    followed by the manager passes of its round, until the iteration
    that raises the finished flag; [fuel] bounds the rounds. *)
Fixpoint run_threads (schedule : nat -> list Z) (k fuel : nat) (s : State)
  : option State :=
  match fuel with
  | O => None
  | S fuel =>
      let s := fair_round (schedule k) s in
      if all_terminated s then Some s else run_threads schedule (S k) fuel s
  end.

(** [parse_input_file] with the allocation of the table ([malloc_ok]
    tells whether [malloc] returns a block), and [main] with the
    schedule of its threads: [startup] holds the clocks read by the
    manager passes that come before the first scheduler iteration,
    [schedule k] those of the passes that follow iteration [k + 1]. *)
Module Program.
Definition parse_input_file (sscanf_6d : string -> option Fields)
    (file : option (list string)) (malloc_ok : bool) : option Procs :=
  match file with
  | None => None
  | Some lines =>
      let total_processes := count_processes lines in
      if bool_decide (total_processes = O) then None
      else if negb malloc_ok then None
      else read_processes sscanf_6d total_processes lines []
  end.
Definition main (sscanf_6d : string -> option Fields) (argc : Z)
    (file : option (list string)) (malloc_ok thread_created : bool)
    (startup : list Z) (schedule : nat -> list Z) (fuel : nat) : Outcome :=
  if negb (argc =? 2) then Exit EXIT_FAILURE 0 []
  else
    match parse_input_file sscanf_6d file malloc_ok with
    | None => Exit EXIT_FAILURE 0 []
    | Some ps =>
        if negb thread_created then Exit EXIT_FAILURE 0 []
        else
          match run_threads schedule 0 fuel
                  (manager_passes startup (initial_state ps)) with
          | Some s => Exit EXIT_SUCCESS (current_clock s) (output s)
          | None => OutOfFuel
          end
    end.
End Program.

(** The clocks of the passes are clocks that the manager can have read:
    none is ahead of the iteration that follows its round. *)
Definition timely (schedule : nat -> list Z) : Prop :=
  forall k : nat,
    Forall (fun clock => 0 <= clock <= Z.of_nat k + 2) (schedule k).

(** 1 for [true], 0 for [false]. *)
Definition flag (b : bool) : Z := if b then 1 else 0.

(** Arrival lines of the output. *)
Definition is_arrival (e : Event) : bool :=
  match e with EvArrived _ _ => true | _ => false end.

(** Termination lines of the output. *)
Definition is_termination (e : Event) : bool :=
  match e with EvTerminated _ _ => true | _ => false end.

(** I/O-finished lines of the output. *)
Definition is_io_finished (e : Event) : bool :=
  match e with EvIOFinished _ _ => true | _ => false end.

(** Moved-to-ready lines of the output. *)
Definition is_moved (e : Event) : bool :=
  match e with EvMovedToReady _ _ => true | _ => false end.

(** Records of the table that satisfy [P]. *)
Definition tally (P : Process -> bool) (ps : Procs) : Z :=
  Zsum ((fun p => flag (P p)) <$> ps).

(** Each of the five transitions prints lines that weigh what the record
    gains. *)
Definition accounts (w : Event -> Z) (g : Process -> Z) : Prop :=
  (forall c c' i i' p, state p = STATE_NEW -> has_arrived p = false ->
     g (arrived p) = g p + w (EvArrived c i) + w (EvMovedToReady c' i')) /\
  (forall e b p, state p = STATE_READY -> g (aged e b p) = g p) /\
  (forall c ru c' i io p, state p = STATE_RUNNING ->
     g (resolve c ru p) =
       g p + (if state (resolve c ru p) is STATE_TERMINATED
              then w (EvTerminated c' i) else w (EvBlockedForIO c' i io))) /\
  (forall c i pr rm b p, state p = STATE_READY ->
     g (set_state STATE_RUNNING p) = g p + w (EvDispatched c i pr rm b)) /\
  (forall c c' i i' p, state p = STATE_WAITING ->
     g (completed p) = g p + w (EvIOFinished c i) + w (EvMovedToReady c' i')).

(** The weight of the output less the weight of the table. *)
Definition balance (w : Event -> Z) (g : Process -> Z)
    (ps : Procs) (out : list Event) : Z :=
  Zsum (w <$> out) - Zsum (g <$> ps).

(** The sign that [%d] accepts in front of the digits. *)
Definition strip_sign (s : string) : bool * string :=
  match s with
  | String "-" rest => (true, rest)
  | String "+" rest => (false, rest)
  | _ => (false, s)
  end.

(** [s] ends with the character [sp]. *)
Definition ends_with (sp : ascii) (s : string) : Prop :=
  exists x : string, s = String.append x (String sp EmptyString).

(** The aging timer is a number of milliseconds below 100. *)
Definition timer_in_range (p : Process) : Prop :=
  0 <= time_in_ready_queue p < 100.

(** The timer stays in range and the priority is as it was. *)
Definition steady (p p' : Process) : Prop :=
  (timer_in_range p -> timer_in_range p') /\ priority p' = priority p.

(** The invariant: aging has been done up to the clock, and every timer
    is in range. *)
Definition aging_up_to_date (s : State) : Prop :=
  last_aging_check s = current_clock s /\
  Forall timer_in_range (all_processes s).

(** What the range condition at clock [c] says of a block. *)
Definition tame (c : Z) (p : Process) : Prop :=
  sound p /\
  in_int (cpu_execution_time p) /\ in_int (io_time p) /\
  priority p <= INT_MAX /\
  c + 1 + interval_time p <= INT_MAX /\ c + 1 + io_time p <= INT_MAX.

(** * Properties *)

(** ** Pointwise updates of the process table *)

Lemma transforms_refl (ps : Procs) : transforms (fun _ p => p) ps ps.
Proof. intros i. by destruct (ps !! i). Qed.

Lemma transforms_alter (f : Process -> Process) (j : nat) (ps : Procs) :
  transforms (fun i p => if decide (j = i) then f p else p) ps (alter f j ps).
Proof.
  intros i. rewrite list_lookup_alter.
  destruct (decide (j = i)) as [->|]; by destruct (ps !! i).
Qed.

Lemma transforms_trans G1 G2 (ps1 ps2 ps3 : Procs) :
  transforms G1 ps1 ps2 -> transforms G2 ps2 ps3 ->
  transforms (fun i p => G2 i (G1 i p)) ps1 ps3.
Proof. intros H1 H2 i. rewrite H2, H1. by destruct (ps1 !! i). Qed.

Lemma transforms_ext G G' (ps ps' : Procs) :
  (forall i p, ps !! i = Some p -> G i p = G' i p) ->
  transforms G ps ps' -> transforms G' ps ps'.
Proof.
  intros HG H i. rewrite H. destruct (ps !! i) eqn:E; simpl; [|done].
  by rewrite (HG _ _ E).
Qed.

Lemma transforms_length G (ps ps' : Procs) :
  transforms G ps ps' -> length ps' = length ps.
Proof.
  intros H. apply Nat.le_antisymm.
  - destruct (decide (length ps' <= length ps)%nat) as [|Hn]; [done|].
    assert (Hl : (length ps < length ps')%nat) by lia.
    apply lookup_lt_is_Some_2 in Hl as [x Hx]. rewrite H in Hx.
    rewrite (lookup_ge_None_2 ps (length ps)) in Hx by lia. done.
  - destruct (decide (length ps <= length ps')%nat) as [|Hn]; [done|].
    assert (Hl : (length ps' < length ps)%nat) by lia.
    apply lookup_lt_is_Some_2 in Hl as [x Hx].
    pose proof (H (length ps')) as H'. rewrite Hx in H'.
    rewrite (lookup_ge_None_2 ps' (length ps')) in H' by lia. done.
Qed.

Lemma transforms_lookup G (ps ps' : Procs) i p :
  transforms G ps ps' -> ps !! i = Some p -> ps' !! i = Some (G i p).
Proof. intros H E. by rewrite H, E. Qed.

Lemma transforms_lookup_inv G (ps ps' : Procs) i p' :
  transforms G ps ps' -> ps' !! i = Some p' ->
  exists p, ps !! i = Some p /\ p' = G i p.
Proof.
  intros H E. rewrite H in E. destruct (ps !! i) as [p|]; [|done].
  exists p. split; [done|]. by inversion E.
Qed.

Lemma transforms_total G (ps ps' : Procs) i :
  transforms G ps ps' -> (i < length ps)%nat -> ps' !!! i = G i (ps !!! i).
Proof.
  intros H Hi. apply list_lookup_total_correct.
  rewrite H, (list_lookup_lookup_total_lt ps i Hi). done.
Qed.

(** ** The ready queue order *)

Lemma should_insert_spec (p c : Process) :
  should_insert p c = true <->
  priority p < priority c \/
  (priority p = priority c /\ remaining_time p < remaining_time c).
Proof.
  unfold should_insert.
  destruct (Z.ltb_spec (priority p) (priority c)); [intuition lia|].
  destruct (Z.eqb_spec (priority p) (priority c)); simpl;
    [|intuition (try discriminate; lia)].
  destruct (Z.ltb_spec (remaining_time p) (remaining_time c));
    intuition (try discriminate; lia).
Qed.

Lemma should_insert_false (p c : Process) :
  should_insert p c = false <->
  priority c < priority p \/
  (priority p = priority c /\ remaining_time c <= remaining_time p).
Proof.
  destruct (should_insert p c) eqn:E.
  - apply should_insert_spec in E. intuition (try discriminate; lia).
  - assert (H : ~ (priority p < priority c \/
      (priority p = priority c /\ remaining_time p < remaining_time c))).
    { rewrite <- should_insert_spec. congruence. }
    intuition lia.
Qed.

Lemma should_insert_key (p p' c c' : Process) :
  priority p = priority p' -> remaining_time p = remaining_time p' ->
  priority c = priority c' -> remaining_time c = remaining_time c' ->
  should_insert p c = should_insert p' c'.
Proof. unfold should_insert. by intros -> -> -> ->. Qed.

Lemma same_keys_refl ps : same_keys ps ps.
Proof. done. Qed.

Lemma same_keys_trans ps1 ps2 ps3 :
  same_keys ps1 ps2 -> same_keys ps2 ps3 -> same_keys ps1 ps3.
Proof.
  intros H1 H2 i. destruct (H1 i), (H2 i). split; congruence.
Qed.

Lemma same_keys_alter (f : Process -> Process) j ps :
  (forall p, priority (f p) = priority p) ->
  (forall p, remaining_time (f p) = remaining_time p) ->
  same_keys ps (alter f j ps).
Proof.
  intros Hp Hr i. rewrite list_lookup_total_alter.
  case_decide as H; [|done]. destruct H as [-> _]. by rewrite Hp, Hr.
Qed.

Lemma not_after_same_keys ps ps' a b :
  same_keys ps ps' -> not_after ps a b -> not_after ps' a b.
Proof.
  unfold not_after. intros H Hab. destruct (H a), (H b).
  by rewrite (should_insert_key _ (ps !!! b) _ (ps !!! a)).
Qed.

Lemma ordered_same_keys ps ps' q :
  same_keys ps ps' -> ordered ps q -> ordered ps' q.
Proof.
  intros H. unfold ordered. induction 1 as [|a q Hq IH Ha]; constructor.
  - done.
  - eapply Forall_impl; [exact Ha|]. intros b. by apply not_after_same_keys.
Qed.

Lemma insert_position_same_keys ps ps' p q :
  same_keys ps ps' -> insert_position ps' p q = insert_position ps p q.
Proof.
  intros H. induction q as [|c q IH]; simpl; [done|].
  destruct (H p), (H c).
  rewrite (should_insert_key (ps' !!! p) (ps !!! p) (ps' !!! c) (ps !!! c)) by done.
  by rewrite IH.
Qed.

Lemma insert_position_perm ps p q : insert_position ps p q ≡ₚ p :: q.
Proof.
  induction q as [|c q IH]; simpl; [done|].
  destruct (should_insert _ _); [done|]. rewrite IH. apply Permutation_swap.
Qed.

Lemma not_after_trans_strict ps p c x :
  should_insert (ps !!! p) (ps !!! c) = true -> not_after ps c x ->
  not_after ps p x.
Proof.
  unfold not_after. rewrite should_insert_spec, !should_insert_false. lia.
Qed.

Lemma insert_position_ordered ps p q :
  ordered ps q -> ordered ps (insert_position ps p q).
Proof.
  unfold ordered. induction 1 as [|c q Hq IH Hc]; simpl.
  - repeat constructor.
  - destruct (should_insert (ps !!! p) (ps !!! c)) eqn:E.
    + constructor; [by constructor|]. constructor.
      * unfold not_after. apply should_insert_spec in E.
        apply should_insert_false. lia.
      * eapply Forall_impl; [exact Hc|]. intros x.
        by apply not_after_trans_strict.
    + constructor; [done|].
      rewrite insert_position_perm. by constructor.
Qed.

Lemma insert_ready_queue_queue ps q p :
  (insert_ready_queue ps q p).2 =
  insert_position (alter (set_time_in_ready_queue 0) p ps) p q.
Proof. by destruct q. Qed.

Lemma insert_ready_queue_procs ps q p :
  (insert_ready_queue ps q p).1 = alter (set_time_in_ready_queue 0) p ps.
Proof. by destruct q. Qed.

Lemma insert_ready_queue_eq ps q p :
  insert_ready_queue ps q p =
  (alter (set_time_in_ready_queue 0) p ps,
   insert_position (alter (set_time_in_ready_queue 0) p ps) p q).
Proof. by destruct q. Qed.

Lemma insert_ready_queue_ordered ps q p ps' q' :
  insert_ready_queue ps q p = (ps', q') -> ordered ps q -> ordered ps' q'.
Proof.
  rewrite insert_ready_queue_eq. intros [= <- <-] H.
  apply insert_position_ordered.
  eapply ordered_same_keys; [|exact H]. by apply same_keys_alter.
Qed.

(** ** What each loop does to the table and to the queues *)

Lemma filter_ext_elem_of {A} (P Q : A -> Prop)
    `{!forall x, Decision (P x), !forall x, Decision (Q x)} (l : list A) :
  (forall x, x ∈ l -> P x <-> Q x) -> filter P l = filter Q l.
Proof.
  induction l as [|a l IH]; intros Hl; [done|].
  rewrite !filter_cons. rewrite IH; [|intros; apply Hl; by right].
  destruct (decide (P a)) as [HP|HP], (decide (Q a)) as [HQ|HQ]; try done.
  - destruct HQ. apply Hl; [left|done].
  - destruct HP. apply Hl; [left|done].
Qed.

(** Propositional goals over states and memberships. *)
Ltac logic := intuition (subst; try discriminate; try congruence).

(** Case analysis on the membership tests of a composed update. *)
Ltac split_mem :=
  repeat case_decide; repeat case_bool_decide; subst; simpl; try done;
  try (exfalso;
       repeat match goal with
         | H : _ ∈ _ :: _ |- _ => apply elem_of_cons in H as [?|?]; subst
         | H : _ ∉ _ :: _ |- _ => apply not_elem_of_cons in H as [? ?]
         end;
       done).

Lemma update_aging_transforms e (ready : Queue) : forall ps : Procs,
  NoDup ready ->
  transforms (fun i p => if bool_decide (i ∈ ready) then age e p else p)
    ps (update_aging e ps ready).
Proof.
  unfold update_aging.
  induction ready as [|c r IH]; intros ps Hnd; simpl.
  - apply transforms_refl.
  - apply NoDup_cons in Hnd as [Hc Hr].
    eapply transforms_ext;
      [|exact (transforms_trans _ _ _ _ _ (transforms_alter (age e) c ps)
                 (IH _ Hr))].
    intros i p _. simpl. split_mem.
Qed.

Lemma reinsert_spec (l : Queue) : forall (ps : Procs) (q : Queue) ps' q',
  reinsert (ps, q) l = (ps', q') ->
  transforms (fun i p => if bool_decide (i ∈ l)
                         then set_time_in_ready_queue 0 p else p) ps ps' /\
  q' ≡ₚ q ++ l /\
  (ordered ps q -> ordered ps' q').
Proof.
  unfold reinsert.
  induction l as [|c r IH]; intros ps q ps' q'; simpl.
  - intros [= <- <-]. split; [apply transforms_refl|].
    split; [by rewrite app_nil_r|done].
  - rewrite insert_ready_queue_eq. intros H.
    apply IH in H as (HT & HP & HO). split; [|split].
    + eapply transforms_ext;
        [|exact (transforms_trans _ _ _ _ _
                   (transforms_alter (set_time_in_ready_queue 0) c ps) HT)].
      intros i p _. simpl. split_mem.
    + rewrite HP, insert_position_perm.
      change (c :: q ++ r) with ((c :: q) ++ r).
      rewrite (Permutation_middle q r c). done.
    + intros Hq. apply HO. apply insert_position_ordered.
      eapply ordered_same_keys; [|exact Hq]. by apply same_keys_alter.
Qed.

Lemma resort_ready_queue_spec (ps : Procs) (ready : Queue) ps' ready' :
  resort_ready_queue ps ready = (ps', ready') ->
  transforms (fun i p => if bool_decide (i ∈ ready)
                            && negb (Z.of_nat (length ready) <=? 1)
                         then set_time_in_ready_queue 0 p else p) ps ps' /\
  ready' ≡ₚ ready /\
  ordered ps' ready'.
Proof.
  unfold resort_ready_queue.
  destruct (Z.leb_spec (Z.of_nat (length ready)) 1) as [Hle|Hgt].
  - intros [= <- <-]. split; [|split; [done|]].
    + eapply transforms_ext; [|apply transforms_refl].
      intros i p _. simpl. by rewrite andb_false_r.
    + destruct ready as [|a [|b r]]; simpl in Hle; try lia;
        repeat constructor.
  - intros H. apply (reinsert_spec ready ps [] ps' ready') in H
      as (HT & HP & HO).
    split; [|split; [done|]].
    + eapply transforms_ext; [|exact HT].
      intros i p _. simpl. by rewrite andb_true_r.
    + apply HO. constructor.
Qed.

Lemma arrives_arrived clock p : arrives clock (arrived p) = false.
Proof. done. Qed.

Lemma arrival_step_spec clock (l : list nat) :
  forall (ps : Procs) (ready : Queue) out ps' ready' out',
  NoDup l ->
  foldl (arrival_step clock) (ps, ready, out) l = (ps', ready', out') ->
  transforms (fun i p => if bool_decide (i ∈ l) && arrives clock p
                         then arrived p else p) ps ps' /\
  ready' ≡ₚ ready ++ filter (fun i => arrives clock (ps !!! i) = true) l /\
  (ordered ps ready -> ordered ps' ready').
Proof.
  induction l as [|c r IH]; intros ps ready out ps' ready' out' Hnd; simpl.
  - intros [= <- <- <-]. split; [apply transforms_refl|].
    split; [by rewrite app_nil_r|done].
  - apply NoDup_cons in Hnd as [Hc Hr].
    fold (arrives clock (ps !!! c)).
    destruct (arrives clock (ps !!! c)) eqn:Ha.
    + assert (Harr :
        alter (set_time_in_ready_queue 0) c
          (alter (set_state STATE_READY) c (alter (set_has_arrived true) c ps))
        = alter arrived c ps) by (by rewrite !list_alter_alter_eq).
      rewrite insert_ready_queue_eq, Harr.
      set (ps1 := alter arrived c ps).
      intros H. apply IH in H as (HT & HP & HO); [|done].
      split; [|split].
      * eapply transforms_ext;
          [|exact (transforms_trans _ _ _ _ _
                     (transforms_alter arrived c ps) HT)].
        intros i p Hp. simpl.
        pose proof (list_lookup_total_correct _ _ _ Hp) as Hp'.
        split_mem; by rewrite ?Ha.
      * rewrite HP, insert_position_perm.
        rewrite filter_cons_True by done.
        rewrite <- Permutation_middle. simpl. f_equiv. f_equiv.
        erewrite filter_ext_elem_of; [done|]. intros i Hi.
        unfold ps1. rewrite list_lookup_total_alter_ne; [done|].
        intros ->. done.
      * intros Hq. apply HO. apply insert_position_ordered.
        eapply ordered_same_keys; [|exact Hq].
        by apply same_keys_alter.
    + intros H. apply IH in H as (HT & HP & HO); [|done].
      split; [|split; [|done]].
      * eapply transforms_ext; [|exact HT].
        intros i p Hp. simpl.
        pose proof (list_lookup_total_correct _ _ _ Hp) as Hp'.
        destruct (decide (c = i)) as [->|]; split_mem; by rewrite ?Ha.
      * rewrite HP. rewrite filter_cons_False; [done|]. by rewrite Ha.
Qed.

Lemma io_scan_spec clock (w : Queue) :
  forall (ps : Procs) (ready : Queue) out ps' ready' kept out',
  io_scan clock w ps ready out = (ps', ready', kept, out') ->
  transforms (fun i p => if bool_decide (i ∈ w) && io_done clock p
                         then completed p else p) ps ps' /\
  kept = filter (fun i => io_done clock (ps !!! i) = false) w /\
  ready' ≡ₚ ready ++ filter (fun i => io_done clock (ps !!! i) = true) w /\
  (ordered ps ready -> ordered ps' ready').
Proof.
  induction w as [|c r IH]; intros ps ready out ps' ready' kept out'; simpl.
  - intros [= <- <- <- <-]. split; [apply transforms_refl|].
    split; [done|]. split; [by rewrite app_nil_r|done].
  - fold (io_done clock (ps !!! c)).
    destruct (io_done clock (ps !!! c)) eqn:Ha.
    + assert (Harr :
        alter (set_time_in_ready_queue 0) c (alter (set_state STATE_READY) c ps)
        = alter completed c ps) by (by rewrite !list_alter_alter_eq).
      rewrite insert_ready_queue_eq, Harr.
      set (ps1 := alter completed c ps).
      assert (Hio : forall i, io_done clock (ps1 !!! i) = io_done clock (ps !!! i)).
      { intros i. unfold ps1. rewrite list_lookup_total_alter.
        case_decide as H; [|done]. by destruct H as [-> _]. }
      intros H. apply IH in H as (HT & HK & HP & HO).
      split; [|split; [|split]].
      * eapply transforms_ext;
          [|exact (transforms_trans _ _ _ _ _
                     (transforms_alter completed c ps) HT)].
        intros i p Hp. simpl.
        pose proof (list_lookup_total_correct _ _ _ Hp) as Hp'.
        split_mem; try by rewrite ?Ha.
        all: by destruct (io_done clock _).
      * rewrite HK. rewrite filter_cons_False by (by rewrite Ha).
        apply filter_ext_elem_of. intros i _. by rewrite Hio.
      * rewrite HP, insert_position_perm.
        rewrite filter_cons_True by done.
        rewrite <- Permutation_middle. simpl. f_equiv. f_equiv.
        erewrite filter_ext_elem_of; [done|]. intros i _. by rewrite Hio.
      * intros Hq. apply HO. apply insert_position_ordered.
        eapply ordered_same_keys; [|exact Hq].
        by apply same_keys_alter.
    + destruct (io_scan clock r ps ready out) as [[[ps2 ready2] kept2] out2] eqn:E.
      intros [= <- <- <- <-].
      apply IH in E as (HT & HK & HP & HO).
      split; [|split; [|split; [|done]]].
      * eapply transforms_ext; [|exact HT].
        intros i p Hp. simpl.
        pose proof (list_lookup_total_correct _ _ _ Hp) as Hp'.
        destruct (decide (c = i)) as [->|]; split_mem; by rewrite ?Ha.
      * rewrite HK. by rewrite filter_cons_True by done.
      * rewrite HP. rewrite filter_cons_False; [done|]. by rewrite Ha.
Qed.

(** ** What each phase of a scheduler iteration does *)

Lemma check_arrivals_spec (s : State) :
  let s' := check_arrivals s in
  transforms (fun _ p => if arrives (current_clock s) p then arrived p else p)
    (all_processes s) (all_processes s') /\
  ready_queue s' ≡ₚ
    ready_queue s ++
    filter (fun i => arrives (current_clock s) (all_processes s !!! i) = true)
      (seq 0 (length (all_processes s))) /\
  (ordered (all_processes s) (ready_queue s) ->
   ordered (all_processes s') (ready_queue s')) /\
  waiting_queue s' = waiting_queue s /\
  running_process s' = running_process s /\
  running_until s' = running_until s /\
  current_clock s' = current_clock s /\
  last_aging_check s' = last_aging_check s /\
  all_terminated s' = all_terminated s.
Proof.
  unfold check_arrivals.
  destruct (foldl _ _ _) as [[ps' ready'] out'] eqn:E. simpl.
  apply arrival_step_spec in E as (HT & HP & HO); [|apply NoDup_seq].
  split; [|by repeat split].
  eapply transforms_ext; [|exact HT].
  intros i p Hp. simpl.
  rewrite bool_decide_eq_true_2; [done|].
  apply elem_of_seq. apply lookup_lt_Some in Hp. lia.
Qed.

Lemma aging_check_spec (s : State) :
  NoDup (ready_queue s) ->
  let s' := aging_check s in
  let resort := negb (Z.of_nat (length (ready_queue s)) <=? 1) in
  transforms
    (fun i p => if (last_aging_check s <? current_clock s)
                   && bool_decide (i ∈ ready_queue s)
                then aged (current_clock s - last_aging_check s) resort p
                else p)
    (all_processes s) (all_processes s') /\
  ready_queue s' ≡ₚ ready_queue s /\
  (ordered (all_processes s) (ready_queue s) ->
   ordered (all_processes s') (ready_queue s')) /\
  waiting_queue s' = waiting_queue s /\
  running_process s' = running_process s /\
  running_until s' = running_until s /\
  current_clock s' = current_clock s /\
  all_terminated s' = all_terminated s.
Proof.
  intros Hnd. unfold aging_check.
  destruct (last_aging_check s <? current_clock s) eqn:El; simpl.
  - destruct (resort_ready_queue _ _) as [ps' ready'] eqn:E. simpl.
    apply resort_ready_queue_spec in E as (HT & HP & HO).
    split; [|by repeat split].
    eapply transforms_ext;
      [|exact (transforms_trans _ _ _ _ _
                 (update_aging_transforms _ _ _ Hnd) HT)].
    intros i p _. simpl. unfold aged.
    destruct (bool_decide (i ∈ ready_queue s)); simpl; [|done].
    by destruct (Z.of_nat (length (ready_queue s)) <=? 1).
  - split; [apply transforms_refl|]. by repeat split.
Qed.

Lemma burst_resolution_idle (s : State) :
  (running_process s = None \/ current_clock s < running_until s) ->
  burst_resolution s = s.
Proof.
  unfold burst_resolution. intros [->|H]; [done|].
  destruct (running_process s); [|done].
  destruct (Z.leb_spec (running_until s) (current_clock s)); [lia|done].
Qed.

Lemma burst_resolution_spec (s : State) (r : nat) (p : Process) :
  running_process s = Some r ->
  all_processes s !! r = Some p ->
  running_until s <= current_clock s ->
  let s' := burst_resolution s in
  let p' := resolve (current_clock s) (running_until s) p in
  all_processes s' = alter (resolve (current_clock s) (running_until s)) r
                       (all_processes s) /\
  ready_queue s' = ready_queue s /\
  waiting_queue s' =
    (if state p' is STATE_TERMINATED then waiting_queue s
     else waiting_queue s ++ [r]) /\
  running_process s' = None /\
  running_until s' = running_until s /\
  current_clock s' = current_clock s /\
  last_aging_check s' = last_aging_check s /\
  all_terminated s' = all_terminated s.
Proof.
  intros Hr Hp Hle. unfold burst_resolution. rewrite Hr.
  destruct (Z.leb_spec (running_until s) (current_clock s)); [|lia].
  pose proof (list_lookup_total_correct _ _ _ Hp) as Hp'.
  pose proof (lookup_lt_Some _ _ _ Hp) as Hlt.
  rewrite list_lookup_total_alter_eq by done. rewrite Hp'.
  unfold resolve. simpl.
  destruct (remaining_time p - resolved_burst_time _ _ p <=? 0) eqn:E; simpl.
  - split; [|by repeat split].
    rewrite list_alter_alter_eq. apply list_alter_ext; [|done].
    intros x Hx. assert (x = p) as -> by congruence. simpl. by rewrite E.
  - split; [|by repeat split].
    rewrite !list_alter_alter_eq. apply list_alter_ext; [|done].
    intros x Hx. assert (x = p) as -> by congruence. simpl. by rewrite E.
Qed.

Lemma dispatch_idle (s : State) :
  (is_Some (running_process s) \/ ready_queue s = []) -> dispatch s = s.
Proof.
  unfold dispatch. intros [[r ->]| ->]; [done|].
  by destruct (running_process s).
Qed.

Lemma dispatch_spec (s : State) (r : nat) (rest : Queue) :
  running_process s = None ->
  ready_queue s = r :: rest ->
  let s' := dispatch s in
  all_processes s' = alter (set_state STATE_RUNNING) r (all_processes s) /\
  ready_queue s' = rest /\
  waiting_queue s' = waiting_queue s /\
  running_process s' = Some r /\
  running_until s' =
    current_clock s + dispatch_burst_time (all_processes s !!! r) /\
  current_clock s' = current_clock s /\
  last_aging_check s' = last_aging_check s /\
  all_terminated s' = all_terminated s /\
  output s' = output s ++
    [EvDispatched (current_clock s) (pid (all_processes s !!! r))
       (priority (all_processes s !!! r))
       (remaining_time (all_processes s !!! r))
       (dispatch_burst_time (all_processes s !!! r))].
Proof.
  intros Hr Hq. unfold dispatch. rewrite Hr, Hq. simpl.
  repeat split.
  - f_equal. unfold dispatch_burst_time.
    rewrite list_lookup_total_alter. case_decide; done.
  - do 2 f_equal. rewrite !list_lookup_total_alter.
    unfold dispatch_burst_time. case_decide; done.
Qed.

Lemma completion_check_spec (s : State) :
  let s' := completion_check s in
  all_processes s' = all_processes s /\
  ready_queue s' = ready_queue s /\
  waiting_queue s' = waiting_queue s /\
  running_process s' = running_process s /\
  running_until s' = running_until s /\
  current_clock s' = current_clock s /\
  last_aging_check s' = last_aging_check s /\
  output s' = output s /\
  all_terminated s' =
    all_terminated s ||
    (all_done (all_processes s) && bool_decide (running_process s = None)).
Proof.
  unfold completion_check.
  destruct (all_done _ && bool_decide _); simpl;
    repeat split; by rewrite ?orb_true_r, ?orb_false_r.
Qed.

Lemma io_manager_pass_spec (clock : Z) (s : State) :
  let s' := io_manager_pass clock s in
  transforms (fun i p => if bool_decide (i ∈ waiting_queue s) && io_done clock p
                         then completed p else p)
    (all_processes s) (all_processes s') /\
  waiting_queue s' =
    filter (fun i => io_done clock (all_processes s !!! i) = false)
      (waiting_queue s) /\
  ready_queue s' ≡ₚ
    ready_queue s ++
    filter (fun i => io_done clock (all_processes s !!! i) = true)
      (waiting_queue s) /\
  (ordered (all_processes s) (ready_queue s) ->
   ordered (all_processes s') (ready_queue s')) /\
  running_process s' = running_process s /\
  running_until s' = running_until s /\
  current_clock s' = current_clock s /\
  last_aging_check s' = last_aging_check s /\
  all_terminated s' = all_terminated s.
Proof.
  unfold io_manager_pass.
  destruct (io_scan _ _ _ _ _) as [[[ps' ready'] kept] out'] eqn:E. simpl.
  apply io_scan_spec in E as (HT & HK & HP & HO). by repeat split.
Qed.

(** ** The placement invariant

    Every block is where its state says: in the ready queue, in the
    waiting queue, in the running slot, not yet arrived, or terminated;
    and the ready queue is in Priority-SRTF order. *)

Lemma Inv_update G (s s' : State) :
  Inv s ->
  transforms G (all_processes s) (all_processes s') ->
  (forall i p, all_processes s !! i = Some p -> placed s i p ->
               placed s' i (G i p)) ->
  (forall i, i ∈ ready_queue s' -> (i < length (all_processes s))%nat) ->
  (forall i, i ∈ waiting_queue s' -> (i < length (all_processes s))%nat) ->
  (forall i, running_process s' = Some i -> (i < length (all_processes s))%nat) ->
  NoDup (ready_queue s') -> NoDup (waiting_queue s') ->
  ordered (all_processes s') (ready_queue s') ->
  Inv s'.
Proof.
  intros HI HT HP Hr Hw Hrun Hnr Hnw Ho.
  pose proof (transforms_length _ _ _ HT) as Hlen.
  constructor; rewrite ?Hlen; try done.
  intros i p' Hp'.
  destruct (transforms_lookup_inv _ _ _ _ _ HT Hp') as (p & Hp & ->).
  apply HP; [done|]. by apply HI.
Qed.

Lemma lookup_of_range (ps : Procs) i :
  (i < length ps)%nat -> ps !! i = Some (ps !!! i).
Proof. apply list_lookup_lookup_total_lt. Qed.

Lemma Inv_initial (input : list Fields) : Inv (initial_state (load input)).
Proof.
  constructor; simpl;
    [|intros i; by rewrite ?elem_of_nil..|constructor|constructor|constructor].
  intros i p Hp. unfold load in Hp. rewrite list_lookup_fmap in Hp.
  destruct (input !! i) as [[[[[[a b] c] d] e] f]|]; [|done].
  inversion Hp; subst. unfold placed; simpl.
  rewrite !elem_of_nil. logic.
Qed.

Lemma Inv_advance_clock s : Inv s -> Inv (advance_clock s).
Proof. intros []. by constructor. Qed.

Lemma arrives_new s i p :
  placed s i p -> arrives (current_clock s) p = true ->
  state p = STATE_NEW.
Proof.
  intros (_ & _ & _ & Hn) Ha. apply Hn.
  unfold arrives in Ha. by destruct (has_arrived p).
Qed.

Lemma Inv_check_arrivals s : Inv s -> Inv (check_arrivals s).
Proof.
  intros HI.
  destruct (check_arrivals_spec s) as (HT & HP & HO & Hw & Hr & _).
  assert (Hmem : forall i p, all_processes s !! i = Some p ->
    i ∈ ready_queue (check_arrivals s) <->
    i ∈ ready_queue s \/ arrives (current_clock s) p = true).
  { intros i p Hp. rewrite HP, elem_of_app, list_elem_of_filter, elem_of_seq.
    rewrite (list_lookup_total_correct _ _ _ Hp).
    apply lookup_lt_Some in Hp. intuition lia. }
  eapply Inv_update; [done|exact HT|..]; rewrite ?Hw, ?Hr;
    try apply HI.
  - intros i p Hp Hpl. pose proof (Hmem i p Hp) as Hm. cbv beta.
    destruct (arrives (current_clock s) p) eqn:Ha.
    + pose proof (arrives_new _ _ _ Hpl Ha) as Hn.
      destruct Hpl as (H1 & H2 & H3 & H4).
      unfold placed. rewrite Hw, Hr, Hm. simpl.
      rewrite <- H2, <- H3, Hn. logic.
    + destruct Hpl as (H1 & H2 & H3 & H4).
      unfold placed. rewrite Hw, Hr, Hm. logic.
  - intros i. rewrite HP, elem_of_app, list_elem_of_filter, elem_of_seq.
    intros [Hi|[_ Hi]]; [by apply HI|lia].
  - rewrite HP. apply NoDup_app. split; [apply HI|]. split.
    + intros i Hi. rewrite list_elem_of_filter. intros [Ha _].
      pose proof (lookup_of_range _ _ (inv_ready_range _ HI _ Hi)) as Hp.
      pose proof (inv_placed _ HI _ _ Hp) as Hpl.
      pose proof (arrives_new _ _ _ Hpl Ha) as Hn.
      destruct Hpl as (H1 & _). apply H1 in Hi. congruence.
    + apply NoDup_filter, NoDup_seq.
  - apply HO, HI.
Qed.

Lemma age_frame e p :
  state (age e p) = state p /\ has_arrived (age e p) = has_arrived p /\
  remaining_time (age e p) = remaining_time p /\
  io_completion_time (age e p) = io_completion_time p /\
  pid (age e p) = pid p /\ arrival_time (age e p) = arrival_time p /\
  cpu_execution_time (age e p) = cpu_execution_time p /\
  interval_time (age e p) = interval_time p /\
  io_time (age e p) = io_time p /\
  original_priority (age e p) = original_priority p.
Proof.
  unfold age. simpl.
  destruct (100 <=? _); simpl; [|done].
  destruct (0 <? _); simpl; [|done].
  destruct (_ <? 0); done.
Qed.

Lemma aged_frame e b p :
  state (aged e b p) = state p /\ has_arrived (aged e b p) = has_arrived p /\
  remaining_time (aged e b p) = remaining_time p /\
  io_completion_time (aged e b p) = io_completion_time p /\
  pid (aged e b p) = pid p /\ arrival_time (aged e b p) = arrival_time p /\
  cpu_execution_time (aged e b p) = cpu_execution_time p /\
  interval_time (aged e b p) = interval_time p /\
  io_time (aged e b p) = io_time p /\
  original_priority (aged e b p) = original_priority p /\
  priority (aged e b p) = priority (age e p).
Proof.
  pose proof (age_frame e p). unfold aged. destruct b; simpl; logic.
Qed.

Lemma ordered_agree (ps ps' : Procs) (q : Queue) :
  (forall i, i ∈ q -> priority (ps' !!! i) = priority (ps !!! i) /\
                      remaining_time (ps' !!! i) = remaining_time (ps !!! i)) ->
  ordered ps q -> ordered ps' q.
Proof.
  unfold ordered. intros H Hq. induction Hq as [|a q Hq IH Ha]; constructor.
  - apply IH. intros i Hi. apply H. by right.
  - apply Forall_forall. intros b Hb.
    rewrite Forall_forall in Ha. specialize (Ha b Hb).
    unfold not_after in *.
    destruct (H a) as [? ?]; [left|]. destruct (H b) as [? ?]; [by right|].
    by rewrite (should_insert_key _ (ps !!! b) _ (ps !!! a)).
Qed.

Lemma Inv_aging_check s : Inv s -> Inv (aging_check s).
Proof.
  intros HI.
  destruct (aging_check_spec s (inv_ready_nodup _ HI))
    as (HT & HP & HO & Hw & Hr & _).
  eapply Inv_update; [done|exact HT|..]; rewrite ?Hw, ?Hr, ?HP.
  - intros i p Hp (H1 & H2 & H3 & H4). cbv beta.
    unfold placed. rewrite Hw, Hr, HP.
    destruct (_ && _); [|done].
    destruct (aged_frame (current_clock s - last_aging_check s)
      (negb (Z.of_nat (length (ready_queue s)) <=? 1)) p) as (-> & -> & _).
    done.
  - intros i. rewrite HP. apply (inv_ready_range _ HI).
  - apply (inv_waiting_range _ HI).
  - apply (inv_running_range _ HI).
  - apply (inv_ready_nodup _ HI).
  - apply (inv_waiting_nodup _ HI).
  - apply HO, (inv_ordered _ HI).
Qed.

Lemma resolve_frame c ru p :
  has_arrived (resolve c ru p) = has_arrived p /\
  priority (resolve c ru p) = priority p /\
  pid (resolve c ru p) = pid p /\
  arrival_time (resolve c ru p) = arrival_time p /\
  cpu_execution_time (resolve c ru p) = cpu_execution_time p /\
  interval_time (resolve c ru p) = interval_time p /\
  io_time (resolve c ru p) = io_time p /\
  original_priority (resolve c ru p) = original_priority p /\
  remaining_time (resolve c ru p) =
    remaining_time p - resolved_burst_time c ru p /\
  (state (resolve c ru p) = STATE_TERMINATED /\
     remaining_time p - resolved_burst_time c ru p <= 0 \/
   state (resolve c ru p) = STATE_WAITING /\
     0 < remaining_time p - resolved_burst_time c ru p /\
     io_completion_time (resolve c ru p) = c + io_time p).
Proof.
  unfold resolve. simpl.
  destruct (Z.leb_spec (remaining_time p - resolved_burst_time c ru p) 0);
    simpl; repeat split; auto.
Qed.

Lemma Inv_burst_resolution s : Inv s -> Inv (burst_resolution s).
Proof.
  intros HI.
  destruct (running_process s) as [r|] eqn:Hr;
    [|by rewrite burst_resolution_idle by (by left)].
  destruct (Z.le_gt_cases (running_until s) (current_clock s)) as [Hle|Hgt];
    [|by rewrite burst_resolution_idle by (right; lia)].
  pose proof (lookup_of_range _ _ (inv_running_range _ HI _ Hr)) as Hp.
  destruct (burst_resolution_spec s r _ Hr Hp Hle)
    as (Hps & Hq & Hw & Hrun & _).
  pose proof (inv_placed _ HI _ _ Hp) as (Hr1 & Hr2 & Hr3 & Hr4).
  assert (Hst : state (all_processes s !!! r) = STATE_RUNNING) by by apply Hr3.
  assert (Hrw : r ∉ waiting_queue s).
  { intros Hin. apply Hr2 in Hin. congruence. }
  assert (Hrr : r ∉ ready_queue s).
  { intros Hin. apply Hr1 in Hin. congruence. }
  set (p' := resolve (current_clock s) (running_until s)
               (all_processes s !!! r)) in *.
  destruct (resolve_frame (current_clock s) (running_until s)
              (all_processes s !!! r)) as (Ha & _ & _ & _ & _ & _ & _ & _ & _ & Hs).
  fold p' in Ha, Hs.
  assert (Hmw : forall i, i ∈ waiting_queue (burst_resolution s) <->
                  i ∈ waiting_queue s \/ (i = r /\ state p' = STATE_WAITING)).
  { intros i. rewrite Hw. destruct Hs as [[-> _]|[-> _]].
    - logic.
    - rewrite elem_of_app, list_elem_of_singleton. logic. }
  eapply Inv_update; [done|rewrite Hps; apply transforms_alter|..];
    rewrite ?Hq, ?Hrun.
  - intros i p Hpi (H1 & H2 & H3 & H4). cbv beta.
    unfold placed. rewrite Hq, Hrun, Hmw.
    destruct (decide (r = i)) as [->|Hne].
    + assert (p = all_processes s !!! i) as ->
        by (symmetry; by apply list_lookup_total_correct).
      fold p'. rewrite Ha.
      destruct Hs as [[Hs _]|[Hs _]]; rewrite Hs; clear Hmw;
        intuition (try discriminate; try congruence).
    + rewrite H3, Hr. clear Hmw. intuition (try discriminate; try congruence).
  - apply (inv_ready_range _ HI).
  - intros i. rewrite Hmw.
    intros [Hi|[-> _]]; [by apply (inv_waiting_range _ HI)|].
    by apply (inv_running_range _ HI).
  - intros i [=].
  - apply (inv_ready_nodup _ HI).
  - rewrite Hw. pose proof (inv_waiting_nodup _ HI) as Hnd.
    destruct (state p'); try exact Hnd.
    all: apply NoDup_app; split; [exact Hnd|]; split; [|apply NoDup_singleton].
    all: intros i Hi; rewrite list_elem_of_singleton; by intros ->.
  - eapply ordered_agree; [|apply (inv_ordered _ HI)].
    intros i Hi. rewrite Hps, list_lookup_total_alter_ne; [done|].
    by intros ->.
Qed.

Lemma Inv_dispatch s : Inv s -> Inv (dispatch s).
Proof.
  intros HI.
  destruct (running_process s) as [r|] eqn:Hr;
    [by rewrite dispatch_idle by (left; by rewrite Hr)|].
  destruct (ready_queue s) as [|r rest] eqn:Hq;
    [by rewrite dispatch_idle by (by right)|].
  destruct (dispatch_spec s r rest Hr Hq) as (Hps & Hq' & Hw & Hrun & _).
  assert (Hin : r ∈ ready_queue s) by (rewrite Hq; left).
  pose proof (lookup_of_range _ _ (inv_ready_range _ HI _ Hin)) as Hp.
  pose proof (inv_placed _ HI _ _ Hp) as (Hr1 & Hr2 & Hr3 & Hr4).
  assert (Hst : state (all_processes s !!! r) = STATE_READY) by by apply Hr1.
  pose proof (inv_ready_nodup _ HI) as Hnd. rewrite Hq in Hnd.
  apply NoDup_cons in Hnd as [Hnr Hnd].
  eapply Inv_update; [done|rewrite Hps; apply transforms_alter|..];
    rewrite ?Hq', ?Hw, ?Hrun.
  - intros i p Hpi (H1 & H2 & H3 & H4). cbv beta.
    unfold placed. rewrite Hq', Hw, Hrun.
    destruct (decide (r = i)) as [->|Hne]; simpl.
    + assert (p = all_processes s !!! i) as ->
        by (symmetry; by apply list_lookup_total_correct).
      rewrite <- H2, <- H4, Hst. logic.
    + rewrite H1, H3, Hr, Hq, elem_of_cons. logic.
  - intros i Hi. apply (inv_ready_range _ HI). rewrite Hq. by right.
  - apply (inv_waiting_range _ HI).
  - intros i [= <-]. by apply (inv_ready_range _ HI).
  - done.
  - apply (inv_waiting_nodup _ HI).
  - pose proof (inv_ordered _ HI) as Ho. rewrite Hq in Ho.
    apply StronglySorted_inv in Ho as [Ho _].
    eapply ordered_same_keys; [|exact Ho].
    rewrite Hps. by apply same_keys_alter.
Qed.

Lemma Inv_completion_check s : Inv s -> Inv (completion_check s).
Proof.
  intros HI.
  destruct (completion_check_spec s) as (Hps & Hq & Hw & Hr & _).
  destruct HI as [H1 H2 H3 H4 H5 H6 H7].
  constructor; unfold placed in *; rewrite ?Hps, ?Hq, ?Hw, ?Hr; assumption.
Qed.

Lemma Inv_scheduler_tick s : Inv s -> Inv (scheduler_tick s).
Proof.
  intros HI. unfold scheduler_tick. destruct (all_terminated s); [done|].
  by apply Inv_completion_check, Inv_dispatch, Inv_burst_resolution,
    Inv_aging_check, Inv_check_arrivals, Inv_advance_clock.
Qed.

Lemma Inv_io_manager_pass clock s : Inv s -> Inv (io_manager_pass clock s).
Proof.
  intros HI.
  destruct (io_manager_pass_spec clock s) as (HT & HK & HP & HO & Hr & _).
  assert (Hmr : forall i p, all_processes s !! i = Some p ->
    i ∈ ready_queue (io_manager_pass clock s) <->
    i ∈ ready_queue s \/ (i ∈ waiting_queue s /\ io_done clock p = true)).
  { intros i p Hp. rewrite HP, elem_of_app, list_elem_of_filter.
    rewrite (list_lookup_total_correct _ _ _ Hp). logic. }
  assert (Hmw : forall i p, all_processes s !! i = Some p ->
    i ∈ waiting_queue (io_manager_pass clock s) <->
    i ∈ waiting_queue s /\ io_done clock p = false).
  { intros i p Hp. rewrite HK, list_elem_of_filter.
    rewrite (list_lookup_total_correct _ _ _ Hp). logic. }
  eapply Inv_update; [done|exact HT|..]; rewrite ?Hr.
  - intros i p Hp (H1 & H2 & H3 & H4). cbv beta.
    unfold placed. rewrite Hr, (Hmr i p Hp), (Hmw i p Hp).
    destruct (decide (i ∈ waiting_queue s)) as [Hi|Hi].
    + rewrite bool_decide_eq_true_2 by done. simpl.
      assert (Hs : state p = STATE_WAITING) by by apply H2.
      destruct (io_done clock p) eqn:Hd; simpl.
      * rewrite <- H3, <- H4, Hs. logic.
      * rewrite <- H1, <- H2. logic.
    + rewrite bool_decide_eq_false_2 by done. simpl.
      rewrite <- H1, <- H2. logic.
  - intros i. rewrite HP, elem_of_app, list_elem_of_filter.
    intros [Hi|[_ Hi]]; [by apply (inv_ready_range _ HI)
                        |by apply (inv_waiting_range _ HI)].
  - intros i. rewrite HK, list_elem_of_filter. intros [_ Hi].
    by apply (inv_waiting_range _ HI).
  - apply (inv_running_range _ HI).
  - rewrite HP. apply NoDup_app. split; [apply (inv_ready_nodup _ HI)|]. split.
    + intros i Hi. rewrite list_elem_of_filter. intros [_ Hw].
      pose proof (lookup_of_range _ _ (inv_ready_range _ HI _ Hi)) as Hp.
      pose proof (inv_placed _ HI _ _ Hp) as (H1 & H2 & _).
      apply H1 in Hi. apply H2 in Hw. congruence.
    + apply NoDup_filter, (inv_waiting_nodup _ HI).
  - rewrite HK. apply NoDup_filter, (inv_waiting_nodup _ HI).
  - apply HO, (inv_ordered _ HI).
Qed.

Lemma Inv_step s s' : step s s' -> Inv s -> Inv s'.
Proof.
  intros [|]; [apply Inv_scheduler_tick|intros; by apply Inv_io_manager_pass].
Qed.

Lemma Inv_reachable input s : reachable input s -> Inv s.
Proof.
  unfold reachable. intros H.
  eapply (rtc_ind_r (fun s => Inv s)); [apply Inv_initial| |exact H].
  intros y z _ Hs Hy. by eapply Inv_step.
Qed.

Lemma Inv_perform a s : Inv s -> Inv (perform a s).
Proof.
  destruct a; [apply Inv_scheduler_tick|apply Inv_io_manager_pass].
Qed.

Lemma Inv_execute schedule s : Inv s -> Inv (execute schedule s).
Proof.
  unfold execute. revert s.
  induction schedule as [|a l IH]; intros s HI; simpl; [done|].
  by apply IH, Inv_perform.
Qed.

(** ** The life cycle of a block

    Every change that an execution makes to a block is one of five
    transitions.  A relation closed under them relates each block to its
    later versions. *)

Lemma transforms_Forall2 G (R : Process -> Process -> Prop) (ps ps' : Procs) :
  transforms G ps ps' ->
  (forall i p, ps !! i = Some p -> R p (G i p)) ->
  Forall2 R ps ps'.
Proof.
  intros HT HR. apply Forall2_same_length_lookup.
  split; [symmetry; by eapply transforms_length|].
  intros i p p' Hp Hp'. rewrite HT, Hp in Hp'. inversion Hp'; subst.
  by apply HR.
Qed.

Section Lifecycle.

Variable R : Process -> Process -> Prop.
Hypothesis R_refl : forall p, R p p.

Lemma advance_clock_pointwise s :
  Forall2 R (all_processes s) (all_processes (advance_clock s)).
Proof. simpl. by apply Forall_Forall2_diag, Forall_forall. Qed.

Lemma check_arrivals_pointwise s :
  arrival_closed R -> Inv s ->
  Forall2 R (all_processes s) (all_processes (check_arrivals s)).
Proof.
  intros HR HI. destruct (check_arrivals_spec s) as (HT & _).
  eapply transforms_Forall2; [exact HT|].
  intros i p Hp. cbv beta.
  destruct (arrives (current_clock s) p) eqn:Ha; [|done].
  apply (HR (current_clock s)); [|done].
  eapply arrives_new; [|exact Ha]. by apply (inv_placed _ HI).
Qed.

Lemma aging_check_pointwise s :
  aging_closed R -> Inv s ->
  Forall2 R (all_processes s) (all_processes (aging_check s)).
Proof.
  intros HR HI.
  destruct (aging_check_spec s (inv_ready_nodup _ HI)) as (HT & _).
  eapply transforms_Forall2; [exact HT|].
  intros i p Hp. cbv beta.
  destruct (last_aging_check s <? current_clock s); [|done]. simpl.
  case_bool_decide as Hi; [|done].
  apply HR. by apply (inv_placed _ HI i p Hp).
Qed.

Lemma burst_resolution_pointwise s :
  resolve_closed R -> Inv s ->
  Forall2 R (all_processes s) (all_processes (burst_resolution s)).
Proof.
  intros HR HI.
  destruct (running_process s) as [r|] eqn:Hr;
    [|rewrite burst_resolution_idle by (by left);
      by apply Forall_Forall2_diag, Forall_forall].
  destruct (Z.le_gt_cases (running_until s) (current_clock s)) as [Hle|Hgt];
    [|rewrite burst_resolution_idle by (right; lia);
      by apply Forall_Forall2_diag, Forall_forall].
  pose proof (lookup_of_range _ _ (inv_running_range _ HI _ Hr)) as Hp.
  destruct (burst_resolution_spec s r _ Hr Hp Hle) as (-> & _).
  eapply transforms_Forall2; [apply transforms_alter|].
  intros i p Hpi. cbv beta. case_decide as Hi; [subst i|done].
  apply HR; [|done]. by apply (inv_placed _ HI r p Hpi).
Qed.

Lemma dispatch_pointwise s :
  dispatch_closed R -> Inv s ->
  Forall2 R (all_processes s) (all_processes (dispatch s)).
Proof.
  intros HR HI.
  destruct (running_process s) as [r|] eqn:Hr;
    [rewrite dispatch_idle by (left; by rewrite Hr);
     by apply Forall_Forall2_diag, Forall_forall|].
  destruct (ready_queue s) as [|r rest] eqn:Hq;
    [rewrite dispatch_idle by (by right);
     by apply Forall_Forall2_diag, Forall_forall|].
  destruct (dispatch_spec s r rest Hr Hq) as (-> & _).
  eapply transforms_Forall2; [apply transforms_alter|].
  intros i p Hpi. cbv beta. case_decide as Hi; [subst i|done].
  apply HR. apply (inv_placed _ HI r p Hpi). rewrite Hq. left.
Qed.

Lemma completion_check_pointwise s :
  Forall2 R (all_processes s) (all_processes (completion_check s)).
Proof.
  destruct (completion_check_spec s) as (-> & _).
  by apply Forall_Forall2_diag, Forall_forall.
Qed.

Lemma io_manager_pass_pointwise clock s :
  complete_closed R -> Inv s ->
  Forall2 R (all_processes s) (all_processes (io_manager_pass clock s)).
Proof.
  intros HR HI. destruct (io_manager_pass_spec clock s) as (HT & _).
  eapply transforms_Forall2; [exact HT|].
  intros i p Hp. cbv beta.
  case_bool_decide as Hi; [|done]. simpl.
  destruct (io_done clock p) eqn:Hd; [|done].
  apply (HR clock); [|done]. by apply (inv_placed _ HI i p Hp).
Qed.

Hypothesis R_trans : forall p q r, R p q -> R q r -> R p r.

Lemma Forall2_R_trans (l k m : Procs) :
  Forall2 R l k -> Forall2 R k m -> Forall2 R l m.
Proof. apply Forall2_trans. intros p q r. apply R_trans. Qed.

Lemma scheduler_tick_pointwise s :
  lifecycle_closed R -> Inv s ->
  Forall2 R (all_processes s) (all_processes (scheduler_tick s)).
Proof.
  intros (H1 & H2 & H3 & H4 & H5) HI. unfold scheduler_tick.
  destruct (all_terminated s);
    [by apply Forall_Forall2_diag, Forall_forall|].
  pose proof (Inv_advance_clock _ HI) as I1.
  pose proof (Inv_check_arrivals _ I1) as I2.
  pose proof (Inv_aging_check _ I2) as I3.
  pose proof (Inv_burst_resolution _ I3) as I4.
  pose proof (Inv_dispatch _ I4) as I5.
  eapply Forall2_R_trans; [exact (advance_clock_pointwise s)|].
  eapply Forall2_R_trans; [exact (check_arrivals_pointwise _ H1 I1)|].
  eapply Forall2_R_trans; [exact (aging_check_pointwise _ H2 I2)|].
  eapply Forall2_R_trans; [exact (burst_resolution_pointwise _ H3 I3)|].
  eapply Forall2_R_trans; [exact (dispatch_pointwise _ H4 I4)|].
  apply completion_check_pointwise.
Qed.

Lemma step_pointwise s s' :
  lifecycle_closed R -> Inv s -> step s s' ->
  Forall2 R (all_processes s) (all_processes s').
Proof.
  intros HR HI Hs. destruct Hs as [s|s c Hc].
  - by apply scheduler_tick_pointwise.
  - apply io_manager_pass_pointwise; [apply HR|done].
Qed.

Lemma steps_pointwise s s' :
  lifecycle_closed R -> Inv s -> rtc step s s' ->
  Forall2 R (all_processes s) (all_processes s').
Proof.
  intros HR HI H. induction H as [s|s1 s2 s3 H12 H23 IH].
  - by apply Forall_Forall2_diag, Forall_forall.
  - eapply Forall2_R_trans; [by apply step_pointwise|].
    apply IH. by eapply Inv_step.
Qed.

End Lifecycle.

(** ** Priority and remaining time along an execution *)

Lemma evolves_refl p : evolves p p.
Proof. constructor; done. Qed.

Lemma evolves_trans p q r : evolves p q -> evolves q r -> evolves p r.
Proof.
  intros [] []. constructor; try congruence; try lia; try tauto.
  intros Hs. destruct (ev_sound0 Hs) as [Hq ?].
  destruct (ev_sound1 Hq) as [Hr ?]. split; [done|lia].
Qed.

Lemma age_priority e p :
  priority (age e p) <= priority p /\
  (0 <= priority p -> 0 <= priority (age e p)).
Proof.
  unfold age. simpl.
  destruct (Z.leb_spec 100 (time_in_ready_queue p + e)); simpl; [|lia].
  destruct (Z.ltb_spec 0 (priority p)); simpl; [|lia].
  assert (0 <= Z.quot (time_in_ready_queue p + e) 100)
    by (apply Z.quot_pos; lia).
  destruct (Z.ltb_spec (priority p - (time_in_ready_queue p + e) ÷ 100) 0);
    simpl; lia.
Qed.

Lemma resolved_burst_time_bounds c ru p :
  ru <= c -> 0 < interval_time p -> 0 < remaining_time p ->
  0 < resolved_burst_time c ru p <= remaining_time p.
Proof.
  intros. unfold resolved_burst_time.
  destruct (Z.ltb_spec (remaining_time p) (c - (ru - interval_time p))); lia.
Qed.

Lemma sound_positive p :
  sound p -> state p <> STATE_TERMINATED -> 0 < remaining_time p.
Proof. intros (? & ? & Ht) Hs. assert (remaining_time p <> 0) by tauto. lia. Qed.

Lemma evolves_lifecycle : lifecycle_closed evolves.
Proof.
  split; [|split; [|split; [|split]]].
  - intros c p Hs Ha. constructor; try done; simpl.
    intros Hp. pose proof (sound_positive p Hp) as Hpos.
    destruct Hp as (? & ? & ?). unfold sound. simpl.
    rewrite Hs in Hpos. split; [|lia]. split; [done|]. split; [done|].
    split; [done|]. intros Hz. lapply Hpos; [lia|done].
  - intros e b p Hs.
    destruct (aged_frame e b p)
      as (H1 & H2 & H3 & H4 & H5 & H6 & H7 & H8 & H9 & H10 & H11).
    destruct (age_priority e p) as [Hle Hfl].
    constructor; try done; rewrite ?H11; try done.
    unfold sound. rewrite H1, H3, H7, H8. intros ?. split; [done|lia].
  - intros c ru p Hs Hle.
    destruct (resolve_frame c ru p)
      as (H1 & H2 & H3 & H4 & H5 & H6 & H7 & H8 & H9 & H10).
    constructor; try done; rewrite ?H2; try done.
    intros Hp. pose proof (sound_positive p Hp) as Hpos.
    rewrite Hs in Hpos. lapply Hpos; [clear Hpos; intros Hpos|done].
    destruct Hp as (Hi & Hr & Ht).
    pose proof (resolved_burst_time_bounds c ru p Hle Hi Hpos) as Hb.
    unfold sound. rewrite H5, H6, H9.
    split; [|lia]. split; [done|]. split; [lia|].
    destruct H10 as [[-> ?]|[-> [? ?]]]; split; try done; lia.
  - intros p Hs. constructor; try done; simpl.
    intros Hp. pose proof (sound_positive p Hp) as Hpos.
    destruct Hp as (? & ? & ?). unfold sound. simpl.
    rewrite Hs in Hpos. split; [|lia]. split; [done|]. split; [done|].
    split; [done|]. intros Hz. lapply Hpos; [lia|done].
  - intros c p Hs Hd. constructor; try done; simpl.
    intros Hp. pose proof (sound_positive p Hp) as Hpos.
    destruct Hp as (? & ? & ?). unfold sound. simpl.
    rewrite Hs in Hpos. split; [|lia]. split; [done|]. split; [done|].
    split; [done|]. intros Hz. lapply Hpos; [lia|done].
Qed.

Lemma step_evolves s s' :
  Inv s -> step s s' ->
  Forall2 evolves (all_processes s) (all_processes s').
Proof.
  apply step_pointwise;
    [apply evolves_refl|apply evolves_trans|apply evolves_lifecycle].
Qed.

Lemma reachable_evolves input s :
  reachable input s -> Forall2 evolves (load input) (all_processes s).
Proof.
  intros H.
  apply (steps_pointwise evolves evolves_refl evolves_trans
           (initial_state (load input)) s evolves_lifecycle
           (Inv_initial input) H).
Qed.

Lemma init_process_sound f : well_formed f -> sound (init_process f).
Proof.
  destruct f as [[[[[a b] c] d] e] g]. simpl. intros [? ?].
  unfold sound. simpl. split; [done|]. split; [lia|]. split; [done|lia].
Qed.

(** ** The dispatch line of the running block *)

Lemma last_dispatch_from_app acc l k :
  last_dispatch_from acc (l ++ k) =
  last_dispatch_from (last_dispatch_from acc l) k.
Proof. revert acc. induction l as [|e l IH]; intros acc; simpl; [done|apply IH]. Qed.

Lemma quiet_refl out : quiet out out.
Proof. exists []. by rewrite app_nil_r. Qed.

Lemma quiet_trans o1 o2 o3 : quiet o1 o2 -> quiet o2 o3 -> quiet o1 o3.
Proof.
  intros (e1 & -> & H1) (e2 & -> & H2). exists (e1 ++ e2).
  split; [by rewrite app_assoc|]. by apply Forall_app.
Qed.

Lemma quiet_snoc out e : is_dispatch e = false -> quiet out (out ++ [e]).
Proof. intros H. exists [e]. split; [done|]. by repeat constructor. Qed.

Lemma quiet_last_dispatch out out' :
  quiet out out' -> last_dispatch out' = last_dispatch out.
Proof.
  intros (evs & -> & H). unfold last_dispatch.
  rewrite last_dispatch_from_app.
  generalize (last_dispatch_from None out). intros acc.
  induction H as [|e evs He _ IH]; simpl; [done|]. by rewrite He.
Qed.

Lemma last_dispatch_snoc out e :
  is_dispatch e = true -> last_dispatch (out ++ [e]) = Some e.
Proof.
  intros H. unfold last_dispatch. rewrite last_dispatch_from_app. simpl.
  by rewrite H.
Qed.

Lemma arrival_step_quiet clock (l : list nat) :
  forall (ps : Procs) (ready : Queue) out ps' ready' out',
  foldl (arrival_step clock) (ps, ready, out) l = (ps', ready', out') ->
  quiet out out'.
Proof.
  induction l as [|c r IH]; intros ps ready out ps' ready' out'; simpl.
  - intros [= <- <- <-]. apply quiet_refl.
  - destruct (negb _ && _).
    + rewrite insert_ready_queue_eq. intros H. apply IH in H.
      eapply quiet_trans; [|exact H].
      eapply quiet_trans; by apply quiet_snoc.
    + apply IH.
Qed.

Lemma check_arrivals_quiet s : quiet (output s) (output (check_arrivals s)).
Proof.
  unfold check_arrivals.
  destruct (foldl _ _ _) as [[ps' ready'] out'] eqn:E. simpl.
  by apply arrival_step_quiet in E.
Qed.

Lemma aging_check_output s : output (aging_check s) = output s.
Proof.
  unfold aging_check. destruct (_ <? _); [|done].
  by destruct (resort_ready_queue _ _).
Qed.

Lemma burst_resolution_quiet s :
  quiet (output s) (output (burst_resolution s)).
Proof.
  unfold burst_resolution.
  destruct (running_process s); [|apply quiet_refl].
  destruct (_ <=? _); [|apply quiet_refl].
  destruct (_ <=? 0); simpl; by apply quiet_snoc.
Qed.

Lemma io_scan_quiet clock (w : Queue) :
  forall (ps : Procs) (ready : Queue) out ps' ready' kept out',
  io_scan clock w ps ready out = (ps', ready', kept, out') ->
  quiet out out'.
Proof.
  induction w as [|c r IH]; intros ps ready out ps' ready' kept out'; simpl.
  - intros [= <- <- <- <-]. apply quiet_refl.
  - destruct (_ <=? _).
    + rewrite insert_ready_queue_eq. intros H. apply IH in H.
      eapply quiet_trans; [|exact H].
      eapply quiet_trans; by apply quiet_snoc.
    + destruct (io_scan clock r ps ready out) as [[[ps2 ready2] kept2] out2] eqn:E.
      intros [= <- <- <- <-]. by apply IH in E.
Qed.

Lemma io_manager_pass_quiet clock s :
  quiet (output s) (output (io_manager_pass clock s)).
Proof.
  unfold io_manager_pass.
  destruct (io_scan _ _ _ _ _) as [[[ps' ready'] kept] out'] eqn:E. simpl.
  by apply io_scan_quiet in E.
Qed.

(** ** The burst of the running block *)

Lemma same_burst_refl p : same_burst p p.
Proof. done. Qed.

Lemma same_burst_dispatch_burst_time p p' :
  same_burst p p' -> dispatch_burst_time p' = dispatch_burst_time p.
Proof. intros (_ & H1 & H2). unfold dispatch_burst_time. by rewrite H1, H2. Qed.

Lemma sound_step s s' :
  Inv s -> step s s' -> Forall sound (all_processes s) ->
  Forall sound (all_processes s').
Proof.
  intros HI Hs Hf. pose proof (step_evolves s s' HI Hs) as He.
  apply Forall_lookup. intros i p' Hp'.
  destruct (Forall2_lookup_r _ _ _ _ _ He Hp') as (p & Hp & Hev).
  apply (ev_sound _ _ Hev). by eapply Forall_lookup_1.
Qed.

Lemma dispatch_burst_time_positive p :
  sound p -> state p <> STATE_TERMINATED -> 0 < dispatch_burst_time p.
Proof.
  intros Hp Hs. pose proof (sound_positive p Hp Hs). destruct Hp as (? & _).
  unfold dispatch_burst_time. destruct (_ <? _); lia.
Qed.

Lemma same_burst_trans p q r : same_burst p q -> same_burst q r -> same_burst p r.
Proof. intros (? & ? & ?) (? & ? & ?). repeat split; congruence. Qed.

Lemma same_burst_arrival : arrival_closed same_burst.
Proof. intros c p _ _. done. Qed.

Lemma same_burst_aging : aging_closed same_burst.
Proof.
  intros e b p _. destruct (aged_frame e b p) as (_ & _ & H3 & _ & H5 & _ & _ & H8 & _).
  done.
Qed.

Lemma same_burst_dispatch : dispatch_closed same_burst.
Proof. intros p _. done. Qed.

Lemma same_burst_complete : complete_closed same_burst.
Proof. intros c p _ _. done. Qed.

Lemma Forall2_evolves_sound (ps ps' : Procs) :
  Forall2 evolves ps ps' -> Forall sound ps -> Forall sound ps'.
Proof.
  intros He Hf. apply Forall_lookup. intros i p' Hp'.
  destruct (Forall2_lookup_r _ _ _ _ _ He Hp') as (p & Hp & Hev).
  apply (ev_sound _ _ Hev). by eapply Forall_lookup_1.
Qed.

Lemma front_spec s :
  Inv s ->
  Inv (front s) /\
  running_process (front s) = running_process s /\
  running_until (front s) = running_until s /\
  current_clock (front s) = current_clock s + 1 /\
  waiting_queue (front s) = waiting_queue s /\
  all_terminated (front s) = all_terminated s /\
  quiet (output s) (output (front s)) /\
  Forall2 same_burst (all_processes s) (all_processes (front s)) /\
  (Forall sound (all_processes s) -> Forall sound (all_processes (front s))).
Proof.
  intros HI. unfold front.
  pose proof (Inv_advance_clock _ HI) as I1.
  pose proof (Inv_check_arrivals _ I1) as I2.
  pose proof (Inv_aging_check _ I2) as I3.
  destruct (check_arrivals_spec (advance_clock s))
    as (_ & _ & _ & Hw2 & Hr2 & Hu2 & Hc2 & _ & Ht2).
  destruct (aging_check_spec (check_arrivals (advance_clock s))
              (inv_ready_nodup _ I2))
    as (_ & _ & _ & Hw3 & Hr3 & Hu3 & Hc3 & Ht3).
  split; [done|].
  split; [by rewrite Hr3, Hr2|]. split; [by rewrite Hu3, Hu2|].
  split; [by rewrite Hc3, Hc2|]. split; [by rewrite Hw3, Hw2|].
  split; [by rewrite Ht3, Ht2|].
  split; [rewrite aging_check_output;
          exact (check_arrivals_quiet (advance_clock s))|].
  split.
  - eapply Forall2_trans; [apply same_burst_trans| |].
    + exact (check_arrivals_pointwise same_burst same_burst_refl
               (advance_clock s) same_burst_arrival I1).
    + exact (aging_check_pointwise same_burst same_burst_refl
               _ same_burst_aging I2).
  - intros Hs.
    destruct evolves_lifecycle as (E1 & E2 & _).
    eapply Forall2_evolves_sound;
      [exact (aging_check_pointwise evolves evolves_refl _ E2 I2)|].
    eapply Forall2_evolves_sound;
      [exact (check_arrivals_pointwise evolves evolves_refl _ E1 I1)|].
    done.
Qed.

Lemma scheduler_tick_front s :
  all_terminated s = false ->
  scheduler_tick s =
  completion_check (dispatch (burst_resolution (front s))).
Proof. intros H. unfold scheduler_tick, front. by rewrite H. Qed.

Lemma on_schedule_completion_check s :
  on_schedule s -> on_schedule (completion_check s).
Proof.
  destruct (completion_check_spec s)
    as (Hps & _ & _ & Hr & Hu & Hc & _ & Ho & _).
  unfold on_schedule. by rewrite Hps, Hr, Hu, Hc, Ho.
Qed.

Lemma on_schedule_dispatch s :
  Inv s -> Forall sound (all_processes s) -> running_process s = None ->
  on_schedule (dispatch s).
Proof.
  intros HI Hs Hr.
  destruct (ready_queue s) as [|r rest] eqn:Hq.
  { rewrite dispatch_idle by (by right). intros ??. by rewrite Hr. }
  destruct (dispatch_spec s r rest Hr Hq)
    as (Hps & _ & _ & Hrun & Hu & Hc & _ & _ & Ho).
  assert (Hin : r ∈ ready_queue s) by (rewrite Hq; left).
  pose proof (lookup_of_range _ _ (inv_ready_range _ HI _ Hin)) as Hp.
  set (p := all_processes s !!! r) in *.
  assert (Hst : state p = STATE_READY) by by apply (inv_placed _ HI r p Hp).
  assert (Hb : 0 < dispatch_burst_time p).
  { apply dispatch_burst_time_positive; [by eapply Forall_lookup_1|].
    by rewrite Hst. }
  intros r' p'. rewrite Hrun, Hps, Hu, Hc, Ho. intros [= <-] Hp'.
  rewrite list_lookup_alter_eq, Hp in Hp'. simpl in Hp'.
  inversion Hp'; subst p'. clear Hp'.
  change (dispatch_burst_time (set_state STATE_RUNNING p))
    with (dispatch_burst_time p).
  split; [lia|]. exists (priority p).
  rewrite last_dispatch_snoc by done. simpl.
  do 2 f_equal. lia.
Qed.

Lemma Good_initial input :
  Forall well_formed input -> Good (initial_state (load input)).
Proof.
  intros Hw. constructor.
  - apply Inv_initial.
  - simpl. unfold load. apply Forall_fmap.
    eapply Forall_impl; [exact Hw|]. intros f. apply init_process_sound.
  - intros r p. simpl. done.
Qed.

Lemma Good_scheduler_tick s : Good s -> Good (scheduler_tick s).
Proof.
  intros [HI Hs Ho]. constructor.
  - by apply Inv_scheduler_tick.
  - eapply sound_step; [exact HI|apply step_scheduler|done].
  - destruct (all_terminated s) eqn:Ht;
      [unfold scheduler_tick; by rewrite Ht|].
    rewrite scheduler_tick_front by done.
    apply on_schedule_completion_check.
    destruct (front_spec s HI)
      as (I3 & Hr3 & Hu3 & Hc3 & _ & _ & Hq3 & Hb3 & Hs3).
    specialize (Hs3 Hs).
    destruct (running_process s) as [r|] eqn:Hr.
    + pose proof (lookup_of_range _ _ (inv_running_range _ HI _ Hr)) as Hp.
      destruct (Forall2_lookup_l _ _ _ _ _ Hb3 Hp) as (p3 & Hp3 & Hsb).
      destruct (Ho r _ Hr Hp) as (Hlt & pr & Hld).
      destruct (Z.le_gt_cases (running_until s) (current_clock s + 1))
        as [Hle|Hgt].
      * apply on_schedule_dispatch.
        -- by apply Inv_burst_resolution.
        -- destruct evolves_lifecycle as (_ & _ & E3 & _).
           eapply Forall2_evolves_sound;
             [exact (burst_resolution_pointwise evolves evolves_refl _ E3 I3)|].
           done.
        -- eapply (burst_resolution_spec (front s) r p3); [congruence|done|lia].
      * rewrite (burst_resolution_idle (front s)) by (right; lia).
        rewrite dispatch_idle by (left; by rewrite Hr3).
        intros r' p'. rewrite Hr3, Hu3, Hc3. intros [= <-] Hp'.
        assert (p' = p3) as -> by congruence.
        rewrite (same_burst_dispatch_burst_time _ _ Hsb).
        destruct Hsb as (-> & -> & _).
        split; [lia|]. exists pr. by rewrite (quiet_last_dispatch _ _ Hq3).
    + rewrite (burst_resolution_idle (front s)) by (left; congruence).
      apply on_schedule_dispatch; [done|done|congruence].
Qed.

Lemma Good_io_manager_pass clock s : Good s -> Good (io_manager_pass clock s).
Proof.
  intros [HI Hs Ho]. constructor.
  - by apply Inv_io_manager_pass.
  - destruct evolves_lifecycle as (_ & _ & _ & _ & E5).
    eapply Forall2_evolves_sound;
      [exact (io_manager_pass_pointwise evolves evolves_refl clock s E5 HI)|].
    done.
  - destruct (io_manager_pass_spec clock s) as (_ & _ & _ & _ & Hr & Hu & Hc & _).
    pose proof (io_manager_pass_pointwise same_burst same_burst_refl clock s
                  same_burst_complete HI) as Hb.
    intros r p'. rewrite Hr, Hu, Hc. intros Hrun Hp'.
    destruct (Forall2_lookup_r _ _ _ _ _ Hb Hp') as (p & Hp & Hsb).
    destruct (Ho r p Hrun Hp) as (Hlt & pr & Hld).
    rewrite (same_burst_dispatch_burst_time _ _ Hsb).
    destruct Hsb as (-> & -> & _).
    split; [done|]. exists pr.
    by rewrite (quiet_last_dispatch _ _ (io_manager_pass_quiet clock s)).
Qed.

Lemma Good_step s s' : step s s' -> Good s -> Good s'.
Proof.
  intros [|]; [apply Good_scheduler_tick|intros; by apply Good_io_manager_pass].
Qed.

Lemma Good_reachable input s :
  Forall well_formed input -> reachable input s -> Good s.
Proof.
  intros Hw H.
  eapply (rtc_ind_r (fun s => Good s)); [by apply Good_initial| |exact H].
  intros y z _ Hs Hy. by eapply Good_step.
Qed.

Lemma Good_perform a s : Good s -> Good (perform a s).
Proof.
  destruct a; [apply Good_scheduler_tick|apply Good_io_manager_pass].
Qed.

(** ** Anatomy of a scheduler iteration *)

(** Resolved at the tick the burst was scheduled to end, the
    clock-derived burst length is the one computed at dispatch. *)
Lemma resolved_burst_time_on_time c p :
  resolved_burst_time c c p = dispatch_burst_time p.
Proof.
  unfold resolved_burst_time, dispatch_burst_time.
  by replace (c - (c - interval_time p)) with (interval_time p) by lia.
Qed.

Lemma dispatch_outcome s :
  Inv s -> running_process s = None ->
  Forall2 same_burst (all_processes s) (all_processes (dispatch s)) /\
  (running_process (dispatch s) = None \/
   exists r' p', running_process (dispatch s) = Some r' /\
     r' ∈ ready_queue s /\
     all_processes (dispatch s) !! r' = Some p' /\
     running_until (dispatch s) =
       current_clock (dispatch s) + dispatch_burst_time p').
Proof.
  intros HI Hr.
  split; [exact (dispatch_pointwise same_burst same_burst_refl s
                   same_burst_dispatch HI)|].
  destruct (ready_queue s) as [|r rest] eqn:Hq.
  { rewrite dispatch_idle by (by right). by left. }
  destruct (dispatch_spec s r rest Hr Hq)
    as (Hps & _ & _ & Hrun & Hu & Hc & _).
  assert (Hin : r ∈ r :: rest) by left.
  pose proof Hin as Hin'. rewrite <- Hq in Hin'.
  pose proof (lookup_of_range _ _ (inv_ready_range _ HI _ Hin')) as Hp.
  right. exists r, (set_state STATE_RUNNING (all_processes s !!! r)).
  split; [done|]. split; [done|]. split.
  - by rewrite Hps, list_lookup_alter_eq, Hp.
  - by rewrite Hu, Hc.
Qed.

Lemma completion_check_slot s s0 :
  slot_outcome s0 s -> slot_outcome s0 (completion_check s).
Proof.
  destruct (completion_check_spec s)
    as (Hps & _ & _ & Hr & Hu & Hc & _).
  intros [r H1 H2 H3 H4 H5|H1 H2 H3].
  - eapply slot_continues; rewrite ?Hps, ?Hr, ?Hu; eauto.
  - eapply slot_turnover; rewrite ?Hps, ?Hr, ?Hu, ?Hc; eauto.
Qed.

Lemma scheduler_tick_clock s :
  all_terminated s = false ->
  current_clock (scheduler_tick s) = current_clock s + 1.
Proof.
  intros Ht. unfold scheduler_tick. rewrite Ht.
  destruct (completion_check_spec (dispatch (burst_resolution (aging_check
    (check_arrivals (advance_clock s)))))) as (_ & _ & _ & _ & _ & -> & _).
  set (s4 := burst_resolution _).
  assert (current_clock (dispatch s4) = current_clock s4) as ->.
  { unfold dispatch. destruct (running_process s4); [done|].
    destruct (negb _); [|done]. by destruct (dequeue _) as [[r|] q]. }
  unfold s4. set (s3 := aging_check _).
  assert (current_clock (burst_resolution s3) = current_clock s3) as ->.
  { unfold burst_resolution. destruct (running_process s3); [|done].
    destruct (_ <=? _); [|done]. by destruct (_ <=? 0). }
  unfold s3. set (s2 := check_arrivals _).
  assert (current_clock (aging_check s2) = current_clock s2) as ->.
  { unfold aging_check. destruct (_ <? _); [|done].
    by destruct (resort_ready_queue _ _). }
  unfold s2. by destruct (check_arrivals_spec (advance_clock s))
    as (_ & _ & _ & _ & _ & _ & -> & _).
Qed.

Lemma scheduler_tick_outcome s :
  Good s -> all_terminated s = false -> slot_outcome s (scheduler_tick s).
Proof.
  intros [HI Hs Ho] Ht. rewrite scheduler_tick_front by done.
  apply completion_check_slot.
  destruct (front_spec s HI)
    as (I3 & Hr3 & Hu3 & Hc3 & _ & _ & Hq3 & Hb3 & Hs3).
  specialize (Hs3 Hs).
  assert (Hidle : running_process (front s) = None ->
    slot_outcome s (dispatch (front s))).
  { intros Hn. destruct (dispatch_outcome (front s) I3 Hn) as (Hb5 & Hd).
    apply slot_turnover.
    - left. congruence.
    - intros i p p' _ Hp Hp'.
      destruct (Forall2_lookup_l _ _ _ _ _ Hb3 Hp) as (p3 & Hp3 & Hsb).
      eapply same_burst_trans; [exact Hsb|].
      by eapply Forall2_lookup_lr.
    - destruct Hd as [Hd|(r' & p' & H1 & H2 & H3 & H4)]; [by left|].
      right. exists r', p'. repeat split; try done. congruence. }
  destruct (running_process s) as [r|] eqn:Hr;
    [|rewrite (burst_resolution_idle (front s)) by (left; congruence);
      apply Hidle; congruence].
  pose proof (lookup_of_range _ _ (inv_running_range _ HI _ Hr)) as Hp.
  destruct (Forall2_lookup_l _ _ _ _ _ Hb3 Hp) as (p3 & Hp3 & Hsb).
  destruct (Ho r _ Hr Hp) as (Hlt & _).
  destruct (Z.le_gt_cases (running_until s) (current_clock s + 1))
    as [Hle|Hgt].
  - assert (Hon : running_until (front s) = current_clock (front s)) by lia.
    assert (Hr3' : running_process (front s) = Some r) by congruence.
    destruct (burst_resolution_spec (front s) r p3 Hr3' Hp3 ltac:(lia))
      as (Hps4 & Hq4 & _ & Hrun4 & _ & Hc4 & _).
    rewrite Hon in Hps4.
    pose proof (Inv_burst_resolution _ I3) as I4.
    destruct (dispatch_outcome _ I4 Hrun4) as (Hb5 & Hd).
    set (s4 := burst_resolution (front s)) in *.
    assert (Hp4 : all_processes s4 !! r =
                  Some (resolve (current_clock (front s))
                          (current_clock (front s)) p3)).
    { by rewrite Hps4, list_lookup_alter_eq, Hp3. }
    destruct (resolve_frame (current_clock (front s))
                (current_clock (front s)) p3)
      as (_ & _ & Hpid & _ & _ & Hint & _ & _ & Hrem & Hst).
    rewrite resolved_burst_time_on_time in Hrem, Hst.
    destruct (Forall2_lookup_l _ _ _ _ _ Hb5 Hp4) as (p5 & Hp5 & Hsb5).
    apply slot_turnover.
    + right. exists r, (all_processes s !!! r), p5.
      split; [done|]. split; [lia|]. split; [done|]. split; [done|].
      destruct Hsb5 as (-> & -> & ->).
      rewrite Hpid, Hint, Hrem.
      rewrite (same_burst_dispatch_burst_time _ _ Hsb).
      destruct Hsb as (-> & -> & ->).
      split; [done|]. split; [done|]. split; [done|].
      assert (Hst5 : state p5 = state (resolve (current_clock (front s))
                                        (current_clock (front s)) p3)).
      { destruct (running_process (dispatch s4)) as [r'|] eqn:Hr5.
        - destruct Hd as [?|(r'' & p'' & H1 & H2 & H3 & H4)]; [done|].
          assert (r'' = r') as -> by congruence.
          rewrite Hq4 in H2.
          assert (r' <> r).
          { intros ->.
            apply (inv_placed _ I3 r p3 Hp3) in H2.
            apply (inv_placed _ I3 r p3 Hp3) in Hr3'. congruence. }
          destruct (ready_queue s4) as [|h rest] eqn:Hq.
          { rewrite dispatch_idle in Hr5 by (by right). congruence. }
          destruct (dispatch_spec s4 h rest Hrun4 Hq) as (Hps5 & _ & _ & Hrun5 & _).
          assert (h = r') as -> by congruence.
          rewrite Hps5, list_lookup_alter_ne in Hp5 by done. congruence.
        - destruct (ready_queue s4) as [|h rest] eqn:Hq.
          + rewrite dispatch_idle in Hp5 by (by right). congruence.
          + destruct (dispatch_spec s4 h rest Hrun4 Hq) as (_ & _ & _ & Hrun5 & _).
            congruence. }
      rewrite Hst5. destruct Hst as [[-> _]|[-> _]]; [by left|by right].
    + intros i p p' Hne Hpi Hpi'.
      destruct (Forall2_lookup_l _ _ _ _ _ Hb3 Hpi) as (q3 & Hq3' & Hsb3).
      eapply same_burst_trans; [exact Hsb3|].
      assert (Hq4' : all_processes s4 !! i = Some q3).
      { rewrite Hps4, list_lookup_alter_ne; [done|]. congruence. }
      by eapply Forall2_lookup_lr.
    + destruct Hd as [Hd|(r' & p' & H1 & H2 & H3 & H4)]; [by left|].
      right. exists r', p'. repeat split; try done.
      rewrite Hr. intros [= ->]. rewrite Hq4 in H2.
      apply (inv_placed _ I3 r' p3 Hp3) in H2.
      apply (inv_placed _ I3 r' p3 Hp3) in Hr3'. congruence.
  - rewrite (burst_resolution_idle (front s)) by (right; lia).
    rewrite dispatch_idle by (left; by rewrite Hr3).
    eapply slot_continues; [done|lia|congruence|done|].
    intros i p p' Hpi Hpi'. by eapply Forall2_lookup_lr.
Qed.

(** ** Conservation of CPU time *)

Lemma running_time_cons i a rest s :
  running_time i (a :: rest) s =
  contribution a s i + running_time i rest (perform a s).
Proof. by destruct a. Qed.

Lemma credit_scheduler_tick s i p p' :
  Good s ->
  all_processes s !! i = Some p ->
  all_processes (scheduler_tick s) !! i = Some p' ->
  credit (scheduler_tick s) i p' = credit s i p + contribution Scheduler s i.
Proof.
  intros HG Hp Hp'. unfold contribution. simpl.
  destruct (all_terminated s) eqn:Ht.
  { rewrite bool_decide_eq_false_2 by (intros [? _]; done).
    unfold scheduler_tick in *. rewrite Ht in *.
    assert (p' = p) as -> by congruence. lia. }
  pose proof (step_evolves s _ (good_inv _ HG) (step_scheduler s)) as Hev.
  pose proof (Forall2_lookup_lr _ _ _ _ _ _ Hev Hp Hp') as Hevp.
  pose proof (ev_cpu_execution_time _ _ Hevp) as Hcpu.
  pose proof (scheduler_tick_clock s Ht) as Hc.
  unfold credit. rewrite Hcpu, Hc.
  destruct (scheduler_tick_outcome s HG Ht) as [r H1 H2 H3 H4 H5|H1 H2 H3].
  - pose proof (H5 i p p' Hp Hp') as Hsb.
    rewrite (same_burst_dispatch_burst_time _ _ Hsb).
    destruct Hsb as (_ & -> & _). rewrite H1, H3, H4.
    destruct (decide (r = i)) as [->|Hne].
    + rewrite !bool_decide_eq_true_2 by done. lia.
    + rewrite !bool_decide_eq_false_2 by (try intros [_ ?]; congruence). lia.
  - destruct (decide (running_process s = Some i)) as [Hri|Hri].
    + destruct H1 as [H1|(r & q & q' & Hr & Hu & Hq & Hq' & _ & _ & Hrem & _)];
        [congruence|].
      assert (r = i) as -> by congruence.
      assert (q = p) as -> by congruence.
      assert (q' = p') as -> by congruence.
      assert (Hn : running_process (scheduler_tick s) <> Some i).
      { destruct H3 as [H3|(r' & q'' & H3 & H3' & _)]; congruence. }
      rewrite (bool_decide_eq_true_2 (running_process s = Some i)) by done.
      rewrite !bool_decide_eq_false_2 by (try intros [_ ?]; congruence).
      lia.
    + pose proof (H2 i p p' Hri Hp Hp') as Hsb.
      pose proof (same_burst_dispatch_burst_time _ _ Hsb) as Hd.
      destruct Hsb as (_ & Hrem & _). rewrite Hrem.
      rewrite (bool_decide_eq_false_2 (running_process s = Some i)) by done.
      destruct (decide (running_process (scheduler_tick s) = Some i))
        as [Hi|Hi].
      * destruct H3 as [H3|(r' & q'' & H3 & _ & Hq'' & Hu)]; [congruence|].
        assert (r' = i) as -> by congruence.
        assert (q'' = p') as -> by congruence.
        rewrite !bool_decide_eq_true_2 by done. rewrite Hu, Hc. lia.
      * rewrite !bool_decide_eq_false_2 by (try intros [_ ?]; congruence).
        lia.
Qed.

Lemma credit_io_manager_pass clock s i p p' :
  Good s ->
  all_processes s !! i = Some p ->
  all_processes (io_manager_pass clock s) !! i = Some p' ->
  credit (io_manager_pass clock s) i p' = credit s i p.
Proof.
  intros HG Hp Hp'.
  destruct evolves_lifecycle as (_ & _ & _ & _ & E5).
  pose proof (io_manager_pass_pointwise evolves evolves_refl clock s E5
                (good_inv _ HG)) as Hev.
  pose proof (Forall2_lookup_lr _ _ _ _ _ _ Hev Hp Hp') as Hevp.
  pose proof (io_manager_pass_pointwise same_burst same_burst_refl clock s
                same_burst_complete (good_inv _ HG)) as Hb.
  pose proof (Forall2_lookup_lr _ _ _ _ _ _ Hb Hp Hp') as Hsb.
  destruct (io_manager_pass_spec clock s) as (_ & _ & _ & _ & Hr & Hu & Hc & _).
  unfold credit. rewrite Hr, Hu, Hc, (ev_cpu_execution_time _ _ Hevp).
  rewrite (same_burst_dispatch_burst_time _ _ Hsb).
  by destruct Hsb as (_ & -> & _).
Qed.

Lemma credit_perform a s i p p' :
  Good s ->
  all_processes s !! i = Some p ->
  all_processes (perform a s) !! i = Some p' ->
  credit (perform a s) i p' = credit s i p + contribution a s i.
Proof.
  destruct a as [|c]; simpl.
  - apply credit_scheduler_tick.
  - intros. rewrite Z.add_0_r. by apply credit_io_manager_pass.
Qed.

Lemma perform_lookup a s i p :
  Good s -> all_processes s !! i = Some p ->
  exists p', all_processes (perform a s) !! i = Some p'.
Proof.
  intros HG Hp.
  assert (Hev : Forall2 evolves (all_processes s) (all_processes (perform a s))).
  { destruct a as [|c]; simpl.
    - apply step_evolves; [apply HG|apply step_scheduler].
    - destruct evolves_lifecycle as (_ & _ & _ & _ & E5).
      apply (io_manager_pass_pointwise evolves evolves_refl c s E5
               (good_inv _ HG)). }
  destruct (Forall2_lookup_l _ _ _ _ _ Hev Hp) as (p' & Hp' & _). eauto.
Qed.

Lemma running_time_credit schedule : forall s i p pf,
  Good s ->
  all_processes s !! i = Some p ->
  all_processes (execute schedule s) !! i = Some pf ->
  running_time i schedule s = credit (execute schedule s) i pf - credit s i p.
Proof.
  induction schedule as [|a rest IH]; intros s i p pf HG Hp Hpf.
  - simpl in *. assert (pf = p) as -> by congruence. lia.
  - rewrite running_time_cons.
    destruct (perform_lookup a s i p HG Hp) as (p' & Hp').
    change (execute (a :: rest) s) with (execute rest (perform a s)) in *.
    rewrite (IH (perform a s) i p' pf (Good_perform a s HG) Hp' Hpf).
    rewrite (credit_perform a s i p p' HG Hp Hp'). lia.
Qed.

Lemma stays_terminated_lifecycle : lifecycle_closed stays_terminated.
Proof.
  unfold stays_terminated.
  split; [|split; [|split; [|split]]]; intros ?; intros; congruence.
Qed.

Lemma all_done_Forall ps :
  all_done ps = true <-> Forall (fun p => state p = STATE_TERMINATED) ps.
Proof.
  unfold all_done. rewrite forallb_forall, Forall_forall.
  split; intros H p Hp.
  - apply list_elem_of_In in Hp. apply H in Hp. by apply bool_decide_eq_true in Hp.
  - apply bool_decide_eq_true. apply H. by apply list_elem_of_In.
Qed.

Lemma finished_ok_scheduler_tick s :
  finished_ok s -> finished_ok (scheduler_tick s).
Proof.
  intros Hf. unfold scheduler_tick.
  destruct (all_terminated s) eqn:Ht; [done|].
  set (s5 := dispatch _).
  destruct (completion_check_spec s5) as (Hps & _ & _ & Hr & _ & _ & _ & _ & Hat).
  unfold finished_ok. rewrite Hps, Hr, Hat.
  assert (all_terminated s5 = false) as ->.
  { unfold s5. set (s4 := burst_resolution _).
    assert (all_terminated (dispatch s4) = all_terminated s4) as ->.
    { unfold dispatch. destruct (running_process s4); [done|].
      destruct (negb _); [|done]. by destruct (dequeue _) as [[r|] q]. }
    unfold s4. set (s3 := aging_check _).
    assert (all_terminated (burst_resolution s3) = all_terminated s3) as ->.
    { unfold burst_resolution. destruct (running_process s3); [|done].
      destruct (_ <=? _); [|done]. by destruct (_ <=? 0). }
    unfold s3. set (s2 := check_arrivals _).
    assert (all_terminated (aging_check s2) = all_terminated s2) as ->.
    { unfold aging_check. destruct (_ <? _); [|done].
      by destruct (resort_ready_queue _ _). }
    unfold s2. by destruct (check_arrivals_spec (advance_clock s))
      as (_ & _ & _ & _ & _ & _ & _ & _ & ->). }
  simpl. intros [H1 H2]%andb_true_iff.
  split; [by apply all_done_Forall|by apply bool_decide_eq_true in H2].
Qed.

Lemma finished_ok_io_manager_pass clock s :
  Inv s -> finished_ok s -> finished_ok (io_manager_pass clock s).
Proof.
  intros HI Hf.
  destruct (io_manager_pass_spec clock s)
    as (_ & _ & _ & _ & Hr & _ & _ & _ & Hat).
  unfold finished_ok. rewrite Hr, Hat. intros Ht.
  destruct (Hf Ht) as [Hall Hrun]. split; [|done].
  destruct stays_terminated_lifecycle as (_ & _ & _ & _ & T5).
  pose proof (io_manager_pass_pointwise stays_terminated
                (fun p (H : state p = STATE_TERMINATED) => H) clock s T5 HI)
    as Hst.
  apply Forall_lookup. intros i p' Hp'.
  destruct (Forall2_lookup_r _ _ _ _ _ Hst Hp') as (p & Hp & Hpp).
  apply Hpp. by eapply Forall_lookup_1 in Hall.
Qed.

Lemma finished_ok_perform a s :
  Inv s -> finished_ok s -> finished_ok (perform a s).
Proof.
  destruct a; [intros _; apply finished_ok_scheduler_tick
              |apply finished_ok_io_manager_pass].
Qed.

Lemma finished_ok_execute schedule : forall s,
  Inv s -> finished_ok s -> finished_ok (execute schedule s).
Proof.
  induction schedule as [|a rest IH]; intros s HI Hf; [done|].
  change (execute (a :: rest) s) with (execute rest (perform a s)).
  apply IH; [by apply Inv_perform|by apply finished_ok_perform].
Qed.

Lemma Good_execute schedule : forall s, Good s -> Good (execute schedule s).
Proof.
  induction schedule as [|a rest IH]; intros s HG; [done|].
  change (execute (a :: rest) s) with (execute rest (perform a s)).
  by apply IH, Good_perform.
Qed.

Lemma evolves_execute schedule : forall s,
  Inv s ->
  Forall2 evolves (all_processes s) (all_processes (execute schedule s)).
Proof.
  induction schedule as [|a rest IH]; intros s HI.
  - apply Forall_Forall2_diag, Forall_forall. intros. apply evolves_refl.
  - change (execute (a :: rest) s) with (execute rest (perform a s)).
    eapply Forall2_trans; [apply evolves_trans| |apply IH, Inv_perform, HI].
    destruct a as [|c]; simpl.
    + apply step_evolves; [done|apply step_scheduler].
    + destruct evolves_lifecycle as (_ & _ & _ & _ & E5).
      apply (io_manager_pass_pointwise evolves evolves_refl c s E5 HI).
Qed.

Lemma cpu_demand_init f : cpu_execution_time (init_process f) = cpu_demand f.
Proof. by destruct f as [[[[[a b] c] d] e] g]. Qed.

Lemma remaining_init f : remaining_time (init_process f) = cpu_demand f.
Proof. by destruct f as [[[[[a b] c] d] e] g]. Qed.

Lemma running_time_finished input schedule i f :
  Forall well_formed input ->
  all_terminated (execute schedule (initial_state (load input))) = true ->
  input !! i = Some f ->
  running_time i schedule (initial_state (load input)) = cpu_demand f.
Proof.
  intros Hw Hfin Hf.
  set (s0 := initial_state (load input)) in *.
  pose proof (Good_initial input Hw) as HG. fold s0 in HG.
  assert (Hp : all_processes s0 !! i = Some (init_process f)).
  { simpl. unfold load. by rewrite list_lookup_fmap, Hf. }
  pose proof (evolves_execute schedule s0 (good_inv _ HG)) as Hev.
  destruct (Forall2_lookup_l _ _ _ _ _ Hev Hp) as (pf & Hpf & Hevp).
  rewrite (running_time_credit schedule s0 i _ pf HG Hp Hpf).
  assert (Hfo : finished_ok (execute schedule s0)).
  { apply finished_ok_execute; [apply HG|]. intros H. by simpl in H. }
  destruct (Hfo Hfin) as [Hall Hrun].
  pose proof (Forall_lookup_1 _ _ _ _ Hall Hpf) as Hst. simpl in Hst.
  pose proof (good_sound _ (Good_execute schedule s0 HG)) as Hs.
  pose proof (Forall_lookup_1 _ _ _ _ Hs Hpf) as (_ & _ & Hz).
  apply Hz in Hst.
  unfold credit. rewrite Hrun, Hst, (ev_cpu_execution_time _ _ Hevp).
  simpl. rewrite cpu_demand_init, remaining_init. lia.
Qed.

(** ** Termination

    A potential that every lockstep round lowers: for each block, an
    upper bound on the scheduler iterations still needed to move it
    through its remaining bursts, I/O waits and dispatches. *)

Lemma Zsum_cons x l : Zsum (x :: l) = x + Zsum l.
Proof. done. Qed.

Lemma Zsum_Forall2_le (f g : Process -> Z) (ps ps' : Procs) :
  Forall2 (fun p p' => g p' <= f p) ps ps' ->
  Zsum (g <$> ps') <= Zsum (f <$> ps).
Proof.
  induction 1 as [|x y l k Hxy Hlk IH]; [done|].
  rewrite !fmap_cons, !Zsum_cons. lia.
Qed.

Lemma Zsum_Forall2_lt (f g : Process -> Z) (ps ps' : Procs) i p p' :
  Forall2 (fun p p' => g p' <= f p) ps ps' ->
  ps !! i = Some p -> ps' !! i = Some p' -> g p' < f p ->
  Zsum (g <$> ps') < Zsum (f <$> ps).
Proof.
  intros H. revert i. induction H as [|x y l k Hxy Hlk IH]; intros i; [done|].
  rewrite !fmap_cons, !Zsum_cons. destruct i as [|i]; simpl.
  - intros [= ->] [= ->] Hlt. pose proof (Zsum_Forall2_le f g l k Hlk). lia.
  - intros Hl Hk Hlt. specialize (IH i Hl Hk Hlt). lia.
Qed.

Lemma Zsum_nonneg (f : Process -> Z) (ps : Procs) :
  Forall (fun p => 0 <= f p) ps -> 0 <= Zsum (f <$> ps).
Proof.
  induction 1 as [|x l Hx Hl IH]; [done|].
  rewrite fmap_cons, Zsum_cons. lia.
Qed.

Lemma dispatch_burst_time_le p :
  dispatch_burst_time p <= remaining_time p /\
  dispatch_burst_time p <= interval_time p.
Proof.
  unfold dispatch_burst_time.
  destruct (Z.ltb_spec (remaining_time p) (interval_time p)); lia.
Qed.

(** Pointwise comparison of weights across a phase. *)
Lemma potential_le G (s s' : State) :
  transforms G (all_processes s) (all_processes s') ->
  (forall i p, all_processes s !! i = Some p ->
     weight (current_clock s') (running_until s') (G i p) <=
     weight (current_clock s) (running_until s) p) ->
  potential s' <= potential s.
Proof.
  intros HT H. apply Zsum_Forall2_le.
  eapply transforms_Forall2; [exact HT|]. exact H.
Qed.

Lemma potential_lt G (s s' : State) i p :
  transforms G (all_processes s) (all_processes s') ->
  (forall i p, all_processes s !! i = Some p ->
     weight (current_clock s') (running_until s') (G i p) <=
     weight (current_clock s) (running_until s) p) ->
  all_processes s !! i = Some p ->
  weight (current_clock s') (running_until s') (G i p) <
    weight (current_clock s) (running_until s) p ->
  potential s' < potential s.
Proof.
  intros HT H Hp Hlt.
  eapply (Zsum_Forall2_lt _ _ _ _ i p (G i p)); [|done| |done].
  - eapply transforms_Forall2; [exact HT|]. exact H.
  - by rewrite HT, Hp.
Qed.

(** The clock advances. *)
Lemma weight_advance c ru p :
  weight (c + 1) ru p <= weight c ru p.
Proof. unfold weight. destruct (state p); lia. Qed.

Lemma potential_advance_clock s : potential (advance_clock s) <= potential s.
Proof.
  apply (potential_le (fun _ p => p)); [apply transforms_refl|].
  intros i p _. apply weight_advance.
Qed.

Lemma potential_advance_clock_lt s i p :
  all_processes s !! i = Some p -> ticking (current_clock s) p ->
  potential (advance_clock s) < potential s.
Proof.
  intros Hp Ht.
  apply (potential_lt (fun _ p => p) s (advance_clock s) i p);
    [apply transforms_refl| |done|].
  - intros j q _. apply weight_advance.
  - simpl. unfold weight.
    destruct Ht as [->|[[-> ?]|[-> ?]]]; lia.
Qed.

Lemma potential_check_arrivals s :
  Inv s -> Forall sound (all_processes s) ->
  potential (check_arrivals s) <= potential s.
Proof.
  intros HI Hs.
  destruct (check_arrivals_spec s) as (HT & _ & _ & _ & _ & Hu & Hc & _).
  apply (potential_le _ _ _ HT). rewrite Hu, Hc.
  intros i p Hp. cbv beta.
  destruct (arrives (current_clock s) p) eqn:Ha; [|lia].
  pose proof (arrives_new s i p (inv_placed _ HI i p Hp) Ha) as Hn.
  unfold weight. simpl. rewrite Hn.
  change (io_cost (arrived p)) with (io_cost p). lia.
Qed.

Lemma weight_aged c ru e b p : weight c ru (aged e b p) = weight c ru p.
Proof.
  destruct (aged_frame e b p)
    as (H1 & H2 & H3 & H4 & H5 & H6 & H7 & H8 & H9 & H10 & H11).
  unfold weight, io_cost, dispatch_burst_time.
  by rewrite H1, H3, H4, H6, H8, H9.
Qed.

Lemma potential_aging_check s :
  Inv s -> potential (aging_check s) <= potential s.
Proof.
  intros HI.
  destruct (aging_check_spec s (inv_ready_nodup _ HI))
    as (HT & _ & _ & _ & _ & Hu & Hc & _).
  apply (potential_le _ _ _ HT). rewrite Hu, Hc.
  intros i p Hp. cbv beta.
  destruct (_ && _); [|lia]. rewrite weight_aged. lia.
Qed.

Lemma potential_burst_resolution s :
  Inv s -> Forall sound (all_processes s) ->
  (forall r, running_process s = Some r ->
             current_clock s <= running_until s) ->
  potential (burst_resolution s) <= potential s.
Proof.
  intros HI Hs Hon.
  destruct (running_process s) as [r|] eqn:Hr;
    [|rewrite burst_resolution_idle by (by left); lia].
  destruct (Z.le_gt_cases (running_until s) (current_clock s)) as [Hle|Hgt];
    [|rewrite burst_resolution_idle by (right; lia); lia].
  pose proof (Hon r eq_refl) as Hge.
  assert (Heq : running_until s = current_clock s) by lia.
  pose proof (lookup_of_range _ _ (inv_running_range _ HI _ Hr)) as Hp.
  destruct (burst_resolution_spec s r _ Hr Hp Hle)
    as (Hps & _ & _ & _ & Hu & Hc & _).
  apply (potential_le (fun i p => if decide (r = i)
           then resolve (current_clock s) (running_until s) p else p)).
  { rewrite Hps. apply transforms_alter. }
  rewrite Hu, Hc. intros i p Hpi. cbv beta.
  case_decide as Hi; [subst i|lia].
  assert (Hst : state p = STATE_RUNNING) by by apply (inv_placed _ HI r p Hpi).
  pose proof (Forall_lookup_1 _ _ _ _ Hs Hpi) as Hsp.
  destruct (resolve_frame (current_clock s) (running_until s) p)
    as (_ & _ & _ & _ & _ & _ & Hio & _ & Hrem & Hcase).
  rewrite Heq, resolved_burst_time_on_time in Hrem, Hcase.
  rewrite Heq in Hio.
  rewrite Heq. unfold weight at 2. rewrite Hst.
  pose proof (dispatch_burst_time_le p) as [Hb1 Hb2].
  assert (0 <= (remaining_time p - dispatch_burst_time p) * io_cost p).
  { apply Z.mul_nonneg_nonneg; unfold io_cost; lia. }
  unfold weight. destruct Hcase as [[-> _]|[-> [_ Hioc]]]; [lia|].
  rewrite Hioc, Hrem.
  unfold io_cost. rewrite Hio. lia.
Qed.

Lemma weight_dispatch c p :
  sound p -> state p = STATE_READY ->
  weight c (c + dispatch_burst_time p) (set_state STATE_RUNNING p) <
  weight c (c + dispatch_burst_time p) p.
Proof.
  intros Hs Hst.
  assert (Hb : 0 < dispatch_burst_time p).
  { apply dispatch_burst_time_positive; [done|]. by rewrite Hst. }
  unfold weight. rewrite Hst. simpl.
  change (dispatch_burst_time (set_state STATE_RUNNING p))
    with (dispatch_burst_time p).
  change (io_cost (set_state STATE_RUNNING p)) with (io_cost p).
  unfold io_cost. nia.
Qed.

Lemma weight_idle_slot c ru ru' p :
  state p <> STATE_RUNNING -> weight c ru' p = weight c ru p.
Proof. unfold weight. by destruct (state p). Qed.

Lemma potential_dispatch s :
  Inv s -> Forall sound (all_processes s) ->
  potential (dispatch s) <= potential s /\
  (running_process s = None -> ready_queue s <> [] ->
   potential (dispatch s) < potential s).
Proof.
  intros HI Hs.
  destruct (running_process s) as [r|] eqn:Hr;
    [rewrite dispatch_idle by (left; by rewrite Hr); split; [lia|done]|].
  destruct (ready_queue s) as [|r rest] eqn:Hq;
    [rewrite dispatch_idle by (by right); split; [lia|done]|].
  destruct (dispatch_spec s r rest Hr Hq)
    as (Hps & _ & _ & _ & Hu & Hc & _).
  assert (Hin : r ∈ ready_queue s) by (rewrite Hq; left).
  pose proof (lookup_of_range _ _ (inv_ready_range _ HI _ Hin)) as Hp.
  set (p := all_processes s !!! r) in *.
  assert (Hst : state p = STATE_READY) by by apply (inv_placed _ HI r p Hp).
  pose proof (Forall_lookup_1 _ _ _ _ Hs Hp) as Hsp.
  assert (Hall : forall i q, all_processes s !! i = Some q ->
    weight (current_clock (dispatch s)) (running_until (dispatch s))
      (if decide (r = i) then set_state STATE_RUNNING q else q) <=
    weight (current_clock s) (running_until s) q).
  { intros i q Hqi. rewrite Hu, Hc. case_decide as Hi.
    - subst i. assert (q = p) as -> by congruence.
      pose proof (weight_dispatch (current_clock s) p Hsp Hst) as Hw.
      rewrite (weight_idle_slot _ (running_until s)
                 (current_clock s + dispatch_burst_time p) p) in Hw
        by congruence.
      lia.
    - rewrite (weight_idle_slot _ (running_until s)); [lia|].
      intros Hrun. apply (inv_placed _ HI i q Hqi) in Hrun. congruence. }
  assert (Hlt : potential (dispatch s) < potential s).
  { apply (potential_lt (fun i q => if decide (r = i)
             then set_state STATE_RUNNING q else q) s (dispatch s) r p);
      [rewrite Hps; apply transforms_alter|exact Hall|done|].
    rewrite Hu, Hc. rewrite decide_True by done.
    pose proof (weight_dispatch (current_clock s) p Hsp Hst) as Hw.
    rewrite (weight_idle_slot _ (running_until s)
               (current_clock s + dispatch_burst_time p) p) in Hw
      by congruence.
    lia. }
  split; [lia|done].
Qed.

Lemma potential_completion_check s :
  potential (completion_check s) = potential s.
Proof.
  destruct (completion_check_spec s) as (Hps & _ & _ & _ & Hu & Hc & _).
  unfold potential. by rewrite Hps, Hu, Hc.
Qed.

Lemma potential_io_manager_pass clock s :
  Inv s -> Forall sound (all_processes s) ->
  potential (io_manager_pass clock s) <= potential s.
Proof.
  intros HI Hs.
  destruct (io_manager_pass_spec clock s)
    as (HT & _ & _ & _ & _ & Hu & Hc & _).
  apply (potential_le _ _ _ HT). rewrite Hu, Hc.
  intros i p Hp. cbv beta.
  case_bool_decide as Hi; [|simpl; lia]. simpl.
  destruct (io_done clock p) eqn:Hd; [|lia].
  assert (Hst : state p = STATE_WAITING) by by apply (inv_placed _ HI i p Hp).
  unfold weight. simpl. rewrite Hst.
  change (io_cost (completed p)) with (io_cost p). lia.
Qed.

Lemma io_pending_initial input : io_pending (initial_state (load input)).
Proof.
  intros i p Hp. simpl in Hp. unfold load in Hp.
  rewrite list_lookup_fmap in Hp.
  destruct (input !! i) as [[[[[[a b] c] d] e] f]|]; [|done].
  inversion Hp; subst. done.
Qed.

Lemma io_pending_round s : Inv s -> io_pending (round s).
Proof.
  intros HI. unfold round.
  pose proof (Inv_scheduler_tick s HI) as It.
  set (st := scheduler_tick s) in *.
  pose proof (Inv_io_manager_pass (current_clock st) st It) as Ir.
  destruct (io_manager_pass_spec (current_clock st) st)
    as (HT & HK & _ & _ & _ & _ & Hc & _).
  intros i p' Hp' Hst. rewrite Hc.
  destruct (transforms_lookup_inv _ _ _ _ _ HT Hp') as (p & Hp & Heq).
  apply (inv_placed _ Ir i p' Hp') in Hst.
  rewrite HK, list_elem_of_filter in Hst. destruct Hst as [Hd Hin].
  rewrite (list_lookup_total_correct _ _ _ Hp) in Hd.
  rewrite Hd, andb_false_r in Heq. subst p'.
  unfold io_done in Hd. by apply Z.leb_gt in Hd.
Qed.

Lemma weight_nonneg c ru p :
  sound p -> (state p = STATE_RUNNING -> c < ru) -> 0 <= weight c ru p.
Proof.
  intros (Hi & Hr & Ht) Hc. unfold weight, io_cost.
  pose proof (dispatch_burst_time_le p) as [Hb _].
  destruct (state p); try nia. specialize (Hc eq_refl). nia.
Qed.

Lemma potential_nonneg s : Good s -> 0 <= potential s.
Proof.
  intros [HI Hs Ho]. apply Zsum_nonneg. apply Forall_lookup. intros i p Hp.
  apply weight_nonneg; [by eapply Forall_lookup_1|].
  intros Hst. apply (inv_placed _ HI i p Hp) in Hst.
  by destruct (Ho i p Hst Hp) as ([? _] & _).
Qed.

Lemma front_ready s i :
  Inv s -> i ∈ ready_queue s -> i ∈ ready_queue (front s).
Proof.
  intros HI Hi. unfold front.
  pose proof (Inv_advance_clock _ HI) as I1.
  pose proof (Inv_check_arrivals _ I1) as I2.
  destruct (check_arrivals_spec (advance_clock s)) as (_ & HP2 & _).
  destruct (aging_check_spec _ (inv_ready_nodup _ I2)) as (_ & HP3 & _).
  rewrite HP3, HP2, elem_of_app. by left.
Qed.

Lemma front_arrival s i p :
  Inv s -> all_processes s !! i = Some p ->
  state p = STATE_NEW -> arrival_time p <= current_clock s + 1 ->
  i ∈ ready_queue (front s).
Proof.
  intros HI Hp Hst Ha. unfold front.
  pose proof (Inv_advance_clock _ HI) as I1.
  pose proof (Inv_check_arrivals _ I1) as I2.
  destruct (check_arrivals_spec (advance_clock s)) as (_ & HP2 & _).
  destruct (aging_check_spec _ (inv_ready_nodup _ I2)) as (_ & HP3 & _).
  rewrite HP3, HP2, elem_of_app. right.
  apply list_elem_of_filter. split.
  - simpl. rewrite (list_lookup_total_correct _ _ _ Hp).
    unfold arrives. apply (inv_placed _ HI i p Hp) in Hst. rewrite Hst. simpl.
    by apply Z.leb_le.
  - apply elem_of_seq. apply lookup_lt_Some in Hp. simpl. lia.
Qed.

Lemma potential_front s :
  Inv s -> Forall sound (all_processes s) ->
  potential (front s) <= potential (advance_clock s).
Proof.
  intros HI Hs. unfold front.
  pose proof (Inv_advance_clock _ HI) as I1.
  pose proof (Inv_check_arrivals _ I1) as I2.
  pose proof (potential_check_arrivals (advance_clock s) I1 Hs).
  pose proof (potential_aging_check _ I2). lia.
Qed.

Lemma potential_back s :
  Inv s -> Forall sound (all_processes s) ->
  (forall r, running_process s = Some r ->
             current_clock s <= running_until s) ->
  potential (completion_check (dispatch (burst_resolution s))) <= potential s /\
  (running_process s = None -> ready_queue s <> [] ->
   potential (completion_check (dispatch (burst_resolution s))) < potential s).
Proof.
  intros HI Hs Hon.
  pose proof (potential_burst_resolution s HI Hs Hon) as H4.
  pose proof (Inv_burst_resolution _ HI) as I4.
  assert (Hs4 : Forall sound (all_processes (burst_resolution s))).
  { destruct evolves_lifecycle as (_ & _ & E3 & _).
    eapply Forall2_evolves_sound;
      [exact (burst_resolution_pointwise evolves evolves_refl _ E3 HI)|done]. }
  destruct (potential_dispatch _ I4 Hs4) as [H5 H5'].
  rewrite potential_completion_check. split; [lia|].
  intros Hr Hq. rewrite (burst_resolution_idle s) in * by (by left).
  specialize (H5' Hr Hq). lia.
Qed.

Lemma scheduler_tick_potential_le s :
  Good s -> all_terminated s = false ->
  potential (scheduler_tick s) <= potential s.
Proof.
  intros [HI Hs Ho] Ht.
  rewrite scheduler_tick_front by done.
  destruct (front_spec s HI) as (I3 & Hr3 & Hu3 & Hc3 & _ & _ & _ & _ & Hs3).
  specialize (Hs3 Hs).
  destruct (potential_back (front s) I3 Hs3) as [H6 _].
  { intros r. rewrite Hr3, Hu3, Hc3. intros Hr.
    pose proof (lookup_of_range _ _ (inv_running_range _ HI _ Hr)) as Hp.
    destruct (Ho r _ Hr Hp) as ([? _] & _). lia. }
  pose proof (potential_front s HI Hs).
  pose proof (potential_advance_clock s). lia.
Qed.

(** An iteration lowers the potential as long as a block is left that
    is not terminated. *)
Lemma scheduler_tick_potential_lt s i p :
  Good s -> io_pending s -> all_terminated s = false ->
  all_processes s !! i = Some p -> state p <> STATE_TERMINATED ->
  potential (scheduler_tick s) < potential s.
Proof.
  intros [HI Hs Ho] Hio Ht Hp Hnt.
  rewrite scheduler_tick_front by done.
  destruct (front_spec s HI) as (I3 & Hr3 & Hu3 & Hc3 & _ & _ & _ & _ & Hs3).
  specialize (Hs3 Hs).
  destruct (potential_back (front s) I3 Hs3) as [H6 H6'].
  { intros r. rewrite Hr3, Hu3, Hc3. intros Hr.
    pose proof (lookup_of_range _ _ (inv_running_range _ HI _ Hr)) as Hpr.
    destruct (Ho r _ Hr Hpr) as ([? _] & _). lia. }
  pose proof (potential_front s HI Hs) as H3.
  pose proof (potential_advance_clock s) as H1.
  assert (Htick : forall j q, all_processes s !! j = Some q ->
            ticking (current_clock s) q ->
            potential (completion_check (dispatch (burst_resolution (front s))))
            < potential s).
  { intros j q Hq Htk.
    pose proof (potential_advance_clock_lt s j q Hq Htk). lia. }
  destruct (running_process s) as [r|] eqn:Hr.
  { pose proof (lookup_of_range _ _ (inv_running_range _ HI _ Hr)) as Hpr.
    apply (Htick r _ Hpr). left.
    by apply (inv_placed _ HI r _ Hpr). }
  destruct (ready_queue (front s)) as [|h rest] eqn:Hq.
  - destruct (state p) eqn:Hst'; try done.
    + apply (Htick i p Hp). right. right. split; [done|].
      destruct (Z.le_gt_cases (arrival_time p) (current_clock s + 1))
        as [Hle|Hgt]; [|lia].
      pose proof (front_arrival s i p HI Hp Hst' Hle) as Hin.
      rewrite Hq in Hin. by apply elem_of_nil in Hin.
    + apply (inv_placed _ HI i p Hp) in Hst'.
      pose proof (front_ready s i HI Hst') as Hin.
      rewrite Hq in Hin. by apply elem_of_nil in Hin.
    + apply (inv_placed _ HI i p Hp) in Hst'. congruence.
    + apply (Htick i p Hp). right. left. split; [done|]. by apply (Hio i p).
  - assert (potential (completion_check (dispatch (burst_resolution (front s))))
            < potential (front s)).
    { apply H6'; [congruence|done]. }
    lia.
Qed.

Lemma round_potential_lt s i p :
  Good s -> io_pending s -> all_terminated s = false ->
  all_processes s !! i = Some p -> state p <> STATE_TERMINATED ->
  potential (round s) < potential s.
Proof.
  intros HG Hio Ht Hp Hnt. unfold round.
  pose proof (Good_scheduler_tick s HG) as [It Hst _].
  pose proof (potential_io_manager_pass
                (current_clock (scheduler_tick s)) _ It Hst).
  pose proof (scheduler_tick_potential_lt s i p HG Hio Ht Hp Hnt). lia.
Qed.

Lemma Good_round s : Good s -> Good (round s).
Proof. intros HG. unfold round. by apply Good_io_manager_pass, Good_scheduler_tick. Qed.

Lemma finished_ok_round s : Inv s -> finished_ok s -> finished_ok (round s).
Proof.
  intros HI Hf. unfold round.
  apply finished_ok_io_manager_pass; [by apply Inv_scheduler_tick|].
  by apply finished_ok_scheduler_tick.
Qed.

Lemma io_manager_pass_all_terminated clock s :
  all_terminated (io_manager_pass clock s) = all_terminated s.
Proof. by destruct (io_manager_pass_spec clock s) as (_ & _ & _ & _ & _ & _ & _ & _ & ->). Qed.

Lemma no_running_slot s :
  Inv s -> Forall (fun p => state p = STATE_TERMINATED) (all_processes s) ->
  running_process s = None.
Proof.
  intros HI Hall. destruct (running_process s) as [r|] eqn:Hr; [|done].
  pose proof (lookup_of_range _ _ (inv_running_range _ HI _ Hr)) as Hp.
  pose proof (Forall_lookup_1 _ _ _ _ Hall Hp) as Hst. simpl in Hst.
  apply (inv_placed _ HI r _ Hp) in Hr. congruence.
Qed.

Lemma round_finishes s :
  Inv s -> all_terminated s = false ->
  Forall (fun p => state p = STATE_TERMINATED) (all_processes s) ->
  all_terminated (round s) = true.
Proof.
  intros HI Ht Hall. unfold round. rewrite io_manager_pass_all_terminated.
  pose proof (Inv_scheduler_tick s HI) as It.
  assert (Hall' : Forall (fun p => state p = STATE_TERMINATED)
                    (all_processes (scheduler_tick s))).
  { pose proof (scheduler_tick_pointwise stays_terminated
                  (fun p (H : state p = STATE_TERMINATED) => H)
                  (fun p q r (H1 : stays_terminated p q)
                     (H2 : stays_terminated q r) H => H2 (H1 H))
                  s stays_terminated_lifecycle HI) as Hst.
    apply Forall_lookup. intros i p' Hp'.
    destruct (Forall2_lookup_r _ _ _ _ _ Hst Hp') as (p & Hp & Hpp).
    apply Hpp. by eapply Forall_lookup_1 in Hall. }
  pose proof (no_running_slot _ It Hall') as Hrun.
  unfold scheduler_tick in *. rewrite Ht in *.
  set (s5 := dispatch _) in *.
  destruct (completion_check_spec s5) as (Hps & _ & _ & Hr & _ & _ & _ & _ & ->).
  rewrite Hps in Hall'. rewrite Hr in Hrun.
  apply all_done_Forall in Hall'. rewrite Hall', Hrun.
  by rewrite bool_decide_eq_true_2, orb_true_r.
Qed.

Lemma run_lockstep_terminates (n : nat) : forall s,
  Good s -> io_pending s -> finished_ok s -> all_terminated s = false ->
  potential s < Z.of_nat n ->
  exists s', run_lockstep n s = Some s' /\ all_terminated s' = true /\
             Good s' /\ finished_ok s'.
Proof.
  induction n as [|n IH]; intros s HG Hio Hf Ht Hpot.
  { pose proof (potential_nonneg s HG). lia. }
  simpl. pose proof (Good_round s HG) as HG'.
  pose proof (finished_ok_round s (good_inv _ HG) Hf) as Hf'.
  destruct (all_terminated (round s)) eqn:Ht'; [by exists (round s)|].
  assert (Hlt : potential (round s) < Z.of_nat n).
  { destruct (decide (Forall (fun p => state p = STATE_TERMINATED)
                        (all_processes s))) as [Hall|Hall].
    { rewrite (round_finishes s (good_inv _ HG) Ht Hall) in Ht'. done. }
    apply not_Forall_Exists in Hall; [|intros x; apply _].
    apply Exists_exists in Hall as (p & Hin & Hp).
    apply list_elem_of_lookup in Hin as (i & Hi).
    pose proof (round_potential_lt s i p HG Hio Ht Hi Hp). lia. }
  exact (IH (round s) HG' (io_pending_round s (good_inv _ HG)) Hf' Ht' Hlt).
Qed.

Lemma clock_nonneg_scheduler_tick s :
  clock_nonneg s -> clock_nonneg (scheduler_tick s).
Proof.
  unfold clock_nonneg. intros H.
  destruct (all_terminated s) eqn:Ht;
    [unfold scheduler_tick; by rewrite Ht|].
  rewrite scheduler_tick_clock by done. lia.
Qed.

Lemma clock_nonneg_round s : clock_nonneg s -> clock_nonneg (round s).
Proof.
  intros H. apply clock_nonneg_scheduler_tick in H. unfold round, clock_nonneg.
  by destruct (io_manager_pass_spec (current_clock (scheduler_tick s))
                 (scheduler_tick s)) as (_ & _ & _ & _ & _ & _ & -> & _).
Qed.

Lemma round_steps s : clock_nonneg s -> rtc step s (round s).
Proof.
  intros H. eapply rtc_l; [apply step_scheduler|].
  apply rtc_once. apply step_io_manager.
  apply clock_nonneg_scheduler_tick in H. unfold clock_nonneg in H. lia.
Qed.

Lemma run_lockstep_steps (n : nat) : forall s s',
  clock_nonneg s -> run_lockstep n s = Some s' -> rtc step s s'.
Proof.
  induction n as [|n IH]; intros s s' Hc; simpl; [done|].
  pose proof (round_steps s Hc) as Hr.
  destruct (all_terminated (round s)).
  - by intros [= <-].
  - intros H. etrans; [exact Hr|]. apply IH; [|done].
    by apply clock_nonneg_round.
Qed.

(** ** Schedules with a fresh manager pass in every round *)

Lemma manager_passes_cons c cs s :
  manager_passes (c :: cs) s = manager_passes cs (io_manager_pass c s).
Proof. done. Qed.

Lemma Good_manager_passes cs : forall s, Good s -> Good (manager_passes cs s).
Proof.
  induction cs as [|c cs IH]; intros s HG; [done|].
  rewrite manager_passes_cons. by apply IH, Good_io_manager_pass.
Qed.

Lemma finished_ok_manager_passes cs : forall s,
  Inv s -> finished_ok s -> finished_ok (manager_passes cs s).
Proof.
  induction cs as [|c cs IH]; intros s HI Hf; [done|].
  rewrite manager_passes_cons.
  apply IH; [by apply Inv_io_manager_pass|by apply finished_ok_io_manager_pass].
Qed.

Lemma manager_passes_all_terminated cs : forall s,
  all_terminated (manager_passes cs s) = all_terminated s.
Proof.
  induction cs as [|c cs IH]; intros s; [done|].
  by rewrite manager_passes_cons, IH, io_manager_pass_all_terminated.
Qed.

Lemma io_manager_pass_clock c s :
  current_clock (io_manager_pass c s) = current_clock s.
Proof.
  by destruct (io_manager_pass_spec c s) as (_ & _ & _ & _ & _ & _ & -> & _).
Qed.

Lemma manager_passes_clock cs : forall s,
  current_clock (manager_passes cs s) = current_clock s.
Proof.
  induction cs as [|c cs IH]; intros s; [done|].
  by rewrite manager_passes_cons, IH, io_manager_pass_clock.
Qed.

Lemma potential_manager_passes cs : forall s,
  Good s -> potential (manager_passes cs s) <= potential s.
Proof.
  induction cs as [|c cs IH]; intros s HG; [done|].
  rewrite manager_passes_cons.
  pose proof (IH _ (Good_io_manager_pass c s HG)).
  pose proof (potential_io_manager_pass c s (good_inv _ HG) (good_sound _ HG)).
  lia.
Qed.

Lemma io_pending_io_manager_pass c s :
  Inv s -> io_pending s \/ current_clock s <= c ->
  io_pending (io_manager_pass c s).
Proof.
  intros HI Hor.
  pose proof (Inv_io_manager_pass c s HI) as Ir.
  destruct (io_manager_pass_spec c s) as (HT & HK & _ & _ & _ & _ & Hc & _).
  intros i p' Hp' Hst. rewrite Hc.
  destruct (transforms_lookup_inv _ _ _ _ _ HT Hp') as (p & Hp & Heq).
  pose proof Hst as Hin.
  apply (inv_placed _ Ir i p' Hp') in Hin.
  rewrite HK, list_elem_of_filter in Hin. destruct Hin as [Hd Hin].
  rewrite (list_lookup_total_correct _ _ _ Hp) in Hd.
  rewrite Hd, andb_false_r in Heq. subst p'.
  destruct Hor as [Hio|Hle].
  - by apply (Hio i p).
  - unfold io_done in Hd. apply Z.leb_gt in Hd. lia.
Qed.

Lemma io_pending_manager_passes cs : forall s,
  Inv s ->
  io_pending s \/ Exists (fun c => current_clock s <= c) cs ->
  io_pending (manager_passes cs s).
Proof.
  induction cs as [|c cs IH]; intros s HI Hor.
  - destruct Hor as [?|Hex]; [done|]. by apply Exists_nil in Hex.
  - rewrite manager_passes_cons.
    apply IH; [by apply Inv_io_manager_pass|].
    rewrite io_manager_pass_clock.
    destruct Hor as [Hio|Hex].
    + left. apply io_pending_io_manager_pass; [done|by left].
    + apply Exists_cons in Hex as [Hle|Hex]; [|by right].
      left. apply io_pending_io_manager_pass; [done|by right].
Qed.

Lemma fair_round_finishes cs s :
  Inv s -> all_terminated s = false ->
  Forall (fun p => state p = STATE_TERMINATED) (all_processes s) ->
  all_terminated (fair_round cs s) = true.
Proof.
  intros HI Ht Hall. unfold fair_round. rewrite manager_passes_all_terminated.
  pose proof (round_finishes s HI Ht Hall) as H. unfold round in H.
  by rewrite io_manager_pass_all_terminated in H.
Qed.

Lemma run_rounds_terminates (schedule : nat -> list Z) (n : nat) :
  fresh schedule ->
  forall (k : nat) (s : State),
    Good s -> io_pending s -> finished_ok s -> all_terminated s = false ->
    current_clock s = Z.of_nat k -> potential s < Z.of_nat n ->
    exists m : nat, (m <= n)%nat /\
      all_terminated (run_rounds schedule k m s) = true /\
      finished_ok (run_rounds schedule k m s).
Proof.
  intros Hfresh. induction n as [|n IH]; intros k s HG Hio Hf Ht Hk Hpot.
  { pose proof (potential_nonneg s HG). lia. }
  set (s1 := fair_round (schedule k) s).
  pose proof (Good_scheduler_tick s HG) as HGt.
  assert (HG1 : Good s1) by by apply Good_manager_passes.
  assert (Hf1 : finished_ok s1).
  { apply finished_ok_manager_passes; [apply HGt|].
    by apply finished_ok_scheduler_tick. }
  assert (Hc1 : current_clock s1 = Z.of_nat (S k)).
  { unfold s1, fair_round.
    rewrite manager_passes_clock, scheduler_tick_clock by done. lia. }
  destruct (all_terminated s1) eqn:Ht1.
  { exists 1%nat. simpl. fold s1. split; [lia|]. by split. }
  assert (Hio1 : io_pending s1).
  { apply io_pending_manager_passes; [apply HGt|]. right.
    rewrite scheduler_tick_clock by done. rewrite Hk. apply Hfresh. }
  assert (Hlt : potential s1 < Z.of_nat n).
  { destruct (decide (Forall (fun p => state p = STATE_TERMINATED)
                        (all_processes s))) as [Hall|Hall].
    { unfold s1 in Ht1.
      rewrite (fair_round_finishes _ s (good_inv _ HG) Ht Hall) in Ht1. done. }
    apply not_Forall_Exists in Hall; [|intros x; apply _].
    apply Exists_exists in Hall as (p & Hin & Hp).
    apply list_elem_of_lookup in Hin as (i & Hi).
    pose proof (scheduler_tick_potential_lt s i p HG Hio Ht Hi Hp).
    pose proof (potential_manager_passes (schedule k) _ HGt).
    unfold s1, fair_round. lia. }
  destruct (IH (S k) s1 HG1 Hio1 Hf1 Ht1 Hc1 Hlt) as (m & Hm & Hfin & Hfo).
  exists (S m). split; [lia|]. simpl. fold s1. by split.
Qed.

(** ** Schedules whose manager keeps up in the end

    The manager may miss rounds, and a pass may have read a clock that
    is behind: what is asked is that, whatever the round, some later
    pass has read a clock past it. *)
Definition served (schedule : nat -> list Z) : Prop :=
  forall k : nat, exists k' : nat, (k <= k')%nat /\
    Exists (fun clock => Z.of_nat k + 1 <= clock) (schedule k').

Lemma fresh_served schedule : fresh schedule -> served schedule.
Proof. intros H k. exists k. split; [lia|apply H]. Qed.

Lemma scheduler_tick_waiting s i p :
  Inv s -> all_processes s !! i = Some p -> state p = STATE_WAITING ->
  all_processes (scheduler_tick s) !! i = Some p.
Proof.
  intros HI Hp Hst.
  assert (Hrefl : forall q, keeps_waiting q q) by done.
  assert (Htrans : forall a b c, keeps_waiting a b -> keeps_waiting b c ->
                                 keeps_waiting a c).
  { intros a b c H1 H2 Ha. specialize (H1 Ha). subst b. by apply H2. }
  assert (Hall : Forall2 keeps_waiting (all_processes s)
                   (all_processes (scheduler_tick s))).
  { unfold scheduler_tick.
    destruct (all_terminated s);
      [by apply Forall_Forall2_diag, Forall_forall|].
    pose proof (Inv_advance_clock _ HI) as I1.
    pose proof (Inv_check_arrivals _ I1) as I2.
    pose proof (Inv_aging_check _ I2) as I3.
    pose proof (Inv_burst_resolution _ I3) as I4.
    eapply (Forall2_R_trans _ Htrans);
      [exact (advance_clock_pointwise _ Hrefl s)|].
    eapply (Forall2_R_trans _ Htrans).
    { apply (check_arrivals_pointwise _ Hrefl); [|done].
      intros c q Hq _ Hw. congruence. }
    eapply (Forall2_R_trans _ Htrans).
    { apply (aging_check_pointwise _ Hrefl); [|done].
      intros e b q Hq Hw. congruence. }
    eapply (Forall2_R_trans _ Htrans).
    { apply (burst_resolution_pointwise _ Hrefl); [|done].
      intros c ru q Hq _ Hw. congruence. }
    eapply (Forall2_R_trans _ Htrans).
    { apply (dispatch_pointwise _ Hrefl); [|done].
      intros q Hq Hw. congruence. }
    apply (completion_check_pointwise _ Hrefl). }
  destruct (Forall2_lookup_l _ _ _ _ _ Hall Hp) as (q & Hq & Hpq).
  by rewrite Hq, (Hpq Hst).
Qed.

(** An iteration lowers the potential when a block is left that is
    neither terminated nor waiting past its I/O deadline. *)
Lemma scheduler_tick_potential_lt_live s i p :
  Good s -> all_terminated s = false ->
  all_processes s !! i = Some p -> state p <> STATE_TERMINATED ->
  (state p = STATE_WAITING -> current_clock s < io_completion_time p) ->
  potential (scheduler_tick s) < potential s.
Proof.
  intros [HI Hs Ho] Ht Hp Hnt Hio.
  rewrite scheduler_tick_front by done.
  destruct (front_spec s HI) as (I3 & Hr3 & Hu3 & Hc3 & _ & _ & _ & _ & Hs3).
  specialize (Hs3 Hs).
  destruct (potential_back (front s) I3 Hs3) as [H6 H6'].
  { intros r. rewrite Hr3, Hu3, Hc3. intros Hr.
    pose proof (lookup_of_range _ _ (inv_running_range _ HI _ Hr)) as Hpr.
    destruct (Ho r _ Hr Hpr) as ([? _] & _). lia. }
  pose proof (potential_front s HI Hs) as H3.
  pose proof (potential_advance_clock s) as H1.
  assert (Htick : forall j q, all_processes s !! j = Some q ->
            ticking (current_clock s) q ->
            potential (completion_check (dispatch (burst_resolution (front s))))
            < potential s).
  { intros j q Hq Htk.
    pose proof (potential_advance_clock_lt s j q Hq Htk). lia. }
  destruct (running_process s) as [r|] eqn:Hr.
  { pose proof (lookup_of_range _ _ (inv_running_range _ HI _ Hr)) as Hpr.
    apply (Htick r _ Hpr). left.
    by apply (inv_placed _ HI r _ Hpr). }
  destruct (ready_queue (front s)) as [|h rest] eqn:Hq.
  - destruct (state p) eqn:Hst'; try done.
    + apply (Htick i p Hp). right. right. split; [done|].
      destruct (Z.le_gt_cases (arrival_time p) (current_clock s + 1))
        as [Hle|Hgt]; [|lia].
      pose proof (front_arrival s i p HI Hp Hst' Hle) as Hin.
      rewrite Hq in Hin. by apply elem_of_nil in Hin.
    + apply (inv_placed _ HI i p Hp) in Hst'.
      pose proof (front_ready s i HI Hst') as Hin.
      rewrite Hq in Hin. by apply elem_of_nil in Hin.
    + apply (inv_placed _ HI i p Hp) in Hst'. congruence.
    + apply (Htick i p Hp). right. left. split; [done|]. by apply Hio.
  - assert (potential (completion_check (dispatch (burst_resolution (front s))))
            < potential (front s)).
    { apply H6'; [congruence|done]. }
    lia.
Qed.

(** A pass that finds a block past its I/O deadline lowers the
    potential. *)
Lemma potential_io_manager_pass_lt clock s i p :
  Inv s -> Forall sound (all_processes s) ->
  all_processes s !! i = Some p -> state p = STATE_WAITING ->
  io_done clock p = true ->
  potential (io_manager_pass clock s) < potential s.
Proof.
  intros HI Hs Hp Hst Hd.
  destruct (io_manager_pass_spec clock s)
    as (HT & _ & _ & _ & _ & Hu & Hc & _).
  apply (potential_lt _ _ _ i p HT); [| done |].
  - rewrite Hu, Hc. intros j q Hq. cbv beta.
    case_bool_decide as Hj; [|simpl; lia]. simpl.
    destruct (io_done clock q) eqn:Hdq; [|lia].
    assert (Hstq : state q = STATE_WAITING) by by apply (inv_placed _ HI j q Hq).
    unfold weight. simpl. rewrite Hstq.
    change (io_cost (completed q)) with (io_cost q). lia.
  - rewrite Hu, Hc. cbv beta.
    rewrite bool_decide_eq_true_2 by by apply (inv_placed _ HI i p Hp).
    rewrite Hd. simpl. unfold weight. simpl. rewrite Hst.
    change (io_cost (completed p)) with (io_cost p). lia.
Qed.

Lemma io_manager_pass_keeps clock s i p :
  all_processes s !! i = Some p -> io_done clock p = false ->
  all_processes (io_manager_pass clock s) !! i = Some p.
Proof.
  intros Hp Hd.
  destruct (io_manager_pass_spec clock s) as (HT & _).
  rewrite (transforms_lookup _ _ _ _ _ HT Hp). by rewrite Hd, andb_false_r.
Qed.

(** Passes in a row release a waiting block, or leave it as it is. *)
Lemma manager_passes_waiter cs i p : forall s,
  Good s -> all_processes s !! i = Some p -> state p = STATE_WAITING ->
  potential (manager_passes cs s) < potential s \/
  (all_processes (manager_passes cs s) !! i = Some p /\
   Forall (fun c => c < io_completion_time p) cs).
Proof.
  induction cs as [|c cs IH]; intros s HG Hp Hst; [by right|].
  rewrite manager_passes_cons.
  pose proof (Good_io_manager_pass c s HG) as HG1.
  pose proof (potential_manager_passes cs _ HG1) as Hle.
  destruct (io_done c p) eqn:Hd.
  - left.
    pose proof (potential_io_manager_pass_lt c s i p (good_inv _ HG)
                  (good_sound _ HG) Hp Hst Hd). lia.
  - pose proof (io_manager_pass_keeps c s i p Hp Hd) as Hp1.
    pose proof (potential_io_manager_pass c s (good_inv _ HG) (good_sound _ HG)).
    destruct (IH _ HG1 Hp1 Hst) as [Hlt|[Hk Hall]]; [left; lia|].
    right. split; [done|]. constructor; [|done].
    unfold io_done in Hd. by apply Z.leb_gt in Hd.
Qed.

Lemma run_rounds_S schedule k n s :
  run_rounds schedule k (S n) s
  = run_rounds schedule (S k) n (fair_round (schedule k) s).
Proof. done. Qed.

Lemma run_rounds_add schedule j : forall k n s,
  run_rounds schedule k (j + n) s
  = run_rounds schedule (k + j) n (run_rounds schedule k j s).
Proof.
  induction j as [|j IH]; intros k n s.
  - simpl. by rewrite Nat.add_0_r.
  - simpl. rewrite IH. by rewrite Nat.add_succ_r.
Qed.

Lemma Good_fair_round cs s : Good s -> Good (fair_round cs s).
Proof. intros HG. by apply Good_manager_passes, Good_scheduler_tick. Qed.

Lemma finished_ok_fair_round cs s :
  Good s -> finished_ok s -> finished_ok (fair_round cs s).
Proof.
  intros HG Hf. apply finished_ok_manager_passes.
  - apply (Good_scheduler_tick s HG).
  - by apply finished_ok_scheduler_tick.
Qed.

Lemma fair_round_clock cs s :
  all_terminated s = false ->
  current_clock (fair_round cs s) = current_clock s + 1.
Proof.
  intros Ht. unfold fair_round.
  by rewrite manager_passes_clock, scheduler_tick_clock.
Qed.

Lemma fair_round_potential_le cs s :
  Good s -> all_terminated s = false ->
  potential (fair_round cs s) <= potential s.
Proof.
  intros HG Ht.
  pose proof (scheduler_tick_potential_le s HG Ht).
  pose proof (potential_manager_passes cs _ (Good_scheduler_tick s HG)).
  unfold fair_round. lia.
Qed.

(** A block that waits past its I/O deadline is released by the first
    pass that has read a clock at or past the deadline. *)
Lemma overdue_released schedule i p (d : nat) : forall (k : nat) (s : State),
  Good s -> finished_ok s -> all_terminated s = false ->
  current_clock s = Z.of_nat k ->
  all_processes s !! i = Some p -> state p = STATE_WAITING ->
  Exists (fun c => io_completion_time p <= c) (schedule (k + d)%nat) ->
  exists j : nat, advanced schedule k (S j) s.
Proof.
  induction d as [|d IH]; intros k s HG Hf Ht Hk Hp Hst Hex.
  - exists 0%nat. unfold advanced. simpl.
    pose proof (Good_fair_round (schedule k) s HG) as HG1.
    pose proof (finished_ok_fair_round (schedule k) s HG Hf) as Hf1.
    split; [done|]. split; [done|].
    destruct (all_terminated (fair_round (schedule k) s)) eqn:Ht1;
      [by left|right]. split; [done|].
    split; [rewrite fair_round_clock by done; lia|].
    pose proof (scheduler_tick_potential_le s HG Ht) as Hle.
    pose proof (scheduler_tick_waiting s i p (good_inv _ HG) Hp Hst) as Hp1.
    destruct (manager_passes_waiter (schedule k) i p _
                (Good_scheduler_tick s HG) Hp1 Hst) as [Hlt|[_ Hall]].
    + unfold fair_round. lia.
    + rewrite Nat.add_0_r in Hex.
      apply Exists_exists in Hex as (c & Hin & Hc).
      rewrite Forall_forall in Hall. specialize (Hall c Hin). lia.
  - set (s1 := fair_round (schedule k) s).
    pose proof (Good_fair_round (schedule k) s HG) as HG1.
    pose proof (finished_ok_fair_round (schedule k) s HG Hf) as Hf1.
    pose proof (fair_round_potential_le (schedule k) s HG Ht) as Hle1.
    fold s1 in HG1, Hf1, Hle1.
    destruct (all_terminated s1) eqn:Ht1.
    { exists 0%nat. unfold advanced. simpl. fold s1.
      split; [done|]. split; [done|]. by left. }
    assert (Hc1 : current_clock s1 = Z.of_nat (S k)).
    { unfold s1. rewrite fair_round_clock by done. lia. }
    pose proof (scheduler_tick_waiting s i p (good_inv _ HG) Hp Hst) as Hpt.
    destruct (manager_passes_waiter (schedule k) i p _
                (Good_scheduler_tick s HG) Hpt Hst) as [Hlt|[Hp1 _]].
    { exists 0%nat. unfold advanced. simpl. fold s1.
      split; [done|]. split; [done|]. right. split; [done|].
      split; [rewrite Hc1; f_equal; lia|].
      pose proof (scheduler_tick_potential_le s HG Ht).
      unfold s1, fair_round. lia. }
    fold (fair_round (schedule k) s) in Hp1. fold s1 in Hp1.
    replace (k + S d)%nat with (S k + d)%nat in Hex by lia.
    destruct (IH (S k) s1 HG1 Hf1 Ht1 Hc1 Hp1 Hst Hex) as (j & H1 & H2 & H3).
    exists (S j). unfold advanced. rewrite run_rounds_S. fold s1.
    split; [done|]. split; [done|].
    destruct H3 as [H3|(H3 & H4 & H5)]; [by left|right].
    split; [done|]. split; [rewrite H4; f_equal; lia|lia].
Qed.

(** From a state that is not finished, some rounds later the run is
    finished or the potential is lower. *)
Lemma attended_progress schedule (k : nat) (s : State) :
  attended schedule k s ->
  Good s -> finished_ok s -> all_terminated s = false ->
  current_clock s = Z.of_nat k ->
  exists j : nat, advanced schedule k (S j) s.
Proof.
  intros Hatt HG Hf Ht Hk.
  pose proof (Good_fair_round (schedule k) s HG) as HG1.
  pose proof (finished_ok_fair_round (schedule k) s HG Hf) as Hf1.
  destruct (decide (Forall (fun p => state p = STATE_TERMINATED)
                      (all_processes s))) as [Hall|Hall].
  { exists 0%nat. unfold advanced. simpl.
    split; [done|]. split; [done|]. left.
    by apply fair_round_finishes; [apply HG| |]. }
  apply not_Forall_Exists in Hall; [|intros x; apply _].
  apply Exists_exists in Hall as (p & Hin & Hnt).
  apply list_elem_of_lookup in Hin as (i & Hp).
  destruct (decide (state p = STATE_WAITING
                    /\ io_completion_time p <= current_clock s))
    as [[Hst Hover]|Hlive].
  - destruct (Hatt 0%nat i p Hp Hst) as (k' & Hkk' & Hex).
    replace k' with (k + (k' - k))%nat in Hex by lia.
    by apply (overdue_released schedule i p (k' - k) k s).
  - exists 0%nat. unfold advanced. simpl.
    split; [done|]. split; [done|].
    destruct (all_terminated (fair_round (schedule k) s)) eqn:Ht1;
      [by left|right]. split; [done|].
    split; [rewrite fair_round_clock by done; lia|].
    assert (potential (scheduler_tick s) < potential s).
    { apply (scheduler_tick_potential_lt_live s i p); try done.
      intros Hst. destruct (Z.lt_ge_cases (current_clock s)
                              (io_completion_time p)); [done|].
      exfalso. apply Hlive. split; [done|lia]. }
    pose proof (potential_manager_passes (schedule k) _
                  (Good_scheduler_tick s HG)).
    unfold fair_round. lia.
Qed.

Lemma attended_later schedule k j s :
  attended schedule k s ->
  attended schedule (k + j) (run_rounds schedule k j s).
Proof.
  intros Hatt j' i p Hp Hst. rewrite <- run_rounds_add in Hp.
  destruct (Hatt _ i p Hp Hst) as (k' & Hk' & Hex).
  exists k'. split; [lia|done].
Qed.

(** When every waiting block is attended, the run reaches the finished
    state. *)
Lemma run_rounds_attended_terminates (schedule : nat -> list Z) (n : nat) :
  forall (k : nat) (s : State),
    attended schedule k s ->
    Good s -> finished_ok s -> all_terminated s = false ->
    current_clock s = Z.of_nat k -> potential s < Z.of_nat n ->
    exists m : nat,
      all_terminated (run_rounds schedule k m s) = true /\
      finished_ok (run_rounds schedule k m s).
Proof.
  induction n as [|n IH]; intros k s Hatt HG Hf Ht Hk Hpot.
  { pose proof (potential_nonneg s HG). lia. }
  destruct (attended_progress schedule k s Hatt HG Hf Ht Hk)
    as (j & HG1 & Hf1 & [Hfin|(Ht1 & Hc1 & Hlt)]).
  { by exists (S j). }
  destruct (IH (k + S j)%nat _ (attended_later _ _ _ _ Hatt)
              HG1 Hf1 Ht1 Hc1 ltac:(lia))
    as (m & Hm & Hfm).
  exists (S j + m)%nat. by rewrite run_rounds_add.
Qed.

Lemma served_attended schedule k s : served schedule -> attended schedule k s.
Proof.
  intros Hserved j i p _ _.
  destruct (Hserved (Nat.max (k + j) (Z.to_nat (io_completion_time p))))
    as (k' & Hk' & Hex).
  exists k'. split; [lia|].
  eapply Exists_impl; [exact Hex|]. intros c Hc. simpl in Hc. lia.
Qed.

(** *** The converse: a finished run has attended every waiting block *)

Lemma manager_passes_keeps cs i p : forall s,
  all_processes s !! i = Some p ->
  Forall (fun c => c < io_completion_time p) cs ->
  all_processes (manager_passes cs s) !! i = Some p.
Proof.
  induction cs as [|c cs IH]; intros s Hp Hall; [done|].
  rewrite manager_passes_cons. apply Forall_cons in Hall as [Hc Hall].
  apply IH; [|done]. apply io_manager_pass_keeps; [done|].
  unfold io_done. apply Z.leb_gt. lia.
Qed.

Lemma Inv_manager_passes cs : forall s, Inv s -> Inv (manager_passes cs s).
Proof.
  induction cs as [|c cs IH]; intros s HI; [done|].
  rewrite manager_passes_cons. by apply IH, Inv_io_manager_pass.
Qed.

Lemma Inv_fair_round cs s : Inv s -> Inv (fair_round cs s).
Proof. intros HI. by apply Inv_manager_passes, Inv_scheduler_tick. Qed.

Lemma Inv_run_rounds schedule n : forall k s,
  Inv s -> Inv (run_rounds schedule k n s).
Proof.
  induction n as [|n IH]; intros k s HI; [done|].
  simpl. by apply IH, Inv_fair_round.
Qed.

(** A block that no longer waits has been released by a pass. *)
Lemma released_by_pass schedule i p (d : nat) : forall (k : nat) (s : State),
  Inv s -> all_processes s !! i = Some p -> state p = STATE_WAITING ->
  all_processes (run_rounds schedule k d s) !! i <> Some p ->
  exists k' : nat, (k <= k')%nat /\
    Exists (fun c => io_completion_time p <= c) (schedule k').
Proof.
  induction d as [|d IH]; intros k s HI Hp Hst Hne; [done|].
  destruct (decide (Exists (fun c => io_completion_time p <= c) (schedule k)))
    as [Hex|Hex].
  { exists k. by split. }
  apply not_Exists_Forall in Hex; [|intros x; apply _].
  assert (Hp1 : all_processes (fair_round (schedule k) s) !! i = Some p).
  { apply manager_passes_keeps; [by apply scheduler_tick_waiting|].
    eapply Forall_impl; [exact Hex|]. intros c Hc. simpl in Hc. lia. }
  destruct (IH (S k) _ (Inv_fair_round _ _ HI) Hp1 Hst Hne) as (k' & Hk' & H).
  exists k'. split; [lia|done].
Qed.

Lemma manager_passes_terminated cs : forall s,
  Inv s -> Forall (fun p => state p = STATE_TERMINATED) (all_processes s) ->
  Forall (fun p => state p = STATE_TERMINATED)
    (all_processes (manager_passes cs s)).
Proof.
  induction cs as [|c cs IH]; intros s HI Hall; [done|].
  rewrite manager_passes_cons.
  apply IH; [by apply Inv_io_manager_pass|].
  destruct stays_terminated_lifecycle as (_ & _ & _ & _ & E5).
  pose proof (io_manager_pass_pointwise stays_terminated
                (fun p (H : state p = STATE_TERMINATED) => H) c s E5 HI) as H.
  apply Forall_lookup. intros i p' Hp'.
  destruct (Forall2_lookup_r _ _ _ _ _ H Hp') as (p & Hp & Hpp).
  apply Hpp. by eapply Forall_lookup_1 in Hall.
Qed.

Lemma fair_round_terminated cs s :
  Inv s -> Forall (fun p => state p = STATE_TERMINATED) (all_processes s) ->
  Forall (fun p => state p = STATE_TERMINATED)
    (all_processes (fair_round cs s)).
Proof.
  intros HI Hall. apply manager_passes_terminated;
    [by apply Inv_scheduler_tick|].
  pose proof (scheduler_tick_pointwise stays_terminated
                (fun p (H : state p = STATE_TERMINATED) => H)
                (fun p q r (H1 : stays_terminated p q)
                   (H2 : stays_terminated q r) H => H2 (H1 H))
                s stays_terminated_lifecycle HI) as Hst.
  apply Forall_lookup. intros i p' Hp'.
  destruct (Forall2_lookup_r _ _ _ _ _ Hst Hp') as (p & Hp & Hpp).
  apply Hpp. by eapply Forall_lookup_1 in Hall.
Qed.

Lemma run_rounds_terminated schedule n : forall k s,
  Inv s -> Forall (fun p => state p = STATE_TERMINATED) (all_processes s) ->
  Forall (fun p => state p = STATE_TERMINATED)
    (all_processes (run_rounds schedule k n s)).
Proof.
  induction n as [|n IH]; intros k s HI Hall; [done|].
  simpl. apply IH; [by apply Inv_fair_round|by apply fair_round_terminated].
Qed.

Lemma finished_attended schedule (n : nat) (s : State) :
  Inv s ->
  Forall (fun p => state p = STATE_TERMINATED)
    (all_processes (run_rounds schedule 0 n s)) ->
  attended schedule 0 s.
Proof.
  intros HI Hall j i p Hp Hst. simpl.
  pose proof (Inv_run_rounds schedule j 0 s HI) as Ij.
  destruct (decide (j <= n)%nat) as [Hle|Hgt].
  - apply (released_by_pass schedule i p (n - j) j _ Ij Hp Hst).
    replace j with (0 + j)%nat at 1 by done.
    rewrite <- run_rounds_add. replace (j + (n - j))%nat with n by lia.
    intros Hpn. eapply Forall_lookup_1 in Hall; [|exact Hpn].
    simpl in Hall. congruence.
  - exfalso.
    pose proof (run_rounds_terminated schedule (j - n) (0 + n) _
                  (Inv_run_rounds schedule n 0 s HI) Hall) as Hall'.
    rewrite <- run_rounds_add in Hall'.
    replace (n + (j - n))%nat with j in Hall' by lia.
    eapply Forall_lookup_1 in Hall'; [|exact Hp].
    simpl in Hall'. congruence.
Qed.

(** *** The clock along a run *)

Lemma fair_round_clock_le cs s :
  current_clock s <= current_clock (fair_round cs s) <= current_clock s + 1.
Proof.
  unfold fair_round. rewrite manager_passes_clock.
  destruct (all_terminated s) eqn:Ht.
  - unfold scheduler_tick. rewrite Ht. lia.
  - rewrite scheduler_tick_clock by done. lia.
Qed.

Lemma run_rounds_clock_le schedule n : forall k s,
  current_clock s <= current_clock (run_rounds schedule k n s)
  <= current_clock s + Z.of_nat n.
Proof.
  induction n as [|n IH]; intros k s; [simpl; lia|].
  simpl run_rounds.
  pose proof (IH (S k) (fair_round (schedule k) s)).
  pose proof (fair_round_clock_le (schedule k) s). lia.
Qed.

Lemma run_rounds_finished_clock schedule n : forall k s,
  all_terminated s = true ->
  current_clock (run_rounds schedule k n s) = current_clock s.
Proof.
  induction n as [|n IH]; intros k s Ht; [done|].
  simpl run_rounds. rewrite IH.
  - unfold fair_round. rewrite manager_passes_clock.
    unfold scheduler_tick. by rewrite Ht.
  - unfold fair_round. rewrite manager_passes_all_terminated.
    unfold scheduler_tick. by rewrite Ht.
Qed.

(** The clock of a run that is finished after [m] rounds never exceeds
    the clock of the start by more than [m]. *)
Lemma run_rounds_clock_bounded schedule (m : nat) (s : State) :
  all_terminated (run_rounds schedule 0 m s) = true ->
  forall n : nat,
    current_clock s <= current_clock (run_rounds schedule 0 n s)
    <= current_clock s + Z.of_nat m.
Proof.
  intros Hfin n.
  destruct (decide (n <= m)%nat) as [Hle|Hgt].
  - pose proof (run_rounds_clock_le schedule n 0 s). lia.
  - replace n with (m + (n - m))%nat by lia.
    rewrite run_rounds_add, run_rounds_finished_clock by done.
    pose proof (run_rounds_clock_le schedule m 0 s). lia.
Qed.

(** ** Input parsing *)

Section ParsingFacts.

Variable scan : string -> option Fields.

Lemma count_processes_zero lines :
  count_processes lines = O <-> Forall (fun line => strlen line <= 1) lines.
Proof.
  induction lines as [|l lines IH]; simpl; [by split|].
  destruct (Z.ltb_spec 1 (strlen l)).
  - split; [done|]. intros H'. apply Forall_cons in H' as [? _]. lia.
  - rewrite IH. split; [by constructor|]. by intros [_ ?]%Forall_cons.
Qed.

Lemma scanned_blank lines :
  count_processes lines = O -> scanned scan lines = [].
Proof.
  unfold scanned.
  induction lines as [|l lines IH]; simpl; [done|].
  destruct (Z.ltb_spec 1 (strlen l)); [done|]. exact IH.
Qed.

Lemma read_processes_accepts total lines : forall filled,
  Forall (fun line => ~ rejected scan line) lines ->
  (length filled + count_processes lines <= total)%nat ->
  read_processes scan total lines filled =
    Some (filled ++ load (scanned scan lines)).
Proof.
  induction lines as [|l lines IH]; intros filled Hok Hlen; simpl.
  { unfold load. simpl. by rewrite app_nil_r. }
  apply Forall_cons in Hok as [Hl Hok]. simpl in Hlen.
  case_bool_decide as Hlt.
  - unfold scanned. simpl. fold (scanned scan lines).
    destruct (Z.ltb_spec 1 (strlen l)) as [Hs|Hs].
    + destruct (Z.leb_spec (strlen l) 1); [lia|].
      destruct (scan l) as [f|] eqn:Hf.
      * rewrite IH; [|done|rewrite length_app; simpl; lia].
        unfold load. simpl. by rewrite <- app_assoc.
      * destruct Hl. by split.
    + destruct (Z.leb_spec (strlen l) 1); [|lia]. by apply IH.
  - destruct (Z.ltb_spec 1 (strlen l)) as [Hs|Hs]; [lia|].
    assert (Hz : count_processes lines = O) by lia.
    unfold scanned. simpl.
    destruct (Z.ltb_spec 1 (strlen l)); [lia|].
    fold (scanned scan lines). rewrite scanned_blank by done.
    unfold load. simpl. by rewrite app_nil_r.
Qed.

Lemma read_processes_rejects total lines : forall filled,
  Exists (rejected scan) lines ->
  (length filled + count_processes lines <= total)%nat ->
  read_processes scan total lines filled = None.
Proof.
  induction lines as [|l lines IH]; intros filled Hex Hlen; simpl.
  { by apply Exists_nil in Hex. }
  simpl in Hlen.
  assert (Hpos : (0 < count_processes (l :: lines))%nat).
  { clear -Hex. induction Hex as [x xs [Hx _]|x xs _ IH']; simpl.
    - destruct (Z.ltb_spec 1 (strlen x)); lia.
    - destruct (1 <? strlen x); lia. }
  simpl in Hpos.
  rewrite bool_decide_eq_true_2 by lia.
  destruct (Z.ltb_spec 1 (strlen l)) as [Hs|Hs].
  - destruct (Z.leb_spec (strlen l) 1); [lia|].
    destruct (scan l) as [f|] eqn:Hf; [|done].
    apply IH; [|rewrite length_app; simpl; lia].
    apply Exists_cons in Hex as [[_ Hr]|Hex]; [congruence|done].
  - destruct (Z.leb_spec (strlen l) 1); [|lia].
    apply IH; [|lia].
    apply Exists_cons in Hex as [[Hr _]|Hex]; [lia|done].
Qed.

Lemma parse_input_file_accepts lines :
  count_processes lines <> O ->
  Forall (fun line => ~ rejected scan line) lines ->
  parse_input_file scan (Some lines) = Some (load (scanned scan lines)).
Proof.
  intros Hc Hok. unfold parse_input_file.
  rewrite bool_decide_eq_false_2 by done.
  by rewrite read_processes_accepts by (done || simpl; lia).
Qed.

Lemma parse_input_file_rejects lines :
  Exists (rejected scan) lines -> parse_input_file scan (Some lines) = None.
Proof.
  intros Hex. unfold parse_input_file.
  case_bool_decide; [done|].
  by rewrite read_processes_rejects by (done || simpl; lia).
Qed.

Lemma parse_input_file_empty lines :
  Forall (fun line => strlen line <= 1) lines ->
  parse_input_file scan (Some lines) = None.
Proof.
  intros H. apply count_processes_zero in H. unfold parse_input_file.
  by rewrite bool_decide_eq_true_2.
Qed.

End ParsingFacts.

(** * Main results *)

Lemma clock_nonneg_initial ps : clock_nonneg (initial_state ps).
Proof. unfold clock_nonneg. simpl. lia. Qed.

Lemma reachable_round input s : reachable input s -> reachable input (round s).
Proof.
  intros H. unfold reachable. etrans; [exact H|]. apply round_steps.
  unfold reachable in H. revert H.
  generalize (clock_nonneg_initial (load input)).
  generalize (initial_state (load input)). intros s0 H0 H.
  induction H as [s1|s1 s2 s3 H12 H23 IH]; [done|]. apply IH.
  destruct H12 as [s1|s1 c Hc].
  - by apply clock_nonneg_scheduler_tick.
  - unfold clock_nonneg in *.
    by destruct (io_manager_pass_spec c s1) as (_ & _ & _ & _ & _ & _ & -> & _).
Qed.

Lemma reachable_initial input : reachable input (initial_state (load input)).
Proof. apply rtc_refl. Qed.

(** ** Ordering of the ready queue *)

Lemma StronglySorted_lookup_1 {A} (R : relation A) (l : list A) :
  StronglySorted R l ->
  forall (i j : nat) a b, l !! i = Some a -> l !! j = Some b ->
                          (i < j)%nat -> R a b.
Proof.
  induction 1 as [|x l Hl IH Hx]; intros i j a b Hi Hj Hlt; [done|].
  destruct j as [|j]; [lia|]. destruct i as [|i]; simpl in *.
  - inversion Hi; subst. eapply Forall_lookup_1; [exact Hx|exact Hj].
  - apply (IH i j); [done|done|lia].
Qed.

Lemma StronglySorted_lookup_2 {A} (R : relation A) (l : list A) :
  (forall (i j : nat) a b, l !! i = Some a -> l !! j = Some b ->
                           (i < j)%nat -> R a b) ->
  StronglySorted R l.
Proof.
  induction l as [|x l IH]; intros H; constructor.
  - apply IH. intros i j a b Hi Hj Hlt. apply (H (S i) (S j)); [done|done|lia].
  - apply Forall_lookup. intros j b Hj. apply (H O (S j)); [done|done|lia].
Qed.

Lemma precedes_should_insert pa pb :
  precedes pa pb <-> should_insert pa pb = true.
Proof. symmetry. apply should_insert_spec. Qed.

Lemma ordered_priority_srtf ps q : ordered ps q -> priority_srtf ps q.
Proof.
  intros Ho i j a b pa pb Hi Hj Ha Hb Hp.
  apply precedes_should_insert in Hp.
  rewrite <- (list_lookup_total_correct _ _ _ Ha) in Hp.
  rewrite <- (list_lookup_total_correct _ _ _ Hb) in Hp.
  destruct (decide (i < j)%nat) as [|Hn]; [done|exfalso].
  destruct (decide (i = j)) as [->|Hne].
  - assert (a = b) as -> by congruence.
    apply should_insert_spec in Hp. lia.
  - assert (Hlt : (j < i)%nat) by lia.
    unfold ordered in Ho.
    pose proof (StronglySorted_lookup_1 _ _ Ho j i b a Hj Hi Hlt) as Hba.
    unfold not_after in Hba. congruence.
Qed.

Lemma priority_srtf_ordered ps q :
  Forall (fun a => (a < length ps)%nat) q ->
  priority_srtf ps q -> ordered ps q.
Proof.
  intros Hr Hp. apply StronglySorted_lookup_2. intros i j a b Hi Hj Hlt.
  unfold not_after.
  destruct (should_insert (ps !!! b) (ps !!! a)) eqn:E; [exfalso|done].
  apply precedes_should_insert in E.
  pose proof (Forall_lookup_1 _ _ _ _ Hr Hi) as Ha.
  pose proof (Forall_lookup_1 _ _ _ _ Hr Hj) as Hb.
  apply lookup_of_range in Ha, Hb.
  pose proof (Hp j i b a _ _ Hj Hi Hb Ha E). lia.
Qed.

(** C2.  In every state between two atomic operations of an execution,
    of any two records resident in the ready queue the one with the
    strictly lower priority number stands first and, at equal priority,
    the one with the strictly lower remaining time stands first; every
    insertion into an ordered queue leaves it ordered, and the reorder
    after aging orders any queue. *)
Theorem ready_queue_priority_srtf :
  (forall (input : list Fields) (s : State),
     reachable input s ->
     priority_srtf (all_processes s) (ready_queue s)) /\
  (forall (ps : Procs) (q : Queue) (p : nat),
     Forall (fun a => (a < length ps)%nat) q ->
     priority_srtf ps q ->
     priority_srtf (insert_ready_queue ps q p).1 (insert_ready_queue ps q p).2) /\
  (forall (ps : Procs) (q : Queue),
     priority_srtf (resort_ready_queue ps q).1 (resort_ready_queue ps q).2).
Proof.
  split; [|split].
  - intros input s H. apply ordered_priority_srtf.
    apply (inv_ordered _ (Inv_reachable input s H)).
  - intros ps q p Hr Hq. apply ordered_priority_srtf.
    destruct (insert_ready_queue ps q p) as [ps' q'] eqn:E. simpl.
    eapply insert_ready_queue_ordered; [exact E|].
    by apply priority_srtf_ordered.
  - intros ps q. apply ordered_priority_srtf.
    destruct (resort_ready_queue ps q) as [ps' q'] eqn:E. simpl.
    by apply resort_ready_queue_spec in E as (_ & _ & Ho).
Qed.

Lemma ready_queue_priority_srtf_witness :
  priority_srtf (all_processes (round (initial_state (load three_records))))
    (ready_queue (round (initial_state (load three_records)))) /\
  priority_srtf (insert_ready_queue (load three_records) [2%nat] 1%nat).1
    (insert_ready_queue (load three_records) [2%nat] 1%nat).2.
Proof.
  split.
  - apply (proj1 ready_queue_priority_srtf three_records).
    apply reachable_round, reachable_initial.
  - apply (proj1 (proj2 ready_queue_priority_srtf)).
    + repeat constructor.
    + intros i j a b pa pb Hi Hj.
      destruct i as [|i]; [|done]. destruct j as [|j]; [|done].
      simpl in Hi, Hj. inversion Hi; inversion Hj; subst.
      intros Ha Hb. assert (pa = pb) as -> by congruence.
      unfold precedes. lia.
Defined.

(** ** The running slot *)

(** C6.  In every reachable state a record has state Running exactly
    when it occupies the running slot, so at most one record is Running. *)
Theorem single_running_record (input : list Fields) (s : State) :
  reachable input s ->
  (forall (i : nat) (p : Process),
     all_processes s !! i = Some p ->
     state p = STATE_RUNNING <-> running_process s = Some i) /\
  (forall (i j : nat) (p q : Process),
     all_processes s !! i = Some p -> all_processes s !! j = Some q ->
     state p = STATE_RUNNING -> state q = STATE_RUNNING -> i = j).
Proof.
  intros H. pose proof (Inv_reachable input s H) as HI. split.
  - intros i p Hp. by apply (inv_placed _ HI i p Hp).
  - intros i j p q Hp Hq Hsp Hsq.
    apply (inv_placed _ HI i p Hp) in Hsp.
    apply (inv_placed _ HI j q Hq) in Hsq. congruence.
Qed.

Lemma single_running_record_witness :
  state (mkProcess 1 0 500 500 250 10 1 1 STATE_RUNNING 0 0 true)
    = STATE_RUNNING <->
  running_process (round (initial_state (load three_records))) = Some 0%nat.
Proof.
  apply (proj1 (single_running_record three_records
                  (round (initial_state (load three_records)))
                  (reachable_round _ _ (reachable_initial three_records)))
           0%nat).
  vm_compute. reflexivity.
Defined.

(** ** Priorities *)

Lemma keeps_priority_refl p : keeps_priority p p.
Proof. done. Qed.

Lemma keeps_priority_trans p q r :
  keeps_priority p q -> keeps_priority q r -> keeps_priority p r.
Proof. unfold keeps_priority. congruence. Qed.

Lemma Forall2_fmap_eq {B} (f : Process -> B) (ps ps' : Procs) :
  Forall2 (fun p p' => f p' = f p) ps ps' -> f <$> ps' = f <$> ps.
Proof. induction 1 as [|x y l k Hxy Hlk IH]; [done|]. by rewrite !fmap_cons, Hxy, IH. Qed.

Lemma insert_ready_queue_priority ps q p :
  priority <$> (insert_ready_queue ps q p).1 = priority <$> ps.
Proof.
  rewrite insert_ready_queue_procs. apply Forall2_fmap_eq.
  eapply transforms_Forall2; [apply transforms_alter|].
  intros i x _. simpl. by case_decide.
Qed.

Lemma resort_ready_queue_priority ps q :
  priority <$> (resort_ready_queue ps q).1 = priority <$> ps.
Proof.
  destruct (resort_ready_queue ps q) as [ps' q'] eqn:E. simpl.
  apply resort_ready_queue_spec in E as (HT & _).
  apply Forall2_fmap_eq. eapply transforms_Forall2; [exact HT|].
  intros i x _. simpl. by destruct (_ && _).
Qed.

Lemma load_lookup input i p :
  load input !! i = Some p -> exists f, input !! i = Some f /\ p = init_process f.
Proof.
  unfold load. rewrite list_lookup_fmap.
  destruct (input !! i) as [f|]; [|done]. intros [= <-]. eauto.
Qed.

Lemma init_process_priority f :
  priority (init_process f) = priority_of f /\
  original_priority (init_process f) = priority_of f.
Proof. by destruct f as [[[[[a b] c] d] e] g]. Qed.

(** C5.  In every reachable state the current priority of a record is at
    most its original priority, which is the priority it was loaded
    with, and is not negative when the original priority is not; no step
    of an execution raises it or takes it below 0; and it is changed by
    the aging pass alone: a manager pass, the arrival phase, the reorder
    and the phases after aging leave every priority as it was. *)
Theorem priority_ages_down (input : list Fields) (s : State) :
  reachable input s ->
  (forall (i : nat) (p : Process),
     all_processes s !! i = Some p ->
     exists f, input !! i = Some f /\
       original_priority p = priority_of f /\
       priority p <= original_priority p /\
       (0 <= original_priority p -> 0 <= priority p)) /\
  (forall (s' : State) (i : nat) (p p' : Process),
     step s s' ->
     all_processes s !! i = Some p -> all_processes s' !! i = Some p' ->
     priority p' <= priority p /\ (0 <= priority p -> 0 <= priority p')) /\
  (forall clock : Z,
     priority <$> all_processes (io_manager_pass clock s)
     = priority <$> all_processes s) /\
  priority <$> all_processes (check_arrivals (advance_clock s))
  = priority <$> all_processes s /\
  (all_terminated s = false ->
   priority <$> all_processes (scheduler_tick s)
   = priority <$> all_processes (aging_check (check_arrivals (advance_clock s)))) /\
  (forall (ps : Procs) (q : Queue),
     priority <$> (resort_ready_queue ps q).1 = priority <$> ps) /\
  (forall (ps : Procs) (q : Queue) (p : nat),
     priority <$> (insert_ready_queue ps q p).1 = priority <$> ps).
Proof.
  intros H. pose proof (Inv_reachable input s H) as HI.
  assert (K1 : arrival_closed keeps_priority) by (by intros c p _ _).
  assert (K3 : resolve_closed keeps_priority).
  { intros c ru p _ _. unfold keeps_priority.
    by destruct (resolve_frame c ru p) as (_ & -> & _). }
  assert (K4 : dispatch_closed keeps_priority) by (by intros p _).
  assert (K5 : complete_closed keeps_priority) by (by intros c p _ _).
  split; [|split; [|split; [|split; [|split; [|split]]]]].
  - intros i p Hp.
    destruct (Forall2_lookup_r _ _ _ _ _ (reachable_evolves input s H) Hp)
      as (p0 & Hp0 & Hev).
    destruct (load_lookup input i p0 Hp0) as (f & Hf & ->).
    destruct (init_process_priority f) as [Hpr Hor].
    exists f. split; [done|].
    pose proof (ev_original_priority _ _ Hev) as E1.
    pose proof (ev_priority_le _ _ Hev) as E2.
    pose proof (ev_priority_floor _ _ Hev) as E3.
    rewrite E1, Hor. rewrite Hpr in E2, E3. done.
  - intros s' i p p' Hs Hp Hp'.
    pose proof (Forall2_lookup_lr _ _ _ _ _ _ (step_evolves s s' HI Hs) Hp Hp')
      as Hev.
    split; [apply (ev_priority_le _ _ Hev)|apply (ev_priority_floor _ _ Hev)].
  - intros clock. apply Forall2_fmap_eq.
    exact (io_manager_pass_pointwise keeps_priority keeps_priority_refl
             clock s K5 HI).
  - apply Forall2_fmap_eq.
    exact (check_arrivals_pointwise keeps_priority keeps_priority_refl
             (advance_clock s) K1 (Inv_advance_clock _ HI)).
  - intros Ht. rewrite scheduler_tick_front by done. fold (front s).
    destruct (front_spec s HI) as (I3 & _).
    pose proof (Inv_burst_resolution _ I3) as I4.
    apply Forall2_fmap_eq.
    eapply Forall2_trans; [apply keeps_priority_trans| |].
    { exact (burst_resolution_pointwise keeps_priority keeps_priority_refl
               _ K3 I3). }
    eapply Forall2_trans; [apply keeps_priority_trans| |].
    { exact (dispatch_pointwise keeps_priority keeps_priority_refl _ K4 I4). }
    exact (completion_check_pointwise keeps_priority keeps_priority_refl _).
  - apply resort_ready_queue_priority.
  - apply insert_ready_queue_priority.
Qed.

Lemma priority_ages_down_witness :
  exists f, three_records !! 1%nat = Some f /\
    original_priority (mkProcess 2 0 100 100 100 10 5 5 STATE_READY 0 0 true)
      = priority_of f /\
    priority (mkProcess 2 0 100 100 100 10 5 5 STATE_READY 0 0 true)
      <= original_priority (mkProcess 2 0 100 100 100 10 5 5 STATE_READY 0 0 true) /\
    (0 <= original_priority (mkProcess 2 0 100 100 100 10 5 5 STATE_READY 0 0 true) ->
     0 <= priority (mkProcess 2 0 100 100 100 10 5 5 STATE_READY 0 0 true)).
Proof.
  apply (proj1 (priority_ages_down three_records
                  (round (initial_state (load three_records)))
                  (reachable_round _ _ (reachable_initial three_records)))
           1%nat).
  vm_compute. reflexivity.
Defined.

(** ** Counting dispatches and I/O blocks *)

Lemma transfers_refl out : transfers out out.
Proof. exists []. by rewrite app_nil_r. Qed.

Lemma transfers_trans o1 o2 o3 :
  transfers o1 o2 -> transfers o2 o3 -> transfers o1 o3.
Proof.
  intros (e1 & -> & H1) (e2 & -> & H2). exists (e1 ++ e2).
  split; [by rewrite app_assoc|]. by apply Forall_app.
Qed.

Lemma transfers_snoc out e : is_transfer e = true -> transfers out (out ++ [e]).
Proof. intros H. exists [e]. split; [done|]. by repeat constructor. Qed.

Lemma count_events_app P l k :
  count_events P (l ++ k) = count_events P l + count_events P k.
Proof. unfold count_events. rewrite filter_app, length_app. lia. Qed.

Lemma count_events_transfers P out out' :
  (forall e, is_transfer e = true -> P e = false) ->
  transfers out out' -> count_events P out' = count_events P out.
Proof.
  intros HP (evs & -> & H). rewrite count_events_app.
  assert (count_events P evs = 0) as ->; [|lia].
  unfold count_events. induction H as [|e evs He _ IH]; [done|].
  rewrite filter_cons_False; [done|]. rewrite (HP e He). done.
Qed.

Lemma arrival_step_transfers clock (l : list nat) :
  forall (ps : Procs) (ready : Queue) out ps' ready' out',
  foldl (arrival_step clock) (ps, ready, out) l = (ps', ready', out') ->
  transfers out out'.
Proof.
  induction l as [|c r IH]; intros ps ready out ps' ready' out'; simpl.
  - intros [= <- <- <-]. apply transfers_refl.
  - destruct (negb _ && _).
    + rewrite insert_ready_queue_eq. intros H. apply IH in H.
      eapply transfers_trans; [|exact H].
      eapply transfers_trans; by apply transfers_snoc.
    + apply IH.
Qed.

Lemma check_arrivals_transfers s :
  transfers (output s) (output (check_arrivals s)).
Proof.
  unfold check_arrivals.
  destruct (foldl _ _ _) as [[ps' ready'] out'] eqn:E. simpl.
  by apply arrival_step_transfers in E.
Qed.

Lemma io_scan_transfers clock (w : Queue) :
  forall (ps : Procs) (ready : Queue) out ps' ready' kept out',
  io_scan clock w ps ready out = (ps', ready', kept, out') ->
  transfers out out'.
Proof.
  induction w as [|c r IH]; intros ps ready out ps' ready' kept out'; simpl.
  - intros [= <- <- <- <-]. apply transfers_refl.
  - destruct (_ <=? _).
    + rewrite insert_ready_queue_eq. intros H. apply IH in H.
      eapply transfers_trans; [|exact H].
      eapply transfers_trans; by apply transfers_snoc.
    + destruct (io_scan clock r ps ready out) as [[[ps2 ready2] kept2] out2] eqn:E.
      intros [= <- <- <- <-]. by apply IH in E.
Qed.

Lemma io_manager_pass_transfers clock s :
  transfers (output s) (output (io_manager_pass clock s)).
Proof.
  unfold io_manager_pass.
  destruct (io_scan _ _ _ _ _) as [[[ps' ready'] kept] out'] eqn:E. simpl.
  by apply io_scan_transfers in E.
Qed.

Lemma burst_resolution_output (s : State) (r : nat) (p : Process) :
  running_process s = Some r ->
  all_processes s !! r = Some p ->
  running_until s <= current_clock s ->
  output (burst_resolution s) =
    output s ++
    [if state (resolve (current_clock s) (running_until s) p) is STATE_TERMINATED
     then EvTerminated (current_clock s) (pid p)
     else EvBlockedForIO (current_clock s) (pid p) (io_time p)].
Proof.
  intros Hr Hp Hle. unfold burst_resolution. rewrite Hr.
  destruct (Z.leb_spec (running_until s) (current_clock s)); [|lia].
  pose proof (list_lookup_total_correct _ _ _ Hp) as Hp'.
  pose proof (lookup_lt_Some _ _ _ Hp) as Hlt.
  rewrite list_lookup_total_alter_eq by done. rewrite Hp'.
  unfold resolve. simpl.
  destruct (remaining_time p - resolved_burst_time _ _ p <=? 0) eqn:E; simpl.
  - do 3 f_equal. rewrite !list_lookup_total_alter_eq;
      rewrite ?length_alter; try done. by rewrite Hp'.
  - do 2 f_equal. rewrite !list_lookup_total_alter_eq;
      rewrite ?length_alter; try done. by rewrite Hp'.
Qed.

Lemma Zsum_alter (f g : Process -> Z) (h : Process -> Process)
    (ps : Procs) (r : nat) (p : Process) :
  ps !! r = Some p ->
  (forall q, g q = f q) ->
  Zsum (g <$> alter h r ps) = Zsum (f <$> ps) + (f (h p) - f p).
Proof.
  intros Hp Hg. revert r Hp.
  induction ps as [|x ps IH]; intros r Hp; [done|].
  destruct r as [|r].
  - injection Hp as ->. change (alter h 0%nat (p :: ps)) with (h p :: ps).
    rewrite !fmap_cons, !Zsum_cons, Hg.
    assert (g <$> ps = f <$> ps) as ->; [|lia].
    apply list_fmap_ext. intros; apply Hg.
  - change (alter h (S r) (x :: ps)) with (x :: alter h r ps).
    change ((x :: ps) !! S r) with (ps !! r) in Hp.
    rewrite !fmap_cons, !Zsum_cons, Hg, (IH r Hp). lia.
Qed.

Lemma bursts_needed_resolve p :
  0 < interval_time p -> 0 < remaining_time p ->
  (remaining_time p - dispatch_burst_time p + interval_time p - 1)
    / interval_time p
  = bursts_needed p - 1.
Proof.
  intros Hi Hr. unfold bursts_needed, dispatch_burst_time.
  destruct (Z.ltb_spec (remaining_time p) (interval_time p)).
  - replace (remaining_time p - remaining_time p + interval_time p - 1)
      with (interval_time p - 1) by lia.
    rewrite Z.div_small by lia.
    replace (remaining_time p + interval_time p - 1)
      with (remaining_time p - 1 + 1 * interval_time p) by lia.
    rewrite Z.div_add by lia. rewrite Z.div_small by lia. lia.
  - replace (remaining_time p + interval_time p - 1)
      with (remaining_time p - interval_time p + interval_time p - 1
            + 1 * interval_time p) by lia.
    rewrite Z.div_add by lia. lia.
Qed.

Lemma same_counts_refl p : same_counts p p.
Proof. done. Qed.

Lemma same_counts_fields p p' :
  remaining_time p' = remaining_time p ->
  interval_time p' = interval_time p ->
  cpu_execution_time p' = cpu_execution_time p ->
  (state p' = STATE_RUNNING <-> state p = STATE_RUNNING) ->
  (state p' = STATE_TERMINATED <-> state p = STATE_TERMINATED) ->
  same_counts p p'.
Proof.
  intros Hr Hi Hc H1 H2.
  unfold same_counts, dispatches_of, blocks_of, bursts_total, bursts_needed.
  rewrite Hr, Hi, Hc.
  rewrite (bool_decide_ext _ _ H1), (bool_decide_ext _ _ H2). done.
Qed.

Lemma same_counts_arrival : arrival_closed same_counts.
Proof.
  intros c p Hs _. apply same_counts_fields; try done; simpl; rewrite Hs;
    split; discriminate.
Qed.

Lemma same_counts_aging : aging_closed same_counts.
Proof.
  intros e b p Hs.
  destruct (aged_frame e b p)
    as (H1 & H2 & H3 & H4 & H5 & H6 & H7 & H8 & H9 & H10 & H11).
  apply same_counts_fields; try done; by rewrite H1.
Qed.

Lemma same_counts_complete : complete_closed same_counts.
Proof.
  intros c p Hs _. apply same_counts_fields; try done; simpl; rewrite Hs;
    split; discriminate.
Qed.

Lemma counted_same (s s' : State) :
  Forall2 same_counts (all_processes s) (all_processes s') ->
  transfers (output s) (output s') ->
  counted s -> counted s'.
Proof.
  intros Hsc Htr [Hd Hb]. unfold counted.
  rewrite (count_events_transfers is_dispatch _ _ ltac:(by intros []) Htr).
  rewrite (count_events_transfers is_blocked _ _ ltac:(by intros []) Htr).
  rewrite Hd, Hb. split; symmetry; f_equal; apply Forall2_fmap_eq.
  - eapply Forall2_impl; [exact Hsc|]. by intros p p' [? _].
  - eapply Forall2_impl; [exact Hsc|]. by intros p p' [_ ?].
Qed.

Lemma counted_initial input : counted (initial_state (load input)).
Proof.
  unfold counted. simpl. unfold count_events. simpl.
  assert (H : forall f, dispatches_of (init_process f) = 0
                        /\ blocks_of (init_process f) = 0).
  { intros [[[[[a b] c] d] e] f].
    unfold dispatches_of, blocks_of, bursts_total, bursts_needed. simpl.
    split; lia. }
  unfold load. rewrite <- !list_fmap_compose.
  induction input as [|f input [IH1 IH2]]; [done|].
  rewrite !fmap_cons, !Zsum_cons. simpl.
  destruct (H f) as [-> ->]. lia.
Qed.

Lemma counted_front s : Inv s -> counted s -> counted (front s).
Proof.
  intros HI. unfold front.
  pose proof (Inv_advance_clock _ HI) as I1.
  pose proof (Inv_check_arrivals _ I1) as I2.
  intros H.
  apply (counted_same (check_arrivals (advance_clock s)));
    [exact (aging_check_pointwise same_counts same_counts_refl _
              same_counts_aging I2)
    |rewrite aging_check_output; apply transfers_refl|].
  apply (counted_same (advance_clock s));
    [exact (check_arrivals_pointwise same_counts same_counts_refl _
              same_counts_arrival I1)
    |apply check_arrivals_transfers|].
  exact H.
Qed.

Lemma counted_io_manager_pass clock s :
  Inv s -> counted s -> counted (io_manager_pass clock s).
Proof.
  intros HI. apply counted_same.
  - exact (io_manager_pass_pointwise same_counts same_counts_refl clock s
             same_counts_complete HI).
  - apply io_manager_pass_transfers.
Qed.

Lemma counted_burst_resolution s r p :
  running_process s = Some r ->
  all_processes s !! r = Some p ->
  running_until s = current_clock s ->
  state p = STATE_RUNNING -> sound p ->
  counted s -> counted (burst_resolution s).
Proof.
  intros Hr Hp Hu Hst (Hi & Hrem & Hterm) [Hd Hb].
  destruct (burst_resolution_spec s r p Hr Hp ltac:(lia)) as (Hps & _).
  pose proof (burst_resolution_output s r p Hr Hp ltac:(lia)) as Ho.
  assert (0 < remaining_time p) as Hpos.
  { destruct (decide (remaining_time p = 0)) as [E|E]; [|lia].
    apply Hterm in E. congruence. }
  pose proof (bursts_needed_resolve p Hi Hpos) as Hn.
  unfold counted. rewrite Hps, Ho, !count_events_app, Hd, Hb.
  rewrite (Zsum_alter dispatches_of dispatches_of _ _ _ _ Hp) by done.
  rewrite (Zsum_alter blocks_of blocks_of _ _ _ _ Hp) by done.
  rewrite Hu. unfold resolve. rewrite resolved_burst_time_on_time. simpl.
  unfold dispatches_of, blocks_of, bursts_total, bursts_needed in *.
  rewrite Hst.
  destruct (remaining_time p - dispatch_burst_time p <=? 0); simpl;
    rewrite Hn; unfold count_events; simpl; split; lia.
Qed.

Lemma counted_dispatch s : Inv s -> counted s -> counted (dispatch s).
Proof.
  intros HI [Hd Hb].
  destruct (running_process s) as [r|] eqn:Hr;
    [rewrite dispatch_idle by (left; by rewrite Hr); by split|].
  destruct (ready_queue s) as [|r rest] eqn:Hq;
    [rewrite dispatch_idle by (by right); by split|].
  destruct (dispatch_spec s r rest Hr Hq)
    as (Hps & _ & _ & _ & _ & _ & _ & _ & Ho).
  assert (Hin : r ∈ ready_queue s) by (rewrite Hq; left).
  pose proof (lookup_of_range _ _ (inv_ready_range _ HI _ Hin)) as Hp.
  destruct (inv_placed _ HI _ _ Hp) as (Hrd & _).
  apply Hrd in Hin.
  unfold counted. rewrite Hps, Ho, !count_events_app, Hd, Hb.
  rewrite (Zsum_alter dispatches_of dispatches_of _ _ _ _ Hp) by done.
  rewrite (Zsum_alter blocks_of blocks_of _ _ _ _ Hp) by done.
  unfold dispatches_of, blocks_of, bursts_total, bursts_needed. simpl.
  rewrite Hin. unfold count_events. simpl. split; lia.
Qed.

Lemma counted_scheduler_tick s : Good s -> counted s -> counted (scheduler_tick s).
Proof.
  intros [HI Hs Ho] Hc.
  destruct (all_terminated s) eqn:Ht;
    [unfold scheduler_tick; by rewrite Ht|].
  rewrite scheduler_tick_front by done.
  destruct (front_spec s HI)
    as (I3 & Hr3 & Hu3 & Hc3 & _ & _ & _ & Hb3 & Hs3).
  specialize (Hs3 Hs).
  pose proof (counted_front s HI Hc) as C3.
  assert (C4 : counted (burst_resolution (front s))).
  { destruct (running_process s) as [r|] eqn:Hr;
      [|by rewrite burst_resolution_idle by (left; congruence)].
    pose proof (lookup_of_range _ _ (inv_running_range _ HI _ Hr)) as Hp.
    destruct (Ho r _ Hr Hp) as (Hlt & _).
    destruct (Z.le_gt_cases (running_until s) (current_clock s + 1))
      as [Hle|Hgt];
      [|by rewrite burst_resolution_idle by (right; lia)].
    destruct (Forall2_lookup_l _ _ _ _ _ Hb3 Hp) as (p3 & Hp3 & _).
    apply (counted_burst_resolution _ r p3); try done; try congruence; try lia.
    - destruct (inv_placed _ I3 _ _ Hp3) as (_ & _ & Hrun & _).
      apply Hrun. congruence.
    - eapply Forall_lookup_1; [exact Hs3|exact Hp3]. }
  pose proof (Inv_burst_resolution _ I3) as I4.
  pose proof (counted_dispatch _ I4 C4) as C5.
  destruct (completion_check_spec (dispatch (burst_resolution (front s))))
    as (Hps & _ & _ & _ & _ & _ & _ & Hout & _).
  unfold counted. by rewrite Hps, Hout.
Qed.

Lemma counted_step s s' : Good s -> step s s' -> counted s -> counted s'.
Proof.
  intros HG Hs. destruct Hs as [s|s c Hc].
  - by apply counted_scheduler_tick.
  - apply counted_io_manager_pass, HG.
Qed.

Lemma counted_reachable input s :
  Forall well_formed input -> reachable input s -> counted s.
Proof.
  intros Hw H. pose proof (Good_initial input Hw) as HG.
  pose proof (counted_initial input) as HC.
  unfold reachable in H. revert HG HC.
  induction H as [s|s1 s2 s3 H12 H23 IH]; [done|]. intros HG HC.
  apply IH; [by eapply Good_step|by eapply counted_step].
Qed.

(** Once every block is terminated the output holds one dispatch line per
    burst and one blocked line per burst but the last. *)
Lemma counted_finished input s :
  Forall well_formed input -> reachable input s ->
  Forall (fun p => state p = STATE_TERMINATED) (all_processes s) ->
  count_events is_dispatch (output s) = Zsum (bursts_total <$> all_processes s)
  /\ count_events is_blocked (output s) =
     Zsum ((fun p => bursts_total p - 1) <$> all_processes s).
Proof.
  intros Hw Hr Hall.
  destruct (counted_reachable input s Hw Hr) as [Hd Hb].
  pose proof (good_sound _ (Good_reachable input s Hw Hr)) as Hs.
  rewrite Hd, Hb.
  assert (H : Forall (fun p => dispatches_of p = bursts_total p
                               /\ blocks_of p = bursts_total p - 1)
                (all_processes s)).
  { apply Forall_forall. intros p Hp.
    rewrite Forall_forall in Hall, Hs.
    pose proof (Hall p Hp) as Hst. destruct (Hs p Hp) as (Hi & _ & Ht).
    unfold dispatches_of, blocks_of, bursts_needed. rewrite Hst.
    rewrite (proj1 Ht Hst). simpl.
    rewrite Z.div_small by lia. lia. }
  clear Hd Hb Hall Hs.
  induction H as [|p ps [H1 H2] _ [IH1 IH2]]; [done|].
  rewrite !fmap_cons, !Zsum_cons, H1, H2, IH1, IH2. done.
Qed.

Lemma finished_ok_reachable input s : reachable input s -> finished_ok s.
Proof.
  intros H. pose proof (Inv_initial input) as HI.
  assert (Hf : finished_ok (initial_state (load input))).
  { intros Ht. by simpl in Ht. }
  unfold reachable in H. revert HI Hf.
  induction H as [s|s1 s2 s3 H12 H23 IH]; [done|]. intros HI Hf.
  apply IH; [by eapply Inv_step|].
  destruct H12 as [s1|s1 c Hc];
    [by apply finished_ok_scheduler_tick|by apply finished_ok_io_manager_pass].
Qed.

(** However the two threads interleave, a finished run has printed one
    dispatch line per burst of the input, and one blocked line per burst
    but the last of each record. *)
Lemma finished_counts input s :
  Forall well_formed input -> reachable input s -> all_terminated s = true ->
  count_events is_dispatch (output s) = Zsum (bursts_total <$> load input)
  /\ count_events is_blocked (output s) =
     Zsum ((fun p => bursts_total p - 1) <$> load input).
Proof.
  intros Hw Hr Ht.
  destruct (finished_ok_reachable input s Hr Ht) as [Hall _].
  destruct (counted_finished input s Hw Hr Hall) as [-> ->].
  pose proof (reachable_evolves input s Hr) as He.
  assert (H : Forall2 (fun p p' => bursts_total p' = bursts_total p)
                (load input) (all_processes s)).
  { eapply Forall2_impl; [exact He|]. intros p p' E.
    unfold bursts_total.
    by rewrite (ev_cpu_execution_time _ _ E), (ev_interval_time _ _ E). }
  split; f_equal.
  - by apply Forall2_fmap_eq.
  - apply (Forall2_fmap_eq (fun p => bursts_total p - 1)).
    eapply Forall2_impl; [exact H|]. intros p p' E. simpl. by rewrite E.
Qed.

(** ** The range of [int]

    The integers of the program are C [int]s.  The arithmetic of the
    model is the arithmetic of the program as long as no result leaves
    the range of [int]; the properties that depend on the values
    computed are stated on that range. *)

Lemma fits_upto_le input c c' :
  0 <= c' <= c -> fits_upto input c -> fits_upto input c'.
Proof.
  intros Hc (Hf & Hn & H0 & H1 & Hall). split; [done|]. split; [done|].
  split; [lia|]. split; [lia|]. eapply Forall_impl; [exact Hall|].
  intros [[[[[a b] d] e] g] h]. lia.
Qed.

Lemma fits_upto_intro input c :
  Forall int_fields input -> Z.of_nat (length input) <= INT_MAX ->
  0 <= c -> c + 1 <= INT_MAX ->
  Forall (fun f => let '(_, _, _, interval, io, _) := f in
                   c + 1 + interval <= INT_MAX /\ c + 1 + io <= INT_MAX)
    input ->
  fits_upto input c.
Proof. by intros; repeat split. Qed.

(** Decides [fits_upto] and [fits] on concrete input. *)
Ltac fits_by_computation :=
  unfold fits;
  match goal with
  | |- fits_upto ?input _ =>
      let l := eval vm_compute in input in change input with l
  end;
  apply fits_upto_intro;
  [ repeat (apply Forall_cons_2; [vm_compute; intuition discriminate|]);
    apply Forall_nil_2
  | vm_compute; discriminate
  | vm_compute; discriminate
  | vm_compute; discriminate
  | repeat (apply Forall_cons_2; [vm_compute; intuition discriminate|]);
    apply Forall_nil_2 ].

(** A run that is finished after [m] rounds stays in the range if the
    clock can reach [m]. *)
Lemma fits_run_rounds input schedule (m : nat) :
  all_terminated (run_rounds schedule 0 m (initial_state (load input))) = true ->
  fits_upto input (Z.of_nat m) ->
  forall n : nat, fits input (run_rounds schedule 0 n (initial_state (load input))).
Proof.
  intros Hfin Hfits n. unfold fits.
  pose proof (run_rounds_clock_bounded schedule m _ Hfin n) as Hc.
  simpl in Hc. eapply fits_upto_le; [|exact Hfits]. lia.
Qed.

(** *** The [int] expressions of one scheduler iteration *)

Lemma int_ok_spec z : int_ok z = true <-> in_int z.
Proof.
  unfold int_ok, in_int. rewrite andb_true_iff, !Z.leb_le. done.
Qed.

(** ** Remaining CPU time *)

Lemma dispatch_burst_time_min p :
  dispatch_burst_time p = Z.min (interval_time p) (remaining_time p).
Proof.
  unfold dispatch_burst_time.
  destruct (Z.ltb_spec (remaining_time p) (interval_time p)); lia.
Qed.

(** C8.  For input with positive CPU demands and burst intervals, as
    long as the clock, the burst ends and the I/O deadlines stay in the
    range of [int] ([fits]): in every reachable state the remaining time
    of a record lies between 0 and its CPU demand and is 0 exactly when
    the record is Terminated, and no step increases it; and along every
    schedule that ends with the finished flag raised, the milliseconds
    the records spend running add up to the sum of the CPU demands of
    the input. *)
Theorem cpu_time_conserved (input : list Fields) :
  Forall well_formed input ->
  (forall (s : State), reachable input s -> fits input s ->
     forall (i : nat) (p : Process),
       all_processes s !! i = Some p ->
       0 <= remaining_time p <= cpu_execution_time p /\
       (remaining_time p = 0 <-> state p = STATE_TERMINATED) /\
       (forall (s' : State) (p' : Process),
          step s s' -> all_processes s' !! i = Some p' ->
          remaining_time p' <= remaining_time p)) /\
  (forall (schedule : list Action),
     fits input (execute schedule (initial_state (load input))) ->
     all_terminated (execute schedule (initial_state (load input))) = true ->
     Zsum ((fun i => running_time i schedule (initial_state (load input)))
             <$> seq 0 (length input))
     = Zsum (cpu_demand <$> input)).
Proof.
  intros Hw. split.
  - intros s H _ i p Hp.
    pose proof (Good_reachable input s Hw H) as [HI Hs _].
    pose proof (Forall_lookup_1 _ _ _ _ Hs Hp) as Hsp.
    destruct Hsp as (Hint & Hrem & Hterm).
    split; [done|]. split; [by symmetry|].
    intros s' p' Hstep Hp'.
    pose proof (Forall2_lookup_lr _ _ _ _ _ _ (step_evolves s s' HI Hstep) Hp Hp')
      as Hev.
    by apply (ev_sound _ _ Hev).
  - intros schedule _ Hfin. f_equal.
    apply list_eq. intros i. rewrite !list_lookup_fmap.
    destruct (input !! i) as [f|] eqn:Hf; simpl.
    + rewrite lookup_seq_lt by (by eapply lookup_lt_Some). simpl.
      f_equal. by apply running_time_finished.
    + rewrite lookup_seq_ge; [done|]. by apply lookup_ge_None.
Qed.

Lemma cpu_time_conserved_witness :
  Zsum ((fun i => running_time i (lockstep_schedule 403)
                    (initial_state (load scenario)))
          <$> seq 0 (length scenario))
  = Zsum (cpu_demand <$> scenario).
Proof.
  apply (proj2 (cpu_time_conserved scenario
                  ltac:(repeat constructor; simpl; lia))).
  - fits_by_computation.
  - vm_compute. reflexivity.
Defined.

(** ** Burst length *)

(** What one scheduler iteration subtracts from a record. *)
Lemma scheduler_tick_remaining (s : State) (i : nat) (p p' : Process) :
  Good s -> all_terminated s = false ->
  all_processes s !! i = Some p ->
  all_processes (scheduler_tick s) !! i = Some p' ->
  remaining_time p' =
    remaining_time p -
    (if bool_decide (running_process s = Some i /\
                     running_until s <= current_clock s + 1)
     then Z.min (interval_time p) (remaining_time p) else 0).
Proof.
  intros HG Ht Hp Hp'.
  destruct (scheduler_tick_outcome s HG Ht) as [r H1 H2 H3 H4 H5|H1 H2 H3].
  - destruct (H5 i p p' Hp Hp') as (_ & -> & _).
    rewrite bool_decide_eq_false_2 by (intros [_ ?]; lia). lia.
  - destruct (decide (running_process s = Some i)) as [Hri|Hri].
    + destruct H1 as [H1|(r & q & q' & Hr & Hu & Hq & Hq' & _ & _ & Hrem & _)];
        [congruence|].
      assert (r = i) as -> by congruence.
      assert (q = p) as -> by congruence.
      assert (q' = p') as -> by congruence.
      rewrite bool_decide_eq_true_2 by (split; [done|lia]).
      by rewrite <- dispatch_burst_time_min.
    + destruct (H2 i p p' Hri Hp Hp') as (_ & -> & _).
      rewrite bool_decide_eq_false_2 by (intros [? _]; done). lia.
Qed.

(** C3.  For input with positive CPU demands and burst intervals, in
    every reachable state from which the next iteration stays in the
    range of [int] ([fits]) and whose running burst that iteration
    resolves: the last dispatch line printed is the one of the
    running record and carries min(interval_time, remaining_time) as its
    burst length; the clock-derived recomputation
    [clock - (running_until - interval_time)], clamped by the remaining
    time, equals that length; and the iteration subtracts exactly that
    length.  An iteration changes no other remaining time. *)
Theorem burst_length_as_dispatched (input : list Fields) (s : State) :
  Forall well_formed input ->
  reachable input s ->
  fits input s ->
  all_terminated s = false ->
  (forall (r : nat) (p : Process),
     running_process s = Some r -> all_processes s !! r = Some p ->
     running_until s <= current_clock s + 1 ->
     exists (pr : Z) (p' : Process),
       last_dispatch (output s) =
         Some (EvDispatched
                 (running_until s - Z.min (interval_time p) (remaining_time p))
                 (pid p) pr (remaining_time p)
                 (Z.min (interval_time p) (remaining_time p))) /\
       resolved_burst_time (current_clock s + 1) (running_until s) p
         = Z.min (interval_time p) (remaining_time p) /\
       all_processes (scheduler_tick s) !! r = Some p' /\
       remaining_time p' =
         remaining_time p - Z.min (interval_time p) (remaining_time p)) /\
  (forall (i : nat) (p p' : Process),
     all_processes s !! i = Some p ->
     all_processes (scheduler_tick s) !! i = Some p' ->
     remaining_time p' =
       remaining_time p -
       (if bool_decide (running_process s = Some i /\
                        running_until s <= current_clock s + 1)
        then Z.min (interval_time p) (remaining_time p) else 0)).
Proof.
  intros Hw H _ Ht.
  pose proof (Good_reachable input s Hw H) as HG.
  assert (Hrem := fun i p p' => scheduler_tick_remaining s i p p' HG Ht).
  split; [|exact Hrem].
  intros r p Hr Hp Hle.
  destruct (good_on_schedule _ HG r p Hr Hp) as ([Hlt _] & pr & Hld).
  assert (Hon : running_until s = current_clock s + 1) by lia.
  destruct (perform_lookup Scheduler s r p HG Hp) as (p' & Hp').
  simpl in Hp'. exists pr, p'.
  rewrite <- dispatch_burst_time_min.
  split; [done|]. split; [by rewrite Hon, resolved_burst_time_on_time|].
  split; [done|].
  rewrite (Hrem r p p' Hp Hp').
  rewrite bool_decide_eq_true_2 by done. by rewrite dispatch_burst_time_min.
Qed.

Lemma reachable_rounds input (n : nat) :
  reachable input (Nat.iter n round (initial_state (load input))).
Proof.
  induction n as [|n IH]; simpl; [apply reachable_initial|].
  by apply reachable_round.
Qed.

Lemma burst_length_as_dispatched_witness :
  exists (pr : Z) (p' : Process),
    last_dispatch (output (Nat.iter 100 round (initial_state (load scenario)))) =
      Some (EvDispatched (101 - Z.min 100 300) 1 pr 300 (Z.min 100 300)) /\
    resolved_burst_time (100 + 1) 101
      (mkProcess 1 0 300 300 100 50 2 2 STATE_RUNNING 1 0 true)
      = Z.min 100 300 /\
    all_processes
      (scheduler_tick (Nat.iter 100 round (initial_state (load scenario))))
      !! 0%nat = Some p' /\
    remaining_time p' = 300 - Z.min 100 300.
Proof.
  apply (proj1 (burst_length_as_dispatched scenario
                  (Nat.iter 100 round (initial_state (load scenario)))
                  ltac:(repeat constructor; simpl; lia)
                  (reachable_rounds scenario 100)
                  ltac:(fits_by_computation)
                  ltac:(vm_compute; reflexivity))
           0%nat (mkProcess 1 0 300 300 100 50 2 2 STATE_RUNNING 1 0 true)).
  - vm_compute. reflexivity.
  - vm_compute. reflexivity.
  - vm_compute. discriminate.
Defined.

(** ** Termination *)

Lemma potential_initial input :
  potential (initial_state (load input)) = Zsum (time_bound <$> input).
Proof.
  unfold potential, load. simpl. rewrite <- list_fmap_compose. f_equal.
  apply list_fmap_ext. intros i [[[[[a b] c] d] e] f] _. simpl.
  unfold weight, io_cost. simpl. by rewrite Z.sub_0_r.
Qed.


Lemma stale_schedule_served : served stale_schedule.
Proof.
  intros k. unfold stale_schedule.
  destruct (Nat.even (S k)) eqn:E.
  - exists (S (S k)). split; [lia|].
    rewrite Nat.even_succ, <- Nat.negb_even in E.
    change (Nat.even (S (S k))) with (Nat.even k).
    destruct (Nat.even k); [done|]. constructor. lia.
  - exists (S k). split; [lia|]. rewrite E. constructor. lia.
Qed.


(** ** The scenario of one record *)

(** C4.  The record (pid=1, arrival=0, cpu=300, interval=100, io=50,
    priority=2) alone, the two threads waking once per millisecond: the
    record is dispatched at tick 1 for a 100 ms burst, blocked for I/O at
    tick 101 for 50 ms, back in the ready queue at tick 151, and
    terminated at tick 403 when its third 100 ms burst ends; the run ends
    at tick 403 and not before.  However the two threads interleave, a
    finished run of this input has printed exactly 3 dispatches and
    exactly 2 I/O blocks. *)
Theorem single_record_scenario :
  (exists s : State,
    run_lockstep 403 (initial_state (load scenario)) = Some s /\
    run_lockstep 402 (initial_state (load scenario)) = None /\
    output s =
      [EvArrived 1 1; EvMovedToReady 1 1; EvDispatched 1 1 2 300 100;
       EvBlockedForIO 101 1 50; EvIOFinished 151 1; EvMovedToReady 151 1;
       EvDispatched 152 1 2 200 100;
       EvBlockedForIO 252 1 50; EvIOFinished 302 1; EvMovedToReady 302 1;
       EvDispatched 303 1 2 100 100;
       EvTerminated 403 1] /\
    current_clock s = 403 /\
    all_terminated s = true /\
    (remaining_time <$> all_processes s) = [0] /\
    (state <$> all_processes s) = [STATE_TERMINATED]) /\
  (forall s : State,
    reachable scenario s -> all_terminated s = true ->
    count_events is_dispatch (output s) = 3 /\
    count_events is_blocked (output s) = 2).
Proof.
  split.
  - eexists. split; [vm_compute; reflexivity|].
    vm_compute. repeat split.
  - intros s Hr Ht.
    apply (finished_counts scenario s); [|done|done].
    repeat constructor; simpl; lia.
Qed.

Lemma single_record_scenario_witness :
  count_events is_dispatch
    (output (Nat.iter 403 round (initial_state (load scenario)))) = 3 /\
  count_events is_blocked
    (output (Nat.iter 403 round (initial_state (load scenario)))) = 2.
Proof.
  apply (proj2 single_record_scenario
           (Nat.iter 403 round (initial_state (load scenario)))
           (reachable_rounds scenario 403)).
  vm_compute. reflexivity.
Defined.

(** ** Aging and the reorder *)

(** The aging pass alone does what its comments say: the timer keeps
    the remainder modulo 100 and the priority drops by the whole 100 ms
    units, not below 0. *)
Lemma age_spec (e : Z) (p : Process) :
  0 <= time_in_ready_queue p -> 0 <= e -> 0 <= priority p ->
  time_in_ready_queue (age e p) = (time_in_ready_queue p + e) mod 100 /\
  priority (age e p) =
    Z.max 0 (priority p - (time_in_ready_queue p + e) / 100).
Proof.
  intros Ht He Hp. unfold age. simpl.
  destruct (Z.leb_spec 100 (time_in_ready_queue p + e)) as [Hge|Hlt]; simpl.
  - rewrite Z.quot_div_nonneg, Z.rem_mod_nonneg by lia.
    assert (1 <= (time_in_ready_queue p + e) / 100).
    { apply Z.div_le_lower_bound; lia. }
    destruct (Z.ltb_spec 0 (priority p)); simpl.
    + destruct (Z.ltb_spec (priority p - (time_in_ready_queue p + e) / 100) 0);
        simpl; split; try done; lia.
    + split; [done|]. lia.
  - rewrite Z.mod_small, Z.div_small by lia. split; [done|lia].
Qed.

(** With a single resident the reorder returns at once and the pass
    keeps the remainder. *)
Lemma aging_check_single_resident (s : State) (i : nat) (p p' : Process) :
  ready_queue s = [i] -> last_aging_check s < current_clock s ->
  all_processes s !! i = Some p ->
  all_processes (aging_check s) !! i = Some p' ->
  p' = age (current_clock s - last_aging_check s) p.
Proof.
  intros Hq Hlt Hp Hp'.
  destruct (aging_check_spec s) as (HT & _).
  { rewrite Hq. apply NoDup_singleton. }
  rewrite HT, Hp in Hp'. simpl in Hp'. rewrite Hq in Hp'.
  rewrite (proj2 (Z.ltb_lt _ _) Hlt) in Hp'.
  rewrite bool_decide_eq_true_2 in Hp' by left. simpl in Hp'. congruence.
Qed.

(** With two residents or more the reorder re-inserts every resident
    and the insertion zeroes its timer. *)
Lemma aging_check_resets_timers (s : State) (i : nat) (p' : Process) :
  NoDup (ready_queue s) -> (1 < length (ready_queue s))%nat ->
  last_aging_check s < current_clock s ->
  i ∈ ready_queue s ->
  all_processes (aging_check s) !! i = Some p' ->
  time_in_ready_queue p' = 0.
Proof.
  intros Hnd Hlen Hlt Hi Hp'.
  destruct (aging_check_spec s Hnd) as (HT & _).
  destruct (transforms_lookup_inv _ _ _ _ _ HT Hp') as (p & Hp & ->).
  rewrite (proj2 (Z.ltb_lt _ _) Hlt).
  rewrite bool_decide_eq_true_2 by done. simpl.
  destruct (Z.leb_spec (Z.of_nat (length (ready_queue s))) 1); [lia|done].
Qed.

(** C1.  An aging pass followed by the reorder does not keep the
    remainder once the ready queue has two residents or more: whatever
    time has elapsed, every resident leaves the pass with its timer at 0.
    On the input of three records in which records 2 and 3 stay in the
    ready queue for the 250 ms of the first burst of record 1, after 250
    rounds both are still resident with priority 5 and timer 0, where
    250 ms of aging call for priority 3 and a remainder of 50. *)
Theorem aging_lost_by_reorder :
  (forall (s : State) (i : nat) (p' : Process),
     NoDup (ready_queue s) -> (1 < length (ready_queue s))%nat ->
     last_aging_check s < current_clock s ->
     i ∈ ready_queue s ->
     all_processes (aging_check s) !! i = Some p' ->
     time_in_ready_queue p' = 0) /\
  let input := [(1, 0, 500, 250, 10, 1); (2, 0, 100, 100, 10, 5);
                (3, 0, 100, 100, 10, 5)] in
  let s := Nat.iter 250 round (initial_state (load input)) in
  current_clock s = 250 /\
  running_process s = Some 0%nat /\
  ready_queue s = [1%nat; 2%nat] /\
  (priority <$> all_processes s) = [1; 5; 5] /\
  (time_in_ready_queue <$> all_processes s) = [0; 0; 0] /\
  Z.max 0 (5 - (0 + 250) / 100) = 3 /\ (0 + 250) mod 100 = 50.
Proof.
  split; [exact aging_check_resets_timers|].
  vm_compute. repeat split.
Qed.

(** ** Rejected and accepted input *)

(** C9.  When no line of the input file holds a process descriptor
    (every line has at most one character), [parse_input_file] fails and
    [main] exits with failure, the clock still at 0 and nothing
    printed: no scheduler iteration has run. *)
Theorem empty_input_rejected (scan : string -> option Fields)
    (lines : list string) (argc : Z) (thread_created : bool) (fuel : nat) :
  Forall (fun line => strlen line <= 1) lines ->
  parse_input_file scan (Some lines) = None /\
  main scan argc (Some lines) thread_created fuel = Exit EXIT_FAILURE 0 [].
Proof.
  intros H. pose proof (parse_input_file_empty scan lines H) as Hp.
  split; [done|]. unfold main. rewrite Hp. by destruct (negb _).
Qed.

Lemma empty_input_rejected_witness :
  parse_input_file sscanf_6d (Some [String "010" EmptyString]) = None /\
  main sscanf_6d 2 (Some [String "010" EmptyString]) true 1000
    = Exit EXIT_FAILURE 0 [].
Proof.
  apply (empty_input_rejected sscanf_6d [String "010" EmptyString] 2 true 1000).
  repeat constructor. vm_compute. discriminate.
Defined.

(** C10.  Of a file with at least one descriptor line,
    [parse_input_file] fails exactly when [sscanf] does not convert six
    integers from some descriptor line, whatever the values converted;
    the line [1 -5 0 100 50 42] is loaded with arrival time -5, CPU
    demand 0 and priority 42, and the simulation runs on these values. *)
Theorem out_of_range_input_accepted :
  (forall (scan : string -> option Fields) (lines : list string),
     count_processes lines <> O ->
     (parse_input_file scan (Some lines) = None <->
      exists line, line ∈ lines /\ 1 < strlen line /\ scan line = None) /\
     ((forall line, line ∈ lines -> 1 < strlen line -> is_Some (scan line)) ->
      parse_input_file scan (Some lines) = Some (load (scanned scan lines)))) /\
  parse_input_file sscanf_6d (Some [out_of_range_line])
    = Some [mkProcess 1 (-5) 0 0 100 50 42 42 STATE_NEW 0 0 false] /\
  main sscanf_6d 2 (Some [out_of_range_line]) true 10
    = Exit EXIT_SUCCESS 2
        [EvArrived 1 1; EvMovedToReady 1 1; EvDispatched 1 1 42 0 0;
         EvTerminated 2 1].
Proof.
  split; [|split; vm_compute; reflexivity].
  intros scan lines Hc.
  assert (Hdec : Exists (rejected scan) lines \/
                 Forall (fun line => ~ rejected scan line) lines).
  { clear. induction lines as [|l lines [IH|IH]].
    - right. constructor.
    - left. by right.
    - destruct (Z.ltb_spec 1 (strlen l)) as [Hs|Hs].
      + destruct (scan l) eqn:E.
        * right. constructor; [|done]. intros [_ ?]. congruence.
        * left. left. by split.
      + right. constructor; [|done]. intros [? _]. lia. }
  split.
  - split.
    + intros Hnone. destruct Hdec as [Hex|Hall].
      * apply Exists_exists in Hex as (line & Hin & Hr & Hs). eauto.
      * rewrite (parse_input_file_accepts scan lines Hc Hall) in Hnone. done.
    + intros (line & Hin & Hr & Hs). apply parse_input_file_rejects.
      apply Exists_exists. exists line. by repeat split.
  - intros Hok. apply parse_input_file_accepts; [done|].
    apply Forall_forall. intros line Hin [Hr Hs].
    destruct (Hok line Hin Hr) as [f Hf]. congruence.
Qed.

Lemma out_of_range_input_accepted_witness :
  (parse_input_file sscanf_6d (Some [out_of_range_line]) = None <->
   exists line, line ∈ [out_of_range_line] /\ 1 < strlen line /\
                sscanf_6d line = None) /\
  ((forall line, line ∈ [out_of_range_line] -> 1 < strlen line ->
                 is_Some (sscanf_6d line)) ->
   parse_input_file sscanf_6d (Some [out_of_range_line])
     = Some (load (scanned sscanf_6d [out_of_range_line]))).
Proof.
  apply (proj1 out_of_range_input_accepted sscanf_6d [out_of_range_line]).
  vm_compute. discriminate.
Defined.

(** * Further properties of the code *)

(** ** Queue operations *)

Lemma insert_position_place ps p q :
  exists l1 l2 : Queue,
    q = l1 ++ l2 /\ insert_position ps p q = l1 ++ p :: l2 /\
    Forall (fun c => should_insert (ps !!! p) (ps !!! c) = false) l1 /\
    match l2 with
    | [] => True
    | c :: _ => should_insert (ps !!! p) (ps !!! c) = true
    end.
Proof.
  induction q as [|c q (l1 & l2 & -> & IH & H1 & H2)]; simpl.
  - by exists [], [].
  - destruct (should_insert (ps !!! p) (ps !!! c)) eqn:E.
    + by exists [], (c :: l1 ++ l2).
    + exists (c :: l1), l2. rewrite IH. repeat split; try done.
      by constructor.
Qed.

Lemma should_insert_reset (ps : Procs) (p a b : nat) :
  should_insert (alter (set_time_in_ready_queue 0) p ps !!! a)
                (alter (set_time_in_ready_queue 0) p ps !!! b)
  = should_insert (ps !!! a) (ps !!! b).
Proof.
  assert (H : same_keys ps (alter (set_time_in_ready_queue 0) p ps))
    by (by apply same_keys_alter).
  destruct (H a), (H b). by apply should_insert_key.
Qed.

(** X1.  [insert_ready_queue] links the new cell behind every cell that
    it does not sort strictly before and in front of the first cell that
    it sorts strictly before, so records with the same priority and
    remaining time leave the queue in the order they entered it; the
    other cells keep their order, and of the table only the aging timer
    of the inserted record changes, to 0. *)
Theorem insert_ready_queue_behind_equals (ps : Procs) (q : Queue) (p : nat) :
  exists l1 l2 : Queue,
    q = l1 ++ l2 /\
    (insert_ready_queue ps q p).2 = l1 ++ p :: l2 /\
    Forall (fun c => ~ precedes (ps !!! p) (ps !!! c)) l1 /\
    (forall c, head l2 = Some c -> precedes (ps !!! p) (ps !!! c)) /\
    (insert_ready_queue ps q p).1 = alter (set_time_in_ready_queue 0) p ps.
Proof.
  rewrite insert_ready_queue_eq. simpl.
  destruct (insert_position_place (alter (set_time_in_ready_queue 0) p ps) p q)
    as (l1 & l2 & Hq & Hi & H1 & H2).
  exists l1, l2. repeat split; try done.
  - eapply Forall_impl; [exact H1|]. intros c Hc. cbv beta in Hc.
    rewrite should_insert_reset in Hc.
    rewrite precedes_should_insert. congruence.
  - intros c Hc. destruct l2 as [|c' l2]; [done|].
    simpl in Hc. injection Hc as ->.
    rewrite should_insert_reset in H2. by apply precedes_should_insert.
Qed.

Lemma insert_ready_queue_behind_equals_witness :
  exists l1 l2 : Queue,
    [2%nat; 1%nat] = l1 ++ l2 /\
    (insert_ready_queue (load three_records) [2%nat; 1%nat] 0%nat).2
      = l1 ++ 0%nat :: l2 /\
    Forall (fun c => ~ precedes (load three_records !!! 0%nat)
                                (load three_records !!! c)) l1 /\
    (forall c, head l2 = Some c ->
               precedes (load three_records !!! 0%nat)
                        (load three_records !!! c)) /\
    (insert_ready_queue (load three_records) [2%nat; 1%nat] 0%nat).1
      = alter (set_time_in_ready_queue 0) 0%nat (load three_records).
Proof.
  exact (insert_ready_queue_behind_equals (load three_records)
           [2%nat; 1%nat] 0%nat).
Defined.

Lemma remove_walk_insert_position ps p q :
  p ∉ q -> remove_walk p (insert_position ps p q) = q.
Proof.
  induction q as [|c q IH]; simpl; intros Hp.
  - by rewrite bool_decide_eq_true_2.
  - apply not_elem_of_cons in Hp as [Hne Hp].
    destruct (should_insert _ _); simpl.
    + by rewrite bool_decide_eq_true_2.
    + rewrite bool_decide_eq_false_2 by congruence. by rewrite IH.
Qed.

Lemma is_empty_false (q : Queue) : q <> [] -> is_empty q = false.
Proof. destruct q; [done|]. intros _. unfold is_empty. simpl. lia. Qed.

(** X2.  Removing a cell right after inserting it gives the queue back:
    [remove_from_queue] undoes [insert_ready_queue] on a queue that did
    not hold the cell. *)
Theorem remove_from_queue_insert_ready_queue (ps : Procs) (q : Queue) (p : nat) :
  p ∉ q ->
  remove_from_queue (insert_ready_queue ps q p).2 p = q.
Proof.
  intros Hp. rewrite insert_ready_queue_eq. simpl. unfold remove_from_queue.
  rewrite is_empty_false.
  - by apply remove_walk_insert_position.
  - destruct (insert_position_place
                (alter (set_time_in_ready_queue 0) p ps) p q)
      as (l1 & l2 & _ & -> & _). by destruct l1.
Qed.

Lemma remove_from_queue_insert_ready_queue_witness :
  remove_from_queue (insert_ready_queue (load three_records) [2%nat; 1%nat] 0%nat).2
    0%nat = [2%nat; 1%nat].
Proof.
  apply (remove_from_queue_insert_ready_queue (load three_records)
           [2%nat; 1%nat] 0%nat).
  intros H. repeat (apply elem_of_cons in H as [H|H]; [discriminate|]).
  by apply elem_of_nil in H.
Defined.

Lemma remove_from_queue_walk q p : remove_from_queue q p = remove_walk p q.
Proof. by destruct q. Qed.

Lemma remove_walk_absent p q : p ∉ q -> remove_walk p q = q.
Proof.
  induction q as [|c q IH]; simpl; [done|]. intros Hp.
  apply not_elem_of_cons in Hp as [Hne Hp].
  rewrite bool_decide_eq_false_2 by congruence. by rewrite IH.
Qed.

Lemma remove_walk_first p l1 l2 :
  p ∉ l1 -> remove_walk p (l1 ++ p :: l2) = l1 ++ l2.
Proof.
  induction l1 as [|c l1 IH]; simpl; intros Hp.
  - by rewrite bool_decide_eq_true_2.
  - apply not_elem_of_cons in Hp as [Hne Hp].
    rewrite bool_decide_eq_false_2 by congruence. by rewrite IH.
Qed.

Lemma remove_walk_sublist p q : remove_walk p q `sublist_of` q.
Proof.
  induction q as [|c q IH]; simpl; [done|].
  case_bool_decide; [by apply sublist_cons|by apply sublist_skip].
Qed.

Lemma StronglySorted_sublist {A} (R : relation A) (k l : list A) :
  k `sublist_of` l -> StronglySorted R l -> StronglySorted R k.
Proof.
  induction 1 as [|x k l Hkl IH|x k l Hkl IH]; intros Hs; [done| |].
  - apply StronglySorted_inv in Hs as [Hs Hx]. constructor; [by apply IH|].
    apply Forall_forall. intros y Hy. rewrite Forall_forall in Hx.
    apply Hx. by eapply elem_of_sublist.
  - apply StronglySorted_inv in Hs as [Hs _]. by apply IH.
Qed.

(** X3.  [remove_from_queue] unlinks the first cell that is [p] and
    nothing else: a queue that does not hold [p] (the empty queue among
    them) is left as it is, the cells before and after the unlinked one
    keep their order, a queue in Priority-SRTF order stays in that
    order, and from a queue without repetition [p] is gone. *)
Theorem remove_from_queue_unlinks (ps : Procs) (q : Queue) (p : nat) :
  (p ∉ q -> remove_from_queue q p = q) /\
  (forall l1 l2 : Queue,
     q = l1 ++ p :: l2 -> p ∉ l1 -> remove_from_queue q p = l1 ++ l2) /\
  (p ∈ q -> S (length (remove_from_queue q p)) = length q) /\
  (ordered ps q -> ordered ps (remove_from_queue q p)) /\
  (NoDup q -> NoDup (remove_from_queue q p) /\ p ∉ remove_from_queue q p).
Proof.
  rewrite remove_from_queue_walk. split; [apply remove_walk_absent|].
  split; [intros l1 l2 -> H; by apply remove_walk_first|].
  split; [|split].
  - intros Hin. apply list_elem_of_split_l in Hin as (l1 & l2 & -> & Hl1).
    rewrite remove_walk_first by done. rewrite !length_app. simpl. lia.
  - unfold ordered. intros Ho.
    by eapply StronglySorted_sublist; [apply remove_walk_sublist|].
  - intros Hnd. split.
    + eapply sublist_NoDup; [exact Hnd|apply remove_walk_sublist].
    + destruct (decide (p ∈ q)) as [Hin|Hin];
        [|by rewrite remove_walk_absent].
      apply list_elem_of_split_l in Hin as (l1 & l2 & -> & Hl1).
      rewrite remove_walk_first by done.
      apply NoDup_app in Hnd as (_ & Hd & Hn2).
      apply NoDup_cons in Hn2 as [Hp2 _].
      rewrite elem_of_app. intros [?|?]; [done|done].
Qed.

Lemma collect_all (q : Queue) : forall (fuel : nat) (processes : list nat),
  (length q <= fuel)%nat -> collect fuel q processes = (processes ++ q, []).
Proof.
  induction q as [|p q IH]; intros fuel processes Hf.
  - destruct fuel; simpl; by rewrite app_nil_r.
  - destruct fuel as [|fuel]; simpl in Hf; [lia|].
    simpl. rewrite IH by lia. by rewrite <- app_assoc.
Qed.

(** X4.  The first loop of [resort_ready_queue] stores the cells of the
    ready queue in queue order and leaves the queue empty: it writes
    exactly [size] entries, the length of the array [processes], and
    re-inserting what it has collected into the emptied queue is the
    reorder. *)
Theorem resort_ready_queue_collects (ps : Procs) (ready : Queue) (fuel : nat) :
  (length ready <= fuel)%nat ->
  collect fuel ready [] = (ready, init_queue) /\
  length (collect fuel ready []).1 = length ready /\
  resort_ready_queue ps ready =
    (if Z.of_nat (length ready) <=? 1 then (ps, ready)
     else foldl (fun '(ps, q) p => insert_ready_queue ps q p)
            (ps, (collect fuel ready []).2) (collect fuel ready []).1).
Proof.
  intros Hf. rewrite (collect_all ready fuel [] Hf). simpl. done.
Qed.

Lemma resort_ready_queue_collects_witness :
  collect 5 [2%nat; 0%nat; 1%nat] [] = ([2%nat; 0%nat; 1%nat], init_queue) /\
  length (collect 5 [2%nat; 0%nat; 1%nat] []).1 = length [2%nat; 0%nat; 1%nat] /\
  resort_ready_queue (load three_records) [2%nat; 0%nat; 1%nat] =
    (if Z.of_nat (length [2%nat; 0%nat; 1%nat]) <=? 1
     then (load three_records, [2%nat; 0%nat; 1%nat])
     else foldl (fun '(ps, q) p => insert_ready_queue ps q p)
            (load three_records, (collect 5 [2%nat; 0%nat; 1%nat] []).2)
            (collect 5 [2%nat; 0%nat; 1%nat] []).1).
Proof.
  apply (resort_ready_queue_collects (load three_records)
           [2%nat; 0%nat; 1%nat] 5).
  simpl. lia.
Defined.

Lemma remove_from_queue_unlinks_witness :
  remove_from_queue [2%nat; 0%nat; 1%nat; 0%nat] 0%nat = [2%nat] ++ [1%nat; 0%nat].
Proof.
  apply (proj1 (proj2 (remove_from_queue_unlinks (load three_records)
                         [2%nat; 0%nat; 1%nat; 0%nat] 0%nat))
           [2%nat] [1%nat; 0%nat]).
  - reflexivity.
  - intros H. apply elem_of_cons in H as [H|H]; [discriminate|].
    by apply elem_of_nil in H.
Defined.

(** ** The aging pass *)

Lemma age_priority_spec (e : Z) (p : Process) :
  0 <= time_in_ready_queue p -> 0 <= e ->
  priority (age e p) =
    (if 0 <? priority p
     then Z.max 0 (priority p - (time_in_ready_queue p + e) / 100)
     else priority p).
Proof.
  intros Ht He. unfold age. simpl.
  destruct (Z.leb_spec 100 (time_in_ready_queue p + e)) as [Hge|Hlt]; simpl.
  - rewrite Z.quot_div_nonneg by lia.
    destruct (Z.ltb_spec 0 (priority p)); simpl; [|done].
    destruct (Z.ltb_spec (priority p - (time_in_ready_queue p + e) / 100) 0);
      simpl; lia.
  - rewrite Z.div_small by lia. destruct (Z.ltb_spec 0 (priority p)); lia.
Qed.

Lemma age_timer_spec (e : Z) (p : Process) :
  0 <= time_in_ready_queue p -> 0 <= e ->
  time_in_ready_queue (age e p) = (time_in_ready_queue p + e) mod 100.
Proof.
  intros Ht He. unfold age. simpl.
  destruct (Z.leb_spec 100 (time_in_ready_queue p + e)) as [Hge|Hlt]; simpl.
  - rewrite Z.rem_mod_nonneg by lia.
    destruct (Z.ltb_spec 0 (priority p)); simpl; [|done].
    by destruct (Z.ltb_spec (priority p - Z.quot (time_in_ready_queue p + e) 100) 0).
  - by rewrite Z.mod_small by lia.
Qed.

(** A block is fixed by its twelve fields. *)
Lemma Process_eq (p q : Process) :
  pid p = pid q -> arrival_time p = arrival_time q ->
  cpu_execution_time p = cpu_execution_time q ->
  remaining_time p = remaining_time q ->
  interval_time p = interval_time q -> io_time p = io_time q ->
  priority p = priority q -> original_priority p = original_priority q ->
  state p = state q -> time_in_ready_queue p = time_in_ready_queue q ->
  io_completion_time p = io_completion_time q ->
  has_arrived p = has_arrived q -> p = q.
Proof. destruct p, q. simpl. congruence. Qed.

Lemma age_age (e1 e2 : Z) (p : Process) :
  0 <= time_in_ready_queue p -> 0 <= e1 -> 0 <= e2 ->
  age e2 (age e1 p) = age (e1 + e2) p.
Proof.
  intros Ht H1 H2.
  pose proof (age_frame e1 p) as F1.
  pose proof (age_frame e2 (age e1 p)) as F2.
  pose proof (age_frame (e1 + e2) p) as F3.
  pose proof (age_timer_spec e1 p Ht H1) as T1.
  assert (Ht1 : 0 <= time_in_ready_queue (age e1 p)).
  { rewrite T1. apply Z.mod_pos_bound. lia. }
  pose proof (age_timer_spec e2 (age e1 p) Ht1 H2) as T2.
  pose proof (age_timer_spec (e1 + e2) p Ht ltac:(lia)) as T3.
  pose proof (age_priority_spec e1 p Ht H1) as P1.
  pose proof (age_priority_spec e2 (age e1 p) Ht1 H2) as P2.
  pose proof (age_priority_spec (e1 + e2) p Ht ltac:(lia)) as P3.
  set (t := time_in_ready_queue p) in *.
  assert (Hdiv : (t + (e1 + e2)) / 100 =
                 (t + e1) / 100 + ((t + e1) mod 100 + e2) / 100).
  { pose proof (Z.div_mod (t + e1) 100 ltac:(lia)) as E.
    replace (t + (e1 + e2))
      with ((t + e1) mod 100 + e2 + (t + e1) / 100 * 100) by lia.
    rewrite Z.div_add by lia. lia. }
  assert (Hmod : (t + (e1 + e2)) mod 100 = ((t + e1) mod 100 + e2) mod 100).
  { replace (t + (e1 + e2)) with (t + e1 + e2) by lia.
    by rewrite Zplus_mod_idemp_l. }
  assert (Ha : 0 <= (t + e1) / 100) by (apply Z.div_pos; lia).
  assert (Hb : 0 <= ((t + e1) mod 100 + e2) / 100).
  { apply Z.div_pos; [|lia].
    pose proof (Z.mod_pos_bound (t + e1) 100 ltac:(lia)). lia. }
  apply Process_eq; try (destruct F1 as (?&?&?&?&?&?&?&?&?&?),
    F2 as (?&?&?&?&?&?&?&?&?&?), F3 as (?&?&?&?&?&?&?&?&?&?); congruence).
  rewrite P2, P3, P1, T1, Hdiv.
  destruct (Z.ltb_spec 0 (priority p)).
  - destruct (Z.ltb_spec 0 (Z.max 0 (priority p - (t + e1) / 100))); lia.
  - destruct (Z.ltb_spec 0 (priority p)); lia.
Qed.

(** X5.  On the records of the ready queue [update_aging] adds the
    elapsed time to the aging timer, keeps the timer modulo 100 and, when
    the priority is positive, lowers it by one per whole 100 ms, not
    below 0; a priority that is 0 or negative stays as it is.  State,
    remaining time and the other fields are untouched, and so is every
    record outside the queue. *)
Theorem update_aging_on_residents (e : Z) (ps : Procs) (ready : Queue)
    (i : nat) (p : Process) :
  NoDup ready -> 0 <= e ->
  ps !! i = Some p ->
  exists p' : Process,
    update_aging e ps ready !! i = Some p' /\
    (i ∉ ready -> p' = p) /\
    (i ∈ ready -> 0 <= time_in_ready_queue p ->
       time_in_ready_queue p' = (time_in_ready_queue p + e) mod 100 /\
       priority p' =
         (if 0 <? priority p
          then Z.max 0 (priority p - (time_in_ready_queue p + e) / 100)
          else priority p)) /\
    state p' = state p /\ remaining_time p' = remaining_time p /\
    io_completion_time p' = io_completion_time p /\
    has_arrived p' = has_arrived p /\
    original_priority p' = original_priority p.
Proof.
  intros Hnd He Hp.
  pose proof (update_aging_transforms e ready ps Hnd i) as H.
  rewrite Hp in H. simpl in H.
  eexists. split; [exact H|].
  case_bool_decide as Hin.
  - split; [done|]. split.
    + intros _ Ht. split; [by apply age_timer_spec|by apply age_priority_spec].
    + destruct (age_frame e p) as (?&?&?&?&?&?&?&?&?&?). done.
  - split; [done|]. split; [done|]. done.
Qed.

Lemma update_aging_on_residents_witness :
  exists p' : Process,
    update_aging 250
      [mkProcess 1 0 500 500 250 10 1 1 STATE_RUNNING 0 0 true;
       mkProcess 2 0 100 100 100 10 5 5 STATE_READY 70 0 true]
      [1%nat] !! 1%nat = Some p' /\
    time_in_ready_queue p' = (70 + 250) mod 100 /\
    priority p' = Z.max 0 (5 - (70 + 250) / 100).
Proof.
  destruct (update_aging_on_residents 250
              [mkProcess 1 0 500 500 250 10 1 1 STATE_RUNNING 0 0 true;
               mkProcess 2 0 100 100 100 10 5 5 STATE_READY 70 0 true]
              [1%nat] 1%nat
              (mkProcess 2 0 100 100 100 10 5 5 STATE_READY 70 0 true))
    as (p' & Hp' & _ & H & _).
  - apply NoDup_singleton.
  - lia.
  - reflexivity.
  - exists p'. split; [exact Hp'|]. apply H; [left|simpl; lia].
Defined.

(** X6.  Aging does not depend on how often it is sampled: with timers
    that are not negative, an aging pass over [e1] ms followed by one
    over [e2] ms leaves the table that a single pass over [e1 + e2] ms
    leaves. *)
Theorem update_aging_additive (e1 e2 : Z) (ps : Procs) (ready : Queue) :
  NoDup ready -> 0 <= e1 -> 0 <= e2 ->
  (forall i p, i ∈ ready -> ps !! i = Some p -> 0 <= time_in_ready_queue p) ->
  update_aging e2 (update_aging e1 ps ready) ready =
  update_aging (e1 + e2) ps ready.
Proof.
  intros Hnd H1 H2 Ht. apply list_eq. intros i.
  rewrite (update_aging_transforms e2 ready _ Hnd i).
  rewrite (update_aging_transforms e1 ready _ Hnd i).
  rewrite (update_aging_transforms (e1 + e2) ready _ Hnd i).
  destruct (ps !! i) as [p|] eqn:Hp; simpl; [|done].
  case_bool_decide as Hin; [|done].
  f_equal. apply age_age; [by eapply Ht|done|done].
Qed.

Lemma update_aging_additive_witness :
  update_aging 80 (update_aging 70 (load three_records) [1%nat; 2%nat])
    [1%nat; 2%nat]
  = update_aging (70 + 80) (load three_records) [1%nat; 2%nat].
Proof.
  apply (update_aging_additive 70 80 (load three_records) [1%nat; 2%nat]).
  - repeat constructor; intros H;
      repeat (apply elem_of_cons in H as [H|H]; [discriminate|]);
      by apply elem_of_nil in H.
  - lia.
  - lia.
  - intros i p _ Hp.
    destruct i as [|[|[|i]]]; simpl in Hp; [| | |done];
      injection Hp as <-; simpl; lia.
Defined.

Lemma insert_position_last (ps : Procs) (p : nat) (q : Queue) :
  Forall (fun c => should_insert (ps !!! p) (ps !!! c) = false) q ->
  insert_position ps p q = q ++ [p].
Proof.
  induction 1 as [|c q Hc _ IH]; simpl; [done|]. by rewrite Hc, IH.
Qed.

Lemma reinsert_ordered (l : Queue) : forall (ps : Procs) (q : Queue),
  ordered ps (q ++ l) ->
  (reinsert (ps, q) l).2 = q ++ l.
Proof.
  induction l as [|p l IH]; intros ps q Ho; simpl.
  - by rewrite app_nil_r.
  - rewrite insert_ready_queue_eq.
    set (ps1 := alter (set_time_in_ready_queue 0) p ps).
    assert (Hk : same_keys ps ps1) by (by apply same_keys_alter).
    assert (Ho1 : ordered ps1 (q ++ p :: l)) by (by eapply ordered_same_keys).
    rewrite insert_position_last.
    + change (foldl _ (ps1, q ++ [p]) l) with (reinsert (ps1, q ++ [p]) l).
      rewrite IH; rewrite <- app_assoc; done.
    + unfold ordered in Ho1.
      apply Forall_forall. intros c Hc.
      apply list_elem_of_lookup in Hc as (k & Hk').
      apply (StronglySorted_lookup_1 _ _ Ho1 k (length q) c p).
      * by apply lookup_app_l_Some.
      * by apply list_lookup_middle.
      * by apply lookup_lt_Some in Hk'.
Qed.

(** X7.  On a ready queue that is in Priority-SRTF order the reorder
    changes nothing of the order: [resort_ready_queue] returns the cells
    in the sequence they had, so records of equal priority and remaining
    time are not reshuffled. *)
Theorem resort_ready_queue_stable (ps : Procs) (ready : Queue) :
  ordered ps ready ->
  (resort_ready_queue ps ready).2 = ready.
Proof.
  intros Ho. unfold resort_ready_queue.
  destruct (Z.of_nat (length ready) <=? 1); [done|].
  exact (reinsert_ordered ready ps [] Ho).
Qed.

Lemma resort_ready_queue_stable_witness :
  (resort_ready_queue (load three_records) [0%nat; 2%nat; 1%nat]).2
  = [0%nat; 2%nat; 1%nat].
Proof.
  apply (resort_ready_queue_stable (load three_records) [0%nat; 2%nat; 1%nat]).
  repeat constructor.
Defined.

(** ** The I/O manager *)

(** X8.  A pass of the I/O manager releases exactly the waiting records
    whose I/O completion time the clock it read has reached: such a
    record leaves the waiting queue for the ready queue, in state Ready
    with its aging timer at 0; a record whose completion time is still
    ahead stays where it is, unchanged; the records left in the waiting
    queue keep their order. *)
Theorem io_manager_pass_releases_due (clock : Z) (s : State) (i : nat)
    (p : Process) :
  Inv s ->
  i ∈ waiting_queue s -> all_processes s !! i = Some p ->
  let s' := io_manager_pass clock s in
  (io_completion_time p <= clock ->
     i ∈ ready_queue s' /\ (i ∉ waiting_queue s') /\
     all_processes s' !! i =
       Some (set_time_in_ready_queue 0 (set_state STATE_READY p))) /\
  (clock < io_completion_time p ->
     i ∈ waiting_queue s' /\ (i ∉ ready_queue s') /\
     all_processes s' !! i = Some p) /\
  waiting_queue s' `sublist_of` waiting_queue s.
Proof.
  intros HI Hw Hp s'.
  destruct (io_manager_pass_spec clock s) as (HT & Hwq & Hrq & _).
  fold s' in HT, Hwq, Hrq.
  pose proof (list_lookup_total_correct _ _ _ Hp) as Hp'.
  pose proof (HT i) as Hi. rewrite Hp in Hi. simpl in Hi.
  rewrite bool_decide_eq_true_2 in Hi by done. simpl in Hi.
  unfold io_done in Hi.
  split; [|split].
  - intros Hle. destruct (Z.leb_spec (io_completion_time p) clock); [|lia].
    split; [|split; [|done]].
    + rewrite Hrq, elem_of_app. right.
      apply list_elem_of_filter. split; [|done].
      rewrite Hp'. unfold io_done. by apply Z.leb_le.
    + rewrite Hwq. rewrite list_elem_of_filter. intros [Hf _].
      rewrite Hp' in Hf. unfold io_done in Hf. apply Z.leb_gt in Hf. lia.
  - intros Hlt. destruct (Z.leb_spec (io_completion_time p) clock); [lia|].
    split; [|split; [|done]].
    + rewrite Hwq. apply list_elem_of_filter. split; [|done].
      rewrite Hp'. unfold io_done. by apply Z.leb_gt.
    + rewrite Hrq, elem_of_app. intros [Hr|Hr].
      * destruct (inv_placed _ HI _ _ Hp) as (H1 & H2 & _).
        apply H1 in Hr. apply H2 in Hw. congruence.
      * apply list_elem_of_filter in Hr as [Hf _].
        rewrite Hp' in Hf. unfold io_done in Hf. apply Z.leb_le in Hf. lia.
  - rewrite Hwq. apply sublist_filter.
Qed.

Lemma io_manager_pass_releases_due_witness :
  0%nat ∈ ready_queue
    (io_manager_pass 151 (Nat.iter 101 round (initial_state (load scenario)))) /\
  (0%nat ∉ waiting_queue
    (io_manager_pass 151 (Nat.iter 101 round (initial_state (load scenario))))) /\
  all_processes
    (io_manager_pass 151 (Nat.iter 101 round (initial_state (load scenario))))
    !! 0%nat =
    Some (set_time_in_ready_queue 0
            (set_state STATE_READY
               (mkProcess 1 0 300 200 100 50 2 2 STATE_WAITING 1 151 true))).
Proof.
  apply (proj1 (io_manager_pass_releases_due 151
                  (Nat.iter 101 round (initial_state (load scenario))) 0%nat
                  (mkProcess 1 0 300 200 100 50 2 2 STATE_WAITING 1 151 true)
                  (Inv_reachable scenario _ (reachable_rounds scenario 101))
                  ltac:(vm_compute; left)
                  ltac:(vm_compute; reflexivity))).
  simpl. lia.
Defined.

Lemma io_scan_idle clock (w : Queue) (ps : Procs) (ready : Queue) out :
  Forall (fun i => io_done clock (ps !!! i) = false) w ->
  io_scan clock w ps ready out = (ps, ready, w, out).
Proof.
  induction 1 as [|c w Hc _ IH]; simpl; [done|].
  unfold io_done in Hc. by rewrite Hc, IH.
Qed.

Lemma io_manager_pass_idle clock s :
  Forall (fun i => io_done clock (all_processes s !!! i) = false)
    (waiting_queue s) ->
  io_manager_pass clock s = s.
Proof.
  intros H. unfold io_manager_pass. rewrite io_scan_idle by done.
  by destruct s.
Qed.

(** X9.  A second pass of the I/O manager that has read the same clock,
    or an earlier one, changes nothing: all that the first pass left in
    the waiting queue is still waiting for its I/O. *)
Theorem io_manager_pass_again (clock clock' : Z) (s : State) :
  Inv s -> clock' <= clock ->
  io_manager_pass clock' (io_manager_pass clock s) = io_manager_pass clock s.
Proof.
  intros HI Hle. apply io_manager_pass_idle.
  destruct (io_manager_pass_spec clock s) as (HT & Hwq & _).
  rewrite Hwq. apply Forall_forall. intros i Hi.
  apply list_elem_of_filter in Hi as [Hf Hin].
  pose proof (inv_waiting_range _ HI _ Hin) as Hr.
  rewrite (transforms_total _ _ _ _ HT Hr).
  rewrite Hf, andb_false_r. unfold io_done in *.
  apply Z.leb_gt. apply Z.leb_gt in Hf. lia.
Qed.

Lemma io_manager_pass_again_witness :
  io_manager_pass 120
    (io_manager_pass 151 (Nat.iter 101 round (initial_state (load scenario))))
  = io_manager_pass 151 (Nat.iter 101 round (initial_state (load scenario))).
Proof.
  apply (io_manager_pass_again 151 120
           (Nat.iter 101 round (initial_state (load scenario)))).
  - apply (Inv_reachable scenario), (reachable_rounds scenario 101).
  - lia.
Defined.

(** ** The scheduler loop *)

(** X10.  The scheduler does not preempt: as long as the clock has not
    reached the end of the running burst, no step of either thread
    changes the running slot or the end of the burst, whatever arrives
    or is aged meanwhile, and the running record keeps its remaining
    time. *)
Theorem running_burst_not_preempted (s s' : State) (r : nat) (p : Process) :
  Inv s -> step s s' ->
  running_process s = Some r -> all_processes s !! r = Some p ->
  current_clock s' < running_until s ->
  running_process s' = Some r /\ running_until s' = running_until s /\
  exists p' : Process,
    all_processes s' !! r = Some p' /\ state p' = STATE_RUNNING /\
    remaining_time p' = remaining_time p.
Proof.
  intros HI Hs Hr Hp Hlt.
  assert (Hrun : running_process s' = Some r /\
                 running_until s' = running_until s).
  { destruct Hs as [s|s c Hc].
    - destruct (all_terminated s) eqn:Ht;
        [unfold scheduler_tick; by rewrite Ht|].
      rewrite scheduler_tick_clock in Hlt by done.
      rewrite scheduler_tick_front by done.
      destruct (front_spec s HI) as (_ & Hr3 & Hu3 & Hc3 & _).
      rewrite burst_resolution_idle by (right; lia).
      rewrite dispatch_idle by (left; rewrite Hr3, Hr; by eexists).
      destruct (completion_check_spec (front s))
        as (_ & _ & _ & -> & -> & _). by rewrite Hr3, Hu3.
    - by destruct (io_manager_pass_spec c s)
        as (_ & _ & _ & _ & -> & -> & _). }
  destruct Hrun as [Hr' Hu']. split; [done|]. split; [done|].
  pose proof (Inv_step _ _ Hs HI) as HI'.
  pose proof (lookup_of_range _ _ (inv_running_range _ HI' _ Hr')) as Hp'.
  eexists. split; [exact Hp'|]. split.
  - by apply (inv_placed _ HI' _ _ Hp').
  - pose proof (step_evolves _ _ HI Hs) as He.
    assert (K : Forall2 (fun p p' => state p = STATE_RUNNING ->
                           state p' = STATE_RUNNING ->
                           remaining_time p' = remaining_time p)
                  (all_processes s) (all_processes s')).
    { destruct Hs as [s|s c Hc].
      - destruct (all_terminated s) eqn:Ht.
        { unfold scheduler_tick. rewrite Ht.
          by apply Forall_Forall2_diag, Forall_forall. }
        rewrite scheduler_tick_front by done.
        rewrite scheduler_tick_clock in Hlt by done.
        destruct (front_spec s HI) as (_ & Hr3 & Hu3 & Hc3 & _ & _ & _ & Hb & _).
        rewrite burst_resolution_idle by (right; lia).
        rewrite dispatch_idle by (left; rewrite Hr3, Hr; by eexists).
        destruct (completion_check_spec (front s)) as (-> & _).
        eapply Forall2_impl; [exact Hb|]. by intros x y (_ & -> & _).
      - eapply Forall2_impl;
          [exact (io_manager_pass_pointwise same_burst same_burst_refl c s
                    same_burst_complete HI)|].
        by intros x y (_ & -> & _). }
    eapply (Forall2_lookup_lr _ _ _ _ _ _ K Hp Hp').
    + by apply (inv_placed _ HI _ _ Hp).
    + by apply (inv_placed _ HI' _ _ Hp').
Qed.

Lemma running_burst_not_preempted_witness :
  running_process (scheduler_tick (round (initial_state (load three_records))))
    = Some 0%nat /\
  running_until (scheduler_tick (round (initial_state (load three_records))))
    = running_until (round (initial_state (load three_records))) /\
  exists p' : Process,
    all_processes (scheduler_tick (round (initial_state (load three_records))))
      !! 0%nat = Some p' /\
    state p' = STATE_RUNNING /\
    remaining_time p' =
      remaining_time (mkProcess 1 0 500 500 250 10 1 1 STATE_RUNNING 0 0 true).
Proof.
  apply (running_burst_not_preempted
           (round (initial_state (load three_records)))
           (scheduler_tick (round (initial_state (load three_records))))
           0%nat (mkProcess 1 0 500 500 250 10 1 1 STATE_RUNNING 0 0 true)).
  - apply (Inv_reachable three_records), reachable_round, reachable_initial.
  - apply step_scheduler.
  - vm_compute. reflexivity.
  - vm_compute. reflexivity.
  - vm_compute. reflexivity.
Defined.

(** X11.  The CPU is never left idle while a record is ready: after an
    iteration of the scheduler loop, an empty running slot means an
    empty ready queue. *)
Theorem cpu_idle_only_when_nothing_ready (s : State) :
  Inv s -> all_terminated s = false ->
  running_process (scheduler_tick s) = None ->
  ready_queue (scheduler_tick s) = [].
Proof.
  intros HI Ht. rewrite scheduler_tick_front by done.
  destruct (front_spec s HI) as (I3 & _).
  pose proof (Inv_burst_resolution _ I3) as I4.
  set (s4 := burst_resolution (front s)) in *.
  destruct (completion_check_spec (dispatch s4)) as (_ & -> & _ & -> & _).
  destruct (running_process s4) as [r|] eqn:Hr.
  - rewrite dispatch_idle by (left; rewrite Hr; by eexists). congruence.
  - destruct (ready_queue s4) as [|r rest] eqn:Hq.
    + rewrite dispatch_idle by (by right). done.
    + destruct (dispatch_spec s4 r rest Hr Hq) as (_ & _ & _ & -> & _).
      done.
Qed.

Lemma cpu_idle_only_when_nothing_ready_witness :
  ready_queue
    (scheduler_tick (Nat.iter 100 round (initial_state (load scenario)))) = [].
Proof.
  apply (cpu_idle_only_when_nothing_ready
           (Nat.iter 100 round (initial_state (load scenario)))).
  - apply (Inv_reachable scenario), (reachable_rounds scenario 100).
  - vm_compute. reflexivity.
  - vm_compute. reflexivity.
Defined.

(** X12.  The record that an iteration of the scheduler loop dispatches
    sorts first: no record left in the ready queue at the end of the
    iteration has a lower priority number, nor the same priority and
    less remaining time. *)
Theorem dispatched_sorts_first (s : State) (r : nat) :
  Inv s -> all_terminated s = false ->
  running_process (scheduler_tick s) = Some r ->
  running_process s <> Some r ->
  forall i : nat,
    i ∈ ready_queue (scheduler_tick s) ->
    ~ precedes (all_processes (scheduler_tick s) !!! i)
               (all_processes (scheduler_tick s) !!! r).
Proof.
  intros HI Ht. rewrite scheduler_tick_front by done.
  destruct (front_spec s HI) as (I3 & Hr3 & _).
  pose proof (Inv_burst_resolution _ I3) as I4.
  set (s4 := burst_resolution (front s)) in *.
  destruct (completion_check_spec (dispatch s4)) as (-> & -> & _ & -> & _).
  intros Hrun Hne i Hi.
  destruct (running_process s4) as [r4|] eqn:Hr4.
  - exfalso. rewrite dispatch_idle in Hrun by (left; rewrite Hr4; by eexists).
    assert (r4 = r) as -> by congruence.
    destruct (running_process (front s)) as [r3|] eqn:E3.
    + destruct (Z.le_gt_cases (running_until (front s)) (current_clock (front s))).
      * pose proof (lookup_of_range _ _ (inv_running_range _ I3 _ E3)) as Hp3.
        destruct (burst_resolution_spec (front s) r3 _ E3 Hp3 ltac:(lia))
          as (_ & _ & _ & Hn & _).
        fold s4 in Hn. congruence.
      * unfold s4 in Hr4.
        rewrite burst_resolution_idle in Hr4 by (right; lia). congruence.
    + unfold s4 in Hr4.
      rewrite burst_resolution_idle in Hr4 by (by left). congruence.
  - destruct (ready_queue s4) as [|r' rest] eqn:Hq.
    + rewrite dispatch_idle in Hrun by (by right). congruence.
    + destruct (dispatch_spec s4 r' rest Hr4 Hq)
        as (Hps & Hrq & _ & Hrun' & _).
      rewrite Hrun' in Hrun. injection Hrun as ->.
      rewrite Hrq in Hi. rewrite Hps.
      pose proof (inv_ordered _ I4) as Ho. rewrite Hq in Ho.
      unfold ordered in Ho. apply StronglySorted_inv in Ho as [_ Hall].
      rewrite Forall_forall in Hall. specialize (Hall i Hi).
      unfold not_after in Hall.
      rewrite precedes_should_insert.
      assert (Hk : same_keys (all_processes s4)
                     (alter (set_state STATE_RUNNING) r (all_processes s4)))
        by (by apply same_keys_alter).
      destruct (Hk i), (Hk r).
      rewrite (should_insert_key _ (all_processes s4 !!! i)
                 _ (all_processes s4 !!! r)) by done.
      congruence.
Qed.

Lemma dispatched_sorts_first_witness :
  ~ precedes
      (all_processes (scheduler_tick (initial_state (load three_records)))
         !!! 2%nat)
      (all_processes (scheduler_tick (initial_state (load three_records)))
         !!! 0%nat).
Proof.
  apply (dispatched_sorts_first (initial_state (load three_records)) 0%nat).
  - apply Inv_initial.
  - reflexivity.
  - vm_compute. reflexivity.
  - discriminate.
  - vm_compute. left.
Defined.

(** ** Where the records are *)

(** X13.  In every reachable state no record is linked twice: the ready
    queue, the waiting queue and the running slot hold pairwise distinct
    records of the table, and the state of a record tells where it is --
    Ready in the ready queue, Waiting in the waiting queue, and nowhere
    when it is New or Terminated. *)
Theorem records_linked_once (input : list Fields) (s : State) :
  reachable input s ->
  NoDup (ready_queue s ++ waiting_queue s ++ running_cells s) /\
  (forall i : nat,
     i ∈ ready_queue s ++ waiting_queue s ++ running_cells s ->
     (i < length (all_processes s))%nat) /\
  (forall (i : nat) (p : Process),
     all_processes s !! i = Some p ->
     (i ∈ ready_queue s <-> state p = STATE_READY) /\
     (i ∈ waiting_queue s <-> state p = STATE_WAITING) /\
     (state p = STATE_NEW \/ state p = STATE_TERMINATED ->
      i ∉ ready_queue s ++ waiting_queue s ++ running_cells s)).
Proof.
  intros H. pose proof (Inv_reachable input s H) as HI.
  assert (Hrc : forall i, i ∈ running_cells s <-> running_process s = Some i).
  { intros i. unfold running_cells. destruct (running_process s) as [r|].
    - rewrite list_elem_of_singleton. split; congruence.
    - split; [by intros ?%elem_of_nil|done]. }
  assert (Hstate : forall i p, all_processes s !! i = Some p ->
            (i ∈ ready_queue s <-> state p = STATE_READY) /\
            (i ∈ waiting_queue s <-> state p = STATE_WAITING) /\
            (i ∈ running_cells s <-> state p = STATE_RUNNING)).
  { intros i p Hp. destruct (inv_placed _ HI _ _ Hp) as (H1 & H2 & H3 & _).
    rewrite Hrc. split; [done|]. split; done. }
  assert (Hrange : forall i,
            i ∈ ready_queue s ++ waiting_queue s ++ running_cells s ->
            (i < length (all_processes s))%nat).
  { intros i. rewrite !elem_of_app, Hrc. intros [Hi|[Hi|Hi]].
    - by apply (inv_ready_range _ HI).
    - by apply (inv_waiting_range _ HI).
    - by apply (inv_running_range _ HI). }
  split; [|split; [done|]].
  - apply NoDup_app. split; [apply (inv_ready_nodup _ HI)|]. split.
    + intros i Hi Hi'.
      pose proof (lookup_of_range _ _ (inv_ready_range _ HI _ Hi)) as Hp.
      destruct (Hstate _ _ Hp) as (H1 & H2 & H3).
      apply H1 in Hi. apply elem_of_app in Hi' as [Hi'|Hi'].
      * apply H2 in Hi'. congruence.
      * apply H3 in Hi'. congruence.
    + apply NoDup_app. split; [apply (inv_waiting_nodup _ HI)|]. split.
      * intros i Hi Hi'.
        pose proof (lookup_of_range _ _ (inv_waiting_range _ HI _ Hi)) as Hp.
        destruct (Hstate _ _ Hp) as (H1 & H2 & H3).
        apply H2 in Hi. apply H3 in Hi'. congruence.
      * unfold running_cells. destruct (running_process s);
          [apply NoDup_singleton|apply NoDup_nil_2].
  - intros i p Hp. destruct (Hstate _ _ Hp) as (H1 & H2 & H3).
    split; [done|]. split; [done|].
    intros Hst. rewrite !elem_of_app, H1, H2, H3.
    destruct Hst as [Hst|Hst]; rewrite Hst; intros [?|[?|?]]; discriminate.
Qed.

Lemma records_linked_once_witness :
  NoDup (ready_queue (round (initial_state (load three_records)))
         ++ waiting_queue (round (initial_state (load three_records)))
         ++ running_cells (round (initial_state (load three_records)))).
Proof.
  apply (proj1 (records_linked_once three_records
                  (round (initial_state (load three_records)))
                  (reachable_round _ _ (reachable_initial three_records)))).
Defined.

(** ** The life cycle *)

Lemma one_way_refl p : one_way p p.
Proof. by repeat split. Qed.

Lemma one_way_trans p q r : one_way p q -> one_way q r -> one_way p r.
Proof.
  intros (A1 & A2 & A3) (B1 & B2 & B3). split; [|split].
  - intros H. pose proof (A1 H) as ->. by apply B1.
  - intros H. by apply B2, A2.
  - intros H. by apply B3, A3.
Qed.

Lemma one_way_lifecycle : lifecycle_closed one_way.
Proof.
  split; [|split; [|split; [|split]]].
  - intros c p Hs _. unfold one_way. simpl. rewrite Hs.
    split; [discriminate|]. split; [done|]. done.
  - intros e b p Hs.
    destruct (aged_frame e b p) as (H1 & H2 & _).
    unfold one_way. rewrite H1, H2, Hs.
    split; [discriminate|]. split; [done|]. done.
  - intros c ru p Hs _.
    destruct (resolve_frame c ru p) as (H1 & _ & _ & _ & _ & _ & _ & _ & _ & H2).
    unfold one_way. rewrite H1, Hs.
    split; [discriminate|]. split; [done|]. intros _.
    destruct H2 as [[-> _]|[-> _]]; discriminate.
  - intros p Hs. unfold one_way. simpl. rewrite Hs.
    split; [discriminate|]. split; [done|]. done.
  - intros c p Hs _. unfold one_way. simpl. rewrite Hs.
    split; [discriminate|]. split; [done|]. done.
Qed.

Lemma rounds_steps (n : nat) (s : State) :
  clock_nonneg s -> rtc step s (Nat.iter n round s).
Proof.
  intros Hc.
  assert (H : rtc step s (Nat.iter n round s) /\
              clock_nonneg (Nat.iter n round s)).
  { induction n as [|n [IH1 IH2]]; simpl; [by split|].
    split; [|by apply clock_nonneg_round].
    etrans; [exact IH1|]. by apply round_steps. }
  apply H.
Qed.

(** X14.  The life cycle of a record runs one way along every execution:
    a Terminated record is never written again, a record that has
    arrived stays arrived, and no record returns to state New. *)
Theorem life_cycle_one_way (input : list Fields) (s s' : State) (i : nat)
    (p p' : Process) :
  reachable input s -> rtc step s s' ->
  all_processes s !! i = Some p -> all_processes s' !! i = Some p' ->
  (state p = STATE_TERMINATED -> p' = p) /\
  (has_arrived p = true -> has_arrived p' = true) /\
  (state p <> STATE_NEW -> state p' <> STATE_NEW).
Proof.
  intros Hr Hs Hp Hp'.
  pose proof (steps_pointwise one_way one_way_refl one_way_trans s s'
                one_way_lifecycle (Inv_reachable input s Hr) Hs) as H.
  exact (Forall2_lookup_lr _ _ _ _ _ _ H Hp Hp').
Qed.

Lemma life_cycle_one_way_witness :
  (state (mkProcess 1 0 2 0 2 0 0 0 STATE_TERMINATED 0 0 true)
     = STATE_TERMINATED /\
   has_arrived (mkProcess 1 0 2 0 2 0 0 0 STATE_TERMINATED 0 0 true) = true /\
   state (mkProcess 1 0 2 0 2 0 0 0 STATE_TERMINATED 0 0 true) <> STATE_NEW) /\
  ((state (mkProcess 1 0 2 0 2 0 0 0 STATE_TERMINATED 0 0 true)
      = STATE_TERMINATED ->
    mkProcess 1 0 2 0 2 0 0 0 STATE_TERMINATED 0 0 true
      = mkProcess 1 0 2 0 2 0 0 0 STATE_TERMINATED 0 0 true) /\
   (has_arrived (mkProcess 1 0 2 0 2 0 0 0 STATE_TERMINATED 0 0 true) = true ->
    has_arrived (mkProcess 1 0 2 0 2 0 0 0 STATE_TERMINATED 0 0 true) = true) /\
   (state (mkProcess 1 0 2 0 2 0 0 0 STATE_TERMINATED 0 0 true) <> STATE_NEW ->
    state (mkProcess 1 0 2 0 2 0 0 0 STATE_TERMINATED 0 0 true) <> STATE_NEW)).
Proof.
  split; [by repeat split|].
  apply (life_cycle_one_way two_records
           (Nat.iter 4 round (initial_state (load two_records)))
           (Nat.iter 5 round
              (Nat.iter 4 round (initial_state (load two_records))))
           0%nat).
  - apply (reachable_rounds two_records 4).
  - apply rounds_steps. vm_compute. discriminate.
  - vm_compute. reflexivity.
  - vm_compute. reflexivity.
Defined.

(** ** Arrivals *)

Lemma same_arrival_refl p : same_arrival p p.
Proof. done. Qed.

Lemma same_arrival_aging : aging_closed same_arrival.
Proof.
  intros e b p _. destruct (aged_frame e b p) as (_ & H1 & _ & _ & _ & H2 & _).
  by split.
Qed.

Lemma same_arrival_resolve : resolve_closed same_arrival.
Proof.
  intros c ru p _ _.
  destruct (resolve_frame c ru p) as (H1 & _ & _ & H2 & _). by split.
Qed.

Lemma same_arrival_dispatch : dispatch_closed same_arrival.
Proof. by intros p _. Qed.

Lemma same_arrival_complete : complete_closed same_arrival.
Proof. by intros c p _ _. Qed.

Lemma arrivals_exact_same (c : Z) (ps ps' : Procs) :
  Forall2 same_arrival ps ps' -> arrivals_exact c ps -> arrivals_exact c ps'.
Proof.
  intros H HA i p' Hp'.
  destruct (Forall2_lookup_r _ _ _ _ _ H Hp') as (p & Hp & Ha & Ht).
  rewrite Ha, Ht. by apply (HA i).
Qed.

Lemma arrivals_exact_check_arrivals s :
  0 <= current_clock s ->
  arrivals_exact (current_clock s) (all_processes s) ->
  arrivals_exact (current_clock s + 1)
    (all_processes (check_arrivals (advance_clock s))).
Proof.
  intros Hc HA i p' Hp'.
  destruct (check_arrivals_spec (advance_clock s)) as (HT & _).
  destruct (transforms_lookup_inv _ _ _ _ _ HT Hp') as (p & Hp & ->).
  simpl in Hp. destruct (HA i p Hp) as [H1 H2].
  change (current_clock (advance_clock s)) with (current_clock s + 1).
  unfold arrives.
  destruct (has_arrived p) eqn:Ha; simpl.
  - rewrite Ha. split; [|done]. intros _. specialize (H1 eq_refl). lia.
  - destruct (Z.leb_spec (arrival_time p) (current_clock s + 1)); simpl.
    + by split.
    + rewrite Ha. split; [done|]. lia.
Qed.

Lemma arrivals_exact_step s s' :
  Inv s -> step s s' ->
  0 <= current_clock s /\ arrivals_exact (current_clock s) (all_processes s) ->
  0 <= current_clock s' /\ arrivals_exact (current_clock s') (all_processes s').
Proof.
  intros HI Hs [Hc HA]. destruct Hs as [s|s c Hcl].
  - destruct (all_terminated s) eqn:Ht;
      [unfold scheduler_tick; by rewrite Ht|].
    rewrite scheduler_tick_clock by done. split; [lia|].
    unfold scheduler_tick. rewrite Ht.
    pose proof (Inv_advance_clock _ HI) as I1.
    pose proof (Inv_check_arrivals _ I1) as I2.
    pose proof (Inv_aging_check _ I2) as I3.
    pose proof (Inv_burst_resolution _ I3) as I4.
    set (s2 := check_arrivals (advance_clock s)) in *.
    eapply arrivals_exact_same;
      [apply (completion_check_pointwise same_arrival same_arrival_refl)|].
    eapply arrivals_exact_same;
      [exact (dispatch_pointwise same_arrival same_arrival_refl _
                same_arrival_dispatch I4)|].
    eapply arrivals_exact_same;
      [exact (burst_resolution_pointwise same_arrival same_arrival_refl _
                same_arrival_resolve I3)|].
    eapply arrivals_exact_same;
      [exact (aging_check_pointwise same_arrival same_arrival_refl _
                same_arrival_aging I2)|].
    by apply arrivals_exact_check_arrivals.
  - rewrite io_manager_pass_clock. split; [done|].
    eapply arrivals_exact_same; [|exact HA].
    exact (io_manager_pass_pointwise same_arrival same_arrival_refl c s
             same_arrival_complete HI).
Qed.

(** X15.  Arrivals are on time: in every reachable state a record is
    marked as arrived only if the clock has reached its arrival time,
    and once the clock has started every record whose arrival time the
    clock has reached is marked; a record is in state New exactly as
    long as it is not marked. *)
Theorem arrivals_on_time (input : list Fields) (s : State) (i : nat)
    (p : Process) :
  reachable input s -> all_processes s !! i = Some p ->
  (has_arrived p = true -> arrival_time p <= current_clock s) /\
  (0 < current_clock s -> arrival_time p <= current_clock s ->
   has_arrived p = true) /\
  (state p = STATE_NEW <-> has_arrived p = false).
Proof.
  intros H Hp.
  assert (K : 0 <= current_clock s /\
              arrivals_exact (current_clock s) (all_processes s)).
  { pose proof (Inv_initial input) as HI. unfold reachable in H.
    assert (K0 : 0 <= current_clock (initial_state (load input)) /\
                 arrivals_exact (current_clock (initial_state (load input)))
                   (all_processes (initial_state (load input)))).
    { split; [simpl; lia|]. intros j q Hq. simpl in *.
      unfold load in Hq. rewrite list_lookup_fmap in Hq.
      destruct (input !! j) as [[[[[[a b] c] d] e] f]|]; [|done].
      injection Hq as <-. simpl. split; [done|lia]. }
    revert HI K0. clear Hp.
    induction H as [s|s1 s2 s3 H12 H23 IH]; [done|]. intros HI K0.
    apply IH; [by eapply Inv_step|by eapply arrivals_exact_step]. }
  destruct K as [_ K]. destruct (K i p Hp) as [H1 H2].
  split; [done|]. split; [done|].
  apply (inv_placed _ (Inv_reachable input s H) _ _ Hp).
Qed.

Lemma arrivals_on_time_witness :
  (has_arrived (mkProcess 1 0 300 300 100 50 2 2 STATE_RUNNING 1 0 true) = true ->
   arrival_time (mkProcess 1 0 300 300 100 50 2 2 STATE_RUNNING 1 0 true)
     <= current_clock (round (initial_state (load scenario)))) /\
  (0 < current_clock (round (initial_state (load scenario))) ->
   arrival_time (mkProcess 1 0 300 300 100 50 2 2 STATE_RUNNING 1 0 true)
     <= current_clock (round (initial_state (load scenario))) ->
   has_arrived (mkProcess 1 0 300 300 100 50 2 2 STATE_RUNNING 1 0 true) = true) /\
  (state (mkProcess 1 0 300 300 100 50 2 2 STATE_RUNNING 1 0 true) = STATE_NEW <->
   has_arrived (mkProcess 1 0 300 300 100 50 2 2 STATE_RUNNING 1 0 true) = false).
Proof.
  apply (arrivals_on_time scenario (round (initial_state (load scenario))) 0%nat).
  - apply reachable_round, reachable_initial.
  - vm_compute. reflexivity.
Defined.

(** ** The finished state *)

Lemma finished_no_waiting input s :
  reachable input s -> all_terminated s = true -> waiting_queue s = [].
Proof.
  intros H Ht. pose proof (Inv_reachable input s H) as HI.
  destruct (finished_ok_reachable input s H Ht) as [Hall _].
  destruct (waiting_queue s) as [|i w] eqn:Hw; [done|exfalso].
  assert (Hi : i ∈ waiting_queue s) by (rewrite Hw; left).
  pose proof (lookup_of_range _ _ (inv_waiting_range _ HI _ Hi)) as Hp.
  apply (inv_placed _ HI _ _ Hp) in Hi.
  pose proof (Forall_lookup_1 _ _ _ _ Hall Hp) as Hterm. simpl in Hterm.
  congruence.
Qed.

(** X16.  The finished state is final: once the scheduler has raised
    [all_terminated], no further iteration of the scheduler loop and no
    pass of the I/O manager changes anything -- table, queues, clock and
    output stay as they are. *)
Theorem finished_state_is_final (input : list Fields) (s s' : State) :
  reachable input s -> all_terminated s = true -> rtc step s s' -> s' = s.
Proof.
  intros H Ht Hs. induction Hs as [s|s1 s2 s3 H12 H23 IH]; [done|].
  assert (E : s2 = s1).
  { destruct H12 as [s1|s1 c Hc].
    - unfold scheduler_tick. by rewrite Ht.
    - apply io_manager_pass_idle.
      by rewrite (finished_no_waiting input s1 H Ht). }
  subst s2. by apply IH.
Qed.

Lemma finished_state_is_final_witness :
  scheduler_tick (io_manager_pass 404 (scheduler_tick
    (Nat.iter 403 round (initial_state (load scenario)))))
  = Nat.iter 403 round (initial_state (load scenario)).
Proof.
  apply (finished_state_is_final scenario).
  - apply (reachable_rounds scenario 403).
  - vm_compute. reflexivity.
  - eapply rtc_l; [apply step_scheduler|].
    eapply rtc_l; [apply (step_io_manager _ 404); vm_compute; split; discriminate|].
    apply rtc_once, step_scheduler.
Defined.

(** ** Time taken *)

Lemma Zsum_add {A} (f g : A -> Z) (l : list A) :
  Zsum ((fun i => f i + g i) <$> l) = Zsum (f <$> l) + Zsum (g <$> l).
Proof.
  induction l as [|x l IH]; [done|].
  rewrite !fmap_cons, !Zsum_cons, IH. lia.
Qed.

Lemma Zsum_zero {A} (f : A -> Z) (l : list A) :
  (forall i, f i = 0) -> Zsum (f <$> l) = 0.
Proof.
  intros H. induction l as [|x l IH]; [done|].
  rewrite fmap_cons, Zsum_cons, IH, H. done.
Qed.

Lemma Zsum_indicator (P : Prop) `{!Decision P} (x : option nat) (l : list nat) :
  NoDup l ->
  0 <= Zsum ((fun i => if bool_decide (P /\ x = Some i) then 1 else 0) <$> l)
    <= 1.
Proof.
  induction 1 as [|i l Hi Hl IH]; [simpl; lia|].
  rewrite fmap_cons, Zsum_cons. case_bool_decide as E; [|lia].
  destruct E as [_ ->].
  assert (Zsum ((fun i0 => if bool_decide (P /\ Some i = Some i0)
                           then 1 else 0) <$> l) = 0) as ->; [|lia].
  clear IH Hl. induction l as [|j l IH]; [done|].
  rewrite fmap_cons, Zsum_cons.
  apply not_elem_of_cons in Hi as [Hne Hi].
  rewrite bool_decide_eq_false_2 by (intros [_ [= ?]]; congruence).
  by rewrite IH.
Qed.

Lemma all_terminated_perform a s :
  all_terminated s = true -> all_terminated (perform a s) = true.
Proof.
  intros Ht. destruct a; simpl.
  - unfold scheduler_tick. by rewrite Ht.
  - by rewrite io_manager_pass_all_terminated.
Qed.

Lemma all_terminated_execute schedule : forall s,
  all_terminated s = true -> all_terminated (execute schedule s) = true.
Proof.
  induction schedule as [|a rest IH]; intros s Ht; [done|].
  change (execute (a :: rest) s) with (execute rest (perform a s)).
  by apply IH, all_terminated_perform.
Qed.

(** One iteration of the scheduler loop takes one millisecond and runs
    at most one record; the iteration that raises the flag runs none. *)
Lemma running_time_clock (n : nat) (schedule : list Action) : forall s,
  Inv s -> finished_ok s ->
  Zsum ((fun i => running_time i schedule s) <$> seq 0 n)
  + (if all_terminated (execute schedule s) && negb (all_terminated s)
     then 1 else 0)
  <= current_clock (execute schedule s) - current_clock s.
Proof.
  induction schedule as [|a rest IH]; intros s HI Hf.
  - simpl. rewrite Zsum_zero by done. rewrite andb_negb_r. lia.
  - change (execute (a :: rest) s) with (execute rest (perform a s)).
    pose proof (IH (perform a s) (Inv_perform a s HI)
                  (finished_ok_perform a s HI Hf)) as IH'.
    assert (E : Zsum ((fun i => running_time i (a :: rest) s) <$> seq 0 n) =
                Zsum ((fun i => contribution a s i) <$> seq 0 n) +
                Zsum ((fun i => running_time i rest (perform a s)) <$> seq 0 n)).
    { by rewrite <- Zsum_add. }
    rewrite E. clear E.
    destruct a as [|c].
    + destruct (all_terminated s) eqn:Ht.
      * rewrite Zsum_zero;
          [|intros i; simpl; rewrite bool_decide_eq_false_2;
              [done|intros [? _]; congruence]].
        rewrite andb_false_r in *.
        assert (perform Scheduler s = s) as Hs
          by (simpl; unfold scheduler_tick; by rewrite Ht).
        rewrite Hs in *. rewrite Ht in IH'. rewrite andb_false_r in IH'. lia.
      * assert (Hck : current_clock (perform Scheduler s) = current_clock s + 1)
          by (by apply scheduler_tick_clock).
        pose proof (Zsum_indicator (all_terminated s = false)
                      (running_process (perform Scheduler s)) (seq 0 n)
                      (NoDup_seq 0 n)) as Hind.
        change (fun i => contribution Scheduler s i) with
          (fun i => if bool_decide (all_terminated s = false /\
                        running_process (perform Scheduler s) = Some i)
                    then 1 else 0).
        rewrite andb_true_r.
        destruct (all_terminated (perform Scheduler s)) eqn:Ht'.
        -- rewrite all_terminated_execute by done.
           rewrite andb_false_r in IH'.
           destruct (finished_ok_perform Scheduler s HI Hf Ht') as [_ Hrun].
           rewrite Zsum_zero;
             [|intros i; rewrite bool_decide_eq_false_2;
                 [done|rewrite Hrun; by intros [_ ?]]].
           lia.
        -- rewrite andb_true_r in IH'. lia.
    + rewrite Zsum_zero by done.
      assert (Hck : current_clock (perform (IoManager c) s) = current_clock s)
        by apply io_manager_pass_clock.
      assert (Hat : all_terminated (perform (IoManager c) s) = all_terminated s)
        by apply io_manager_pass_all_terminated.
      rewrite Hat in IH'. lia.
Qed.

(** X17.  A run cannot be faster than the work it has to do: only one
    record runs at a time, so however the threads interleave, when the
    finished flag is raised, the run having stayed in the range of
    [int] ([fits]), the clock has passed the sum of the CPU demands of
    the input. *)
Theorem clock_covers_cpu_demand (input : list Fields) (schedule : list Action) :
  Forall well_formed input ->
  fits input (execute schedule (initial_state (load input))) ->
  all_terminated (execute schedule (initial_state (load input))) = true ->
  Zsum (cpu_demand <$> input) + 1
    <= current_clock (execute schedule (initial_state (load input))).
Proof.
  intros Hw _ Hfin.
  assert (Hf0 : finished_ok (initial_state (load input))).
  { intros Hx. by simpl in Hx. }
  pose proof (running_time_clock (length input) schedule
                (initial_state (load input)) (Inv_initial input) Hf0) as H.
  rewrite Hfin in H. simpl in H.
  assert (E : Zsum ((fun i => running_time i schedule (initial_state (load input)))
                      <$> seq 0 (length input))
              = Zsum (cpu_demand <$> input)).
  { f_equal. apply list_eq. intros i. rewrite !list_lookup_fmap.
    destruct (input !! i) as [f|] eqn:Hf; simpl.
    - rewrite lookup_seq_lt by (by eapply lookup_lt_Some). simpl.
      f_equal. by apply running_time_finished.
    - rewrite lookup_seq_ge; [done|]. by apply lookup_ge_None. }
  rewrite E in H. lia.
Qed.

Lemma clock_covers_cpu_demand_witness :
  Zsum (cpu_demand <$> scenario) + 1
    <= current_clock
         (execute (lockstep_schedule 403) (initial_state (load scenario))).
Proof.
  apply (clock_covers_cpu_demand scenario (lockstep_schedule 403)).
  - repeat constructor; simpl; lia.
  - fits_by_computation.
  - vm_compute. reflexivity.
Defined.

(** ** The lines of the output *)

(** X18.  For input with positive CPU demands and burst intervals,
    however the threads interleave, a finished run that has stayed in
    the range of [int] ([fits]) has printed for every
    record one dispatch line per burst -- its CPU demand over its burst
    interval, rounded up -- and one blocked-for-I/O line per burst but
    the last. *)
Theorem dispatch_and_block_lines (input : list Fields) (s : State) :
  Forall well_formed input -> reachable input s -> fits input s ->
  all_terminated s = true ->
  count_events is_dispatch (output s) =
    Zsum ((fun p => (cpu_execution_time p + interval_time p - 1)
                      / interval_time p) <$> load input) /\
  count_events is_blocked (output s) =
    Zsum ((fun p => (cpu_execution_time p + interval_time p - 1)
                      / interval_time p - 1) <$> load input).
Proof.
  intros Hw Hr _ Ht.
  exact (finished_counts input s Hw Hr Ht).
Qed.

Lemma dispatch_and_block_lines_witness :
  count_events is_dispatch
    (output (Nat.iter 403 round (initial_state (load scenario)))) =
    Zsum ((fun p => (cpu_execution_time p + interval_time p - 1)
                      / interval_time p) <$> load scenario) /\
  count_events is_blocked
    (output (Nat.iter 403 round (initial_state (load scenario)))) =
    Zsum ((fun p => (cpu_execution_time p + interval_time p - 1)
                      / interval_time p - 1) <$> load scenario).
Proof.
  apply (dispatch_and_block_lines scenario).
  - repeat constructor; simpl; lia.
  - apply (reachable_rounds scenario 403).
  - fits_by_computation.
  - vm_compute. reflexivity.
Defined.

(** ** Records outside the documented domain *)

(** What the iteration that ends a burst does to the record that ran,
    for any input. *)
Lemma scheduler_tick_resolves (s : State) (r : nat) (p : Process) :
  Inv s -> all_terminated s = false ->
  running_process s = Some r -> all_processes s !! r = Some p ->
  running_until s <= current_clock s + 1 ->
  exists p' : Process,
    all_processes (scheduler_tick s) !! r = Some p' /\
    remaining_time p' =
      remaining_time p -
      resolved_burst_time (current_clock s + 1) (running_until s) p /\
    (state p' = STATE_TERMINATED /\ remaining_time p' <= 0 \/
     state p' = STATE_WAITING /\ 0 < remaining_time p').
Proof.
  intros HI Ht Hr Hp Hle. rewrite scheduler_tick_front by done.
  destruct (front_spec s HI) as (I3 & Hr3 & Hu3 & Hc3 & _ & _ & _ & Hb3 & _).
  destruct (Forall2_lookup_l _ _ _ _ _ Hb3 Hp) as (p3 & Hp3 & _ & Hrem & Hint).
  assert (Hr3' : running_process (front s) = Some r) by congruence.
  destruct (burst_resolution_spec (front s) r p3 Hr3' Hp3 ltac:(lia))
    as (Hps4 & Hq4 & _ & Hrun4 & _).
  pose proof (Inv_burst_resolution _ I3) as I4.
  set (s4 := burst_resolution (front s)) in *.
  set (p4 := resolve (current_clock (front s)) (running_until (front s)) p3).
  assert (Hp4 : all_processes s4 !! r = Some p4).
  { by rewrite Hps4, list_lookup_alter_eq, Hp3. }
  assert (Hres : resolved_burst_time (current_clock (front s))
                   (running_until (front s)) p3 =
                 resolved_burst_time (current_clock s + 1) (running_until s) p).
  { unfold resolved_burst_time. by rewrite Hc3, Hu3, Hrem, Hint. }
  destruct (resolve_frame (current_clock (front s)) (running_until (front s)) p3)
    as (_ & _ & _ & _ & _ & _ & _ & _ & Hrem4 & Hst4).
  fold p4 in Hrem4, Hst4. rewrite Hres, Hrem in Hrem4, Hst4.
  rewrite <- Hrem4 in Hst4.
  assert (Hst4' : state p4 = STATE_TERMINATED /\ remaining_time p4 <= 0 \/
                  state p4 = STATE_WAITING /\ 0 < remaining_time p4).
  { destruct Hst4 as [[? ?]|(? & ? & _)]; [by left|by right]. }
  destruct (completion_check_spec (dispatch s4)) as (-> & _).
  assert (Hd : all_processes (dispatch s4) !! r = Some p4).
  { destruct (ready_queue s4) as [|r' rest] eqn:Hq.
    - by rewrite dispatch_idle by (by right).
    - destruct (dispatch_spec s4 r' rest Hrun4 Hq) as (-> & _).
      rewrite list_lookup_alter_ne; [done|]. intros ->.
      assert (Hin : r ∈ ready_queue s4) by (rewrite Hq; left).
      apply (inv_placed _ I4 _ _ Hp4) in Hin.
      destruct Hst4' as [[? _]|[? _]]; congruence. }
  exists p4. done.
Qed.

(** X19.  A record with a burst interval of 0 or less and time left is
    announced with a burst of that length, not a positive one, and the
    iteration after its dispatch charges it exactly 1 ms. *)
Theorem nonpositive_interval_charged_one_ms (s : State) (r : nat)
    (p : Process) :
  Inv s -> all_terminated s = false ->
  running_process s = Some r -> all_processes s !! r = Some p ->
  running_until s = current_clock s + dispatch_burst_time p ->
  interval_time p <= 0 -> 0 < remaining_time p ->
  dispatch_burst_time p = interval_time p /\
  exists p' : Process,
    all_processes (scheduler_tick s) !! r = Some p' /\
    remaining_time p' = remaining_time p - 1.
Proof.
  intros HI Ht Hr Hp Hu Hi Hrem.
  assert (Hd : dispatch_burst_time p = interval_time p).
  { unfold dispatch_burst_time.
    destruct (Z.ltb_spec (remaining_time p) (interval_time p)); lia. }
  split; [done|].
  destruct (scheduler_tick_resolves s r p HI Ht Hr Hp ltac:(lia))
    as (p' & Hp' & Hrem' & _).
  exists p'. split; [done|]. rewrite Hrem', Hu, Hd.
  unfold resolved_burst_time.
  destruct (Z.ltb_spec (remaining_time p)
              (current_clock s + 1 -
               (current_clock s + interval_time p - interval_time p))); lia.
Qed.

Lemma nonpositive_interval_charged_one_ms_witness :
  dispatch_burst_time (mkProcess 1 0 5 5 0 3 2 2 STATE_RUNNING 1 0 true)
    = interval_time (mkProcess 1 0 5 5 0 3 2 2 STATE_RUNNING 1 0 true) /\
  exists p' : Process,
    all_processes
      (scheduler_tick (round (initial_state (load [(1, 0, 5, 0, 3, 2)]))))
      !! 0%nat = Some p' /\
    remaining_time p' =
      remaining_time (mkProcess 1 0 5 5 0 3 2 2 STATE_RUNNING 1 0 true) - 1.
Proof.
  apply (nonpositive_interval_charged_one_ms
           (round (initial_state (load [(1, 0, 5, 0, 3, 2)]))) 0%nat
           (mkProcess 1 0 5 5 0 3 2 2 STATE_RUNNING 1 0 true)).
  - apply (Inv_reachable [(1, 0, 5, 0, 3, 2)]), reachable_round,
      reachable_initial.
  - vm_compute. reflexivity.
  - vm_compute. reflexivity.
  - vm_compute. reflexivity.
  - vm_compute. reflexivity.
  - simpl. lia.
  - simpl. lia.
Defined.

(** X20.  A record with no CPU time left when it is dispatched (a CPU
    demand of 0 or less) is terminated by the next iteration, with its
    remaining time set to 0, when the integers of the state and the
    [int] expressions of that iteration are in the range of [int]. *)
Theorem nonpositive_demand_terminates_at_once (s : State) (r : nat)
    (p : Process) :
  Inv s -> all_terminated s = false ->
  state_in_int s = true -> iteration_in_int s = true ->
  running_process s = Some r -> all_processes s !! r = Some p ->
  running_until s = current_clock s + dispatch_burst_time p ->
  remaining_time p <= 0 ->
  exists p' : Process,
    all_processes (scheduler_tick s) !! r = Some p' /\
    remaining_time p' = 0 /\ state p' = STATE_TERMINATED.
Proof.
  intros HI Ht _ _ Hr Hp Hu Hrem.
  assert (Hd : dispatch_burst_time p <= remaining_time p)
    by apply dispatch_burst_time_le.
  destruct (scheduler_tick_resolves s r p HI Ht Hr Hp ltac:(lia))
    as (p' & Hp' & Hrem' & Hst).
  exists p'. split; [done|].
  assert (E : remaining_time p' = 0).
  { rewrite Hrem', Hu. unfold resolved_burst_time, dispatch_burst_time.
    destruct (Z.ltb_spec (remaining_time p) (interval_time p));
      match goal with
      | |- context [?a <? ?b] => destruct (Z.ltb_spec a b)
      end; lia. }
  split; [done|]. destruct Hst as [[? _]|[_ ?]]; [done|lia].
Qed.

Lemma nonpositive_demand_terminates_at_once_witness :
  exists p' : Process,
    all_processes
      (scheduler_tick (round (initial_state (load [(1, -5, 0, 100, 50, 42)]))))
      !! 0%nat = Some p' /\
    remaining_time p' = 0 /\ state p' = STATE_TERMINATED.
Proof.
  apply (nonpositive_demand_terminates_at_once
           (round (initial_state (load [(1, -5, 0, 100, 50, 42)]))) 0%nat
           (mkProcess 1 (-5) 0 0 100 50 42 42 STATE_RUNNING 1 0 true)).
  - apply (Inv_reachable [(1, -5, 0, 100, 50, 42)]), reachable_round,
      reachable_initial.
  - vm_compute. reflexivity.
  - vm_compute. reflexivity.
  - vm_compute. reflexivity.
  - vm_compute. reflexivity.
  - vm_compute. reflexivity.
  - vm_compute. reflexivity.
  - simpl. lia.
Defined.

(** ** Reading the input file *)

Lemma count_processes_descriptor_lines lines :
  count_processes (descriptor_lines lines) = count_processes lines.
Proof.
  unfold descriptor_lines. induction lines as [|l lines IH]; [done|].
  destruct (decide (1 < strlen l)) as [H|H].
  - rewrite filter_cons_True by done. simpl.
    destruct (Z.ltb_spec 1 (strlen l)); [|lia]. by rewrite IH.
  - rewrite filter_cons_False by done. simpl.
    destruct (Z.ltb_spec 1 (strlen l)); [lia|]. done.
Qed.

Lemma scanned_cons scan l lines :
  scanned scan (l :: lines) =
  match (if 1 <? strlen l then scan l else None) with
  | Some f => f :: scanned scan lines
  | None => scanned scan lines
  end.
Proof. done. Qed.

Lemma scanned_descriptor_lines scan lines :
  scanned scan (descriptor_lines lines) = scanned scan lines.
Proof.
  unfold descriptor_lines.
  induction lines as [|l lines IH]; [done|].
  destruct (decide (1 < strlen l)) as [H|H].
  - rewrite filter_cons_True by done. by rewrite !scanned_cons, IH.
  - rewrite filter_cons_False by done. rewrite scanned_cons.
    destruct (Z.ltb_spec 1 (strlen l)); [lia|]. done.
Qed.

Lemma rejected_dec scan lines :
  Exists (rejected scan) lines \/
  Forall (fun line => ~ rejected scan line) lines.
Proof.
  induction lines as [|l lines [IH|IH]].
  - right. constructor.
  - left. by right.
  - destruct (Z.ltb_spec 1 (strlen l)) as [Hs|Hs].
    + destruct (scan l) eqn:E.
      * right. constructor; [|done]. intros [_ ?]. congruence.
      * left. left. by split.
    + right. constructor; [|done]. intros [? _]. lia.
Qed.

(** X21.  Lines of at most one character -- empty lines -- are skipped
    wherever they stand: [parse_input_file] returns for a file what it
    returns for the file without these lines, and the table it builds
    has one entry per remaining line. *)
Theorem parse_input_file_skips_short_lines (scan : string -> option Fields)
    (lines : list string) :
  parse_input_file scan (Some lines) =
    parse_input_file scan (Some (descriptor_lines lines)) /\
  (forall ps : Procs,
     parse_input_file scan (Some lines) = Some ps ->
     length ps = length (descriptor_lines lines)).
Proof.
  assert (Hlen : forall l, Forall (fun line => ~ rejected scan line) l ->
            length (scanned scan l) = length (descriptor_lines l)).
  { unfold descriptor_lines.
    induction 1 as [|l ls Hl _ IH]; [done|]. rewrite scanned_cons.
    destruct (decide (1 < strlen l)) as [H|H].
    - rewrite filter_cons_True by done.
      destruct (Z.ltb_spec 1 (strlen l)); [|lia].
      destruct (scan l) eqn:E; simpl; [by rewrite IH|].
      destruct Hl. by split.
    - rewrite filter_cons_False by done.
      destruct (Z.ltb_spec 1 (strlen l)); [lia|]. done. }
  destruct (decide (count_processes lines = O)) as [Hz|Hnz].
  - unfold parse_input_file.
    rewrite count_processes_descriptor_lines, !bool_decide_eq_true_2 by done.
    done.
  - destruct (rejected_dec scan lines) as [Hex|Hall].
    + rewrite (parse_input_file_rejects scan lines Hex).
      rewrite parse_input_file_rejects; [done|].
      unfold descriptor_lines. apply Exists_exists.
      apply Exists_exists in Hex as (l & Hl & Hr).
      exists l. split; [|done]. apply list_elem_of_filter. split; [apply Hr|done].
    + rewrite (parse_input_file_accepts scan lines Hnz Hall).
      rewrite parse_input_file_accepts.
      * rewrite scanned_descriptor_lines. split; [done|].
        intros ps [= <-]. unfold load. rewrite length_fmap. by apply Hlen.
      * by rewrite count_processes_descriptor_lines.
      * unfold descriptor_lines. rewrite Forall_forall in Hall.
        apply Forall_forall. intros l Hl.
        apply list_elem_of_filter in Hl as [_ Hl]. by apply Hall.
Qed.

Lemma parse_input_file_skips_short_lines_witness :
  length (load [(1, 0, 300, 100, 50, 2)]) =
  length (descriptor_lines
            [String "010" EmptyString;
             String.append "1 0 300 100 50 2" (String "010" EmptyString);
             String "010" EmptyString]).
Proof.
  apply (proj2 (parse_input_file_skips_short_lines sscanf_6d
                  [String "010" EmptyString;
                   String.append "1 0 300 100 50 2" (String "010" EmptyString);
                   String "010" EmptyString])).
  vm_compute. reflexivity.
Defined.

Lemma skip_spaces_blank (s : string) :
  Forall (fun c => isspace c = true) (chars s) -> skip_spaces s = EmptyString.
Proof.
  induction s as [|c s IH]; simpl; [done|].
  intros [Hc Hs]%Forall_cons. rewrite Hc. by apply IH.
Qed.

Lemma sscanf_6d_blank (s : string) :
  Forall (fun c => isspace c = true) (chars s) -> sscanf_6d s = None.
Proof.
  intros H. unfold sscanf_6d, scan_d. by rewrite (skip_spaces_blank s H).
Qed.

(** X22.  A line of two characters or more that holds only white space
    -- a blank line with a carriage return before the newline, or a line
    of spaces -- is not skipped: it is counted as a descriptor, the
    conversion fails on it and the whole file is rejected. *)
Theorem white_space_line_rejects_file (lines : list string) (line : string) :
  line ∈ lines -> 1 < strlen line ->
  Forall (fun c => isspace c = true) (chars line) ->
  parse_input_file sscanf_6d (Some lines) = None /\
  (forall (argc : Z) (thread_created : bool) (fuel : nat),
     main sscanf_6d argc (Some lines) thread_created fuel
     = Exit EXIT_FAILURE 0 []).
Proof.
  intros Hin Hlen Hsp.
  assert (Hp : parse_input_file sscanf_6d (Some lines) = None).
  { apply parse_input_file_rejects. apply Exists_exists.
    exists line. split; [done|]. split; [done|]. by apply sscanf_6d_blank. }
  split; [done|]. intros argc tc fuel. unfold main. rewrite Hp.
  by destruct (negb _).
Qed.

Lemma white_space_line_rejects_file_witness :
  parse_input_file sscanf_6d
    (Some [String.append "1 0 300 100 50 2" (String "010" EmptyString);
           String "013" (String "010" EmptyString)]) = None /\
  (forall (argc : Z) (thread_created : bool) (fuel : nat),
     main sscanf_6d argc
       (Some [String.append "1 0 300 100 50 2" (String "010" EmptyString);
              String "013" (String "010" EmptyString)]) thread_created fuel
     = Exit EXIT_FAILURE 0 []).
Proof.
  apply (white_space_line_rejects_file _
           (String "013" (String "010" EmptyString))).
  - right. left.
  - vm_compute. reflexivity.
  - repeat constructor.
Defined.

(** ** The whole program *)

Lemma parse_input_file_malloc scan file :
  Program.parse_input_file scan file true = parse_input_file scan file.
Proof. done. Qed.

Lemma parse_input_file_no_memory scan file :
  Program.parse_input_file scan file false = None.
Proof.
  destruct file as [lines|]; [|done]. unfold Program.parse_input_file.
  by case_bool_decide.
Qed.

(** In lockstep, with the allocation done and no pass before the first
    iteration, the program is [main] above. *)
Lemma run_threads_lockstep (fuel : nat) : forall (k : nat) (s : State),
  all_terminated s = false -> current_clock s = Z.of_nat k ->
  run_threads (fun k => [Z.of_nat k + 1]) k fuel s = run_lockstep fuel s.
Proof.
  induction fuel as [|fuel IH]; intros k s Ht Hk; [done|].
  simpl.
  assert (E : fair_round [Z.of_nat k + 1] s = round s).
  { unfold fair_round, round. simpl.
    by rewrite scheduler_tick_clock, Hk by done. }
  rewrite E. destruct (all_terminated (round s)) eqn:Ht1; [done|].
  apply IH; [done|].
  unfold round. rewrite io_manager_pass_clock, scheduler_tick_clock by done.
  lia.
Qed.

Lemma manager_passes_steps (cs : list Z) : forall s : State,
  Forall (fun c => 0 <= c <= current_clock s + 1) cs ->
  rtc step s (manager_passes cs s).
Proof.
  induction cs as [|c cs IH]; intros s Hall; [done|].
  apply Forall_cons in Hall as [Hc Hall]. rewrite manager_passes_cons.
  eapply rtc_l; [by apply step_io_manager|].
  apply IH. by rewrite io_manager_pass_clock.
Qed.

Lemma manager_passes_initial (cs : list Z) (ps : Procs) :
  manager_passes cs (initial_state ps) = initial_state ps.
Proof.
  induction cs as [|c cs IH]; [done|].
  rewrite manager_passes_cons, io_manager_pass_idle; [done|].
  simpl. constructor.
Qed.

(** What [run_threads] returns is the first finished state of the run. *)
Lemma run_threads_steps schedule (fuel : nat) : forall (k : nat) (s s' : State),
  timely schedule ->
  all_terminated s = false -> current_clock s = Z.of_nat k ->
  run_threads schedule k fuel s = Some s' ->
  rtc step s s' /\ all_terminated s' = true.
Proof.
  induction fuel as [|fuel IH]; intros k s s' Htimely Ht Hk; simpl; [done|].
  assert (Hstep : rtc step s (fair_round (schedule k) s)).
  { unfold fair_round. eapply rtc_l; [apply step_scheduler|].
    apply manager_passes_steps. rewrite scheduler_tick_clock by done.
    eapply Forall_impl; [apply (Htimely k)|]. intros c Hc. simpl in Hc. lia. }
  destruct (all_terminated (fair_round (schedule k) s)) eqn:Ht1.
  - intros [= <-]. by split.
  - intros H.
    destruct (IH (S k) _ s' Htimely Ht1
                ltac:(rewrite fair_round_clock by done; lia) H) as [H1 H2].
    split; [|done]. by etrans.
Qed.

Lemma run_threads_complete schedule (n : nat) : forall (k : nat) (s : State),
  all_terminated s = false ->
  all_terminated (run_rounds schedule k n s) = true ->
  exists s' : State,
    forall fuel : nat, (n <= fuel)%nat ->
      run_threads schedule k fuel s = Some s'.
Proof.
  induction n as [|n IH]; intros k s Ht Hfin; [simpl in Hfin; congruence|].
  rewrite run_rounds_S in Hfin.
  destruct (all_terminated (fair_round (schedule k) s)) eqn:Ht1.
  - exists (fair_round (schedule k) s). intros [|fuel] Hle; [lia|].
    simpl. by rewrite Ht1.
  - destruct (IH (S k) _ Ht1 Hfin) as (s' & Hs').
    exists s'. intros [|fuel] Hle; [lia|].
    simpl. rewrite Ht1. apply Hs'. lia.
Qed.

Lemma main_lockstep scan argc file thread_created fuel :
  Program.main scan argc file true thread_created []
    (fun k => [Z.of_nat k + 1]) fuel
  = main scan argc file thread_created fuel.
Proof.
  unfold Program.main, main. rewrite parse_input_file_malloc.
  destruct (negb (argc =? 2)); [done|].
  destruct (parse_input_file scan file) as [ps|]; [|done].
  destruct (negb thread_created); [done|].
  simpl manager_passes. by rewrite run_threads_lockstep.
Qed.



Lemma parse_input_file_fails (scan : string -> option Fields)
    (lines : list string) :
  parse_input_file scan (Some lines) = None <->
  Forall (fun line => strlen line <= 1) lines \/ Exists (rejected scan) lines.
Proof.
  split.
  - intros Hp.
    destruct (decide (count_processes lines = O)) as [Hz|Hnz];
      [left; by apply count_processes_zero|].
    destruct (rejected_dec scan lines) as [Hex|Hall]; [by right|].
    by rewrite (parse_input_file_accepts scan lines Hnz Hall) in Hp.
  - intros [H|H];
      [by apply parse_input_file_empty|by apply parse_input_file_rejects].
Qed.

(** X28.  [main] exits with failure in these cases and no other: the
    argument count is not 2; the file cannot be opened; the file holds
    no buffer longer than one character; the table cannot be allocated;
    a buffer longer than one character does not convert; the manager
    thread cannot be created.  In each of them the clock is still 0 and
    nothing has been printed: no scheduler iteration has run. *)
Theorem main_failure_modes (scan : string -> option Fields) (argc : Z)
    (file : option (list string)) (malloc_ok thread_created : bool)
    (startup : list Z) (schedule : nat -> list Z) (fuel : nat) :
  (forall lines, file = Some lines -> fgets_lines lines = true) ->
  ((exists clock out,
      Program.main scan argc file malloc_ok thread_created startup schedule
        fuel = Exit EXIT_FAILURE clock out)
   <->
   argc <> 2 \/ file = None \/
   (exists lines, file = Some lines /\
      (Forall (fun line => strlen line <= 1) lines \/
       malloc_ok = false \/
       Exists (rejected scan) lines)) \/
   thread_created = false) /\
  (forall clock out,
     Program.main scan argc file malloc_ok thread_created startup schedule
       fuel = Exit EXIT_FAILURE clock out ->
     clock = 0 /\ out = []).
Proof.
  intros _. unfold Program.main.
  destruct (Z.eqb_spec argc 2) as [Ha|Ha]; simpl.
  2:{ split; [|by intros c o [= <- <-]].
      split; [by left|]. intros _. by exists 0, []. }
  destruct file as [lines|].
  2:{ split; [|by intros c o [= <- <-]].
      split; [right; by left|]. intros _. by exists 0, []. }
  destruct malloc_ok.
  2:{ rewrite parse_input_file_no_memory.
      split; [|by intros c o [= <- <-]].
      split; [|intros _; by exists 0, []].
      intros _. right. right. left. exists lines. split; [done|].
      right. by left. }
  rewrite parse_input_file_malloc.
  destruct (parse_input_file scan (Some lines)) as [ps|] eqn:Hp.
  - assert (Hok : ~ (Forall (fun line => strlen line <= 1) lines \/
                     Exists (rejected scan) lines)).
    { rewrite <- parse_input_file_fails. congruence. }
    destruct thread_created; simpl.
    + split.
      * split.
        -- intros (c & o & H). destruct (run_threads _ _ _ _); discriminate.
        -- intros [?|[?|[(l & [= <-] & [H|[H|H]])|?]]]; try done;
             destruct Hok; (by left) || (by right).
      * intros c o H. destruct (run_threads _ _ _ _); discriminate.
    + split; [|by intros c o [= <- <-]].
      split; [by (do 3 right)|]. intros _. by exists 0, [].
  - apply parse_input_file_fails in Hp.
    split; [|by intros c o [= <- <-]].
    split; [|intros _; by exists 0, []].
    intros _. right. right. left. exists lines. split; [done|].
    destruct Hp as [Hp|Hp]; [by left|right; by right].
Qed.

Lemma main_failure_modes_witness :
  exists clock out,
    Program.main sscanf_6d 2
      (Some [String.append "1 0 300 100 50 2" (String "010" EmptyString)])
      false true [] stale_schedule 10 = Exit EXIT_FAILURE clock out.
Proof.
  apply (proj1 (main_failure_modes sscanf_6d 2
                  (Some [String.append "1 0 300 100 50 2"
                           (String "010" EmptyString)])
                  false true [] stale_schedule 10
                  ltac:(intros lines [= <-]; vm_compute; reflexivity))).
  right. right. left.
  exists [String.append "1 0 300 100 50 2" (String "010" EmptyString)].
  split; [reflexivity|]. right. by left.
Defined.

(** ** Accounting for the lines of the output

    A weight [w] on the lines and a weight [g] on the records are in
    balance when every transition of a record prints lines that weigh
    what the record gains. *)

Lemma Zsum_snoc {A} (w : A -> Z) (out : list A) (e : A) :
  Zsum (w <$> out ++ [e]) = Zsum (w <$> out) + w e.
Proof.
  induction out as [|x out IH].
  - change ([] ++ [e]) with [e]. rewrite !fmap_cons, !Zsum_cons. simpl. lia.
  - rewrite <- app_comm_cons, !fmap_cons, !Zsum_cons, IH. lia.
Qed.

Lemma count_events_Zsum (P : Event -> bool) (out : list Event) :
  count_events P out = Zsum ((fun e => flag (P e)) <$> out).
Proof.
  unfold count_events. induction out as [|e out IH]; [done|].
  rewrite fmap_cons, Zsum_cons, <- IH. unfold flag.
  destruct (P e) eqn:E.
  - rewrite filter_cons_True by done. simpl length. lia.
  - rewrite filter_cons_False by (by rewrite E). lia.
Qed.

Section Accounting.

Variable w : Event -> Z.
Variable g : Process -> Z.
Hypothesis Hacc : accounts w g.

Lemma arrival_step_balance clock (l : list nat) :
  forall (ps : Procs) (ready : Queue) out ps' ready' out',
  Forall (fun i => (i < length ps)%nat) l ->
  (forall j p, ps !! j = Some p -> has_arrived p = false ->
               state p = STATE_NEW) ->
  foldl (arrival_step clock) (ps, ready, out) l = (ps', ready', out') ->
  balance w g ps' out' = balance w g ps out.
Proof.
  induction l as [|c r IH]; intros ps ready out ps' ready' out' Hr Hn; simpl.
  - by intros [= <- <- <-].
  - apply Forall_cons in Hr as [Hc Hr].
    fold (arrives clock (ps !!! c)).
    destruct (arrives clock (ps !!! c)) eqn:Ha.
    + assert (Harr :
        alter (set_time_in_ready_queue 0) c
          (alter (set_state STATE_READY) c (alter (set_has_arrived true) c ps))
        = alter arrived c ps) by (by rewrite !list_alter_alter_eq).
      rewrite insert_ready_queue_eq, Harr.
      intros H. apply IH in H.
      * rewrite H. unfold balance.
        pose proof (lookup_of_range _ _ Hc) as Hp.
        unfold arrives in Ha. apply andb_true_iff in Ha as [Ha _].
        apply negb_true_iff in Ha.
        destruct Hacc as (A1 & _).
        rewrite !Zsum_snoc, (Zsum_alter g g _ ps c _ Hp) by done.
        match goal with
        | |- context [w (EvArrived ?a ?b)] =>
            match goal with
            | |- context [w (EvMovedToReady ?a' ?b')] =>
                rewrite (A1 a a' b b' _ (Hn _ _ Hp Ha) Ha)
            end
        end. lia.
      * rewrite length_alter. done.
      * intros j p. rewrite list_lookup_alter.
        destruct (decide (c = j)) as [->|Hne].
        -- destruct (ps !! j); [|done]. simpl. intros [= <-]. done.
        -- apply Hn.
    + by apply IH.
Qed.

Lemma check_arrivals_balance s :
  Inv s ->
  balance w g (all_processes (check_arrivals s)) (output (check_arrivals s))
  = balance w g (all_processes s) (output s).
Proof.
  intros HI. unfold check_arrivals.
  destruct (foldl _ _ _) as [[ps' ready'] out'] eqn:E. simpl.
  eapply arrival_step_balance; [| |exact E].
  - apply Forall_forall. intros i Hi. apply elem_of_seq in Hi. lia.
  - intros j p Hp Ha. by apply (inv_placed _ HI j p Hp).
Qed.

Lemma io_scan_balance clock (wq : Queue) :
  forall (ps : Procs) (ready : Queue) out ps' ready' kept out',
  NoDup wq -> Forall (fun i => (i < length ps)%nat) wq ->
  Forall (fun i => state (ps !!! i) = STATE_WAITING) wq ->
  io_scan clock wq ps ready out = (ps', ready', kept, out') ->
  balance w g ps' out' = balance w g ps out.
Proof.
  induction wq as [|c r IH];
    intros ps ready out ps' ready' kept out' Hnd Hr Hw; simpl.
  - by intros [= <- <- <- <-].
  - apply NoDup_cons in Hnd as [Hc Hnd].
    apply Forall_cons in Hr as [Hcr Hr].
    apply Forall_cons in Hw as [Hcw Hw].
    destruct (io_completion_time (ps !!! c) <=? clock) eqn:Ha.
    + assert (Harr :
        alter (set_time_in_ready_queue 0) c (alter (set_state STATE_READY) c ps)
        = alter completed c ps) by (by rewrite !list_alter_alter_eq).
      rewrite insert_ready_queue_eq, Harr.
      intros H. apply IH in H.
      * rewrite H. unfold balance.
        pose proof (lookup_of_range _ _ Hcr) as Hp.
        destruct Hacc as (_ & _ & _ & _ & A5).
        rewrite !Zsum_snoc, (Zsum_alter g g _ ps c _ Hp) by done.
        match goal with
        | |- context [w (EvIOFinished ?a ?b)] =>
            match goal with
            | |- context [w (EvMovedToReady ?a' ?b')] =>
                rewrite (A5 a a' b b' _ Hcw)
            end
        end. lia.
      * done.
      * by rewrite length_alter.
      * rewrite Forall_forall in Hw. apply Forall_forall. intros i Hi.
        rewrite list_lookup_total_alter_ne; [by apply Hw|].
        intros ->. done.
    + destruct (io_scan clock r ps ready out)
        as [[[ps2 ready2] kept2] out2] eqn:E.
      intros [= <- <- <- <-]. by eapply IH.
Qed.

Lemma io_manager_pass_balance clock s :
  Inv s ->
  balance w g (all_processes (io_manager_pass clock s))
    (output (io_manager_pass clock s))
  = balance w g (all_processes s) (output s).
Proof.
  intros HI. unfold io_manager_pass.
  destruct (io_scan _ _ _ _ _) as [[[ps' ready'] kept] out'] eqn:E. simpl.
  eapply io_scan_balance; [apply (inv_waiting_nodup _ HI)| | |exact E].
  - apply Forall_forall. intros i. apply (inv_waiting_range _ HI).
  - apply Forall_forall. intros i Hi.
    pose proof (lookup_of_range _ _ (inv_waiting_range _ HI _ Hi)) as Hp.
    by apply (inv_placed _ HI _ _ Hp).
Qed.

Lemma aging_check_balance s :
  Inv s ->
  balance w g (all_processes (aging_check s)) (output (aging_check s))
  = balance w g (all_processes s) (output s).
Proof.
  intros HI. unfold balance. rewrite aging_check_output. f_equal. f_equal.
  apply Forall2_fmap_eq.
  apply (aging_check_pointwise (fun p p' => g p' = g p)); [done| |done].
  intros e b p Hs. by apply Hacc.
Qed.

Lemma burst_resolution_balance s :
  Inv s ->
  balance w g (all_processes (burst_resolution s))
    (output (burst_resolution s))
  = balance w g (all_processes s) (output s).
Proof.
  intros HI.
  destruct (running_process s) as [r|] eqn:Hr;
    [|by rewrite burst_resolution_idle by (by left)].
  destruct (Z.le_gt_cases (running_until s) (current_clock s)) as [Hle|Hgt];
    [|by rewrite burst_resolution_idle by (right; lia)].
  pose proof (lookup_of_range _ _ (inv_running_range _ HI _ Hr)) as Hp.
  destruct (burst_resolution_spec s r _ Hr Hp Hle) as (-> & _).
  rewrite (burst_resolution_output s r _ Hr Hp Hle).
  unfold balance. rewrite Zsum_snoc.
  destruct Hacc as (_ & _ & A3 & _).
  assert (Hst : state (all_processes s !!! r) = STATE_RUNNING)
    by (by apply (inv_placed _ HI _ _ Hp)).
  rewrite (Zsum_alter g g _ _ r _ Hp) by done.
  rewrite (A3 (current_clock s) (running_until s) (current_clock s)
             (pid (all_processes s !!! r)) (io_time (all_processes s !!! r))
             _ Hst).
  destruct (state (resolve _ _ _)); lia.
Qed.

Lemma dispatch_balance s :
  Inv s ->
  balance w g (all_processes (dispatch s)) (output (dispatch s))
  = balance w g (all_processes s) (output s).
Proof.
  intros HI.
  destruct (running_process s) as [r|] eqn:Hr;
    [by rewrite dispatch_idle by (left; by rewrite Hr)|].
  destruct (ready_queue s) as [|r rest] eqn:Hq;
    [by rewrite dispatch_idle by (by right)|].
  destruct (dispatch_spec s r rest Hr Hq)
    as (-> & _ & _ & _ & _ & _ & _ & _ & ->).
  assert (Hin : r ∈ ready_queue s) by (rewrite Hq; left).
  pose proof (lookup_of_range _ _ (inv_ready_range _ HI _ Hin)) as Hp.
  apply (inv_placed _ HI _ _ Hp) in Hin.
  unfold balance. rewrite Zsum_snoc.
  destruct Hacc as (_ & _ & _ & A4 & _).
  rewrite (Zsum_alter g g _ _ r _ Hp) by done.
  match goal with
  | |- context [w (EvDispatched ?a ?b ?c ?d ?e)] =>
      rewrite (A4 a b c d e _ Hin)
  end. lia.
Qed.

Lemma scheduler_tick_balance s :
  Inv s ->
  balance w g (all_processes (scheduler_tick s)) (output (scheduler_tick s))
  = balance w g (all_processes s) (output s).
Proof.
  intros HI. unfold scheduler_tick.
  destruct (all_terminated s); [done|].
  pose proof (Inv_advance_clock _ HI) as I1.
  pose proof (Inv_check_arrivals _ I1) as I2.
  pose proof (Inv_aging_check _ I2) as I3.
  pose proof (Inv_burst_resolution _ I3) as I4.
  destruct (completion_check_spec (dispatch (burst_resolution (aging_check
              (check_arrivals (advance_clock s))))))
    as (-> & _ & _ & _ & _ & _ & _ & -> & _).
  rewrite (dispatch_balance _ I4), (burst_resolution_balance _ I3),
    (aging_check_balance _ I2), (check_arrivals_balance _ I1). done.
Qed.

Lemma balance_reachable input s :
  reachable input s ->
  balance w g (all_processes s) (output s) = - Zsum (g <$> load input).
Proof.
  intros H. pose proof (Inv_initial input) as HI. unfold reachable in H.
  assert (H0 : balance w g (all_processes (initial_state (load input)))
                 (output (initial_state (load input)))
               = - Zsum (g <$> load input)) by (unfold balance; simpl; lia).
  revert HI H0. generalize (- Zsum (g <$> load input)). intros z.
  induction H as [s|s1 s2 s3 H12 H23 IH]; [done|]. intros HI H0.
  apply IH; [by eapply Inv_step|]. rewrite <- H0.
  destruct H12 as [s1|s1 c Hc];
    [by apply scheduler_tick_balance|by apply io_manager_pass_balance].
Qed.

End Accounting.

Lemma accounts_arrivals :
  accounts (fun e => flag (is_arrival e)) (fun p => flag (has_arrived p)).
Proof.
  split; [|split; [|split; [|split]]].
  - intros c c' i i' p _ Ha. simpl. rewrite Ha. done.
  - intros e b p _. destruct (aged_frame e b p) as (_ & -> & _). done.
  - intros c ru c' i io p _.
    destruct (resolve_frame c ru p) as (-> & _).
    destruct (state (resolve c ru p)); simpl; lia.
  - intros. simpl. lia.
  - intros. simpl. lia.
Qed.

Lemma accounts_terminations :
  accounts (fun e => flag (is_termination e))
    (fun p => flag (bool_decide (state p = STATE_TERMINATED))).
Proof.
  split; [|split; [|split; [|split]]].
  - intros c c' i i' p Hs _. simpl. by rewrite Hs.
  - intros e b p Hs. destruct (aged_frame e b p) as (-> & _). done.
  - intros c ru c' i io p Hs. rewrite Hs.
    destruct (resolve_frame c ru p)
      as (_ & _ & _ & _ & _ & _ & _ & _ & _ & [[-> _]|[-> _]]); done.
  - intros c i pr rm b p Hs. simpl. by rewrite Hs.
  - intros c c' i i' p Hs. simpl. by rewrite Hs.
Qed.

Lemma accounts_waiting :
  accounts (fun e => flag (is_blocked e) - flag (is_io_finished e))
    (fun p => flag (bool_decide (state p = STATE_WAITING))).
Proof.
  split; [|split; [|split; [|split]]].
  - intros c c' i i' p Hs _. simpl. by rewrite Hs.
  - intros e b p Hs. destruct (aged_frame e b p) as (-> & _). done.
  - intros c ru c' i io p Hs. rewrite Hs.
    destruct (resolve_frame c ru p)
      as (_ & _ & _ & _ & _ & _ & _ & _ & _ & [[-> _]|[-> _]]); done.
  - intros c i pr rm b p Hs. simpl. by rewrite Hs.
  - intros c c' i i' p Hs. simpl. by rewrite Hs.
Qed.

Lemma accounts_moves :
  accounts (fun e => flag (is_moved e) - flag (is_arrival e)
                     - flag (is_io_finished e))
    (fun _ => 0).
Proof.
  split; [|split; [|split; [|split]]]; try done.
  intros c ru c' i io p _. by destruct (state (resolve c ru p)).
Qed.

Lemma Zsum_sub {A} (f g : A -> Z) (l : list A) :
  Zsum ((fun i => f i - g i) <$> l) = Zsum (f <$> l) - Zsum (g <$> l).
Proof.
  induction l as [|x l IH]; [done|].
  rewrite !fmap_cons, !Zsum_cons, IH. lia.
Qed.

Lemma tally_all (P : Process -> bool) (ps : Procs) :
  Forall (fun p => P p = true) ps -> tally P ps = Z.of_nat (length ps).
Proof.
  unfold tally. induction 1 as [|p ps Hp _ IH]; [done|].
  rewrite fmap_cons, Zsum_cons, IH, Hp. simpl length. unfold flag. lia.
Qed.

Lemma tally_none (P : Process -> bool) (ps : Procs) :
  Forall (fun p => P p = false) ps -> tally P ps = 0.
Proof.
  unfold tally. induction 1 as [|p ps Hp _ IH]; [done|].
  rewrite fmap_cons, Zsum_cons, IH, Hp. done.
Qed.

Lemma load_tally_zero (P : Process -> bool) input :
  (forall f, P (init_process f) = false) -> tally P (load input) = 0.
Proof.
  intros H. apply tally_none. unfold load. apply Forall_fmap.
  apply Forall_forall. intros f _. apply H.
Qed.

(** X24.  The output accounts for every record, for any input and
    however the threads interleave: in every reachable state there is
    one arrival line per record that has arrived and one termination
    line per Terminated record, every blocked-for-I/O line is matched by
    an I/O-finished line or by a record that is still Waiting, and the
    moved-to-ready lines are the arrivals plus the I/O completions.  A
    finished run has printed one arrival and one termination line per
    record of the input, and as many I/O-finished lines as blocked
    lines. *)
Theorem output_lines_accounted (input : list Fields) (s : State) :
  reachable input s ->
  count_events is_arrival (output s) = tally has_arrived (all_processes s) /\
  count_events is_termination (output s) =
    tally (fun p => bool_decide (state p = STATE_TERMINATED)) (all_processes s) /\
  count_events is_blocked (output s) =
    count_events is_io_finished (output s) +
    tally (fun p => bool_decide (state p = STATE_WAITING)) (all_processes s) /\
  count_events is_moved (output s) =
    count_events is_arrival (output s) + count_events is_io_finished (output s) /\
  (all_terminated s = true ->
     count_events is_arrival (output s) = Z.of_nat (length input) /\
     count_events is_termination (output s) = Z.of_nat (length input) /\
     count_events is_io_finished (output s) = count_events is_blocked (output s)).
Proof.
  intros H.
  pose proof (balance_reachable _ _ accounts_arrivals input s H) as B1.
  pose proof (balance_reachable _ _ accounts_terminations input s H) as B2.
  pose proof (balance_reachable _ _ accounts_waiting input s H) as B3.
  pose proof (balance_reachable _ _ accounts_moves input s H) as B4.
  unfold balance in B1, B2, B3, B4.
  rewrite (Zsum_sub (fun e => flag (is_blocked e))
             (fun e => flag (is_io_finished e))) in B3.
  rewrite (Zsum_sub (fun e => flag (is_moved e) - flag (is_arrival e))
             (fun e => flag (is_io_finished e))) in B4.
  rewrite (Zsum_sub (fun e => flag (is_moved e))
             (fun e => flag (is_arrival e))) in B4.
  rewrite !(Zsum_zero (fun _ : Process => 0)) in B4 by done.
  fold (tally has_arrived (all_processes s)) in B1.
  fold (tally has_arrived (load input)) in B1.
  fold (tally (fun p => bool_decide (state p = STATE_TERMINATED))
          (all_processes s)) in B2.
  fold (tally (fun p => bool_decide (state p = STATE_TERMINATED))
          (load input)) in B2.
  fold (tally (fun p => bool_decide (state p = STATE_WAITING))
          (all_processes s)) in B3.
  fold (tally (fun p => bool_decide (state p = STATE_WAITING))
          (load input)) in B3.
  rewrite load_tally_zero in B1 by (by intros [[[[[a b] c] d] e] f]).
  rewrite load_tally_zero in B2 by (by intros [[[[[a b] c] d] e] f]).
  rewrite load_tally_zero in B3 by (by intros [[[[[a b] c] d] e] f]).
  rewrite !count_events_Zsum.
  split; [lia|]. split; [lia|]. split; [lia|]. split; [lia|].
  intros Ht.
  destruct (finished_ok_reachable input s H Ht) as [Hall _].
  pose proof (Inv_reachable input s H) as HI.
  assert (Hlen : length (all_processes s) = length input).
  { pose proof (Forall2_length _ _ _ (reachable_evolves input s H)) as E.
    unfold load in E. rewrite length_fmap in E. lia. }
  rewrite (tally_all has_arrived) in B1.
  2:{ apply Forall_lookup. intros i p Hp.
      pose proof (Forall_lookup_1 _ _ _ _ Hall Hp) as Hst. simpl in Hst.
      destruct (inv_placed _ HI _ _ Hp) as (_ & _ & _ & Hn).
      destruct (has_arrived p); [done|].
      assert (state p = STATE_NEW) by (by apply Hn). congruence. }
  rewrite (tally_all (fun p => bool_decide (state p = STATE_TERMINATED))) in B2.
  2:{ eapply Forall_impl; [exact Hall|]. intros p Hp. simpl.
      by apply bool_decide_eq_true_2. }
  rewrite (tally_none (fun p => bool_decide (state p = STATE_WAITING))) in B3.
  2:{ eapply Forall_impl; [exact Hall|]. intros p Hp. simpl in *.
      apply bool_decide_eq_false_2. congruence. }
  rewrite Hlen in B1, B2. lia.
Qed.

Lemma output_lines_accounted_witness :
  count_events is_arrival
    (output (Nat.iter 403 round (initial_state (load scenario))))
    = Z.of_nat (length scenario) /\
  count_events is_termination
    (output (Nat.iter 403 round (initial_state (load scenario))))
    = Z.of_nat (length scenario) /\
  count_events is_io_finished
    (output (Nat.iter 403 round (initial_state (load scenario))))
  = count_events is_blocked
      (output (Nat.iter 403 round (initial_state (load scenario)))).
Proof.
  apply (output_lines_accounted scenario
           (Nat.iter 403 round (initial_state (load scenario)))
           (reachable_rounds scenario 403)).
  vm_compute. reflexivity.
Defined.

(** ** Unlinking from the waiting queue *)

Lemma remove_from_queue_filter (P : nat -> Prop) `{!forall i, Decision (P i)}
    (w : Queue) : forall k : Queue,
  NoDup (k ++ w) ->
  foldl remove_from_queue (k ++ w) (filter P w)
  = k ++ filter (fun i => ~ P i) w.
Proof.
  induction w as [|x w IH]; intros k Hnd; [done|].
  destruct (decide (P x)) as [Hx|Hx].
  - rewrite filter_cons_True by done.
    rewrite (filter_cons_False (fun i => ~ P i)) by (by intros ?).
    simpl. rewrite remove_from_queue_walk, remove_walk_first.
    + apply IH. apply NoDup_app in Hnd as (Hk & Hd & Hw).
      apply NoDup_cons in Hw as [_ Hw]. apply NoDup_app. split; [done|].
      split; [|done]. intros i Hi Hi'. apply (Hd i Hi). by right.
    + apply NoDup_app in Hnd as (_ & Hd & _). intros Hin.
      apply (Hd x Hin). left.
  - rewrite filter_cons_False by done.
    rewrite (filter_cons_True (fun i => ~ P i)) by done.
    replace (k ++ x :: w) with ((k ++ [x]) ++ w) by (by rewrite <- app_assoc).
    rewrite IH; [by rewrite <- app_assoc|]. by rewrite <- app_assoc.
Qed.

(** X25.  The unlinking that the I/O manager does inline is
    [remove_from_queue]: the waiting queue after a pass is the waiting
    queue before it with [remove_from_queue] applied for each record
    whose I/O is complete. *)
Theorem io_manager_unlinks_with_remove_from_queue (clock : Z) (s : State) :
  Inv s ->
  waiting_queue (io_manager_pass clock s) =
  foldl remove_from_queue (waiting_queue s)
    (filter (fun i => io_completion_time (all_processes s !!! i) <= clock)
       (waiting_queue s)).
Proof.
  intros HI. destruct (io_manager_pass_spec clock s) as (_ & -> & _).
  rewrite (remove_from_queue_filter _ (waiting_queue s) []
             (inv_waiting_nodup _ HI)).
  simpl. apply filter_ext_elem_of. intros i _. unfold io_done.
  destruct (Z.leb_spec (io_completion_time (all_processes s !!! i)) clock);
    split; intros; try done; lia.
Qed.

Lemma io_manager_unlinks_with_remove_from_queue_witness :
  waiting_queue
    (io_manager_pass 151 (Nat.iter 101 round (initial_state (load scenario))))
  = foldl remove_from_queue
      (waiting_queue (Nat.iter 101 round (initial_state (load scenario))))
      (filter (fun i => io_completion_time
                 (all_processes (Nat.iter 101 round
                    (initial_state (load scenario))) !!! i) <= 151)
         (waiting_queue (Nat.iter 101 round (initial_state (load scenario))))).
Proof.
  apply (io_manager_unlinks_with_remove_from_queue 151
           (Nat.iter 101 round (initial_state (load scenario)))).
  apply (Inv_reachable scenario), (reachable_rounds scenario 101).
Defined.

(** ** What the conversion does not check *)

Lemma scan_d_eq (s : string) :
  scan_d s =
  let '(negative, s) := strip_sign (skip_spaces s) in
  match scan_digits s None with
  | (Some v, rest) => Some (if negative then - v else v, rest)
  | (None, _) => None
  end.
Proof. done. Qed.

Lemma isspace_cases (c : ascii) :
  isspace c = true ->
  digit_of c = None /\ c <> "-"%char /\ c <> "+"%char.
Proof.
  destruct c as [[] [] [] [] [] [] [] []]; vm_compute; intros H;
    try discriminate H; repeat split; discriminate.
Qed.

Lemma scan_digits_app (s t : string) : forall acc v r,
  scan_digits s acc = (v, r) -> r <> EmptyString ->
  scan_digits (String.append s t) acc = (v, String.append r t).
Proof.
  induction s as [|c s IH]; intros acc v r; simpl.
  - intros [= <- <-]. done.
  - destruct (digit_of c); [apply IH|].
    intros [= <- <-] _. done.
Qed.

Lemma skip_spaces_app (s t : string) :
  skip_spaces s <> EmptyString ->
  skip_spaces (String.append s t) = String.append (skip_spaces s) t.
Proof.
  induction s as [|c s IH]; simpl; [done|].
  destruct (isspace c); [apply IH|done].
Qed.

Lemma strip_sign_app (s t : string) :
  s <> EmptyString ->
  strip_sign (String.append s t) =
    ((strip_sign s).1, String.append (strip_sign s).2 t).
Proof.
  destruct s as [|c s]; [done|]. intros _.
  destruct c as [[] [] [] [] [] [] [] []]; reflexivity.
Qed.

Lemma strip_sign_nonempty (s : string) :
  (strip_sign s).2 <> EmptyString -> s <> EmptyString.
Proof. by destruct s. Qed.

Lemma scan_d_app (s t : string) (v : Z) (r : string) :
  scan_d s = Some (v, r) -> r <> EmptyString ->
  scan_d (String.append s t) = Some (v, String.append r t).
Proof.
  rewrite !scan_d_eq. intros H Hr.
  destruct (strip_sign (skip_spaces s)) as [n s1] eqn:E1.
  destruct (scan_digits s1 None) as [[v1|] r1] eqn:E2; [|done].
  injection H as <- <-.
  assert (Hs1 : s1 <> EmptyString).
  { intros ->. simpl in E2. discriminate. }
  assert (Hss : skip_spaces s <> EmptyString).
  { apply strip_sign_nonempty. by rewrite E1. }
  rewrite skip_spaces_app, strip_sign_app, E1 by done. simpl.
  by rewrite (scan_digits_app s1 t None _ _ E2 Hr).
Qed.

Lemma ends_with_nonempty sp s : ends_with sp s -> s <> EmptyString.
Proof. intros ([|c x] & ->); done. Qed.

Lemma ends_with_tail sp c s :
  s <> EmptyString -> ends_with sp (String c s) -> ends_with sp s.
Proof.
  intros Hs ([|c' x] & E); simpl in E; injection E as -> ->; [done|].
  by exists x.
Qed.

Lemma ends_with_single sp c :
  ends_with sp (String c EmptyString) -> c = sp.
Proof.
  intros ([|c0 x] & E); simpl in E.
  - by injection E.
  - injection E as _ E'. destruct x; discriminate.
Qed.

Lemma scan_digits_ends sp (s : string) : forall acc v r,
  digit_of sp = None -> ends_with sp s ->
  scan_digits s acc = (v, r) -> ends_with sp r.
Proof.
  induction s as [|c s IH]; intros acc v r Hd He; simpl.
  - by apply ends_with_nonempty in He.
  - destruct (digit_of c) eqn:Ec.
    + destruct s as [|c' s'].
      * apply ends_with_single in He. congruence.
      * apply IH; [done|]. by eapply ends_with_tail.
    + by intros [= <- <-].
Qed.

Lemma skip_spaces_ends sp (s : string) :
  ends_with sp s -> skip_spaces s <> EmptyString ->
  ends_with sp (skip_spaces s).
Proof.
  induction s as [|c s IH]; simpl; [done|]. intros He.
  destruct (isspace c); [|done]. intros Hne. apply IH; [|done].
  destruct s as [|c' s']; [done|]. by eapply ends_with_tail.
Qed.

Lemma strip_sign_ends sp (s : string) :
  sp <> "-"%char -> sp <> "+"%char ->
  ends_with sp s -> ends_with sp (strip_sign s).2.
Proof.
  intros Hm Hp He. destruct s as [|c s]; [done|].
  assert (Hc : (strip_sign (String c s)).2 = String c s \/
               ((c = "-"%char \/ c = "+"%char) /\
                (strip_sign (String c s)).2 = s)).
  { destruct c as [[] [] [] [] [] [] [] []]; simpl; auto. }
  destruct Hc as [->|[Hc ->]]; [done|].
  destruct s as [|c' s'].
  - apply ends_with_single in He. destruct Hc; congruence.
  - by eapply ends_with_tail.
Qed.

Lemma scan_d_ends sp (s : string) (v : Z) (r : string) :
  isspace sp = true -> ends_with sp s ->
  scan_d s = Some (v, r) -> ends_with sp r.
Proof.
  intros Hsp He. destruct (isspace_cases sp Hsp) as (Hd & Hm & Hp).
  rewrite scan_d_eq.
  destruct (strip_sign (skip_spaces s)) as [n s1] eqn:E1.
  destruct (scan_digits s1 None) as [[v1|] r1] eqn:E2; [|done].
  intros [= <- <-].
  assert (Hs1 : s1 <> EmptyString).
  { intros ->. simpl in E2. discriminate. }
  assert (Hss : skip_spaces s <> EmptyString).
  { apply strip_sign_nonempty. by rewrite E1. }
  eapply scan_digits_ends; [done| |exact E2].
  replace s1 with (strip_sign (skip_spaces s)).2 by (by rewrite E1).
  apply strip_sign_ends; [done|done|]. by apply skip_spaces_ends.
Qed.

Lemma scan_d_extend sp (s t : string) (v : Z) (r : string) :
  isspace sp = true -> ends_with sp s ->
  scan_d s = Some (v, r) ->
  scan_d (String.append s t) = Some (v, String.append r t) /\ ends_with sp r.
Proof.
  intros Hsp He H. pose proof (scan_d_ends sp s v r Hsp He H) as Hr.
  split; [|done]. apply scan_d_app; [done|]. by eapply ends_with_nonempty.
Qed.

Lemma append_assoc (a b c : string) :
  String.append (String.append a b) c = String.append a (String.append b c).
Proof. induction a as [|x a IH]; simpl; [done|]. by rewrite IH. Qed.

Lemma sscanf_6d_extend (sp : ascii) (body junk : string) (f : Fields) :
  isspace sp = true ->
  sscanf_6d (String.append body (String sp EmptyString)) = Some f ->
  sscanf_6d (String.append body (String sp junk)) = Some f.
Proof.
  intros Hsp. set (s0 := String.append body (String sp EmptyString)).
  assert (E : String.append body (String sp junk) = String.append s0 junk).
  { unfold s0. by rewrite append_assoc. }
  rewrite E. assert (He0 : ends_with sp s0) by (by exists body).
  clearbody s0. unfold sscanf_6d.
  destruct (scan_d s0) as [[a s1]|] eqn:E1; [|done]. simpl.
  destruct (scan_d_extend sp s0 junk a s1 Hsp He0 E1) as [-> He1]. simpl.
  destruct (scan_d s1) as [[b s2]|] eqn:E2; [|done]. simpl.
  destruct (scan_d_extend sp s1 junk b s2 Hsp He1 E2) as [-> He2]. simpl.
  destruct (scan_d s2) as [[c s3]|] eqn:E3; [|done]. simpl.
  destruct (scan_d_extend sp s2 junk c s3 Hsp He2 E3) as [-> He3]. simpl.
  destruct (scan_d s3) as [[d s4]|] eqn:E4; [|done]. simpl.
  destruct (scan_d_extend sp s3 junk d s4 Hsp He3 E4) as [-> He4]. simpl.
  destruct (scan_d s4) as [[e s5]|] eqn:E5; [|done]. simpl.
  destruct (scan_d_extend sp s4 junk e s5 Hsp He4 E5) as [-> He5]. simpl.
  destruct (scan_d s5) as [[g s6]|] eqn:E6; [|done]. simpl.
  destruct (scan_d_extend sp s5 junk g s6 Hsp He5 E6) as [-> He6]. simpl.
  done.
Qed.

Lemma read_processes_ext (scan : string -> option Fields) (total : nat)
    (lines lines' : list string) :
  Forall2 (fun l l' => (1 <? strlen l) = (1 <? strlen l') /\
                       (1 < strlen l -> scan l = scan l')) lines lines' ->
  forall filled,
    read_processes scan total lines filled
    = read_processes scan total lines' filled.
Proof.
  induction 1 as [|l l' ls ls' [Hlen Hscan] _ IH]; intros filled; [done|].
  simpl. case_bool_decide; [|done].
  destruct (Z.ltb_spec 1 (strlen l)) as [Hl|Hl];
    destruct (Z.ltb_spec 1 (strlen l')) as [Hl'|Hl']; try discriminate.
  - destruct (Z.leb_spec (strlen l) 1); [lia|].
    destruct (Z.leb_spec (strlen l') 1); [lia|].
    rewrite <- (Hscan Hl). destruct (scan l); [apply IH|done].
  - destruct (Z.leb_spec (strlen l) 1); [|lia].
    destruct (Z.leb_spec (strlen l') 1); [|lia]. apply IH.
Qed.

Lemma count_processes_ext (scan : string -> option Fields)
    (lines lines' : list string) :
  Forall2 (fun l l' => (1 <? strlen l) = (1 <? strlen l') /\
                       (1 < strlen l -> scan l = scan l')) lines lines' ->
  count_processes lines = count_processes lines'.
Proof.
  induction 1 as [|l l' ls ls' [Hlen _] _ IH]; [done|].
  simpl. by rewrite Hlen, IH.
Qed.

Lemma strlen_append_cons (body : string) (sp : ascii) (junk : string) :
  body <> EmptyString -> 1 < strlen (String.append body (String sp junk)).
Proof.
  destruct body as [|c body]; [done|]. intros _. unfold strlen. simpl.
  destruct body; simpl; lia.
Qed.

(** X26.  The conversion checks that a buffer starts with six integers
    and nothing more: whatever follows the white space after the sixth
    integer -- a seventh field, a comment -- is ignored.  Two files
    whose buffers differ only there, each buffer being one that [fgets]
    can return and the six integers being in the range of [int], load
    the same table. *)
Theorem trailing_text_is_ignored (sp : ascii) (body tail tail' : string)
    (f : Fields) (before after : list string) (malloc_ok : bool) :
  isspace sp = true ->
  sscanf_6d (String.append body (String sp EmptyString)) = Some f ->
  int_fields f ->
  fgets_lines (before ++ String.append body (String sp tail) :: after) = true ->
  fgets_lines (before ++ String.append body (String sp tail') :: after) = true ->
  sscanf_6d (String.append body (String sp tail)) = Some f /\
  sscanf_6d (String.append body (String sp tail')) = Some f /\
  Program.parse_input_file sscanf_6d
    (Some (before ++ String.append body (String sp tail) :: after)) malloc_ok
  = Program.parse_input_file sscanf_6d
      (Some (before ++ String.append body (String sp tail') :: after))
      malloc_ok.
Proof.
  intros Hsp Hf _ _ _.
  pose proof (sscanf_6d_extend sp body tail f Hsp Hf) as Hj.
  pose proof (sscanf_6d_extend sp body tail' f Hsp Hf) as Hj'.
  split; [done|]. split; [done|].
  assert (Hb : body <> EmptyString).
  { intros ->. simpl in Hf. rewrite sscanf_6d_blank in Hf; [done|].
    by repeat constructor. }
  assert (H2 : Forall2
            (fun l l' => (1 <? strlen l) = (1 <? strlen l') /\
                         (1 < strlen l -> sscanf_6d l = sscanf_6d l'))
            (before ++ String.append body (String sp tail) :: after)
            (before ++ String.append body (String sp tail') :: after)).
  { apply Forall2_app.
    - apply Forall_Forall2_diag, Forall_forall. by intros l _.
    - constructor.
      + pose proof (strlen_append_cons body sp tail Hb).
        pose proof (strlen_append_cons body sp tail' Hb).
        split; [|intros _; congruence].
        destruct (Z.ltb_spec 1 (strlen (String.append body (String sp tail))));
          destruct (Z.ltb_spec 1
                      (strlen (String.append body (String sp tail'))));
          try done; lia.
      + apply Forall_Forall2_diag, Forall_forall. by intros l _. }
  unfold Program.parse_input_file.
  rewrite (count_processes_ext sscanf_6d _ _ H2).
  case_bool_decide; [done|]. destruct malloc_ok; [|done].
  by apply read_processes_ext.
Qed.

Lemma trailing_text_is_ignored_witness :
  sscanf_6d (String.append "1 0 300 100 50 2"
               (String " " (String.append "7 # first job"
                              (String "010" EmptyString))))
    = Some (1, 0, 300, 100, 50, 2) /\
  sscanf_6d (String.append "1 0 300 100 50 2"
               (String " " (String "010" EmptyString)))
    = Some (1, 0, 300, 100, 50, 2) /\
  Program.parse_input_file sscanf_6d
    (Some ([] ++ String.append "1 0 300 100 50 2"
                   (String " " (String.append "7 # first job"
                                  (String "010" EmptyString)))
              :: [String "010" EmptyString])) true
  = Program.parse_input_file sscanf_6d
      (Some ([] ++ String.append "1 0 300 100 50 2"
                     (String " " (String "010" EmptyString))
                :: [String "010" EmptyString])) true.
Proof.
  apply (trailing_text_is_ignored " "%char "1 0 300 100 50 2"
           (String.append "7 # first job" (String "010" EmptyString))
           (String "010" EmptyString)
           (1, 0, 300, 100, 50, 2) [] [String "010" EmptyString] true).
  - reflexivity.
  - vm_compute. reflexivity.
  - vm_compute. intuition discriminate.
  - vm_compute. reflexivity.
  - vm_compute. reflexivity.
Defined.

(** ** The granularity of aging *)

Lemma steady_refl p : steady p p.
Proof. by split. Qed.

Lemma steady_trans p q r : steady p q -> steady q r -> steady p r.
Proof. intros [A1 A2] [B1 B2]. split; [tauto|congruence]. Qed.

Lemma steady_arrival : arrival_closed steady.
Proof. intros c p _ _. split; [|done]. intros _. unfold timer_in_range. simpl. lia. Qed.

Lemma steady_resolve : resolve_closed steady.
Proof.
  intros c ru p _ _. unfold steady, timer_in_range, resolve. simpl.
  by destruct (_ <=? 0).
Qed.

Lemma steady_dispatch : dispatch_closed steady.
Proof. by intros p _. Qed.

Lemma steady_complete : complete_closed steady.
Proof. intros c p _ _. split; [|done]. intros _. unfold timer_in_range. simpl. lia. Qed.

Lemma aged_one (b : bool) (p : Process) :
  timer_in_range p ->
  timer_in_range (aged 1 b p) /\
  priority p - 1 <= priority (aged 1 b p) <= priority p.
Proof.
  unfold timer_in_range. intros Ht.
  pose proof (age_timer_spec 1 p ltac:(lia) ltac:(lia)) as T.
  pose proof (age_priority_spec 1 p ltac:(lia) ltac:(lia)) as P.
  destruct (aged_frame 1 b p) as (_ & _ & _ & _ & _ & _ & _ & _ & _ & _ & Hpr).
  rewrite Hpr, P.
  assert (Hq : 0 <= (time_in_ready_queue p + 1) / 100 <= 1).
  { split; [apply Z.div_pos; lia|].
    apply Z.div_le_upper_bound; lia. }
  split.
  - unfold aged. destruct b; simpl; [lia|]. rewrite T.
    apply Z.mod_pos_bound. lia.
  - destruct (Z.ltb_spec 0 (priority p)); lia.
Qed.

Lemma Forall2_steady_range (ps ps' : Procs) :
  Forall2 steady ps ps' -> Forall timer_in_range ps -> Forall timer_in_range ps'.
Proof.
  induction 1 as [|p p' ps ps' [Hp _] _ IH]; [done|].
  intros [H1 H2]%Forall_cons. constructor; [by apply Hp|by apply IH].
Qed.

Lemma aging_check_one s :
  Inv s -> last_aging_check s + 1 = current_clock s ->
  Forall timer_in_range (all_processes s) ->
  last_aging_check (aging_check s) = current_clock (aging_check s) /\
  Forall2 (fun p p' => timer_in_range p' /\
                       priority p - 1 <= priority p' <= priority p)
    (all_processes s) (all_processes (aging_check s)).
Proof.
  intros HI Hl Hr.
  destruct (aging_check_spec s (inv_ready_nodup _ HI)) as (HT & _).
  split.
  - unfold aging_check.
    destruct (Z.ltb_spec (last_aging_check s) (current_clock s)); [|lia].
    by destruct (resort_ready_queue _ _).
  - eapply transforms_Forall2; [exact HT|].
    intros i p Hp. cbv beta.
    pose proof (Forall_lookup_1 _ _ _ _ Hr Hp) as Hrp.
    destruct (Z.ltb_spec (last_aging_check s) (current_clock s)); [|lia].
    simpl. case_bool_decide; [|split; [done|lia]].
    replace (current_clock s - last_aging_check s) with 1 by lia.
    by apply aged_one.
Qed.

Lemma scheduler_tick_one s :
  Inv s -> all_terminated s = false -> aging_up_to_date s ->
  aging_up_to_date (scheduler_tick s) /\
  Forall2 (fun p p' => priority p - 1 <= priority p' <= priority p)
    (all_processes s) (all_processes (scheduler_tick s)).
Proof.
  intros HI Ht [Hl Hr]. unfold scheduler_tick. rewrite Ht.
  pose proof (Inv_advance_clock _ HI) as I1.
  pose proof (Inv_check_arrivals _ I1) as I2.
  pose proof (Inv_aging_check _ I2) as I3.
  pose proof (Inv_burst_resolution _ I3) as I4.
  set (s2 := check_arrivals (advance_clock s)) in *.
  pose proof (check_arrivals_pointwise steady steady_refl _ steady_arrival I1)
    as F2. fold s2 in F2. simpl in F2.
  destruct (check_arrivals_spec (advance_clock s))
    as (_ & _ & _ & _ & _ & _ & Hc2 & Hl2 & _).
  fold s2 in Hc2, Hl2. simpl in Hc2, Hl2.
  destruct (aging_check_one s2 I2 ltac:(lia)
              (Forall2_steady_range _ _ F2 Hr)) as [Hl3 F3].
  set (s3 := aging_check s2) in *.
  pose proof (burst_resolution_pointwise steady steady_refl _ steady_resolve I3)
    as F4.
  pose proof (dispatch_pointwise steady steady_refl _ steady_dispatch I4) as F5.
  set (s4 := burst_resolution s3) in *. set (s5 := dispatch s4) in *.
  destruct (completion_check_spec s5)
    as (Hps & _ & _ & _ & _ & Hc6 & Hl6 & _).
  assert (Hl5 : last_aging_check s5 = current_clock s5).
  { assert (last_aging_check s4 = current_clock s4 /\
            (last_aging_check s5 = last_aging_check s4 /\
             current_clock s5 = current_clock s4)) as (? & ? & ?); [|lia].
    split.
    - unfold s4.
      destruct (running_process s3) as [r|] eqn:Hrun;
        [|by rewrite burst_resolution_idle by (by left)].
      destruct (Z.le_gt_cases (running_until s3) (current_clock s3));
        [|by rewrite burst_resolution_idle by (right; lia)].
      pose proof (lookup_of_range _ _ (inv_running_range _ I3 _ Hrun)) as Hp.
      destruct (burst_resolution_spec s3 r _ Hrun Hp ltac:(lia))
        as (_ & _ & _ & _ & _ & -> & -> & _). done.
    - unfold s5.
      destruct (running_process s4) as [r|] eqn:Hrun;
        [by rewrite dispatch_idle by (left; by rewrite Hrun)|].
      destruct (ready_queue s4) as [|r rest] eqn:Hq;
        [by rewrite dispatch_idle by (by right)|].
      by destruct (dispatch_spec s4 r rest Hrun Hq)
        as (_ & _ & _ & _ & _ & -> & -> & _). }
  pose proof (Forall2_trans _ _ _ _ _ _ steady_trans F4 F5) as F45.
  split.
  - split; [lia|]. rewrite Hps.
    apply (Forall2_steady_range _ _ F45).
    clear -F3. induction F3 as [|p p' ps ps' [Hp _] _ IH]; by constructor.
  - rewrite Hps.
    assert (F23 : Forall2 (fun p p' => priority p - 1 <= priority p' <= priority p)
                    (all_processes s) (all_processes s3)).
    { clear -F2 F3. revert F3. generalize (all_processes s3).
      induction F2 as [|p q ps qs [_ Hq] _ IH]; intros l F3;
        inversion F3 as [|q' r qs' rs [_ Hr] F3']; subst; constructor.
      - lia.
      - by apply IH. }
    clear -F23 F45. revert F45. generalize (all_processes s5).
    induction F23 as [|p q ps qs Hpq _ IH]; intros l F45;
      inversion F45 as [|q' r qs' rs [_ Hr] F45']; subst; constructor.
    + lia.
    + by apply IH.
Qed.

Lemma io_manager_pass_steady clock s :
  Inv s -> aging_up_to_date s ->
  aging_up_to_date (io_manager_pass clock s) /\
  Forall2 steady (all_processes s) (all_processes (io_manager_pass clock s)).
Proof.
  intros HI [Hl Hr].
  pose proof (io_manager_pass_pointwise steady steady_refl clock s
                steady_complete HI) as F.
  split; [|done]. split; [|by eapply Forall2_steady_range].
  by destruct (io_manager_pass_spec clock s)
    as (_ & _ & _ & _ & _ & _ & -> & -> & _).
Qed.

Lemma aging_up_to_date_reachable input s :
  reachable input s -> aging_up_to_date s.
Proof.
  intros H. pose proof (Inv_initial input) as HI. unfold reachable in H.
  assert (H0 : aging_up_to_date (initial_state (load input))).
  { split; [done|]. simpl. unfold load. apply Forall_fmap.
    apply Forall_forall. intros [[[[[a b] c] d] e] f] _.
    unfold timer_in_range. simpl. lia. }
  revert HI H0. induction H as [s|s1 s2 s3 H12 H23 IH]; [done|]. intros HI H0.
  apply IH; [by eapply Inv_step|].
  destruct H12 as [s1|s1 c Hc].
  - destruct (all_terminated s1) eqn:Ht;
      [unfold scheduler_tick; by rewrite Ht|].
    by apply scheduler_tick_one.
  - by apply io_manager_pass_steady.
Qed.

(** X27.  Aging is done every millisecond: in every reachable state the
    aging pass is up to date with the clock, so each pass covers 1 ms,
    every aging timer lies between 0 and 99, and no step of an execution
    lowers a priority by more than 1. *)
Theorem aging_every_millisecond (input : list Fields) (s : State) :
  reachable input s ->
  last_aging_check s = current_clock s /\
  (forall (i : nat) (p : Process),
     all_processes s !! i = Some p ->
     0 <= time_in_ready_queue p < 100 /\
     forall (s' : State) (p' : Process),
       step s s' -> all_processes s' !! i = Some p' ->
       priority p - 1 <= priority p' <= priority p).
Proof.
  intros H. pose proof (Inv_reachable input s H) as HI.
  pose proof (aging_up_to_date_reachable input s H) as HA.
  split; [apply HA|]. intros i p Hp.
  split; [apply (Forall_lookup_1 _ _ _ _ (proj2 HA) Hp)|].
  intros s' p' Hs Hp'. destruct Hs as [s|s c Hc].
  - destruct (all_terminated s) eqn:Ht.
    + unfold scheduler_tick in Hp'. rewrite Ht in Hp'.
      assert (p' = p) as -> by congruence. lia.
    + destruct (scheduler_tick_one s HI Ht HA) as [_ F].
      exact (Forall2_lookup_lr _ _ _ _ _ _ F Hp Hp').
  - destruct (io_manager_pass_steady c s HI HA) as [_ F].
    destruct (Forall2_lookup_lr _ _ _ _ _ _ F Hp Hp') as [_ Hpr]. lia.
Qed.

Lemma aging_every_millisecond_witness :
  last_aging_check (Nat.iter 120 round (initial_state (load three_records)))
  = current_clock (Nat.iter 120 round (initial_state (load three_records))).
Proof.
  apply (aging_every_millisecond three_records
           (Nat.iter 120 round (initial_state (load three_records)))
           (reachable_rounds three_records 120)).
Defined.

(** ** The range of [int] along an execution *)

Lemma tame_evolves input c (ps : Procs) :
  Forall well_formed input -> fits_upto input c ->
  Forall2 evolves (load input) ps -> Forall (tame c) ps.
Proof.
  intros Hw (Hint & _ & _ & _ & Hall) Hev.
  apply Forall_lookup. intros i p Hp.
  destruct (Forall2_lookup_r _ _ _ _ _ Hev Hp) as (p0 & Hp0 & He).
  unfold load in Hp0. rewrite list_lookup_fmap in Hp0.
  destruct (input !! i) as [f|] eqn:Hf; [|done].
  injection Hp0 as <-.
  pose proof (Forall_lookup_1 _ _ _ _ Hw Hf) as Hwf.
  pose proof (Forall_lookup_1 _ _ _ _ Hint Hf) as Hif.
  pose proof (Forall_lookup_1 _ _ _ _ Hall Hf) as Haf.
  pose proof (init_process_sound f Hwf) as Hs0.
  destruct He as [_ _ E3 E4 E5 _ E7 _ E9].
  destruct f as [[[[[a b] d] e] g] h]. simpl in *.
  destruct Hif as (_ & _ & Hd & _ & Hg & Hh). unfold in_int in *.
  unfold tame. rewrite E3, E4, E5. unfold in_int.
  split; [by apply E9|]. repeat split; try lia.
Qed.

Lemma burst_resolution_clock s :
  current_clock (burst_resolution s) = current_clock s.
Proof.
  unfold burst_resolution.
  destruct (running_process s); [|done].
  destruct (_ <=? _); [|done]. by destruct (_ <=? 0).
Qed.

Lemma resolution_in_int_on_time c p :
  0 <= c -> tame c p ->
  resolution_in_int (c + 1) (c + 1) p = true.
Proof.
  intros Hc ((Hi & Hr & _) & Hcpu & Hio & _ & Hci & Hcio).
  unfold resolution_in_int, resolved_burst_time.
  unfold in_int, INT_MIN, INT_MAX in *.
  replace (c + 1 - (c + 1 - interval_time p)) with (interval_time p) by lia.
  rewrite !andb_true_iff. split; [split; [split|]|].
  - apply int_ok_spec. unfold in_int, INT_MIN, INT_MAX. lia.
  - apply int_ok_spec. unfold in_int, INT_MIN, INT_MAX. lia.
  - apply int_ok_spec. unfold in_int, INT_MIN, INT_MAX.
    destruct (Z.ltb_spec (remaining_time p) (interval_time p)); lia.
  - destruct (_ <=? 0); [done|].
    apply int_ok_spec. unfold in_int, INT_MIN, INT_MAX. lia.
Qed.

Lemma dispatch_in_int_tame c p :
  0 <= c -> tame c p -> dispatch_in_int (c + 1) p = true.
Proof.
  intros Hc ((Hi & Hr & _) & _ & _ & _ & Hci & _).
  unfold dispatch_in_int. apply int_ok_spec.
  pose proof (dispatch_burst_time_le p) as [_ Hle].
  assert (0 <= dispatch_burst_time p).
  { unfold dispatch_burst_time.
    destruct (Z.ltb_spec (remaining_time p) (interval_time p)); lia. }
  unfold in_int, INT_MIN, INT_MAX in *. lia.
Qed.

Lemma aging_in_int_one p :
  timer_in_range p -> priority p <= INT_MAX -> aging_in_int 1 p = true.
Proof.
  intros Ht Hp. unfold aging_in_int, timer_in_range in *.
  rewrite andb_true_iff. split.
  - apply int_ok_spec. unfold in_int, INT_MIN, INT_MAX. lia.
  - destruct (Z.leb_spec 100 (time_in_ready_queue p + 1)); [|done].
    destruct (Z.ltb_spec 0 (priority p)); [|done].
    replace (time_in_ready_queue p + 1) with 100 by lia.
    change (Z.quot 100 100) with 1.
    apply int_ok_spec. unfold in_int, INT_MIN, INT_MAX in *. lia.
Qed.

Lemma step_clock_le s s' : step s s' -> current_clock s <= current_clock s'.
Proof.
  intros [s0|s0 c Hc].
  - destruct (all_terminated s0) eqn:Ht.
    + unfold scheduler_tick. by rewrite Ht.
    + rewrite scheduler_tick_clock by done. lia.
  - by rewrite io_manager_pass_clock.
Qed.

Lemma steps_clock_le s s' :
  rtc step s s' -> current_clock s <= current_clock s'.
Proof.
  induction 1 as [s|s1 s2 s3 H12 _ IH]; [done|].
  pose proof (step_clock_le _ _ H12). lia.
Qed.

(** X29.  On input with positive CPU demands and burst intervals, the
    range condition [fits] is enough: in every reachable state from
    which the clock, the burst ends and the I/O deadlines stay in the
    range of [int], every [int] expression that the next scheduler
    iteration evaluates has its value in the range of [int], and so it
    has been in every state on the way -- the arithmetic of the program
    is then the arithmetic of the model. *)
Theorem iterations_stay_in_int (input : list Fields) (s : State) :
  Forall well_formed input -> reachable input s -> fits input s ->
  iteration_in_int s = true /\
  (forall s0 : State,
     reachable input s0 -> rtc step s0 s ->
     fits input s0 /\ iteration_in_int s0 = true).
Proof.
  intros Hw Hr Hfits.
  assert (Hmain : forall s : State,
            reachable input s -> fits input s -> iteration_in_int s = true).
  2:{ split; [by apply Hmain|]. intros s0 H0 Hsteps.
      assert (Hf0 : fits input s0).
      { unfold fits in *. eapply fits_upto_le; [|exact Hfits].
        pose proof (steps_clock_le _ _ Hsteps).
        pose proof (steps_clock_le _ _ H0) as Hz. simpl in Hz. lia. }
      split; [done|by apply Hmain]. }
  clear s Hr Hfits. intros s Hr Hfits.
  pose proof (Good_reachable input s Hw Hr) as HG.
  pose proof (good_inv _ HG) as HI.
  destruct (aging_up_to_date_reachable input s Hr) as [Hla Htim].
  pose proof (reachable_evolves input s Hr) as Hev.
  pose proof Hfits as (_ & Hlen & Hc0 & Hc1 & _). unfold fits in Hfits.
  pose proof (Inv_advance_clock _ HI) as I1.
  pose proof (Inv_check_arrivals _ I1) as I2.
  pose proof (Inv_aging_check _ I2) as I3.
  pose proof (Inv_burst_resolution _ I3) as I4.
  destruct evolves_lifecycle as (E1 & E2 & E3 & _).
  assert (Hev2 : Forall2 evolves (load input)
                   (all_processes (check_arrivals (advance_clock s)))).
  { eapply Forall2_trans; [apply evolves_trans|exact Hev|].
    exact (check_arrivals_pointwise evolves evolves_refl _ E1 I1). }
  assert (Hev3 : Forall2 evolves (load input)
                   (all_processes
                      (aging_check (check_arrivals (advance_clock s))))).
  { eapply Forall2_trans; [apply evolves_trans|exact Hev2|].
    exact (aging_check_pointwise evolves evolves_refl _ E2 I2). }
  assert (Hev4 : Forall2 evolves (load input)
                   (all_processes
                      (burst_resolution
                         (aging_check (check_arrivals (advance_clock s)))))).
  { eapply Forall2_trans; [apply evolves_trans|exact Hev3|].
    exact (burst_resolution_pointwise evolves evolves_refl _ E3 I3). }
  pose proof (tame_evolves input (current_clock s) _ Hw Hfits Hev2) as Ht2.
  pose proof (tame_evolves input (current_clock s) _ Hw Hfits Hev3) as Ht3.
  pose proof (tame_evolves input (current_clock s) _ Hw Hfits Hev4) as Ht4.
  destruct (check_arrivals_spec (advance_clock s))
    as (_ & _ & _ & _ & _ & _ & Hc2 & Hl2 & _).
  destruct (front_spec s HI) as (_ & Hr3 & Hu3 & Hc3 & _).
  unfold front in Hr3, Hu3, Hc3.
  unfold iteration_in_int.
  rewrite Hc2, Hl2, Hr3, Hu3, Hc3, burst_resolution_clock, Hc3. simpl.
  rewrite Hla.
  assert (Hlen' : in_int (Z.of_nat (length (all_processes s)))).
  { rewrite <- (Forall2_length _ _ _ Hev). unfold load.
    rewrite length_fmap. split; [|done].
    apply Z.le_trans with 0; [done|apply Nat2Z.is_nonneg]. }
  clear Hlen.
  rewrite !andb_true_iff. split; [split; [split; [split|]|]|].
  - apply int_ok_spec. unfold in_int, INT_MIN, INT_MAX in *. lia.
  - by apply int_ok_spec.
  - destruct (Z.ltb_spec (current_clock s) (current_clock s + 1)); [|lia].
    replace (current_clock s + 1 - current_clock s) with 1 by lia.
    rewrite andb_true_iff. split; [done|].
    apply forallb_forall. intros i Hi. apply list_elem_of_In in Hi.
    pose proof (lookup_of_range _ _ (inv_ready_range _ I2 i Hi)) as Hp.
    set (q := all_processes (check_arrivals (advance_clock s)) !!! i) in *.
    apply aging_in_int_one.
    + assert (Hrange : Forall timer_in_range
                         (all_processes (check_arrivals (advance_clock s)))).
      { eapply Forall2_steady_range; [|exact Htim].
        exact (check_arrivals_pointwise steady steady_refl _
                 steady_arrival I1). }
      by eapply Forall_lookup_1 in Hrange.
    + eapply Forall_lookup_1 in Ht2; [|exact Hp]. apply Ht2.
  - destruct (running_process s) as [r|] eqn:Hrun; [|done].
    destruct (Z.leb_spec (running_until s) (current_clock s + 1)) as [Hle|];
      [|done].
    pose proof (lookup_of_range _ _ (inv_running_range _ HI _ Hrun)) as Hp.
    destruct (good_on_schedule _ HG r _ Hrun Hp) as ([Hlt _] & _).
    replace (running_until s) with (current_clock s + 1) by lia.
    assert (Hrun3 : running_process
                      (aging_check (check_arrivals (advance_clock s)))
                    = Some r) by by rewrite Hr3.
    pose proof (lookup_of_range _ _ (inv_running_range _ I3 _ Hrun3)) as Hp3.
    eapply Forall_lookup_1 in Ht3; [|exact Hp3].
    by apply resolution_in_int_on_time.
  - destruct (running_process (burst_resolution _)); [done|].
    destruct (ready_queue (burst_resolution _)) as [|r rest] eqn:Hq; [done|].
    assert (Hin : r ∈ ready_queue
                        (burst_resolution
                           (aging_check (check_arrivals (advance_clock s)))))
      by (rewrite Hq; left).
    pose proof (lookup_of_range _ _ (inv_ready_range _ I4 r Hin)) as Hp4.
    eapply Forall_lookup_1 in Ht4; [|exact Hp4].
    by apply dispatch_in_int_tame.
Qed.

Lemma iterations_stay_in_int_witness :
  iteration_in_int (Nat.iter 100 round (initial_state (load scenario))) = true /\
  (forall s0 : State,
     reachable scenario s0 ->
     rtc step s0 (Nat.iter 100 round (initial_state (load scenario))) ->
     fits scenario s0 /\ iteration_in_int s0 = true).
Proof.
  apply (iterations_stay_in_int scenario).
  - repeat constructor; simpl; lia.
  - apply (reachable_rounds scenario 100).
  - fits_by_computation.
Defined.
